(** * Photo ingestion and export services: a shallow embedding

    The development follows the layout of the repository:

    - [Upload]       src/api/services/photo_upload.py    (PhotoUploadService)
    - [PhotoModel]   src/api/models/photo.py             (Photo, JobStatus)
    - [Processor]    src/api/services/photo_processor.py (PhotoProcessor)
    - [PhotoRoutes]  src/api/routes/photos.py            (upload_photo)
    - [ExportModel]  src/api/models/export.py            (ExportJob)
    - [ExportSvc]    src/api/services/export_service.py  (ExportService)
    - [ProcessingManager] src/api/services/photo_processor.py
                                                  (PhotoProcessingManager)
    - [ExportQueries] src/api/services/export_service.py (statistics, files)
    - [ExportRoutes] src/api/routes/exports.py
    - [Kml]          src/api/services/kml_generator.py   (KMLGenerator)
    - [Blob]         src/api/services/azure_blob_photo.py
                                                  (AzureBlobPhotoManager)
    - [Mongo]        src/api/services/mongo.py           (MongoPhotoService)
    - [MetadataRoutes] src/api/routes/photos.py          (metadata updates)

    Conventions.  Python [float] values are IEEE binary64 numbers
    ([PrimFloat.float]), and the arithmetic on them rounds as the hardware
    does; integers are [Z]; [bytes] is a list of bytes; [datetime] values are
    integer microsecond ticks, and the clock readings taken within one call
    are one value [now].  A Python function that may raise returns a
    [result]; a [dict] read with [.get] is a record of options.  Third-party
    libraries (hashlib, PIL, exifread, requests, the blob store, the
    operating system) are handed in as records of functions. *)

From Stdlib Require Import ZArith QArith Qpower String Ascii List Bool Sorted Lia Lqa Zpower.
From Stdlib Require Import Floats.PrimFloat Uint63.
From Stdlib Require Floats.FloatAxioms Floats.FloatOps Floats.SpecFloat OrderedTypeEx.
From stdpp Require Import base option list gmap strings.
Import ListNotations.

#[local] Set Warnings "-inexact-float".

Local Open Scope string_scope.
Local Open Scope Z_scope.

(** ** Python values shared by the services *)

Module Py.

Definition bytes := list Byte.byte.

(** [len(b)] *)
Definition len (b : bytes) : Z := Z.of_nat (length b).

(** Outcome of a call that may raise: [Raise e] is an exception [e]. *)
Inductive result (E A : Type) : Type :=
| Ok (a : A)
| Raise (e : E).
Arguments Ok {E A} a.
Arguments Raise {E A} e.

Definition bind {E A B} (r : result E A) (k : A -> result E B) : result E B :=
  match r with
  | Ok a => k a
  | Raise e => Raise e
  end.

Definition is_ok {E A} (r : result E A) : bool :=
  match r with Ok _ => true | Raise _ => false end.

Definition raises {E A} (r : result E A) : bool := negb (is_ok r).

(** [float(n)] for an integer that fits a machine word (EXIF rationals are
    32-bit). *)
Definition float_of_Z (z : Z) : float :=
  if z <? 0 then PrimFloat.opp (PrimFloat.of_uint63 (Uint63.of_Z (- z)))
  else PrimFloat.of_uint63 (Uint63.of_Z z).

(** [a / b] on two ints ([long_true_divide]): the exact quotient rounded
    once to the nearest binary64 number, ties to even; for operands below
    2^53 this is [float(a) / float(b)].  [b = 0] raises [ZeroDivisionError]
    and a quotient beyond the range of a float raises [OverflowError]: the
    first is a NaN here and the second an infinity; the one caller divides a
    count by a total it has tested to be positive. *)
Definition true_divide (a b : Z) : float :=
  FloatOps.SF2Prim
    match a, b with
    | _, 0 => SpecFloat.S754_nan
    | 0, _ => SpecFloat.S754_zero (b <? 0)
    | _, _ =>
        let '(q, e, l) :=
          SpecFloat.SFdiv_core_binary FloatOps.prec FloatOps.emax (Z.abs a) 0 (Z.abs b) 0 in
        SpecFloat.binary_round_aux FloatOps.prec FloatOps.emax (xorb (a <? 0) (b <? 0)) q e l
    end.

(** Truth value of an [Optional[float]]: [None] and zero are falsy. *)
Definition truthy_float (x : option float) : bool :=
  match x with
  | None => false
  | Some v => negb (PrimFloat.eqb v 0%float)
  end.

(** [a <= x <= b] on floats (false on NaN). *)
Definition between (a x b : float) : bool :=
  PrimFloat.leb a x && PrimFloat.leb x b.

(** *** Strings *)

Definition dot : ascii := "."%char.

Definition ascii_lower (c : ascii) : ascii :=
  let n := nat_of_ascii c in
  if (Nat.leb 65 n && Nat.leb n 90)%bool then ascii_of_nat (n + 32) else c.

(** [s.lower()] on ASCII text *)
Fixpoint lower (s : string) : string :=
  match s with
  | EmptyString => EmptyString
  | String c r => String (ascii_lower c) (lower r)
  end.

(** ['.' in s] *)
Fixpoint has_dot (s : string) : bool :=
  match s with
  | EmptyString => false
  | String c r => if Ascii.eqb c dot then true else has_dot r
  end.

(** [s.split('.')[-1]] *)
Fixpoint after_last_dot (s : string) : string :=
  match s with
  | EmptyString => EmptyString
  | String c r =>
      if has_dot r then after_last_dot r
      else if Ascii.eqb c dot then r else String c r
  end.

(** [s.lstrip('.')] *)
Fixpoint lstrip_dot (s : string) : string :=
  match s with
  | EmptyString => EmptyString
  | String c r => if Ascii.eqb c dot then lstrip_dot r else s
  end.

(** [s[:n]] *)
Definition prefix_of (n : nat) (s : string) : string := substring 0 n s.

(** Lookup in a dict written as a literal: first binding of the key. *)
Fixpoint assoc {V} (k : string) (d : list (string * V)) : option V :=
  match d with
  | [] => None
  | (k', v) :: d' => if String.eqb k k' then Some v else assoc k d'
  end.

End Py.

Export Py.

(** ** src/api/services/photo_upload.py *)

Module Upload.

(** [self.supported_formats] and [self.max_file_size] of [__init__] *)
Definition supported_formats : list (string * list string) :=
  [ ("image/jpeg", [".jpg"; ".jpeg"]);
    ("image/png", [".png"]);
    ("image/tiff", [".tiff"; ".tif"]);
    ("image/heic", [".heic"; ".heif"]);
    ("application/octet-stream", [".heic"; ".heif"]) ].

Definition max_file_size : Z := 50 * 1024 * 1024.

(** Every error below is raised as a [ValueError]; the constructor records
    which [raise] statement produced it. *)
Inductive upload_error : Type :=
| FileTooLarge (size limit : Z)
| UnsupportedType (content_type : string)
| InvalidImage (reason : string)
| LatitudeOutOfRange (latitude : float)
| LongitudeOutOfRange (longitude : float)
| NoCoordinates.

(** Records written with [logger.warning]. *)
Inductive warning : Type :=
| ExtensionMismatch (file_ext content_type : string)
| AltitudeOutsideTypicalRange (altitude : float).

Record image_info : Type := {
  width : Z;
  height : Z;
  format_name : string
}.

Record validation_result : Type := {
  valid : bool;
  vr_file_size : Z;
  dimensions : Z * Z;
  vr_format : string;
  vr_content_type : string
}.

(** A value of the GPS IFD that is neither a text nor a rational: PIL hands
    a tag of type BYTE over as [bytes], and a tag that the file stores with
    an integer type (SHORT, LONG) as an [int]. *)
Inductive ifd_value : Type :=
| IfdBytes (b : bytes)
| IfdInt (n : Z).

(** [v == 1]: a [bytes] value is equal to no [int]. *)
Definition equals_one (v : ifd_value) : bool :=
  match v with
  | IfdBytes _ => false
  | IfdInt n => n =? 1
  end.

(** The GPS IFD as PIL hands it over ([gps_data] in [_extract_exif_pil]):
    a key that is absent is [None]; a coordinate is a sequence of numbers
    already read through [float].  The EXIF standard gives [GPSAltitudeRef]
    the type BYTE, so PIL reads it from a conforming file as [bytes]. *)
Record gps_data : Type := {
  GPSLatitude : option (list float);
  GPSLatitudeRef : option string;
  GPSLongitude : option (list float);
  GPSLongitudeRef : option string;
  GPSAltitude : option float;
  GPSAltitudeRef : option ifd_value
}.

(** What [_extract_exif_pil] reads from the image besides the GPS IFD. *)
Record pil_view : Type := {
  GPSInfo : gps_data;
  Make : option string;
  Model : option string;
  pil_camera_settings : option string;
  pil_datetime : option Z
}.

(** exifread's [Ratio] and the tags [_extract_exif_exifread] consults
    (each field is the tag's [values]). *)
Record Ratio : Type := { num : Z; den : Z }.

Record exifread_tags : Type := {
  GPS_GPSLatitude : option (list Ratio);
  GPS_GPSLatitudeRef : option string;
  GPS_GPSLongitude : option (list Ratio);
  GPS_GPSLongitudeRef : option string;
  GPS_GPSAltitude : option (list Ratio);
  GPS_GPSAltitudeRef : option (list Z);
  Image_Make : option string;
  Image_Model : option string;
  tags_datetime : option Z
}.

(** The libraries the service calls.  [image_open] stands for
    [Image.open; verify; Image.open] ([inr] carries the exception text);
    [pil_getexif] and [exifread_process_file] answer [None] when they raise. *)
Record libs : Type := {
  md5_hexdigest : bytes -> string;
  image_open : bytes -> image_info + string;
  pil_getexif : bytes -> option pil_view;
  exifread_process_file : bytes -> option exifread_tags;
  strftime_compact : Z -> string
}.

(** The dict returned by the EXIF readers, read with [.get]. *)
Record exif_fields : Type := {
  latitude : option float;
  longitude : option float;
  altitude : option float;
  camera_make : option string;
  camera_model : option string;
  camera_settings : option string;
  datetime_taken : option Z
}.

(** [None] is the empty dict [{}]. *)
Definition exif_dict := option exif_fields.

Definition get {A} (d : exif_dict) (f : exif_fields -> option A) : option A :=
  match d with
  | Some r => f r
  | None => None
  end.

Section Service.

Variable L : libs.

(** [validate_file].  Only the size test, the type test and the decoder
    raise; the final [except Exception] of the method is never entered. *)
Definition file_ext_of (filename : string) : string :=
  if has_dot filename then after_last_dot (lower filename) else "".

Definition validate_file (file_content : bytes) (filename content_type : string)
  : list warning * result upload_error validation_result :=
  if len file_content >? max_file_size then
    ([], Raise (FileTooLarge (len file_content) max_file_size))
  else
    match assoc content_type supported_formats with
    | None => ([], Raise (UnsupportedType content_type))
    | Some expected_extensions =>
        let file_ext := file_ext_of filename in
        let log :=
          if existsb (fun ext => String.eqb file_ext (lstrip_dot ext)) expected_extensions
          then [] else [ExtensionMismatch file_ext content_type] in
        match image_open L file_content with
        | inr e => (log, Raise (InvalidImage e))
        | inl image =>
            (log, Ok {| valid := true;
                        vr_file_size := len file_content;
                        dimensions := (width image, height image);
                        vr_format := format_name image;
                        vr_content_type := content_type |})
        end
    end.

(** [calculate_file_hash] *)
Definition calculate_file_hash (file_content : bytes) : string :=
  md5_hexdigest L file_content.

(** [lat_deg, lat_min, lat_sec = gps_data['GPSLatitude']]: [None] when the
    unpacking raises. *)
Definition unpack3 (l : list float) : option (float * float * float) :=
  match l with
  | [d; m; s] => Some (d, m, s)
  | _ => None
  end.

Definition dms (d m s : float) : float := (d + m / 60 + s / 3600)%float.

(** One coordinate of [_parse_gps_coordinates]; the outer [option] is [None]
    when the statement raises. *)
Definition parse_axis (value : option (list float)) (ref : option string) (negative : string)
  : option (option float) :=
  match value, ref with
  | Some v, Some r =>
      match unpack3 v with
      | Some (d, m, s) =>
          let x := dms d m s in
          Some (Some (if String.eqb r negative then (- x)%float else x))
      | None => None
      end
  | _, _ => Some None
  end.

(** [gps_data.get('GPSAltitudeRef') == 1] *)
Definition below_sea_level (g : gps_data) : bool :=
  match GPSAltitudeRef g with
  | Some v => equals_one v
  | None => false
  end.

Definition parse_altitude (g : gps_data) : option float :=
  match GPSAltitude g with
  | Some a => Some (if below_sea_level g then (- a)%float else a)
  | None => None
  end.

(** [_parse_gps_coordinates]: any exception gives [(None, None, None)]. *)
Definition _parse_gps_coordinates (g : gps_data)
  : option float * option float * option float :=
  match parse_axis (GPSLatitude g) (GPSLatitudeRef g) "S",
        parse_axis (GPSLongitude g) (GPSLongitudeRef g) "W" with
  | Some lat, Some lon => (lat, lon, parse_altitude g)
  | _, _ => (None, None, None)
  end.

(** [float(r.num) / float(r.den)]; [None] on [ZeroDivisionError]. *)
Definition ratio_float (r : Ratio) : option float :=
  if den r =? 0 then None
  else Some (float_of_Z (num r) / float_of_Z (den r))%float.

(** [_convert_to_degrees]: the argument is [value.values]. *)
Definition _convert_to_degrees (values : list Ratio) : option float :=
  match values with
  | [] => None
  | _ =>
      d ← values !! 0%nat ≫= ratio_float;
      m ← values !! 1%nat ≫= ratio_float;
      s ← values !! 2%nat ≫= ratio_float;
      Some (d + (m / 60) + (s / 3600))%float
  end.

(** One coordinate of [_extract_exif_exifread]. *)
Definition exifread_axis (value : option (list Ratio)) (ref : option string) (negative : string)
  : option float :=
  match value, ref with
  | Some v, Some r =>
      let deg := _convert_to_degrees v in
      if truthy_float deg && String.eqb r negative
      then option_map PrimFloat.opp deg else deg
  | _, _ => None
  end.

(** Altitude of [_extract_exif_exifread]; outer [None] when it raises. *)
Definition exifread_altitude (t : exifread_tags) : option (option float) :=
  match GPS_GPSAltitude t with
  | None => Some None
  | Some values =>
      r ← values !! 0%nat;
      a ← ratio_float r;
      match GPS_GPSAltitudeRef t with
      | None => Some (Some a)
      | Some refs =>
          ref ← refs !! 0%nat;
          Some (Some (if ref =? 1 then (- a)%float else a))
      end
  end.

Definition _extract_exif_exifread (file_content : bytes) : exif_dict :=
  t ← exifread_process_file L file_content;
  alt ← exifread_altitude t;
  Some {| latitude := exifread_axis (GPS_GPSLatitude t) (GPS_GPSLatitudeRef t) "S";
          longitude := exifread_axis (GPS_GPSLongitude t) (GPS_GPSLongitudeRef t) "W";
          altitude := alt;
          camera_make := Image_Make t;
          camera_model := Image_Model t;
          camera_settings := None;
          datetime_taken := tags_datetime t |}.

Definition _extract_exif_pil (file_content : bytes) : exif_dict :=
  v ← pil_getexif L file_content;
  let '(lat, lon, alt) := _parse_gps_coordinates (GPSInfo v) in
  Some {| latitude := lat;
          longitude := lon;
          altitude := alt;
          camera_make := Make v;
          camera_model := Model v;
          camera_settings := pil_camera_settings v;
          datetime_taken := pil_datetime v |}.

(** [d.update(e)] where [e] comes from [_extract_exif_exifread], which has
    no ['camera_settings'] key. *)
Definition update_from_exifread (d e : exif_dict) : exif_dict :=
  match e with
  | None => d
  | Some r =>
      Some {| latitude := latitude r;
              longitude := longitude r;
              altitude := altitude r;
              camera_make := camera_make r;
              camera_model := camera_model r;
              camera_settings := get d camera_settings;
              datetime_taken := datetime_taken r |}
  end.

(** [extract_exif_data] *)
Definition extract_exif_data (file_content : bytes) : exif_dict :=
  let exif_data := _extract_exif_pil file_content in
  if negb (truthy_float (get exif_data latitude))
     || negb (truthy_float (get exif_data longitude))
  then
    let exifread_data := _extract_exif_exifread file_content in
    if negb (truthy_float (get exif_data latitude))
       && truthy_float (get exifread_data latitude)
    then update_from_exifread exif_data exifread_data
    else exif_data
  else exif_data.

(** [validate_coordinates]: the warning about an unusual altitude is logged,
    never raised. *)
Definition validate_coordinates (lat lon : float) (alt : option float)
  : list warning * result upload_error (float * float * option float) :=
  if negb (between (-90) lat 90) then ([], Raise (LatitudeOutOfRange lat))
  else if negb (between (-180) lon 180) then ([], Raise (LongitudeOutOfRange lon))
  else
    let log :=
      match alt with
      | Some a => if negb (between (-500) a 10000) then [AltitudeOutsideTypicalRange a] else []
      | None => []
      end in
    (log, Ok (lat, lon, alt)).

(** [manual_coordinates]: an optional dict from names to optional floats. *)
Definition coordinates_dict := list (string * option float).

Definition dict_get (d : coordinates_dict) (k : string) : option float :=
  match assoc k d with
  | Some v => v
  | None => None
  end.

(** [if manual_coordinates:] is true for a dict that is not empty. *)
Definition truthy_dict (d : option coordinates_dict) : bool :=
  match d with
  | Some (_ :: _) => true
  | _ => false
  end.

Inductive coordinate_source : Type := src_manual | src_exif | src_none.

(** "Determine coordinates (manual override EXIF)" of [process_upload]. *)
Definition determine_coordinates (manual_coordinates : option coordinates_dict)
    (exif_data : exif_dict)
  : option float * option float * option float * coordinate_source :=
  if truthy_dict manual_coordinates then
    let m := default [] manual_coordinates in
    (dict_get m "latitude", dict_get m "longitude", dict_get m "altitude", src_manual)
  else if truthy_float (get exif_data latitude) && truthy_float (get exif_data longitude)
  then (get exif_data latitude, get exif_data longitude, get exif_data altitude, src_exif)
  else (None, None, None, src_none).

(** The dict built by [process_upload]. *)
Record photo_data : Type := {
  pd_filename : string;
  pd_original_filename : string;
  pd_latitude : option float;
  pd_longitude : option float;
  pd_altitude : option float;
  pd_timestamp : option Z;
  pd_file_size : Z;
  pd_mime_type : string;
  pd_camera_make : option string;
  pd_camera_model : option string;
  pd_camera_settings : option string;
  pd_tags : list string;
  pd_description : option string;
  pd_uploader_id : option string;
  pd_hash_md5 : string;
  pd_processing_status : string;
  pd_coordinate_source : coordinate_source;
  pd_file_content : bytes;
  pd_validation_result : validation_result
}.

(** [process_upload]; [now] is the value of [datetime.utcnow()]. *)
Definition process_upload (now : Z) (file_content : bytes) (filename content_type : string)
    (manual_coordinates : option coordinates_dict) (tags : option (list string))
    (description uploader_id : option string)
  : result upload_error photo_data :=
  bind (validate_file file_content filename content_type).2 (fun validation_result =>
  let file_hash := calculate_file_hash file_content in
  let exif_data := extract_exif_data file_content in
  let '(lat, lon, alt, source) := determine_coordinates manual_coordinates exif_data in
  match lat, lon with
  | Some la, Some lo =>
      bind (validate_coordinates la lo alt).2 (fun _ =>
      let timestamp := now in
      let file_extension := if has_dot filename then after_last_dot filename else "jpg" in
      let unique_filename :=
        "photo_" ++ strftime_compact L timestamp ++ "_" ++ prefix_of 8 file_hash
                 ++ "." ++ file_extension in
      Ok {| pd_filename := unique_filename;
            pd_original_filename := filename;
            pd_latitude := lat;
            pd_longitude := lon;
            pd_altitude := alt;
            pd_timestamp :=
              match exif_data with
              | Some r => datetime_taken r
              | None => Some timestamp
              end;
            pd_file_size := len file_content;
            pd_mime_type := content_type;
            pd_camera_make := get exif_data camera_make;
            pd_camera_model := get exif_data camera_model;
            pd_camera_settings := get exif_data camera_settings;
            pd_tags := default [] tags;
            pd_description := description;
            pd_uploader_id := uploader_id;
            pd_hash_md5 := file_hash;
            pd_processing_status := "pending";
            pd_coordinate_source := source;
            pd_file_content := file_content;
            pd_validation_result := validation_result |})
  | _, _ => Raise NoCoordinates
  end).

End Service.

End Upload.

(** ** src/api/models/photo.py *)

Module PhotoModel.

Inductive JobStatus : Type :=
| PENDING | QUEUED | PROCESSING | COMPLETED | FAILED | CANCELLED.

#[global] Instance JobStatus_eq_dec : EqDecision JobStatus.
Proof. solve_decision. Defined.

Record Photo : Type := {
  id : string;
  filename : string;
  original_filename : string;
  blob_url : string;
  thumbnail_urls : list (string * string);
  thumbnail_url : option string;
  latitude : float;
  longitude : float;
  altitude : option float;
  timestamp : Z;
  file_size : Z;
  mime_type : string;
  camera_make : option string;
  camera_model : option string;
  camera_settings : option string;
  tags : list string;
  description : option string;
  uploader_id : option string;
  hash_md5 : string;
  processing_status : string
}.

(** The photo collection behind [DatabaseService], in insertion order. *)
Definition collection := list Photo.

(** [get_photo] *)
Definition get_photo (db : collection) (photo_id : string) : option Photo :=
  find (fun p => String.eqb (id p) photo_id) db.

(** [get_photos_by_hash] *)
Definition get_photos_by_hash (db : collection) (h : string) : list Photo :=
  List.filter (fun p => String.eqb (hash_md5 p) h) db.

(** [create_photo] (the insert itself) *)
Definition insert_one (db : collection) (p : Photo) : collection := (db ++ [p])%list.

End PhotoModel.

(** ** src/api/services/photo_processor.py *)

Module Processor.

Import Upload.

Inductive ProcessingStatus : Type :=
| PENDING | PROCESSING | COMPLETED | FAILED | RETRY.

(** [self.max_retries], [self.retry_delay] *)
Definition max_retries : Z := 3.
Definition retry_delay : Z := 5.

(** What made the [try] block of [_process_photo_job] raise. *)
Inductive pipeline_error : Type :=
| CoordinateError (e : upload_error)
| BlobUploadTimeout
| BlobUploadFailed (msg : string)
| PhotoValidationError
| DatabaseError (msg : string).

(** The job dict of [queue_photo_for_processing]. *)
Record job : Type := {
  job_id : string;
  job_photo_data : photo_data;
  status : ProcessingStatus;
  created_at : Z;
  retry_count : Z;
  error_message : option pipeline_error;
  photo_id : option string
}.

Record upload_result : Type := {
  photo_url : string;
  ur_thumbnail_urls : list (string * string)
}.

Inductive upload_outcome : Type :=
| UploadOk (r : upload_result)
| UploadTimeout
| UploadError (msg : string).

(** What the collaborators answer during one run of [_process_photo_job]:
    PIL re-encoding ([None] when it raises), the blob upload, the id pydantic
    draws for the new record and the database insert.  What the blob delete
    answers is not recorded: [_process_photo_job] swallows its exception. *)
Record attempt : Type := {
  heic_to_jpeg : bytes -> option bytes;
  optimize_large : bytes -> option bytes;
  upload : upload_outcome;
  uuid4 : string;
  create_photo_error : option string
}.

(** Calls the job makes on the outside world and on its own queue, in
    order. *)
Inductive event : Type :=
| Sleep (seconds : Z)
| BlobUpload (filename : string) (timestamp : option Z) (generate_thumbnails : bool)
| BlobDelete (filename : string) (timestamp : option Z)
| DbInsert (p : PhotoModel.Photo)
| Requeue (job_id : string).

Record world : Type := {
  queue : list job;
  store : PhotoModel.collection;
  trace : list event
}.

(** [filename.rsplit('.', 1)[0] if '.' in filename else filename] *)
Fixpoint name_without_ext (s : string) : string :=
  match s with
  | EmptyString => EmptyString
  | String c r =>
      if has_dot r then String c (name_without_ext r)
      else if Ascii.eqb c dot then EmptyString else String c r
  end.

Record conversion : Type := {
  converted : bool;
  content : bytes;
  c_mime_type : string;
  c_filename : string
}.

Definition large_file : Z := 10 * 1024 * 1024.

(** [_convert_image_format] with [_optimize_large_image]: a failure of the
    re-encoding returns the original, unconverted. *)
Definition _convert_image_format (A : attempt) (file_content : bytes)
    (mime_type filename : string) : conversion :=
  let unchanged := {| converted := false; content := file_content;
                      c_mime_type := mime_type; c_filename := filename |} in
  if negb (String.eqb mime_type "image/heic" || String.eqb mime_type "image/heif") then
    if len file_content >? large_file then
      match optimize_large A file_content with
      | Some b => {| converted := true; content := b;
                     c_mime_type := "image/jpeg"; c_filename := filename |}
      | None => unchanged
      end
    else unchanged
  else
    match heic_to_jpeg A file_content with
    | Some b => {| converted := true; content := b;
                   c_mime_type := "image/jpeg";
                   c_filename := name_without_ext filename ++ ".jpg" |}
    | None => unchanged
    end.

(** Step 1: the photo data after the conversion was written back. *)
Definition apply_conversion (A : attempt) (pd : photo_data) : photo_data :=
  let c := _convert_image_format A (pd_file_content pd) (pd_mime_type pd) (pd_filename pd) in
  if converted c then
    {| pd_filename := c_filename c;
       pd_original_filename := pd_original_filename pd;
       pd_latitude := pd_latitude pd;
       pd_longitude := pd_longitude pd;
       pd_altitude := pd_altitude pd;
       pd_timestamp := pd_timestamp pd;
       pd_file_size := pd_file_size pd;
       pd_mime_type := c_mime_type c;
       pd_camera_make := pd_camera_make pd;
       pd_camera_model := pd_camera_model pd;
       pd_camera_settings := pd_camera_settings pd;
       pd_tags := pd_tags pd;
       pd_description := pd_description pd;
       pd_uploader_id := pd_uploader_id pd;
       pd_hash_md5 := pd_hash_md5 pd;
       pd_processing_status := pd_processing_status pd;
       pd_coordinate_source := pd_coordinate_source pd;
       pd_file_content := content c;
       pd_validation_result := pd_validation_result pd |}
  else pd.

(** Step 4: [Photo(...)]; pydantic rejects a missing latitude, longitude or
    timestamp. *)
Definition make_photo (A : attempt) (pd : photo_data) (u : upload_result)
  : option PhotoModel.Photo :=
  lat ← pd_latitude pd;
  lon ← pd_longitude pd;
  ts ← pd_timestamp pd;
  Some {| PhotoModel.id := uuid4 A;
          PhotoModel.filename := pd_filename pd;
          PhotoModel.original_filename := pd_original_filename pd;
          PhotoModel.blob_url := photo_url u;
          PhotoModel.thumbnail_urls := ur_thumbnail_urls u;
          PhotoModel.thumbnail_url := assoc "medium" (ur_thumbnail_urls u);
          PhotoModel.latitude := lat;
          PhotoModel.longitude := lon;
          PhotoModel.altitude := pd_altitude pd;
          PhotoModel.timestamp := ts;
          PhotoModel.file_size := pd_file_size pd;
          PhotoModel.mime_type := pd_mime_type pd;
          PhotoModel.camera_make := pd_camera_make pd;
          PhotoModel.camera_model := pd_camera_model pd;
          PhotoModel.camera_settings := pd_camera_settings pd;
          PhotoModel.tags := pd_tags pd;
          PhotoModel.description := pd_description pd;
          PhotoModel.uploader_id := pd_uploader_id pd;
          PhotoModel.hash_md5 := pd_hash_md5 pd;
          PhotoModel.processing_status := "completed" |}.

(** The [try] block of [_process_photo_job] after step 1, on the converted
    photo data: the calls it made, and the stored photo or the exception. *)
Definition pipeline (A : attempt) (pd : photo_data)
  : list event * result pipeline_error PhotoModel.Photo :=
  let checked :=
    if truthy_float (pd_latitude pd) && truthy_float (pd_longitude pd) then
      match pd_latitude pd, pd_longitude pd with
      | Some la, Some lo =>
          match (validate_coordinates la lo (pd_altitude pd)).2 with
          | Ok _ => Ok tt
          | Raise e => Raise (CoordinateError e)
          end
      | _, _ => Ok tt
      end
    else Ok tt in
  match checked with
  | Raise e => ([], Raise e)
  | Ok _ =>
      let generate_thumbnails := len (pd_file_content pd) <? large_file in
      let up := BlobUpload (pd_filename pd) (pd_timestamp pd) generate_thumbnails in
      match upload A with
      | UploadTimeout => ([up], Raise BlobUploadTimeout)
      | UploadError msg => ([up], Raise (BlobUploadFailed msg))
      | UploadOk u =>
          match make_photo A pd u with
          | None => ([up], Raise PhotoValidationError)
          | Some photo =>
              match create_photo_error A with
              | Some msg => ([up], Raise (DatabaseError msg))
              | None => ([up; DbInsert photo], Ok photo)
              end
          end
      end
  end.

Definition set_job (j : job) (pd : photo_data) (s : ProcessingStatus) (rc : Z)
    (err : option pipeline_error) (pid : option string) : job :=
  {| job_id := job_id j; job_photo_data := pd; status := s;
     created_at := created_at j; retry_count := rc;
     error_message := err; photo_id := pid |}.

(** [_process_photo_job]: the job as it is left, and the world after it.
    The status [PROCESSING] written on entry is overwritten on every path. *)
Definition _process_photo_job (A : attempt) (j : job) (w : world) : job * world :=
  let pd := apply_conversion A (job_photo_data j) in
  match pipeline A pd with
  | (calls, Ok photo) =>
      (set_job j pd COMPLETED (retry_count j) (error_message j) (Some (PhotoModel.id photo)),
       {| queue := queue w;
          store := PhotoModel.insert_one (store w) photo;
          trace := (trace w ++ calls)%list |})
  | (calls, Raise e) =>
      let rc := retry_count j + 1 in
      if rc <? max_retries then
        let j' := set_job j pd RETRY rc (Some e) (photo_id j) in
        (j', {| queue := (queue w ++ [j'])%list;
                store := store w;
                trace := (trace w ++ calls
                            ++ [Sleep (retry_delay * rc); Requeue (job_id j)])%list |})
      else
        (set_job j pd FAILED rc (Some e) (photo_id j),
         {| queue := queue w;
            store := store w;
            trace := (trace w ++ calls ++ [BlobDelete (pd_filename pd) (pd_timestamp pd)])%list |})
  end.

(** One turn of the loop of [start_processing]: take the next job, if any. *)
Definition worker_turn (A : attempt) (w : world) : world :=
  match queue w with
  | [] => w
  | j :: rest =>
      (_process_photo_job A j {| queue := rest; store := store w; trace := trace w |}).2
  end.

(** The loop over the answers the collaborators give, one per turn. *)
Fixpoint start_processing (answers : list attempt) (w : world) : world :=
  match answers with
  | [] => w
  | A :: rest => start_processing rest (worker_turn A w)
  end.

(** [queue_photo_for_processing] *)
Definition queue_photo_for_processing (L : libs) (now : Z) (pd : photo_data) (w : world)
  : string * world :=
  let job_id := "job_" ++ strftime_compact L now ++ "_" ++ prefix_of 8 (pd_hash_md5 pd) in
  let j := {| job_id := job_id; job_photo_data := pd; status := PENDING;
              created_at := now; retry_count := 0;
              error_message := None; photo_id := None |} in
  (job_id, {| queue := (queue w ++ [j])%list; store := store w; trace := trace w |}).

End Processor.

(** ** src/api/routes/photos.py *)

Module PhotoRoutes.

Import Upload.

(** [tags.split(',')] *)
Fixpoint split_comma (s : string) : list string :=
  match s with
  | EmptyString => [EmptyString]
  | String c r =>
      if Ascii.eqb c ","%char then EmptyString :: split_comma r
      else
        match split_comma r with
        | x :: xs => String c x :: xs
        | [] => [String c EmptyString]
        end
  end.

(** [tags.split(',') if tags else None] *)
Definition parse_tags (tags : option string) : option (list string) :=
  match tags with
  | Some (String c r) => Some (split_comma (String c r))
  | _ => None
  end.

(** The application: the global processing manager's default processor (its
    queue lives in the world) and the photo collection. *)
Record app : Type := {
  processor_registered : bool;
  world : Processor.world
}.

Inductive response : Type :=
| Duplicate (photo_id existing_photo_id : string)
| Queued (job_id : string) (extracted : photo_data)
| BadRequest (e : upload_error)
| ServerError (detail : string).

(** The body shared by [upload_photo] and [upload_photo_manual_coordinates]
    once the form fields are read.  A [ValueError] becomes a 400 response;
    the 500 raised when no processor is registered is caught by the last
    handler and raised again with its own detail. *)
Definition submit (L : libs) (now : Z) (file_content : bytes)
    (filename content_type : string) (manual : option coordinates_dict)
    (tags description uploader_id : option string) (a : app) : response * app :=
  match process_upload L now file_content filename content_type manual
          (parse_tags tags) description uploader_id with
  | Raise e => (BadRequest e, a)
  | Ok photo_data =>
      match PhotoModel.get_photos_by_hash (Processor.store (world a)) (pd_hash_md5 photo_data) with
      | existing :: _ => (Duplicate (PhotoModel.id existing) (PhotoModel.id existing), a)
      | [] =>
          if processor_registered a then
            let '(job_id, w) := Processor.queue_photo_for_processing L now photo_data (world a) in
            (Queued job_id photo_data, {| processor_registered := true; world := w |})
          else (ServerError "Failed to upload photo", a)
      end
  end.

(** [upload_photo] *)
Definition upload_photo (L : libs) (now : Z) (file_content : bytes)
    (filename content_type : string) (tags description uploader_id : option string)
    (a : app) : response * app :=
  submit L now file_content filename content_type None tags description uploader_id a.

(** [upload_photo_manual_coordinates] *)
Definition upload_photo_manual_coordinates (L : libs) (now : Z) (file_content : bytes)
    (filename content_type : string) (lat lon : float) (alt : option float)
    (tags description uploader_id : option string) (a : app) : response * app :=
  submit L now file_content filename content_type
    (Some [("latitude", Some lat); ("longitude", Some lon); ("altitude", alt)])
    tags description uploader_id a.

(** A turn of the background worker between two requests. *)
Definition worker_turn (A : Processor.attempt) (a : app) : app :=
  {| processor_registered := processor_registered a;
     world := Processor.worker_turn A (world a) |}.

End PhotoRoutes.

(** ** src/api/models/export.py *)

Module ExportModel.

Inductive ExportFormat : Type := KML | KMZ | ZIP | PHOTOS_ONLY.

#[global] Instance ExportFormat_eq_dec : EqDecision ExportFormat.
Proof. solve_decision. Defined.

(** [ExportFormat.value] *)
Definition value (f : ExportFormat) : string :=
  match f with
  | KML => "kml"
  | KMZ => "kmz"
  | ZIP => "zip"
  | PHOTOS_ONLY => "photos"
  end.

Inductive CoordinateSystem : Type := WGS84.

Record ExportJob : Type := {
  id : string;
  export_type : ExportFormat;
  photo_ids : list string;
  status : PhotoModel.JobStatus;
  coordinate_system : CoordinateSystem;
  include_altitude : bool;
  include_photos_in_kmz : bool;
  include_thumbnails : bool;
  output_filename : option string;
  file_path : option string;
  file_size : option Z;
  created_at : Z;
  updated_at : Z;
  started_at : option Z;
  completed_at : option Z;
  expires_at : option Z;
  progress : float;
  total_photos : Z;
  processed_photos : Z;
  error_message : option string;
  requester_id : option string
}.

(** [timedelta(hours=24)] in microseconds *)
Definition hours_24 : Z := 24 * 3600 * 1000000.

(** [ExportJob(photo_ids=..., export_type=..., ...)] as [create_export_job]
    calls it: the defaults of the fields, then the body of [__init__].
    [uuid] is the value drawn by [uuid.uuid4()], [now] the clock and
    [fmt] the rendering of ["%Y%m%d_%H%M%S"]. *)
Definition new (uuid : string) (now : Z) (fmt : Z -> string)
    (ids : list string) (export_format : ExportFormat) (cs : CoordinateSystem)
    (alt photos thumbs : bool) (requester : option string) : ExportJob :=
  {| id := uuid;
     export_type := export_format;
     photo_ids := ids;
     status := PhotoModel.PENDING;
     coordinate_system := cs;
     include_altitude := alt;
     include_photos_in_kmz := photos;
     include_thumbnails := thumbs;
     output_filename := Some ("export_" ++ fmt now ++ "." ++ value export_format);
     file_path := None;
     file_size := None;
     created_at := now;
     updated_at := now;
     started_at := None;
     completed_at := None;
     expires_at := Some (now + hours_24);
     progress := 0%float;
     total_photos := match ids with [] => 0 | _ => Z.of_nat (length ids) end;
     processed_photos := 0;
     error_message := None;
     requester_id := requester |}.

(** Assignment to the fields the methods write. *)
Definition assign (j : ExportJob) (st : PhotoModel.JobStatus) (path : option string)
    (size : option Z) (updated : Z) (started completed : option Z)
    (prog : float) (processed : Z) (err : option string) : ExportJob :=
  {| id := id j;
     export_type := export_type j;
     photo_ids := photo_ids j;
     status := st;
     coordinate_system := coordinate_system j;
     include_altitude := include_altitude j;
     include_photos_in_kmz := include_photos_in_kmz j;
     include_thumbnails := include_thumbnails j;
     output_filename := output_filename j;
     file_path := path;
     file_size := size;
     created_at := created_at j;
     updated_at := updated;
     started_at := started;
     completed_at := completed;
     expires_at := expires_at j;
     progress := prog;
     total_photos := total_photos j;
     processed_photos := processed;
     error_message := err;
     requester_id := requester_id j |}.

(** [update_progress] *)
Definition update_progress (now : Z) (processed_count : Z) (j : ExportJob) : ExportJob :=
  assign j (status j) (file_path j) (file_size j) now (started_at j) (completed_at j)
    (if total_photos j >? 0
     then (true_divide processed_count (total_photos j) * 100)%float
     else progress j)
    processed_count (error_message j).

(** [mark_started] *)
Definition mark_started (now : Z) (j : ExportJob) : ExportJob :=
  assign j PhotoModel.PROCESSING (file_path j) (file_size j) now (Some now)
    (completed_at j) (progress j) (processed_photos j) (error_message j).

(** [mark_completed] *)
Definition mark_completed (now : Z) (path : string) (size : Z) (j : ExportJob) : ExportJob :=
  assign j PhotoModel.COMPLETED (Some path) (Some size) now (started_at j)
    (Some now) 100%float (processed_photos j) (error_message j).

(** [mark_failed] *)
Definition mark_failed (now : Z) (msg : string) (j : ExportJob) : ExportJob :=
  assign j PhotoModel.FAILED (file_path j) (file_size j) now (started_at j)
    (completed_at j) (progress j) (processed_photos j) (Some msg).

(** [is_expired]: [self.expires_at and datetime.utcnow() > self.expires_at],
    read as a truth value. *)
Definition is_expired (now : Z) (j : ExportJob) : bool :=
  match expires_at j with
  | Some e => now >? e
  | None => false
  end.

(** [job.status = "cancelled"; job.updated_at = ...] of [cancel_job] *)
Definition set_cancelled (now : Z) (j : ExportJob) : ExportJob :=
  assign j PhotoModel.CANCELLED (file_path j) (file_size j) now (started_at j)
    (completed_at j) (progress j) (processed_photos j) (error_message j).

End ExportModel.

(** ** src/api/services/export_service.py *)

Module ExportSvc.

Import ExportModel.

(** A file on disk: a text file or a ZIP archive with its entries in the
    order they were written. *)
Inductive file : Type :=
| Text (content : string)
| Archive (entries : list (string * bytes)).

Inductive log_record : Type :=
| PhotoIdNotFound (photo_id : string)
| JobNotFound (job_id : string)
| SkippedCancelled (job_id : string).

(** The service object: the active-job table, the queue of job ids, and the
    temporary files that exist on disk. *)
Record service : Type := {
  active_jobs : gmap string ExportJob;
  job_queue : list string;
  files : gmap string file;
  log : list log_record
}.

Inductive export_error : Type :=
| NoValidPhotos.

(** Exceptions of the interpreter itself. *)
Inductive exn : Type :=
| AttributeError (object attribute : string).

(** What the collaborators answer during one export: the path
    [tempfile.NamedTemporaryFile] creates for a suffix, the KML and KMZ
    generators ([None] when they raise), [requests.get] followed by
    [raise_for_status], and [os.path.getsize]. *)
Record export_env : Type := {
  named_temporary_file : string -> string;
  generate_kml : list PhotoModel.Photo -> option string;
  generate_kmz : list PhotoModel.Photo -> bool -> bool -> option (list (string * bytes));
  requests_get : string -> option bytes;
  getsize : file -> Z
}.

Definition safe_chars : string :=
  "abcdefghijklmnopqrstuvwxyzABCDEFGHIJKLMNOPQRSTUVWXYZ0123456789.-_".

Definition is_safe (c : ascii) : bool :=
  existsb (Ascii.eqb c) (list_ascii_of_string safe_chars).

Fixpoint replace_unsafe (s : string) : string :=
  match s with
  | EmptyString => EmptyString
  | String c r => String (if is_safe c then c else "_"%char) (replace_unsafe r)
  end.

(** [_make_safe_filename] *)
Definition _make_safe_filename (filename : string) : string :=
  match replace_unsafe filename with
  | EmptyString => "photo.jpg"
  | s => s
  end.

(** [_validate_photo_ids]: the ids that resolve, and the warnings logged. *)
Fixpoint _validate_photo_ids (db : PhotoModel.collection) (ids : list string)
  : list string * list log_record :=
  match ids with
  | [] => ([], [])
  | photo_id :: rest =>
      let '(valid_ids, warnings) := _validate_photo_ids db rest in
      match PhotoModel.get_photo db photo_id with
      | Some _ => (photo_id :: valid_ids, warnings)
      | None => (valid_ids, PhotoIdNotFound photo_id :: warnings)
      end
  end.

(** [create_export_job] *)
Definition create_export_job (db : PhotoModel.collection) (fmt : Z -> string)
    (now : Z) (uuid : string) (ids : list string) (export_format : ExportFormat)
    (cs : CoordinateSystem) (alt photos thumbs : bool) (requester : option string)
    (s : service) : result export_error ExportJob * service :=
  let '(valid_photo_ids, warnings) := _validate_photo_ids db ids in
  match valid_photo_ids with
  | [] =>
      (Raise NoValidPhotos,
       {| active_jobs := active_jobs s; job_queue := job_queue s;
          files := files s; log := (log s ++ warnings)%list |})
  | _ =>
      let export_job :=
        ExportModel.new uuid now fmt valid_photo_ids export_format cs alt photos thumbs requester in
      (Ok export_job,
       {| active_jobs := <[id export_job := export_job]> (active_jobs s);
          job_queue := (job_queue s ++ [id export_job])%list;
          files := files s;
          log := (log s ++ warnings)%list |})
  end.

(** [get_job_status] *)
Definition get_job_status (s : service) (job_id : string) : option ExportJob :=
  active_jobs s !! job_id.

(** [job.status in ["pending", "queued", "processing"]] *)
Definition cancellable (st : PhotoModel.JobStatus) : bool :=
  match st with
  | PhotoModel.PENDING | PhotoModel.QUEUED | PhotoModel.PROCESSING => true
  | _ => false
  end.

(** [cancel_job] *)
Definition cancel_job (now : Z) (job_id : string) (s : service) : bool * service :=
  match active_jobs s !! job_id with
  | None => (false, s)
  | Some job =>
      if cancellable (status job) then
        (true,
         {| active_jobs := <[job_id := set_cancelled now job]> (active_jobs s);
            job_queue := job_queue s; files := files s; log := log s |})
      else (false, s)
  end.

(** The ids collected by the first loop of [cleanup_expired_jobs]. *)
Definition expired_jobs (now : Z) (s : service) : list string :=
  (map_to_list (filter (fun kv => is_expired now kv.2 = true) (active_jobs s))).*1.

(** The body of the second loop: [os.remove] when the job names a file that
    exists ([remove_raises] tells when the call raises, which is logged and
    swallowed), then [del self.active_jobs[job_id]].  The ids come from the
    table, so the lookup finds the job. *)
Definition cleanup_one (remove_raises : string -> bool) (s : service) (job_id : string)
  : service :=
  match active_jobs s !! job_id with
  | None => s
  | Some job =>
      let files' :=
        match file_path job with
        | Some path =>
            if negb (String.eqb path "") && bool_decide (is_Some (files s !! path))
            then if remove_raises path then files s else delete path (files s)
            else files s
        | None => files s
        end in
      {| active_jobs := delete job_id (active_jobs s);
         job_queue := job_queue s; files := files'; log := log s |}
  end.

(** [cleanup_expired_jobs] *)
Definition cleanup_expired_jobs (remove_raises : string -> bool) (now : Z) (s : service)
  : service :=
  foldl (cleanup_one remove_raises) s (expired_jobs now s).

(** [_get_photos_for_export] *)
Fixpoint _get_photos_for_export (db : PhotoModel.collection) (ids : list string)
  : list PhotoModel.Photo :=
  match ids with
  | [] => []
  | photo_id :: rest =>
      match PhotoModel.get_photo db photo_id with
      | Some photo => photo :: _get_photos_for_export db rest
      | None => _get_photos_for_export db rest
      end
  end.

(** [_add_photos_to_zip]: [i] is the index of [enumerate]; a photo whose
    download raises is skipped. *)
Fixpoint _add_photos_to_zip (E : export_env) (now : Z) (photos : list PhotoModel.Photo)
    (i : Z) (zip : list (string * bytes)) (job : ExportJob)
  : list (string * bytes) * ExportJob :=
  match photos with
  | [] => (zip, job)
  | photo :: rest =>
      match requests_get E (PhotoModel.blob_url photo) with
      | Some content =>
          let safe_filename := _make_safe_filename (PhotoModel.original_filename photo) in
          _add_photos_to_zip E now rest (i + 1)
            (zip ++ [(safe_filename, content)])%list
            (update_progress now (i + 1) job)
      | None => _add_photos_to_zip E now rest (i + 1) zip job
      end
  end.

(** [_upload_export_file]: its second statement reads
    [self.export_directory], an attribute that [__init__] never sets and no
    class defines, so it raises before anything is uploaded; the [except]
    clause re-raises. *)
Definition _upload_export_file (job : ExportJob) (path : string) : result exn string :=
  Raise (AttributeError "ExportService" "export_directory").

(** [_generate_kml_export] *)
Definition _generate_kml_export (E : export_env) (now : Z) (job : ExportJob)
    (photos : list PhotoModel.Photo) (fs : gmap string file) : ExportJob * gmap string file :=
  let temp_file := named_temporary_file E ".kml" in
  match generate_kml E photos with
  | None => (mark_failed now "KML export failed" job, <[temp_file := Text ""]> fs)
  | Some kml_content =>
      (mark_completed now temp_file (getsize E (Text kml_content)) job,
       <[temp_file := Text kml_content]> fs)
  end.

(** [_generate_kmz_export] *)
Definition _generate_kmz_export (E : export_env) (now : Z) (job : ExportJob)
    (photos : list PhotoModel.Photo) (fs : gmap string file) : ExportJob * gmap string file :=
  let temp_file := named_temporary_file E ".kmz" in
  match generate_kmz E photos (include_photos_in_kmz job) (include_thumbnails job) with
  | None => (mark_failed now "KMZ export failed" job, <[temp_file := Text ""]> fs)
  | Some entries =>
      (mark_completed now temp_file (getsize E (Archive entries)) job,
       <[temp_file := Archive entries]> fs)
  end.

(** [_generate_zip_export] *)
Definition _generate_zip_export (E : export_env) (now : Z) (job : ExportJob)
    (photos : list PhotoModel.Photo) (fs : gmap string file) : ExportJob * gmap string file :=
  let temp_file := named_temporary_file E ".zip" in
  match generate_kml E photos with
  | None => (mark_failed now "ZIP export failed" job, <[temp_file := Text ""]> fs)
  | Some kml_content =>
      let zip0 := [("photos.kml", list_byte_of_string kml_content)] in
      let '(zip, job1) :=
        if include_photos_in_kmz job
        then _add_photos_to_zip E now photos 0 zip0 job
        else (zip0, job) in
      (mark_completed now temp_file (getsize E (Archive zip)) job1,
       <[temp_file := Archive zip]> fs)
  end.

(** [_generate_photos_export]: [os.unlink] follows an upload that
    returned. *)
Definition _generate_photos_export (E : export_env) (now : Z) (job : ExportJob)
    (photos : list PhotoModel.Photo) (fs : gmap string file) : ExportJob * gmap string file :=
  let temp_file := named_temporary_file E ".zip" in
  let '(zip, job1) := _add_photos_to_zip E now photos 0 [] job in
  let fs1 := <[temp_file := Archive zip]> fs in
  match _upload_export_file job1 temp_file with
  | Ok _ => (job1, delete temp_file fs1)
  | Raise _ => (mark_failed now "Photos export failed" job1, fs1)
  end.

(** [_process_export_job] *)
Definition _process_export_job (E : export_env) (now : Z) (db : PhotoModel.collection)
    (job : ExportJob) (fs : gmap string file) : ExportJob * gmap string file :=
  let job := mark_started now job in
  match _get_photos_for_export db (photo_ids job) with
  | [] => (mark_failed now "No photos found for export" job, fs)
  | photos =>
      match export_type job with
      | KML => _generate_kml_export E now job photos fs
      | KMZ => _generate_kmz_export E now job photos fs
      | ZIP => _generate_zip_export E now job photos fs
      | PHOTOS_ONLY => _generate_photos_export E now job photos fs
      end
  end.

(** One pass through the loop of [_process_job_queue]: nothing to do on an
    empty queue; a job that is missing or cancelled is skipped. *)
Definition process_next (E : export_env) (now : Z) (db : PhotoModel.collection)
    (s : service) : service :=
  match job_queue s with
  | [] => s
  | job_id :: rest =>
      match active_jobs s !! job_id with
      | None =>
          {| active_jobs := active_jobs s; job_queue := rest; files := files s;
             log := (log s ++ [JobNotFound job_id])%list |}
      | Some job =>
          if bool_decide (status job = PhotoModel.CANCELLED) then
            {| active_jobs := active_jobs s; job_queue := rest; files := files s;
               log := (log s ++ [SkippedCancelled job_id])%list |}
          else
            let '(job', fs) := _process_export_job E now db job (files s) in
            {| active_jobs := <[job_id := job']> (active_jobs s);
               job_queue := rest; files := fs; log := log s |}
      end
  end.

(** [ExportService.__init__]: no jobs, an empty queue. *)
Definition init : service :=
  {| active_jobs := ∅; job_queue := []; files := ∅; log := [] |}.

End ExportSvc.

(** ** src/api/services/photo_processor.py: the processing manager *)

Module ProcessingManager.

(** [PhotoProcessingManager]: the processors by name and the default one.
    A processor is what [PhotoProcessor(...)] built. *)
Record PhotoProcessingManager (P : Type) : Type := {
  processors : gmap string P;
  default_processor : option P
}.
Arguments processors {P} _.
Arguments default_processor {P} _.

(** [PhotoProcessingManager.__init__] *)
Definition new_manager {P} : PhotoProcessingManager P :=
  {| processors := ∅; default_processor := None |}.

(** [register_processor]; [processor] is the object the call builds. *)
Definition register_processor {P} (name : string) (processor : P)
    (m : PhotoProcessingManager P) : PhotoProcessingManager P :=
  {| processors := <[name := processor]> (processors m);
     default_processor :=
       match default_processor m with
       | None => Some processor
       | Some d => Some d
       end |}.

(** [get_processor]: [if name:] is false for [None] and for the empty
    string. *)
Definition get_processor {P} (name : option string) (m : PhotoProcessingManager P)
  : option P :=
  match name with
  | Some (String c r) => processors m !! String c r
  | _ => default_processor m
  end.

End ProcessingManager.

(** ** src/api/services/export_service.py: the read-only methods *)

Module ExportQueries.

Import ExportModel ExportSvc.

(** [get_content_type] *)
Definition get_content_type (export_format : ExportFormat) : string :=
  match export_format with
  | KML => "application/vnd.google-earth.kml+xml"
  | KMZ => "application/vnd.google-earth.kmz"
  | ZIP => "application/zip"
  | PHOTOS_ONLY => "application/zip"
  end.

(** [self.active_jobs.values()] *)
Definition values (s : service) : list ExportJob := (map_to_list (active_jobs s)).*2.

(** [get_active_jobs_count] *)
Definition get_active_jobs_count (s : service) : Z :=
  foldl (fun active_count job =>
           if cancellable (status job) then active_count + 1 else active_count)
        0 (values s).

(** The dict [stats] of [get_job_statistics]. *)
Record statistics : Type := {
  total_jobs : Z;
  pending : Z;
  queued : Z;
  processing : Z;
  completed : Z;
  failed : Z;
  cancelled : Z
}.

(** [stats[job.status] += 1] *)
Definition increment (stats : statistics) (st : PhotoModel.JobStatus) : statistics :=
  let bump (key : PhotoModel.JobStatus) (n : Z) := if decide (st = key) then n + 1 else n in
  {| total_jobs := total_jobs stats;
     pending := bump PhotoModel.PENDING (pending stats);
     queued := bump PhotoModel.QUEUED (queued stats);
     processing := bump PhotoModel.PROCESSING (processing stats);
     completed := bump PhotoModel.COMPLETED (completed stats);
     failed := bump PhotoModel.FAILED (failed stats);
     cancelled := bump PhotoModel.CANCELLED (cancelled stats) |}.

(** [get_job_statistics]: every status is one of the six keys. *)
Definition get_job_statistics (s : service) : statistics :=
  foldl (fun stats job => increment stats (status job))
        {| total_jobs := Z.of_nat (size (active_jobs s));
           pending := 0; queued := 0; processing := 0;
           completed := 0; failed := 0; cancelled := 0 |}
        (values s).

(** Exceptions of the interpreter raised by a name that is not bound. *)
Inductive name_error : Type :=
| NameError (name : string).

(** [get_export_file]: the module imports [ExportJob], [ExportFormat] and
    [CoordinateSystem] from [models.export] and never binds [JobStatus], so
    the comparison of the status raises as soon as the job is found; the
    statements after it are never run. *)
Definition get_export_file (s : service) (job_id : string)
  : result name_error (option string) :=
  match active_jobs s !! job_id with
  | None => Ok None
  | Some job => Raise (NameError "JobStatus")
  end.

End ExportQueries.

(** ** src/api/routes/exports.py *)

Module ExportRoutes.

Import ExportModel ExportSvc ExportQueries.

(** What the [try] block of [create_photo_export] can raise besides an
    [HTTPException]. *)
Inductive creation_exception : Type :=
| ServiceError (e : export_error)
| MinuteOutOfRange (minute : Z).

(** [HTTPException]; the constructor records which [raise] produced it. *)
Inductive http_error : Type :=
| NoPhotoIds
| TooManyPhotos
| CreationFailed (e : creation_exception)
| ExportJobNotFound
| NotCompleted (st : PhotoModel.JobStatus)
| Expired
| FileNotAvailable
| DownloadFailed.

Definition status_code (e : http_error) : Z :=
  match e with
  | NoPhotoIds | TooManyPhotos | NotCompleted _ => 400
  | ExportJobNotFound => 404
  | Expired => 410
  | CreationFailed _ | FileNotAvailable | DownloadFailed => 500
  end.

Record ExportRequest : Type := {
  req_photo_ids : list string;
  req_export_type : ExportFormat;
  req_coordinate_system : CoordinateSystem;
  req_include_altitude : bool;
  req_include_photos_in_kmz : bool;
  req_include_thumbnails : bool;
  req_requester_id : option string
}.

Record ExportResponse : Type := {
  er_job_id : string;
  er_status : PhotoModel.JobStatus;
  er_message : string;
  er_estimated_completion : option Z
}.

(** A call of [background_tasks.add_task(_schedule_cleanup, ...)]. *)
Record background_task : Type := {
  task_job_id : string;
  delay_hours : Z
}.

(** [datetime.minute]; ticks are counted from an instant on the hour. *)
Definition minute (t : Z) : Z := (t / 60000000) mod 60.

(** [datetime.replace(minute=m)]: [None] stands for the [ValueError] raised
    unless [0 <= m <= 59]. *)
Definition replace_minute (t m : Z) : option Z :=
  if (0 <=? m) && (m <=? 59) then Some (t + (m - minute t) * 60000000) else None.

(** [create_photo_export]: the answer, the tasks added to
    [background_tasks], and the service afterwards. *)
Definition create_photo_export (db : PhotoModel.collection) (fmt : Z -> string) (now : Z)
    (uuid : string) (request : ExportRequest) (s : service)
  : result http_error ExportResponse * list background_task * service :=
  match req_photo_ids request with
  | [] => (Raise NoPhotoIds, [], s)
  | _ =>
      if Z.of_nat (length (req_photo_ids request)) >? 1000 then (Raise TooManyPhotos, [], s)
      else
        match create_export_job db fmt now uuid (req_photo_ids request)
                (req_export_type request) (req_coordinate_system request)
                (req_include_altitude request) (req_include_photos_in_kmz request)
                (req_include_thumbnails request) (req_requester_id request) s with
        | (Raise e, s') => (Raise (CreationFailed (ServiceError e)), [], s')
        | (Ok job, s') =>
            let tasks := [{| task_job_id := id job; delay_hours := 25 |}] in
            match replace_minute (created_at job) (minute (created_at job) + 5) with
            | None =>
                (Raise (CreationFailed (MinuteOutOfRange (minute (created_at job) + 5))),
                 tasks, s')
            | Some estimate =>
                (Ok {| er_job_id := id job;
                       er_status := status job;
                       er_message :=
                         "Export job created successfully. Processing will begin shortly.";
                       er_estimated_completion := Some estimate |},
                 tasks, s')
            end
        end
  end.

(** [create_kml_export]: the [BackgroundTasks()] it hands over is dropped
    when the call returns. *)
Definition create_kml_export (db : PhotoModel.collection) (fmt : Z -> string) (now : Z)
    (uuid : string) (photo_ids : list string) (cs : CoordinateSystem)
    (include_altitude : bool) (requester_id : option string) (s : service)
  : result http_error ExportResponse * service :=
  let request := {| req_photo_ids := photo_ids; req_export_type := KML;
                    req_coordinate_system := cs; req_include_altitude := include_altitude;
                    req_include_photos_in_kmz := true; req_include_thumbnails := true;
                    req_requester_id := requester_id |} in
  let '(answer, _, s') := create_photo_export db fmt now uuid request s in
  (answer, s').

(** [create_kmz_export] *)
Definition create_kmz_export (db : PhotoModel.collection) (fmt : Z -> string) (now : Z)
    (uuid : string) (photo_ids : list string) (cs : CoordinateSystem)
    (include_altitude include_photos include_thumbnails : bool)
    (requester_id : option string) (s : service)
  : result http_error ExportResponse * service :=
  let request := {| req_photo_ids := photo_ids; req_export_type := KMZ;
                    req_coordinate_system := cs; req_include_altitude := include_altitude;
                    req_include_photos_in_kmz := include_photos;
                    req_include_thumbnails := include_thumbnails;
                    req_requester_id := requester_id |} in
  let '(answer, _, s') := create_photo_export db fmt now uuid request s in
  (answer, s').

Record ExportStatusResponse : Type := {
  esr_job_id : string;
  esr_status : PhotoModel.JobStatus;
  esr_progress : float;
  esr_total_photos : Z;
  esr_processed_photos : Z;
  esr_created_at : Z;
  esr_updated_at : Z;
  esr_started_at : option Z;
  esr_completed_at : option Z;
  esr_expires_at : option Z;
  esr_download_url : option string;
  esr_file_size : option Z;
  esr_error_message : option string
}.

(** [get_export_status] *)
Definition get_export_status (job_id : string) (s : service)
  : result http_error ExportStatusResponse :=
  match get_job_status s job_id with
  | None => Raise ExportJobNotFound
  | Some job =>
      Ok {| esr_job_id := id job;
            esr_status := status job;
            esr_progress := progress job;
            esr_total_photos := total_photos job;
            esr_processed_photos := processed_photos job;
            esr_created_at := created_at job;
            esr_updated_at := updated_at job;
            esr_started_at := started_at job;
            esr_completed_at := completed_at job;
            esr_expires_at := expires_at job;
            esr_download_url :=
              if bool_decide (status job = PhotoModel.COMPLETED)
              then Some ("/api/exports/" ++ id job ++ "/download") else None;
            esr_file_size := file_size job;
            esr_error_message := error_message job |}
  end.

(** [FileResponse(path=..., filename=..., media_type=...)] *)
Record FileResponse : Type := {
  path : string;
  filename : string;
  media_type : string
}.

(** [content_type_map.get(job.export_type.value, "application/octet-stream")] *)
Definition content_type_map : list (string * string) :=
  [ ("kml", "application/vnd.google-earth.kml+xml");
    ("kmz", "application/vnd.google-earth.kmz");
    ("zip", "application/zip");
    ("photos", "application/zip") ].

(** [download_export_file]: an exception of [get_export_file] is caught by the
    last handler. *)
Definition download_export_file (now : Z) (job_id : string) (s : service)
  : result http_error FileResponse :=
  match get_job_status s job_id with
  | None => Raise ExportJobNotFound
  | Some job =>
      if negb (bool_decide (status job = PhotoModel.COMPLETED))
      then Raise (NotCompleted (status job))
      else if is_expired now job then Raise Expired
      else
        match get_export_file s job_id with
        | Raise _ => Raise DownloadFailed
        | Ok None => Raise FileNotAvailable
        | Ok (Some file_path) =>
            Ok {| path := file_path;
                  filename :=
                    match output_filename job with
                    | Some (String c r) => String c r
                    | _ => "export_" ++ id job ++ "." ++ value (export_type job)
                    end;
                  media_type :=
                    default "application/octet-stream"
                      (assoc (value (export_type job)) content_type_map) |}
        end
  end.

End ExportRoutes.

(** ** src/api/services/kml_generator.py *)

Module Kml.

(** The dict [groups] of [_group_photos_by_date], in insertion order. *)
Abbreviation groups := (list (string * list PhotoModel.Photo)).

Section KMLGenerator.

(** [photo.timestamp.strftime('%Y-%m-%d')] *)
Variable strftime_date : Z -> string.

(** [groups[date_str].append(photo)], after the key was added if it was
    missing. *)
Fixpoint append_to (g : groups) (date_str : string) (photo : PhotoModel.Photo) : groups :=
  match g with
  | [] => [(date_str, [photo])]
  | (k, photos) :: rest =>
      if String.eqb k date_str then (k, (photos ++ [photo])%list) :: rest
      else (k, photos) :: append_to rest date_str photo
  end.

(** [sorted(groups.items())]: the keys of a dict are distinct, so two items
    are ordered by their keys. *)
Fixpoint insert_item (item : string * list PhotoModel.Photo) (l : groups) : groups :=
  match l with
  | [] => [item]
  | x :: rest =>
      if String.leb item.1 x.1 then item :: x :: rest else x :: insert_item item rest
  end.

Definition sorted (g : groups) : groups := foldr insert_item [] g.

(** [_group_photos_by_date] *)
Definition _group_photos_by_date (photos : list PhotoModel.Photo) : groups :=
  sorted (foldl (fun g photo => append_to g (strftime_date (PhotoModel.timestamp photo)) photo)
            [] photos).

End KMLGenerator.

End Kml.

(** ** src/api/services/azure_blob_photo.py *)

Module Blob.

(** The container: the blobs by path. *)
Abbreviation container := (gmap string bytes).

(** What the collaborators answer: [strftime] for the two formats used,
    [os.path.splitext], the URL of a blob client, PIL ([open_image] is the
    part of [_generate_thumbnails] before its loop, [make_thumbnail] one
    turn of the loop; [false] and [None] stand for a raise), and whether
    [upload_blob] or [delete_blob] raises for a path.  [delete_blob] on a
    path without a blob raises [ResourceNotFoundError]. *)
Record blob_env : Type := {
  strftime_Y : Z -> string;
  strftime_m : Z -> string;
  splitext : string -> string * string;
  url : string -> string;
  open_image : bytes -> bool;
  make_thumbnail : bytes -> Z * Z -> option bytes;
  upload_blob_raises : string -> bool;
  delete_blob_raises : string -> bool
}.

(** [self.thumbnail_sizes] *)
Definition thumbnail_sizes : list (string * (Z * Z)) :=
  [("small", (150, 150)); ("medium", (300, 300)); ("large", (800, 600))].

Record upload_result : Type := {
  photo_url : string;
  photo_blob_path : string;
  thumbnail_urls : list (string * string);
  upload_success : bool
}.

Inductive blob_error : Type :=
| AttributeError (attribute : string)
| UploadFailed (blob_path : string).

Section Manager.

Variable E : blob_env.

(** [_get_photo_blob_path] *)
Definition _get_photo_blob_path (filename : string) (timestamp : Z) : string :=
  "uploads/" ++ strftime_Y E timestamp ++ "/" ++ strftime_m E timestamp ++ "/" ++ filename.

(** [_get_thumbnail_blob_path] *)
Definition _get_thumbnail_blob_path (filename : string) (timestamp : Z) (size : string)
  : string :=
  "uploads/" ++ strftime_Y E timestamp ++ "/" ++ strftime_m E timestamp
    ++ "/thumbnails/" ++ size ++ "_" ++ (splitext E filename).1 ++ ".jpg".

(** [_generate_thumbnails]: a size whose thumbnail cannot be made is
    skipped; a failure before the loop gives the empty dict. *)
Definition _generate_thumbnails (file_content : bytes) : list (string * bytes) :=
  if open_image E file_content then
    omap (fun size => data ← make_thumbnail E file_content size.2; Some (size.1, data))
      thumbnail_sizes
  else [].

(** One [try] of [delete_photo_and_thumbnails]: the success flag and the
    container afterwards. *)
Definition delete_one (blob_path : string) (acc : bool * container) : bool * container :=
  if delete_blob_raises E blob_path then (false, acc.2)
  else
    match acc.2 !! blob_path with
    | None => acc
    | Some _ => (acc.1, delete blob_path acc.2)
    end.

(** The paths [delete_photo_and_thumbnails] goes through, in order. *)
Definition blob_paths (filename : string) (timestamp : Z) : list string :=
  _get_photo_blob_path filename timestamp
    :: List.map (fun size => _get_thumbnail_blob_path filename timestamp size.1)
         thumbnail_sizes.

(** [delete_photo_and_thumbnails]; a timestamp that is [None] makes the
    first statement of the outer [try] raise, which returns [False]. *)
Definition delete_photo_and_thumbnails (filename : string) (timestamp : option Z)
    (c : container) : bool * container :=
  match timestamp with
  | None => (false, c)
  | Some ts => foldl (fun acc blob_path => delete_one blob_path acc) (true, c)
                 (blob_paths filename ts)
  end.

(** The loop over the thumbnails inside the inner [try]: it stops at the
    first upload that raises. *)
Fixpoint upload_thumbnails (filename : string) (timestamp : Z)
    (thumbnails : list (string * bytes)) (urls : list (string * string)) (c : container)
  : list (string * string) * container :=
  match thumbnails with
  | [] => (urls, c)
  | (size, thumbnail_data) :: rest =>
      let thumbnail_blob_path := _get_thumbnail_blob_path filename timestamp size in
      if upload_blob_raises E thumbnail_blob_path then (urls, c)
      else upload_thumbnails filename timestamp rest
             (urls ++ [(size, url E thumbnail_blob_path)])%list
             (<[thumbnail_blob_path := thumbnail_data]> c)
  end.

(** [upload_photo_with_thumbnail] *)
Definition upload_photo_with_thumbnail (file_content : bytes) (filename : string)
    (timestamp : option Z) (content_type : string) (generate_thumbnails : bool)
    (c : container) : result blob_error upload_result * container :=
  match timestamp with
  | None => (Raise (AttributeError "strftime"),
             (delete_photo_and_thumbnails filename timestamp c).2)
  | Some ts =>
      let photo_blob_path := _get_photo_blob_path filename ts in
      if upload_blob_raises E photo_blob_path then
        (Raise (UploadFailed photo_blob_path),
         (delete_photo_and_thumbnails filename timestamp c).2)
      else
        let c1 := <[photo_blob_path := file_content]> c in
        let '(urls, c2) :=
          if generate_thumbnails
          then upload_thumbnails filename ts (_generate_thumbnails file_content) [] c1
          else ([], c1) in
        (Ok {| photo_url := url E photo_blob_path;
               photo_blob_path := photo_blob_path;
               thumbnail_urls := urls;
               upload_success := true |}, c2)
  end.

End Manager.

End Blob.

(** ** src/api/services/database.py and src/api/services/mongo.py *)

Module Mongo.

(** [PhotoFilters]: [tags] is the list left by [tags or []]. *)
Record PhotoFilters : Type := {
  start_date : option Z;
  end_date : option Z;
  tags : list string;
  min_lat : option float;
  max_lat : option float;
  min_lng : option float;
  max_lng : option float;
  uploader_id : option string;
  limit : option Z;
  offset : option Z
}.

(** The query dict: a key that is absent is [None].  [q_timestamp] holds
    the ["$gte"] and ["$lte"] bounds, [q_tags] the list under ["$in"],
    [q_location] the two corners of the ["$box"], each as (longitude,
    latitude). *)
Record query : Type := {
  q_timestamp : option (option Z * option Z);
  q_tags : option (list string);
  q_location : option ((float * float) * (float * float));
  q_uploader_id : option string
}.

Definition empty_query : query :=
  {| q_timestamp := None; q_tags := None; q_location := None; q_uploader_id := None |}.

(** Truth value of an [Optional[str]]. *)
Definition truthy_string (s : option string) : bool :=
  match s with
  | Some (String _ _) => true
  | _ => false
  end.

(** [_build_query]; a [datetime] is always true. *)
Definition _build_query (filters : option PhotoFilters) : query :=
  match filters with
  | None => empty_query
  | Some f =>
      {| q_timestamp :=
           if bool_decide (is_Some (start_date f)) || bool_decide (is_Some (end_date f))
           then Some (start_date f, end_date f) else None;
         q_tags := match tags f with [] => None | t => Some t end;
         q_location :=
           if forallb truthy_float [min_lat f; max_lat f; min_lng f; max_lng f] then
             match min_lat f, max_lat f, min_lng f, max_lng f with
             | Some a, Some b, Some c, Some d => Some ((c, a), (d, b))
             | _, _, _, _ => None
             end
           else None;
         q_uploader_id := if truthy_string (uploader_id f) then uploader_id f else None |}
  end.

(** The query of [get_photos_in_bounds]. *)
Definition bounds_query (min_lat max_lat min_lng max_lng : float) : query :=
  {| q_timestamp := None; q_tags := None;
     q_location := Some ((min_lng, min_lat), (max_lng, max_lat));
     q_uploader_id := None |}.

End Mongo.

(** ** src/api/routes/photos.py: metadata updates *)

Module MetadataRoutes.

(** The dict [updates]: a key that was not set is [None]. *)
Record updates : Type := {
  u_tags : option (list string);
  u_description : option string
}.

(** [HTTPException]; the constructor records which [raise] produced it. *)
Inductive http_error : Type :=
| NoUpdatesProvided
| PhotoNotFound
| UpdateFailed
| BatchUpdateFailed.

Definition status_code (e : http_error) : Z :=
  match e with
  | NoUpdatesProvided => 400
  | PhotoNotFound => 404
  | UpdateFailed | BatchUpdateFailed => 500
  end.

Record batch_response : Type := {
  updated_count : Z;
  total_count : Z
}.

Section Routes.

(** [photo_service.update_photo]: [None] when it raises. *)
Variable update_photo : string -> updates -> option bool.

(** [not updates] *)
Definition empty (u : updates) : bool :=
  match u_tags u, u_description u with
  | None, None => true
  | _, _ => false
  end.

(** [update_photo_metadata]: the answer and the ids handed to
    [update_photo].  The [HTTPException]s pass through the first handler. *)
Definition update_photo_metadata (photo_id : string) (tags : option (list string))
    (description : option string) : result http_error string * list string :=
  let u := {| u_tags := tags; u_description := description |} in
  if empty u then (Raise NoUpdatesProvided, [])
  else
    match update_photo photo_id u with
    | None => (Raise UpdateFailed, [photo_id])
    | Some false => (Raise PhotoNotFound, [photo_id])
    | Some true => (Ok "Photo metadata updated successfully", [photo_id])
    end.

(** The loop of [update_batch_metadata]: [None] when a call raises. *)
Fixpoint update_all (u : updates) (photo_ids : list string) (count : Z) (calls : list string)
  : option Z * list string :=
  match photo_ids with
  | [] => (Some count, calls)
  | photo_id :: rest =>
      match update_photo photo_id u with
      | None => (None, (calls ++ [photo_id])%list)
      | Some success =>
          update_all u rest (if success then count + 1 else count) (calls ++ [photo_id])%list
      end
  end.

(** [update_batch_metadata]: its only handler is [except Exception], which
    also catches the [HTTPException] raised in the [try] block. *)
Definition update_batch_metadata (photo_ids : list string) (tags : option (list string))
    (description : option string) : result http_error batch_response * list string :=
  let u := {| u_tags := tags; u_description := description |} in
  if empty u then (Raise BatchUpdateFailed, [])
  else
    match update_all u photo_ids 0 [] with
    | (None, calls) => (Raise BatchUpdateFailed, calls)
    | (Some count, calls) =>
        (Ok {| updated_count := count; total_count := Z.of_nat (length photo_ids) |}, calls)
    end.

End Routes.

End MetadataRoutes.

(** * Properties *)

(** ** Binary64 arithmetic

    The operations of [PrimFloat] are specified by those of [SpecFloat]
    ([FloatAxioms]).  This module relates the rounding they perform to the
    rational numbers: [rounds x m e] says that the number [m * 2^e] of the
    binary64 grid is [x] rounded to nearest, ties to even. *)

Module Binary64.

Import SpecFloat FloatOps FloatAxioms.

Definition pow2 (e : Z) : Q := (2 ^ e)%Q.

Lemma pow2_pos (e : Z) : (0 < pow2 e)%Q.
Proof. apply Qpower_0_lt. reflexivity. Qed.

Lemma pow2_add (a b : Z) : (pow2 (a + b) == pow2 a * pow2 b)%Q.
Proof. apply Qpower_plus. intros H. discriminate H. Qed.

Lemma pow2_succ (e : Z) : (pow2 (e + 1) == 2 * pow2 e)%Q.
Proof. rewrite pow2_add. change (pow2 1) with 2%Q. ring. Qed.

Lemma pow2_le (a b : Z) : a <= b -> (pow2 a <= pow2 b)%Q.
Proof. intros H. apply Qpower_le_compat_l; [ exact H | discriminate ]. Qed.

Lemma pow2_lt (a b : Z) : a < b -> (pow2 a < pow2 b)%Q.
Proof. intros H. apply Qpower_lt_compat_l; [ exact H | reflexivity ]. Qed.

Lemma pow2_lt_inv (a b : Z) : (pow2 a < pow2 b)%Q -> a < b.
Proof. intros H. apply (Qpower_lt_compat_l_inv 2); [ exact H | reflexivity ]. Qed.

Lemma pow2_inject (n : Z) : 0 <= n -> (pow2 n == inject_Z (2 ^ n))%Q.
Proof. intros H. symmetry. apply (Zpower_Qpower 2). exact H. Qed.

Definition val (m e : Z) : Q := (inject_Z m * pow2 e)%Q.

Lemma val_lt (m n e : Z) : (val m e < val n e)%Q <-> m < n.
Proof.
  unfold val. pose proof (pow2_pos e) as Hw. rewrite Zlt_Qlt.
  split; intros H; nra.
Qed.

Lemma val_le (m n e : Z) : (val m e <= val n e)%Q <-> m <= n.
Proof.
  unfold val. pose proof (pow2_pos e) as Hw. rewrite Zle_Qle.
  split; intros H; nra.
Qed.

Lemma val_inj (m n e : Z) : (val m e == val n e)%Q -> m = n.
Proof.
  intros H. apply Z.le_antisymm; apply (val_le _ _ e); rewrite H; apply Qle_refl.
Qed.

Lemma val_succ_exp (m e : Z) : (val m (e + 1) == val (2 * m) e)%Q.
Proof. unfold val. rewrite pow2_succ, inject_Z_mult. change (inject_Z 2) with 2%Q. ring. Qed.

Lemma val_add_exp (m e k : Z) : 0 <= k -> (val m (e + k) == val (m * 2 ^ k) e)%Q.
Proof.
  intros H. unfold val. rewrite pow2_add, inject_Z_mult, (pow2_inject k H). ring.
Qed.

Lemma val_plus (m n e : Z) : (val (m + n) e == val m e + val n e)%Q.
Proof. unfold val. rewrite inject_Z_plus. ring. Qed.

Lemma val_pow2 (k e : Z) : 0 <= k -> (val (2 ^ k) e == pow2 (k + e))%Q.
Proof. intros H. unfold val. rewrite pow2_add, (pow2_inject k H). reflexivity. Qed.

(** digits *)
Lemma digits2_size (p : positive) : digits2_pos p = Pos.size p.
Proof. induction p; simpl; congruence. Qed.

Lemma Zdigits2_spec (m : Z) :
  0 < m -> 2 ^ (Zdigits2 m - 1) <= m < 2 ^ Zdigits2 m.
Proof.
  intros H. destruct m as [| p | p]; try lia. simpl Zdigits2.
  rewrite digits2_size.
  pose proof (Pos.size_gt p) as Hgt. pose proof (Pos.size_le p) as Hle.
  assert (H2 : Z.pos (2 ^ Pos.size p) = 2 ^ Z.pos (Pos.size p)).
  { rewrite Pos2Z.inj_pow. reflexivity. }
  split.
  - assert (2 * 2 ^ (Z.pos (Pos.size p) - 1) = 2 ^ Z.pos (Pos.size p)).
    { rewrite <- Z.pow_succ_r by lia. f_equal. lia. }
    lia.
  - lia.
Qed.

Lemma Zdigits2_unique (m d : Z) :
  2 ^ (d - 1) <= m < 2 ^ d -> 0 < m -> Zdigits2 m = d.
Proof.
  intros [Hl Hu] Hm. pose proof (Zdigits2_spec m Hm) as [Hl' Hu'].
  assert (Hd : 0 < d).
  { destruct (Z.ltb_spec 0 d) as [| Hd]; [ assumption | ].
    destruct (Z.eq_dec d 0) as [-> | Hne]; [ simpl in Hu; lia | ].
    rewrite Z.pow_neg_r in Hu by lia. lia. }
  assert (Hd' : 0 < Zdigits2 m) by (destruct m; simpl; lia).
  destruct (Z.lt_trichotomy (Zdigits2 m) d) as [Hlt | [Heq | Hgt]]; [ | exact Heq | ].
  - assert (2 ^ Zdigits2 m <= 2 ^ (d - 1)) by (apply Z.pow_le_mono_r; lia). lia.
  - assert (2 ^ d <= 2 ^ (Zdigits2 m - 1)) by (apply Z.pow_le_mono_r; lia). lia.
Qed.

Definition locates (x : Q) (m e : Z) (l : location) : Prop :=
  match l with
  | loc_Exact => (x == val m e)%Q
  | loc_Inexact c =>
      (val m e < x)%Q /\ (x < val (m + 1) e)%Q /\ (2 * x ?= val (2 * m + 1) e)%Q = c
  end.

Lemma shr_1_eq (m : Z) (r s : bool) :
  0 <= m ->
  shr_1 (Build_shr_record m r s) = Build_shr_record (m / 2) (Z.odd m) (r || s).
Proof.
  intros Hm. destruct m as [| p | p]; [ reflexivity | | lia ].
  destruct p as [p | p |]; simpl shr_1.
  - f_equal. rewrite Pos2Z.inj_xI. apply (Z.div_unique _ 2 _ 1); lia.
  - f_equal. rewrite Pos2Z.inj_xO. apply (Z.div_unique _ 2 _ 0); lia.
  - reflexivity.
Qed.

Ltac cmp_to_order :=
  repeat match goal with
         | H : (_ ?= _)%Q = Lt |- _ => apply (proj2 (Qlt_alt _ _)) in H
         | H : (_ ?= _)%Q = Eq |- _ => apply (proj2 (Qeq_alt _ _)) in H
         | H : (_ ?= _)%Q = Gt |- _ => apply (proj2 (Qgt_alt _ _)) in H
         | |- (_ ?= _)%Q = Lt => apply (proj1 (Qlt_alt _ _))
         | |- (_ ?= _)%Q = Eq => apply (proj1 (Qeq_alt _ _))
         | |- (_ ?= _)%Q = Gt => apply (proj1 (Qgt_alt _ _))
         end.

Lemma shr_1_locates (x : Q) (m e : Z) (r s : bool) :
  0 <= m ->
  locates x m e (loc_of_shr_record (Build_shr_record m r s)) ->
  locates x (m / 2) (e + 1) (loc_of_shr_record (Build_shr_record (m / 2) (Z.odd m) (r || s))).
Proof.
  intros Hm Hloc.
  pose proof (Z.div_mod m 2 ltac:(lia)) as Hdm.
  rewrite Zmod_odd in Hdm.
  pose proof (pow2_pos e) as Hw.
  set (k := m / 2) in *.
  assert (Hv : forall n, (val n (e + 1) == 2 * inject_Z n * pow2 e)%Q).
  { intros n. unfold val. rewrite pow2_succ. ring. }
  assert (Hi : forall n, (val n e == inject_Z n * pow2 e)%Q) by (intros; reflexivity).
  destruct (Z.odd m) eqn:Hodd.
  - (* m = 2k + 1 *)
    assert (Hm' : inject_Z m = (2 * inject_Z k + 1)%Q).
    { rewrite Hdm, inject_Z_plus, inject_Z_mult. reflexivity. }
    destruct r, s; cbv [locates loc_of_shr_record orb] in Hloc |- *;
      repeat match goal with H : _ /\ _ |- _ => destruct H end; cmp_to_order;
      rewrite ?Hv, ?Hi, ?inject_Z_plus, ?inject_Z_mult, ?Hm' in *;
      change (inject_Z 1) with 1%Q in *; change (inject_Z 2) with 2%Q in *;
      repeat split; cmp_to_order; try nra.
  - assert (Hm' : inject_Z m = (2 * inject_Z k + 0)%Q).
    { rewrite Hdm, inject_Z_plus, inject_Z_mult. reflexivity. }
    destruct r, s; cbv [locates loc_of_shr_record orb] in Hloc |- *;
      repeat match goal with H : _ /\ _ |- _ => destruct H end; cmp_to_order;
      rewrite ?Hv, ?Hi, ?inject_Z_plus, ?inject_Z_mult, ?Hm' in *;
      change (inject_Z 1) with 1%Q in *; change (inject_Z 2) with 2%Q in *;
      repeat split; cmp_to_order; try nra.
Qed.

Definition rec_ok (x : Q) (mrs : shr_record) (e : Z) : Prop :=
  0 <= shr_m mrs /\ locates x (shr_m mrs) e (loc_of_shr_record mrs).

Lemma shr_1_ok (x : Q) (mrs : shr_record) (e : Z) :
  rec_ok x mrs e ->
  rec_ok x (shr_1 mrs) (e + 1) /\ shr_m (shr_1 mrs) = shr_m mrs / 2.
Proof.
  destruct mrs as [m r s]. unfold rec_ok. cbn [shr_m]. intros [Hm Hloc].
  rewrite (shr_1_eq m r s Hm). cbn [shr_m].
  split; [ split | reflexivity ].
  - apply Z.div_pos; lia.
  - apply shr_1_locates; assumption.
Qed.

Lemma iter_shr_ok (x : Q) (p : positive) :
  forall (mrs : shr_record) (e : Z),
    rec_ok x mrs e ->
    rec_ok x (iter_pos shr_1 p mrs) (e + Z.pos p)
    /\ shr_m (iter_pos shr_1 p mrs) = shr_m mrs / 2 ^ Z.pos p.
Proof.
  induction p as [p IH | p IH |]; intros mrs e Hok; cbn [iter_pos].
  - destruct (shr_1_ok x mrs e Hok) as [H1 E1].
    destruct (IH _ _ H1) as [H2 E2].
    destruct (IH _ _ H2) as [H3 E3].
    split.
    + replace (e + Z.pos p~1) with (e + 1 + Z.pos p + Z.pos p) by lia. exact H3.
    + rewrite E3, E2, E1.
      rewrite !Z.div_div by lia.
      f_equal. rewrite <- Z.pow_add_r by lia.
      rewrite <- Z.pow_succ_r by lia. f_equal. lia.
  - destruct (IH _ _ Hok) as [H2 E2].
    destruct (IH _ _ H2) as [H3 E3].
    split.
    + replace (e + Z.pos p~0) with (e + Z.pos p + Z.pos p) by lia. exact H3.
    + rewrite E3, E2. rewrite !Z.div_div by lia.
      f_equal. rewrite <- Z.pow_add_r by lia. f_equal. lia.
  - destruct (shr_1_ok x mrs e Hok) as [H1 E1]. split; [ exact H1 | exact E1 ].
Qed.

Lemma shr_ok (x : Q) (mrs : shr_record) (e n : Z) :
  rec_ok x mrs e -> 0 <= n ->
  rec_ok x (fst (shr mrs e n)) (e + n)
  /\ snd (shr mrs e n) = e + n
  /\ shr_m (fst (shr mrs e n)) = shr_m mrs / 2 ^ n.
Proof.
  intros Hok Hn. destruct n as [| p | p]; [ | | lia ].
  - cbn [shr fst snd]. rewrite Z.add_0_r, Z.div_1_r. auto.
  - cbn [shr fst snd]. destruct (iter_shr_ok x p mrs e Hok) as [H1 E1]. auto.
Qed.

Lemma rec_ok_of_loc (x : Q) (m e : Z) (l : location) :
  0 <= m -> locates x m e l -> rec_ok x (shr_record_of_loc m l) e.
Proof.
  intros Hm Hloc. unfold rec_ok.
  destruct l as [| []]; cbn [shr_record_of_loc shr_m loc_of_shr_record]; auto.
Qed.

Lemma shr_fexp_ok (x : Q) (m e : Z) (l : location) :
  0 <= m -> locates x m e l ->
  e <= fexp prec emax (Zdigits2 m + e) ->
  let e' := fexp prec emax (Zdigits2 m + e) in
  rec_ok x (fst (shr_fexp prec emax m e l)) e'
  /\ snd (shr_fexp prec emax m e l) = e'
  /\ shr_m (fst (shr_fexp prec emax m e l)) = m / 2 ^ (e' - e).
Proof.
  intros Hm Hloc He e'. unfold shr_fexp. fold e'.
  destruct (shr_ok x (shr_record_of_loc m l) e (e' - e)) as (H1 & H2 & H3).
  - apply rec_ok_of_loc; assumption.
  - lia.
  - replace (e + (e' - e)) with e' in * by lia.
    split; [ exact H1 | split; [ exact H2 | ] ].
    rewrite H3. destruct l as [| []]; reflexivity.
Qed.

Definition emin64 : Z := SpecFloat.emin prec emax.

Lemma fexp_eq (k : Z) : fexp prec emax k = Z.max (k - prec) emin64.
Proof. reflexivity. Qed.

(** A cell of the binary64 grid: mantissa below 2^53, normalised unless the
    exponent is the smallest one. *)
Definition cell (m e : Z) : Prop :=
  0 <= m < 2 ^ prec /\ (2 ^ (prec - 1) <= m \/ e = emin64) /\ emin64 <= e.

Definition rounds (x : Q) (m e : Z) : Prop :=
  exists m1 e1 l1,
    cell m1 e1 /\ locates x m1 e1 l1
    /\ ((round_nearest_even m1 l1 < 2 ^ prec /\ m = round_nearest_even m1 l1 /\ e = e1)
        \/ (round_nearest_even m1 l1 = 2 ^ prec /\ m = 2 ^ (prec - 1) /\ e = e1 + 1)).

Lemma Zdigits2_0 : Zdigits2 0 = 0.
Proof. reflexivity. Qed.

Lemma Zdigits2_nonneg (m : Z) : 0 <= Zdigits2 m.
Proof. destruct m; simpl; lia. Qed.

Lemma first_shift_cell (x : Q) (mx ex : Z) (lx : location) :
  0 <= mx -> locates x mx ex lx ->
  ex <= fexp prec emax (Zdigits2 mx + ex) ->
  let e1 := fexp prec emax (Zdigits2 mx + ex) in
  let mrs := fst (shr_fexp prec emax mx ex lx) in
  snd (shr_fexp prec emax mx ex lx) = e1
  /\ cell (shr_m mrs) e1
  /\ locates x (shr_m mrs) e1 (loc_of_shr_record mrs).
Proof.
  intros Hm Hloc He e1 mrs.
  destruct (shr_fexp_ok x mx ex lx Hm Hloc He) as ([Hpos Hl] & Hsnd & Hshr).
  fold e1 in Hpos, Hl, Hsnd, Hshr. fold mrs in Hpos, Hl, Hshr.
  split; [ exact Hsnd | ]. split; [ | exact Hl ].
  assert (He1 : e1 = Z.max (Zdigits2 mx + ex - prec) emin64) by reflexivity.
  set (d := Zdigits2 mx) in *.
  set (n := e1 - ex) in *.
  assert (Hn : 0 <= n) by (unfold n; lia).
  assert (Hpow : 0 < 2 ^ n) by (apply Z.pow_pos_nonneg; lia).
  unfold cell. split; [ split; [ exact Hpos | ] | split ].
  - rewrite Hshr. apply Z.div_lt_upper_bound; [ exact Hpow | ].
    destruct (Z.eq_dec mx 0) as [-> | Hne].
    + apply Z.mul_pos_pos; [ exact Hpow | apply Z.pow_pos_nonneg; unfold prec; lia ].
    + pose proof (Zdigits2_spec mx ltac:(lia)) as [_ Hu]. fold d in Hu.
      rewrite <- Z.pow_add_r by (unfold prec; lia).
      eapply Z.lt_le_trans; [ exact Hu | ].
      apply Z.pow_le_mono_r; unfold n; lia.
  - destruct (Z.max_spec (d + ex - prec) emin64) as [[Hlt Hmax] | [Hge Hmax]].
    + right. lia.
    + destruct (Z.eq_dec mx 0) as [Hz | Hne].
      * right. subst mx. unfold d in *. rewrite Zdigits2_0 in *. unfold prec in *. lia.
      * left. rewrite Hshr.
        pose proof (Zdigits2_spec mx ltac:(lia)) as [Hl' _]. fold d in Hl'.
        assert (Hnd : n = d - prec) by (unfold n; lia).
        apply Z.div_le_lower_bound; [ exact Hpow | ].
        rewrite <- Z.pow_add_r by (unfold prec in *; lia).
        replace (n + (prec - 1)) with (d - 1) by lia. exact Hl'.
  - lia.
Qed.

Lemma round_nearest_even_range (m : Z) (l : location) :
  m <= round_nearest_even m l <= m + 1.
Proof.
  destruct l as [| []]; simpl; try lia. destruct (Z.even m); lia.
Qed.

Lemma shr_fexp_id (m e : Z) :
  0 <= m -> fexp prec emax (Zdigits2 m + e) = e ->
  shr_fexp prec emax m e loc_Exact = (Build_shr_record m false false, e).
Proof.
  intros Hm He. unfold shr_fexp. rewrite He, Z.sub_diag. reflexivity.
Qed.

(** The rounding performed by every operation. *)
Lemma binary_round_aux_rounds (x : Q) (mx ex : Z) (lx : location) :
  0 <= mx -> locates x mx ex lx ->
  ex <= fexp prec emax (Zdigits2 mx + ex) ->
  Zdigits2 mx + ex < emax ->
  exists m e,
    rounds x m e /\ e <= emax - prec
    /\ binary_round_aux prec emax false mx ex lx
       = match m with
         | Z.pos p => S754_finite false p e
         | _ => S754_zero false
         end.
Proof.
  intros Hm Hloc He Hov.
  destruct (first_shift_cell x mx ex lx Hm Hloc He) as (Hsnd & Hcell & Hl).
  unfold binary_round_aux.
  destruct (shr_fexp prec emax mx ex lx) as [mrs e1] eqn:Hfirst.
  cbn [fst snd] in Hsnd, Hcell, Hl. subst e1.
  set (e1 := fexp prec emax (Zdigits2 mx + ex)) in *.
  set (m1 := shr_m mrs) in *. set (l1 := loc_of_shr_record mrs) in *.
  pose proof (round_nearest_even_range m1 l1) as Hr.
  set (r := round_nearest_even m1 l1) in *.
  destruct Hcell as ([Hm1 Hm1'] & Hnorm & Hemin).
  assert (He1 : e1 <= emax - prec).
  { unfold e1. rewrite fexp_eq. unfold emin64, SpecFloat.emin, emax, prec in *. lia. }
  assert (He1' : e1 + 1 <= emax - prec).
  { unfold e1. rewrite fexp_eq. unfold emin64, SpecFloat.emin, emax, prec in *. lia. }
  destruct (Z.eq_dec r (2 ^ prec)) as [Hcarry | Hnocarry].
  - (* the mantissa overflows into the next binade *)
    exists (2 ^ (prec - 1)), (e1 + 1). split; [ | split; [ exact He1' | ] ].
    + exists m1, e1, l1. split; [ repeat split; assumption | ]. split; [ exact Hl | ].
      right. auto.
    + rewrite Hcarry.
      assert (Hsh : shr_fexp prec emax (2 ^ prec) e1 loc_Exact
                    = (Build_shr_record (2 ^ (prec - 1)) false false, e1 + 1)).
      { unfold shr_fexp.
        replace (Zdigits2 (2 ^ prec)) with (prec + 1) by reflexivity.
        rewrite fexp_eq.
        replace (Z.max (prec + 1 + e1 - prec) emin64 - e1) with 1 by lia.
        reflexivity. }
      rewrite Hsh. cbn [shr_m].
      destruct (Z.leb_spec (e1 + 1) (emax - prec)); [ reflexivity | lia ].
  - exists r, e1. split; [ | split; [ exact He1 | ] ].
    + exists m1, e1, l1. split; [ repeat split; assumption | ]. split; [ exact Hl | ].
      left. fold r. repeat split; lia.
    + assert (Hfix : fexp prec emax (Zdigits2 r + e1) = e1).
      { rewrite fexp_eq.
        destruct (Z.eq_dec r 0) as [Hz | Hnz].
        - rewrite Hz, Zdigits2_0.
          destruct Hnorm as [Hbig | Hmin]; [ | unfold prec; lia ].
          assert (0 < 2 ^ (prec - 1)) by (apply Z.pow_pos_nonneg; unfold prec; lia). lia.
        - pose proof (Zdigits2_spec r ltac:(lia)) as [Hlo Hhi].
          assert (Hd : Zdigits2 r <= prec).
          { destruct (Z.leb_spec (Zdigits2 r) prec) as [| Hgt]; [ assumption | ].
            assert (2 ^ prec <= 2 ^ (Zdigits2 r - 1)) by (apply Z.pow_le_mono_r; lia). lia. }
          destruct Hnorm as [Hbig | Hmin]; [ | lia ].
          assert (Hd' : prec <= Zdigits2 r).
          { destruct (Z.leb_spec prec (Zdigits2 r)) as [| Hlt]; [ assumption | ].
            assert (2 ^ Zdigits2 r <= 2 ^ (prec - 1))
              by (apply Z.pow_le_mono_r; [ lia | lia ]). lia. }
          lia. }
      rewrite (shr_fexp_id r e1 ltac:(lia) Hfix). cbn [shr_m].
      destruct r as [| p | p]; [ reflexivity | | lia ].
      destruct (Z.leb_spec e1 (emax - prec)); [ reflexivity | lia ].
Qed.

Lemma inject_Z_pos (z : Z) : 0 < z -> (0 < inject_Z z)%Q.
Proof. intros H. change 0%Q with (inject_Z 0). rewrite <- Zlt_Qlt. exact H. Qed.

Lemma inject_Z_nonneg (z : Z) : 0 <= z -> (0 <= inject_Z z)%Q.
Proof. intros H. change 0%Q with (inject_Z 0). rewrite <- Zle_Qle. exact H. Qed.

Lemma Zdigits2_lower (q k : Z) : 0 <= k -> 2 ^ k <= q -> k + 1 <= Zdigits2 q.
Proof.
  intros Hk Hq.
  assert (Hpos : 0 < 2 ^ k) by (apply Z.pow_pos_nonneg; lia).
  pose proof (Zdigits2_spec q ltac:(lia)) as [_ Hu].
  destruct (Z.leb_spec (k + 1) (Zdigits2 q)) as [| Hlt]; [ assumption | ].
  pose proof (Zdigits2_nonneg q).
  assert (2 ^ Zdigits2 q <= 2 ^ k) by (apply Z.pow_le_mono_r; lia). lia.
Qed.

Lemma Zdigits2_upper (q k : Z) : 0 <= k -> 0 <= q < 2 ^ k -> Zdigits2 q <= k.
Proof.
  intros Hk [Hq0 Hq].
  destruct (Z.eq_dec q 0) as [-> | Hne]; [ rewrite Zdigits2_0; lia | ].
  pose proof (Zdigits2_spec q ltac:(lia)) as [Hl _].
  destruct (Z.leb_spec (Zdigits2 q) k) as [| Hlt]; [ assumption | ].
  assert (2 ^ k <= 2 ^ (Zdigits2 q - 1)) by (apply Z.pow_le_mono_r; lia). lia.
Qed.

Lemma Zdigits2_mono (a b : Z) : 0 < a <= b -> Zdigits2 a <= Zdigits2 b.
Proof.
  intros [Ha Hab].
  pose proof (Zdigits2_spec a Ha) as [Hl _].
  pose proof (Zdigits2_spec b ltac:(lia)) as [_ Hu].
  destruct (Z.leb_spec (Zdigits2 a) (Zdigits2 b)) as [| Hlt]; [ assumption | ].
  pose proof (Zdigits2_nonneg b).
  assert (2 ^ Zdigits2 b <= 2 ^ (Zdigits2 a - 1)) by (apply Z.pow_le_mono_r; lia). lia.
Qed.

Lemma new_location_spec (b r : Z) :
  0 < b -> 0 <= r < b ->
  new_location b r
  = if r =? 0 then loc_Exact else loc_Inexact (2 * r ?= b).
Proof.
  intros Hb Hr. unfold new_location.
  destruct (Z.even b) eqn:Hev; unfold new_location_even, new_location_odd;
    destruct (Z.eqb_spec r 0) as [Hz | Hne]; try reflexivity.
  f_equal.
  assert (Hodd : Z.odd b = true) by (rewrite <- Z.negb_even, Hev; reflexivity).
  apply Z.odd_spec in Hodd. destruct Hodd as [k Hk].
  destruct (Z.compare_spec (2 * r + 1) b), (Z.compare_spec (2 * r) b); try reflexivity; lia.
Qed.

(** The quotient of two positive numbers [val m1 e1 / val m2 e2] as the
    division core presents it to the rounding. *)
Lemma div_core_locates (m1 e1 m2 e2 : Z) :
  0 < m1 -> 0 < m2 ->
  let '(q, e, l) := SFdiv_core_binary prec emax m1 e1 m2 e2 in
  0 <= q
  /\ locates (val m1 e1 / val m2 e2) q e l
  /\ e <= fexp prec emax (Zdigits2 q + e)
  /\ Zdigits2 q + e <= Z.max (Zdigits2 m1 + e1 - (Zdigits2 m2 + e2) + 1) emin64.
Proof.
  intros H1 H2. unfold SFdiv_core_binary.
  set (d1 := Zdigits2 m1). set (d2 := Zdigits2 m2).
  set (e := Z.min (fexp prec emax (d1 + e1 - (d2 + e2))) (e1 - e2)).
  set (s := e1 - e2 - e).
  assert (Hs : 0 <= s) by (unfold s, e; lia).
  set (m' := match s with Z.pos _ => Z.shiftl m1 s | 0 => m1 | Z.neg _ => 0 end).
  assert (Hm' : m' = m1 * 2 ^ s).
  { unfold m'. destruct s as [| p | p]; [ simpl; lia | | lia ].
    apply Z.shiftl_mul_pow2. lia. }
  clearbody m'.
  assert (Hpow : 0 < 2 ^ s) by (apply Z.pow_pos_nonneg; lia).
  assert (Hm'pos : 0 < m') by (rewrite Hm'; apply Z.mul_pos_pos; assumption).
  pose proof (Z.div_mod m' m2 ltac:(lia)) as Hdm.
  pose proof (Z.mod_pos_bound m' m2 H2) as Hr.
  assert (Hde : Z.div_eucl m' m2 = (m' / m2, m' mod m2)).
  { unfold Z.div, Z.modulo. destruct (Z.div_eucl m' m2); reflexivity. }
  rewrite Hde. set (q := m' / m2) in *. set (r := m' mod m2) in *.
  assert (Hq : 0 <= q) by (apply Z.div_pos; lia).
  split; [ exact Hq | ].
  pose proof (Zdigits2_spec m1 H1) as [Hl1 Hu1]. fold d1 in Hl1, Hu1.
  pose proof (Zdigits2_spec m2 H2) as [Hl2 Hu2]. fold d2 in Hl2, Hu2.
  assert (Hd1 : 0 < d1) by (unfold d1; destruct m1; simpl; lia).
  assert (Hd2 : 0 < d2) by (unfold d2; destruct m2; simpl; lia).
  split; [ | split ].
  - (* location *)
    rewrite (new_location_spec m2 r H2 Hr).
    pose proof (pow2_pos e) as Hw. pose proof (pow2_pos e1) as Hw1.
    pose proof (pow2_pos e2) as Hw2.
    set (x := (val m1 e1 / val m2 e2)%Q).
    assert (HM2 : (0 < inject_Z m2)%Q) by (apply inject_Z_pos; exact H2).
    assert (Hx : (x * inject_Z m2 == inject_Z m' * pow2 e)%Q).
    { assert (Hinj : (inject_Z m' == inject_Z m1 * pow2 s)%Q).
      { rewrite Hm', inject_Z_mult, (pow2_inject s Hs). reflexivity. }
      assert (He1 : (pow2 e1 == pow2 s * pow2 e * pow2 e2)%Q).
      { rewrite <- !pow2_add. unfold s. replace (e1 - e2 - e + e + e2) with e1 by lia.
        reflexivity. }
      unfold x, val. rewrite Hinj, He1. field. split; lra. }
    assert (Hx' : (x * inject_Z m2
                   == (inject_Z m2 * inject_Z q + inject_Z r) * pow2 e)%Q).
    { rewrite Hx. rewrite Hdm at 1. rewrite inject_Z_plus, inject_Z_mult. reflexivity. }
    assert (Hr0 : (0 <= inject_Z r)%Q) by (apply inject_Z_nonneg; lia).
    assert (Hrb : (inject_Z r < inject_Z m2)%Q) by (rewrite <- Zlt_Qlt; lia).
    destruct (Z.eqb_spec r 0) as [Hz | Hnz].
    + cbn [locates]. unfold val. rewrite Hz in Hx'. change (inject_Z 0) with 0%Q in Hx'.
      apply (Qmult_inj_r _ _ (inject_Z m2)); [ lra | ].
      rewrite Hx'. ring.
    + assert (Hrpos : (0 < inject_Z r)%Q) by (apply inject_Z_pos; lia).
      cbn [locates]. unfold val.
      rewrite !inject_Z_plus, !inject_Z_mult.
      change (inject_Z 1) with 1%Q. change (inject_Z 2) with 2%Q.
      split; [ | split ].
      * nra.
      * nra.
      * destruct (Z.compare_spec (2 * r) m2) as [Hc | Hc | Hc]; cmp_to_order.
        -- assert (Hc' : (2 * inject_Z r == inject_Z m2)%Q).
           { rewrite <- Hc, inject_Z_mult. reflexivity. }
           apply (Qmult_inj_r _ _ (inject_Z m2)); [ lra | ].
           setoid_replace (2 * x * inject_Z m2)%Q with (2 * (x * inject_Z m2))%Q
             using relation Qeq by ring.
           rewrite Hx'. rewrite <- Hc'. ring.
        -- assert (Hc' : (2 * inject_Z r < inject_Z m2)%Q).
           { rewrite Zlt_Qlt, inject_Z_mult in Hc. exact Hc. }
           nra.
        -- assert (Hc' : (inject_Z m2 < 2 * inject_Z r)%Q).
           { rewrite Zlt_Qlt, inject_Z_mult in Hc. exact Hc. }
           nra.
  - (* enough digits *)
    rewrite fexp_eq.
    destruct (Z.leb_spec e emin64) as [Hle | Hgt]; [ lia | ].
    assert (He : e <= d1 + e1 - (d2 + e2) - prec).
    { unfold e in *. rewrite fexp_eq in *. lia. }
    assert (Hk : 0 <= d1 - 1 + s - d2) by (unfold s, prec in *; lia).
    assert (Hqlow : 2 ^ (d1 - 1 + s - d2) <= q).
    { unfold q. apply Z.div_le_lower_bound; [ exact H2 | ].
      rewrite Hm'.
      assert (m2 * 2 ^ (d1 - 1 + s - d2) <= 2 ^ d2 * 2 ^ (d1 - 1 + s - d2)).
      { apply Z.mul_le_mono_nonneg_r; [ apply Z.pow_nonneg; lia | lia ]. }
      assert (2 ^ d2 * 2 ^ (d1 - 1 + s - d2) = 2 ^ (d1 - 1) * 2 ^ s).
      { rewrite <- !Z.pow_add_r by lia. f_equal. lia. }
      assert (2 ^ (d1 - 1) * 2 ^ s <= m1 * 2 ^ s).
      { apply Z.mul_le_mono_nonneg_r; lia. }
      lia. }
    pose proof (Zdigits2_lower q _ Hk Hqlow). unfold s in *. lia.
  - (* magnitude *)
    assert (Hqup : q < 2 ^ (d1 + s - d2 + 1) \/ d1 + s - d2 + 1 < 0).
    { destruct (Z.leb_spec 0 (d1 + s - d2 + 1)) as [Hk | Hk]; [ left | right; lia ].
      unfold q. apply Z.div_lt_upper_bound; [ exact H2 | ].
      rewrite Hm'.
      assert (m1 * 2 ^ s < 2 ^ d1 * 2 ^ s) by (apply Z.mul_lt_mono_pos_r; lia).
      assert (2 ^ d1 * 2 ^ s = 2 ^ (d2 - 1) * 2 ^ (d1 + s - d2 + 1)).
      { rewrite <- !Z.pow_add_r by lia. f_equal. lia. }
      assert (2 ^ (d2 - 1) * 2 ^ (d1 + s - d2 + 1) <= m2 * 2 ^ (d1 + s - d2 + 1)).
      { apply Z.mul_le_mono_nonneg_r; [ apply Z.pow_nonneg; lia | lia ]. }
      lia. }
    destruct Hqup as [Hqup | Hneg].
    + destruct (Z.leb_spec 0 (d1 + s - d2 + 1)) as [Hk | Hk].
      * pose proof (Zdigits2_upper q _ Hk (conj Hq Hqup)). unfold s in *. lia.
      * rewrite Z.pow_neg_r in Hqup by lia. lia.
    + (* the quotient is below one half: q = 0 *)
      assert (Hq0 : q = 0).
      { unfold q. apply Z.div_small. split; [ lia | ].
        rewrite Hm'.
        assert (m1 * 2 ^ s < 2 ^ d1 * 2 ^ s) by (apply Z.mul_lt_mono_pos_r; lia).
        assert (2 ^ d1 * 2 ^ s = 2 ^ (d1 + s)) by (rewrite <- Z.pow_add_r by lia; reflexivity).
        assert (2 ^ (d1 + s) <= 2 ^ (d2 - 1)) by (apply Z.pow_le_mono_r; lia).
        lia. }
      rewrite Hq0, Zdigits2_0.
      (* e is at most emin here *)
      unfold s in *. unfold e in *. rewrite fexp_eq in *.
      unfold emin64, SpecFloat.emin, emax, prec in *. lia.
Qed.

Lemma locates_bounds (x : Q) (m e : Z) (l : location) :
  locates x m e l -> (val m e <= x)%Q /\ (x < val (m + 1) e)%Q.
Proof.
  destruct l as [| c]; cbn [locates].
  - intros H. rewrite H. split; [ apply Qle_refl | ]. apply val_lt. lia.
  - intros (H1 & H2 & _). split; [ apply Qlt_le_weak; exact H1 | exact H2 ].
Qed.

Lemma pow2_prec_pos : 0 < 2 ^ (prec - 1).
Proof. reflexivity. Qed.

Lemma rounds_cell (x : Q) (m e : Z) : rounds x m e -> cell m e.
Proof.
  intros (m1 & e1 & l1 & ([Hm0 Hm1] & Hnorm & Hemin) & Hloc & Hr).
  pose proof (round_nearest_even_range m1 l1) as Hrange.
  pose proof pow2_prec_pos as Hp.
  destruct Hr as [(Hlt & -> & ->) | (Heq & -> & ->)]; unfold cell.
  - split; [ lia | ]. split; [ | exact Hemin ].
    destruct Hnorm as [Hbig | Hmin]; [ left; lia | right; exact Hmin ].
  - split; [ | split; [ left; lia | lia ] ].
    split; [ lia | ]. apply Z.pow_lt_mono_r; unfold prec; lia.
Qed.

(** The value of the result, on the grid of its cell. *)
Lemma rounds_value (x : Q) (m e : Z) :
  rounds x m e ->
  exists m1 e1 l1,
    cell m1 e1 /\ locates x m1 e1 l1
    /\ (val m e == val (round_nearest_even m1 l1) e1)%Q.
Proof.
  intros (m1 & e1 & l1 & Hcell & Hloc & Hr).
  exists m1, e1, l1. split; [ exact Hcell | ]. split; [ exact Hloc | ].
  destruct Hr as [(Hlt & -> & ->) | (Heq & -> & ->)]; [ reflexivity | ].
  rewrite Heq, val_succ_exp. change (2 * 2 ^ (prec - 1)) with (2 ^ prec). reflexivity.
Qed.

Lemma cell_upper (m e : Z) : cell m e -> (val (m + 1) e <= pow2 (prec + e))%Q.
Proof.
  intros ([_ Hm] & _). rewrite <- val_pow2 by (unfold prec; lia). apply val_le. lia.
Qed.

Lemma cell_lower (m e : Z) : cell m e -> emin64 < e -> (pow2 (prec - 1 + e) <= val m e)%Q.
Proof.
  intros (_ & Hnorm & _) He. rewrite <- val_pow2 by (unfold prec; lia). apply val_le.
  destruct Hnorm; lia.
Qed.

Lemma rne_mono_loc (x x' : Q) (m e : Z) (l l' : location) :
  locates x m e l -> locates x' m e l' -> (x <= x')%Q ->
  round_nearest_even m l <= round_nearest_even m l'.
Proof.
  intros Hl Hl' Hx.
  pose proof (round_nearest_even_range m l') as Hr'.
  destruct l as [| []]; cbn [round_nearest_even]; try lia.
  - (* tie *)
    destruct Hl as (H1 & H2 & H3). cmp_to_order.
    destruct l' as [| []]; cbn [round_nearest_even locates] in *.
    + rewrite Hl' in Hx. lra.
    + lia.
    + destruct Hl' as (_ & _ & H3'). cmp_to_order. lra.
    + destruct (Z.even m); lia.
  - destruct Hl as (H1 & H2 & H3). cmp_to_order.
    destruct l' as [| []]; cbn [round_nearest_even locates] in *.
    + rewrite Hl' in Hx. lra.
    + destruct Hl' as (_ & _ & H3'). cmp_to_order. lra.
    + destruct Hl' as (_ & _ & H3'). cmp_to_order. lra.
    + lia.
Qed.

(** Rounding is monotone. *)
Lemma rounds_mono (x x' : Q) (m e m' e' : Z) :
  rounds x m e -> rounds x' m' e' -> (x <= x')%Q -> (val m e <= val m' e')%Q.
Proof.
  intros Hr Hr' Hx.
  destruct (rounds_value x m e Hr) as (m1 & e1 & l1 & Hc & Hl & Hv).
  destruct (rounds_value x' m' e' Hr') as (m1' & e1' & l1' & Hc' & Hl' & Hv').
  rewrite Hv, Hv'.
  pose proof (locates_bounds _ _ _ _ Hl) as [Hlo Hhi].
  pose proof (locates_bounds _ _ _ _ Hl') as [Hlo' Hhi'].
  pose proof (round_nearest_even_range m1 l1) as Hrg.
  pose proof (round_nearest_even_range m1' l1') as Hrg'.
  destruct (Z.lt_trichotomy e1 e1') as [Hlt | [Heq | Hgt]].
  - (* a lower binade *)
    apply Qle_trans with (val (m1 + 1) e1); [ apply val_le; lia | ].
    apply Qle_trans with (pow2 (prec + e1)); [ apply cell_upper; exact Hc | ].
    apply Qle_trans with (pow2 (prec - 1 + e1')); [ apply pow2_le; lia | ].
    apply Qle_trans with (val m1' e1').
    + apply cell_lower; [ exact Hc' | ]. destruct Hc as (_ & _ & ?). lia.
    + apply val_le. lia.
  - subst e1'. apply val_le.
    assert (Hm : m1 <= m1').
    { assert (H : (val m1 e1 < val (m1' + 1) e1)%Q) by lra.
      apply val_lt in H. lia. }
    destruct (Z.eq_dec m1 m1') as [<- | Hne]; [ | lia ].
    eapply rne_mono_loc; eassumption.
  - exfalso.
    assert (H1 : (pow2 (prec - 1 + e1) <= val m1 e1)%Q).
    { apply cell_lower; [ exact Hc | ]. destruct Hc' as (_ & _ & ?). lia. }
    pose proof (cell_upper _ _ Hc') as H2.
    assert (H3 : (pow2 (prec + e1') <= pow2 (prec - 1 + e1))%Q) by (apply pow2_le; lia).
    lra.
Qed.

Lemma rounds_exact (m e : Z) : cell m e -> rounds (val m e) m e.
Proof.
  intros Hc. exists m, e, loc_Exact. split; [ exact Hc | ].
  split; [ reflexivity | ]. left. cbn [round_nearest_even].
  destruct Hc as ([_ Hm] & _). auto.
Qed.

(** Two numbers of the grid with the same value are the same number. *)
Lemma cell_val_lt (m e m' e' : Z) :
  cell m e -> cell m' e' -> 0 < m' -> e < e' -> (val m e < val m' e')%Q.
Proof.
  intros Hc Hc' Hpos He.
  apply Qlt_le_trans with (val (m + 1) e); [ apply val_lt; lia | ].
  apply Qle_trans with (pow2 (prec + e)); [ apply cell_upper; exact Hc | ].
  apply Qle_trans with (pow2 (prec - 1 + e')); [ apply pow2_le; lia | ].
  apply cell_lower; [ exact Hc' | ]. destruct Hc as (_ & _ & ?). lia.
Qed.

Lemma cell_val_inj (m e m' e' : Z) :
  cell m e -> cell m' e' -> 0 < m -> 0 < m' ->
  (val m e == val m' e')%Q -> m = m' /\ e = e'.
Proof.
  intros Hc Hc' Hm Hm' Hv.
  destruct (Z.lt_trichotomy e e') as [Hlt | [Heq | Hgt]].
  - pose proof (cell_val_lt m e m' e' Hc Hc' Hm' Hlt). lra.
  - subst e'. split; [ | reflexivity ]. eapply val_inj; exact Hv.
  - pose proof (cell_val_lt m' e' m e Hc' Hc Hm Hgt). lra.
Qed.

Lemma cell_compare (p p' : positive) (e e' : Z) :
  cell (Z.pos p) e -> cell (Z.pos p') e' ->
  SFcompare (S754_finite false p e) (S754_finite false p' e')
  = Some (val (Z.pos p) e ?= val (Z.pos p') e')%Q.
Proof.
  intros Hc Hc'. cbn [SFcompare]. f_equal.
  destruct (Z.compare_spec e e') as [Heq | Hlt | Hgt].
  - subst e'. rewrite Pos.compare_cont_spec.
    assert (Hsw : forall c, Pos.switch_Eq Eq c = c) by (intros []; reflexivity).
    rewrite Hsw. change (p ?= p')%positive with (Z.pos p ?= Z.pos p').
    destruct (Z.compare_spec (Z.pos p) (Z.pos p')) as [H | H | H]; symmetry; cmp_to_order.
    + rewrite H. reflexivity.
    + apply val_lt. exact H.
    + apply val_lt. exact H.
  - symmetry. cmp_to_order. apply cell_val_lt; try assumption; lia.
  - symmetry. cmp_to_order. apply cell_val_lt; try assumption; lia.
Qed.

Lemma cell_valid (p : positive) (e : Z) :
  cell (Z.pos p) e -> e <= emax - prec -> valid_binary (S754_finite false p e) = true.
Proof.
  intros ([_ Hm] & Hnorm & Hemin) He.
  cbn [SpecFloat.valid_binary]. unfold bounded, canonical_mantissa.
  apply andb_true_intro. split; [ | apply Z.leb_le; exact He ].
  apply Z.eqb_eq. rewrite fexp_eq.
  change (Z.pos (digits2_pos p)) with (Zdigits2 (Z.pos p)).
  pose proof (Zdigits2_upper (Z.pos p) prec ltac:(unfold prec; lia) ltac:(lia)) as Hd.
  destruct Hnorm as [Hbig | Hmin]; [ | lia ].
  pose proof (Zdigits2_lower (Z.pos p) (prec - 1) ltac:(unfold prec; lia) Hbig). lia.
Qed.

Lemma locates_compat (x y : Q) (m e : Z) (l : location) :
  (x == y)%Q -> locates x m e l -> locates y m e l.
Proof.
  intros Hxy. destruct l as [| c]; cbn [locates].
  - intros H. rewrite <- Hxy. exact H.
  - intros (H1 & H2 & H3). rewrite <- Hxy. auto.
Qed.

Lemma rounds_compat (x y : Q) (m e : Z) :
  (x == y)%Q -> rounds x m e -> rounds y m e.
Proof.
  intros Hxy (m1 & e1 & l1 & Hc & Hl & Hr).
  exists m1, e1, l1. split; [ exact Hc | ]. split; [ | exact Hr ].
  eapply locates_compat; eassumption.
Qed.

(** The number of the grid with mantissa [m] and exponent [e]; the mantissa
    zero stands for the number zero. *)
Definition mk (m e : Z) : spec_float :=
  match m with
  | Z.pos p => S754_finite false p e
  | _ => S754_zero false
  end.

Lemma val_0 (e : Z) : (val 0 e == 0)%Q.
Proof. unfold val. change (inject_Z 0) with 0%Q. ring. Qed.

Lemma val_pos (m e : Z) : 0 < m -> (0 < val m e)%Q.
Proof.
  intros H. rewrite <- (val_0 e). apply val_lt. exact H.
Qed.

Lemma mk_valid (m e : Z) : cell m e -> e <= emax - prec -> valid_binary (mk m e) = true.
Proof.
  intros Hc He. destruct m as [| p | p]; try reflexivity.
  apply cell_valid; assumption.
Qed.

Lemma mk_compare (m e m' e' : Z) :
  cell m e -> cell m' e' ->
  SFcompare (mk m e) (mk m' e') = Some (val m e ?= val m' e')%Q.
Proof.
  intros Hc Hc'.
  destruct m as [| p | p]; [ | | destruct Hc as ([? _] & _); lia ];
    (destruct m' as [| p' | p']; [ | | destruct Hc' as ([? _] & _); lia ]);
    cbn [mk].
  - reflexivity.
  - cbn [SFcompare]. f_equal. symmetry. cmp_to_order. rewrite val_0.
    apply val_pos. lia.
  - cbn [SFcompare]. f_equal. symmetry. cmp_to_order. rewrite val_0.
    apply val_pos. lia.
  - apply cell_compare; assumption.
Qed.

Lemma mk_leb (m e m' e' : Z) :
  cell m e -> cell m' e' ->
  (SFleb (mk m e) (mk m' e') = true <-> (val m e <= val m' e')%Q).
Proof.
  intros Hc Hc'. unfold SFleb. rewrite (mk_compare m e m' e' Hc Hc').
  destruct (Qcompare_spec (val m e) (val m' e')) as [H | H | H];
    split; intros H'; try reflexivity; try discriminate; lra.
Qed.

Lemma mk_ltb (m e m' e' : Z) :
  cell m e -> cell m' e' ->
  (SFltb (mk m e) (mk m' e') = true <-> (val m e < val m' e')%Q).
Proof.
  intros Hc Hc'. unfold SFltb. rewrite (mk_compare m e m' e' Hc Hc').
  destruct (Qcompare_spec (val m e) (val m' e')) as [H | H | H];
    split; intros H'; try reflexivity; try discriminate; lra.
Qed.

Lemma mk_eq (m e m' e' : Z) :
  cell m e -> cell m' e' -> (val m e == val m' e')%Q -> mk m e = mk m' e'.
Proof.
  intros Hc Hc' Hv.
  destruct (Z.eq_dec m 0) as [-> | Hm].
  - rewrite val_0 in Hv.
    destruct (Z.eq_dec m' 0) as [-> | Hm']; [ reflexivity | ].
    assert (0 < m') by (destruct Hc' as ([? _] & _); lia).
    pose proof (val_pos m' e' H). lra.
  - assert (Hpos : 0 < m) by (destruct Hc as ([? _] & _); lia).
    destruct (Z.eq_dec m' 0) as [-> | Hm'].
    + rewrite val_0 in Hv. pose proof (val_pos m e Hpos). lra.
    + assert (Hpos' : 0 < m') by (destruct Hc' as ([? _] & _); lia).
      destruct (cell_val_inj m e m' e' Hc Hc' Hpos Hpos' Hv) as [-> ->]. reflexivity.
Qed.

(** Division of two positive integers, correctly rounded. *)
Definition sf_div (a b : Z) : spec_float :=
  let '(q, e, l) := SFdiv_core_binary prec emax a 0 b 0 in
  binary_round_aux prec emax false q e l.

Lemma val_exp0 (m : Z) : (val m 0 == inject_Z m)%Q.
Proof. unfold val. change (pow2 0) with 1%Q. ring. Qed.

Lemma sf_div_rounds (a b : Z) :
  0 < a -> 0 < b -> Zdigits2 a - Zdigits2 b + 1 < emax ->
  exists m e,
    rounds (inject_Z a / inject_Z b) m e /\ e <= emax - prec
    /\ sf_div a b = mk m e.
Proof.
  intros Ha Hb Hov. unfold sf_div.
  pose proof (div_core_locates a 0 b 0 Ha Hb) as H.
  destruct (SFdiv_core_binary prec emax a 0 b 0) as [[q e] l].
  destruct H as (Hq & Hl & He & Hmag).
  destruct (binary_round_aux_rounds _ q e l Hq Hl He) as (m & e' & Hr & He' & Heq).
  - unfold emin64, SpecFloat.emin, emax, prec in *. lia.
  - exists m, e'. split; [ | split; [ exact He' | exact Heq ] ].
    eapply rounds_compat; [ | exact Hr ]. rewrite !val_exp0. reflexivity.
Qed.

Lemma Zdigits2_mul (a b : Z) : 0 < a -> 0 < b -> Zdigits2 (a * b) <= Zdigits2 a + Zdigits2 b.
Proof.
  intros Ha Hb.
  pose proof (Zdigits2_spec a Ha) as [_ Hua].
  pose proof (Zdigits2_spec b Hb) as [_ Hub].
  pose proof (Zdigits2_nonneg a). pose proof (Zdigits2_nonneg b).
  apply Zdigits2_upper; [ lia | ]. split; [ lia | ].
  rewrite Z.pow_add_r by lia. apply Z.mul_lt_mono_nonneg; lia.
Qed.

(** Multiplication of a number of the grid by a normal one. *)
Lemma sf_mul_rounds (m e : Z) (p' : positive) (e' : Z) :
  cell m e -> 2 ^ (prec - 1) <= Z.pos p' ->
  Zdigits2 m + e + (Zdigits2 (Z.pos p') + e') < emax ->
  exists m2 e2,
    rounds (val m e * val (Z.pos p') e') m2 e2 /\ e2 <= emax - prec
    /\ SFmul prec emax (mk m e) (S754_finite false p' e') = mk m2 e2.
Proof.
  intros Hc Hn Hov.
  destruct m as [| p | p]; [ | | destruct Hc as ([? _] & _); lia ].
  - exists 0, emin64. split; [ | split; [ unfold emin64, SpecFloat.emin, emax, prec; lia | reflexivity ] ].
    eapply rounds_compat; [ | apply (rounds_exact 0 emin64) ].
    + rewrite !val_0. ring.
    + unfold cell. unfold prec. split; [ simpl; lia | ]. split; [ right; reflexivity | lia ].
  - cbn [mk SFmul xorb].
    change (Z.pos (p * p')) with (Z.pos p * Z.pos p').
    assert (Hloc : locates (val (Z.pos p) e * val (Z.pos p') e') (Z.pos p * Z.pos p') (e + e')
                     loc_Exact).
    { cbn [locates]. unfold val. rewrite inject_Z_mult, pow2_add. ring. }
    pose proof (Zdigits2_mul (Z.pos p) (Z.pos p') ltac:(lia) ltac:(lia)) as Hd.
    assert (Hlow : prec <= Zdigits2 (Z.pos p * Z.pos p')).
    { pose proof (Zdigits2_lower (Z.pos p * Z.pos p') (prec - 1) ltac:(unfold prec; lia)) as H.
      assert (2 ^ (prec - 1) <= Z.pos p * Z.pos p') by nia. specialize (H H0). lia. }
    destruct (binary_round_aux_rounds _ (Z.pos p * Z.pos p') (e + e') loc_Exact
                ltac:(lia) Hloc) as (m2 & e2 & Hr & He2 & Heq).
    + rewrite fexp_eq. lia.
    + lia.
    + exists m2, e2. auto.
Qed.

Definition percentage (c t : Z) : float := (true_divide c t * 100)%float.

Definition hundred_m : Z := 7036874417766400.
Definition hundred_e : Z := -46.

Lemma cell_dec (m e : Z) :
  (0 <=? m) && (m <? 2 ^ prec) && ((2 ^ (prec - 1) <=? m) || (e =? emin64)) && (emin64 <=? e)
  = true ->
  cell m e.
Proof.
  intros H. apply andb_prop in H. destruct H as [H H4].
  apply andb_prop in H. destruct H as [H H3].
  apply andb_prop in H. destruct H as [H1 H2].
  apply orb_prop in H3.
  unfold cell. rewrite Z.leb_le in H1, H4. rewrite Z.ltb_lt in H2.
  rewrite Z.leb_le, Z.eqb_eq in H3. tauto.
Qed.

Lemma cell_hundred : cell hundred_m hundred_e.
Proof. apply cell_dec. vm_compute. reflexivity. Qed.

Lemma val_hundred : (val hundred_m hundred_e == 100)%Q.
Proof. vm_compute. reflexivity. Qed.

Lemma Prim2SF_hundred : Prim2SF 100%float = mk hundred_m hundred_e.
Proof. vm_compute. reflexivity. Qed.

Definition one_m : Z := 2 ^ 52.
Definition one_e : Z := -52.

Lemma cell_one : cell one_m one_e.
Proof. apply cell_dec. vm_compute. reflexivity. Qed.

Lemma val_one : (val one_m one_e == 1)%Q.
Proof. vm_compute. reflexivity. Qed.

Lemma cell_zero : cell 0 emin64.
Proof. apply cell_dec. vm_compute. reflexivity. Qed.

Lemma cell_nonneg (m e : Z) : cell m e -> (0 <= val m e)%Q.
Proof.
  intros ([Hm _] & _). rewrite <- (val_0 e). apply val_le. exact Hm.
Qed.

Lemma cell_magnitude (m e : Z) : cell m e -> (val m e <= 1)%Q -> Zdigits2 m + e <= 1.
Proof.
  intros Hc Hv. destruct (Z.eq_dec m 0) as [-> | Hm].
  - destruct Hc as (_ & [Hbig | ->] & _); [ pose proof pow2_prec_pos; lia | ].
    vm_compute. congruence.
  - assert (Hpos : 0 < m) by (destruct Hc as ([? _] & _); lia).
    pose proof (Zdigits2_spec m Hpos) as [Hl _].
    pose proof (Zdigits2_nonneg m) as Hd.
    assert (Hd' : 0 < Zdigits2 m) by (destruct m; simpl in *; lia).
    destruct (Z.leb_spec (Zdigits2 m + e) 1) as [| Hgt]; [ assumption | exfalso ].
    assert (H1 : (pow2 (Zdigits2 m - 1 + e) <= val m e)%Q).
    { rewrite <- val_pow2 by lia. apply val_le. exact Hl. }
    assert (H2 : (pow2 0 < pow2 (Zdigits2 m - 1 + e))%Q) by (apply pow2_lt; lia).
    change (pow2 0) with 1%Q in H2. lra.
Qed.

Lemma true_divide_pos (a b : Z) :
  0 < a -> 0 < b -> true_divide a b = SF2Prim (sf_div a b).
Proof.
  intros Ha Hb. destruct a as [| pa | pa]; [ lia | | lia ].
  destruct b as [| pb | pb]; [ lia | | lia ]. reflexivity.
Qed.

(** The value [update_progress] computes, in terms of the grid. *)
Lemma percentage_spec (c t : Z) :
  0 <= c <= t -> 0 < t ->
  exists m e m' e',
    rounds (inject_Z c / inject_Z t) m e
    /\ rounds (val m e * 100) m' e'
    /\ e' <= emax - prec
    /\ Prim2SF (percentage c t) = mk m' e'.
Proof.
  intros Hc Ht.
  assert (Hdiv : exists m e,
             rounds (inject_Z c / inject_Z t) m e /\ e <= emax - prec
             /\ Prim2SF (true_divide c t) = mk m e).
  { destruct (Z.eq_dec c 0) as [-> | Hne].
    - exists 0, emin64. split; [ | split; [ vm_compute; congruence | ] ].
      + eapply rounds_compat; [ | apply (rounds_exact 0 emin64 cell_zero) ].
        rewrite val_0. change (inject_Z 0) with 0%Q. unfold Qdiv. ring.
      + unfold true_divide. destruct t as [| pt | pt]; [ lia | reflexivity | lia ].
    - assert (Hpos : 0 < c) by lia.
      destruct (sf_div_rounds c t Hpos Ht) as (m & e & Hr & He & Heq).
      { pose proof (Zdigits2_mono c t ltac:(lia)). unfold emax. lia. }
      exists m, e. split; [ exact Hr | ]. split; [ exact He | ].
      rewrite (true_divide_pos c t Hpos Ht), Heq.
      apply Prim2SF_SF2Prim. apply mk_valid; [ eapply rounds_cell; exact Hr | exact He ]. }
  destruct Hdiv as (m & e & Hr & He & Hsf).
  pose proof (rounds_cell _ _ _ Hr) as Hcell.
  assert (Hle1 : (val m e <= 1)%Q).
  { rewrite <- val_one.
    eapply rounds_mono; [ exact Hr | apply (rounds_exact _ _ cell_one) | ].
    rewrite val_one.
    assert (Ht' : (0 < inject_Z t)%Q) by (apply inject_Z_pos; exact Ht).
    apply Qle_shift_div_r; [ exact Ht' | ].
    rewrite Qmult_1_l. rewrite <- Zle_Qle. lia. }
  pose proof (cell_magnitude m e Hcell Hle1) as Hmag.
  destruct (sf_mul_rounds m e (Z.to_pos hundred_m) hundred_e Hcell) as (m' & e' & Hr' & He' & Hmul).
  - vm_compute. congruence.
  - change (Zdigits2 (Z.pos (Z.to_pos hundred_m)) + hundred_e) with 7. unfold emax. lia.
  - exists m, e, m', e'. split; [ exact Hr | ]. split; [ | split; [ exact He' | ] ].
    + eapply rounds_compat; [ | exact Hr' ].
      change (Z.pos (Z.to_pos hundred_m)) with hundred_m. rewrite val_hundred. reflexivity.
    + unfold percentage. rewrite mul_spec, Hsf, Prim2SF_hundred. exact Hmul.
Qed.

Lemma percentage_le_hundred_val (x : Q) (m e m' e' : Z) :
  rounds x m e -> rounds (val m e * 100) m' e' -> (x <= 1)%Q ->
  (val m' e' <= 100)%Q.
Proof.
  intros Hr Hr' Hx.
  assert (Hle1 : (val m e <= 1)%Q).
  { rewrite <- val_one.
    eapply rounds_mono; [ exact Hr | apply (rounds_exact _ _ cell_one) | ].
    rewrite val_one. exact Hx. }
  rewrite <- val_hundred.
  eapply rounds_mono; [ exact Hr' | apply (rounds_exact _ _ cell_hundred) | ].
  rewrite val_hundred. lra.
Qed.

Lemma ratio_le_1 (c t : Z) : 0 <= c <= t -> 0 < t -> (inject_Z c / inject_Z t <= 1)%Q.
Proof.
  intros Hc Ht.
  assert (Ht' : (0 < inject_Z t)%Q) by (apply inject_Z_pos; exact Ht).
  apply Qle_shift_div_r; [ exact Ht' | ].
  rewrite Qmult_1_l. rewrite <- Zle_Qle. lia.
Qed.

Lemma ratio_mono (c c' t : Z) :
  c <= c' -> 0 < t -> (inject_Z c / inject_Z t <= inject_Z c' / inject_Z t)%Q.
Proof.
  intros Hc Ht.
  assert (Ht' : (0 < inject_Z t)%Q) by (apply inject_Z_pos; exact Ht).
  unfold Qdiv. apply Qmult_le_compat_r; [ rewrite <- Zle_Qle; exact Hc | ].
  apply Qlt_le_weak, Qinv_lt_0_compat. exact Ht'.
Qed.

(** The percentage lies between 0 and 100. *)
Theorem percentage_bounds (c t : Z) :
  0 <= c <= t -> 0 < t ->
  (0 <=? percentage c t)%float = true /\ (percentage c t <=? 100)%float = true.
Proof.
  intros Hc Ht.
  destruct (percentage_spec c t Hc Ht) as (m & e & m' & e' & Hr & Hr' & He' & Hsf).
  pose proof (rounds_cell _ _ _ Hr') as Hcell'.
  rewrite !leb_spec, Hsf, Prim2SF_hundred.
  change (Prim2SF 0) with (mk 0 emin64).
  split.
  - apply mk_leb; [ exact cell_zero | exact Hcell' | ].
    rewrite val_0. apply cell_nonneg. exact Hcell'.
  - apply mk_leb; [ exact Hcell' | exact cell_hundred | ].
    rewrite val_hundred.
    eapply percentage_le_hundred_val; [ exact Hr | exact Hr' | ].
    apply ratio_le_1; assumption.
Qed.

(** A larger count gives a percentage that is not smaller. *)
Theorem percentage_mono (c c' t : Z) :
  0 <= c <= c' -> c' <= t -> 0 < t ->
  (percentage c t <=? percentage c' t)%float = true.
Proof.
  intros Hc Hc' Ht.
  destruct (percentage_spec c t ltac:(lia) Ht) as (m & e & m' & e' & Hr & Hr' & He' & Hsf).
  destruct (percentage_spec c' t ltac:(lia) Ht) as (n & f & n' & f' & Hs & Hs' & Hf' & Hsf').
  rewrite leb_spec, Hsf, Hsf'.
  apply mk_leb; [ eapply rounds_cell; exact Hr' | eapply rounds_cell; exact Hs' | ].
  eapply rounds_mono; [ exact Hr' | exact Hs' | ].
  assert (H : (val m e <= val n f)%Q).
  { eapply rounds_mono; [ exact Hr | exact Hs | ]. apply ratio_mono; [ lia | exact Ht ]. }
  lra.
Qed.

Lemma rounds_unique (x : Q) (m e m' e' : Z) :
  rounds x m e -> rounds x m' e' -> mk m e = mk m' e'.
Proof.
  intros Hr Hr'.
  apply mk_eq; [ eapply rounds_cell; exact Hr | eapply rounds_cell; exact Hr' | ].
  apply Qle_antisym; eapply rounds_mono; try eassumption; apply Qle_refl.
Qed.

(** All photos processed: exactly 100. *)
Theorem percentage_full (t : Z) : 0 < t -> percentage t t = 100%float.
Proof.
  intros Ht.
  destruct (percentage_spec t t ltac:(lia) Ht) as (m & e & m' & e' & Hr & Hr' & He' & Hsf).
  apply Prim2SF_inj. rewrite Hsf, Prim2SF_hundred.
  assert (Hone : (inject_Z t / inject_Z t == 1)%Q).
  { assert (Ht' : (0 < inject_Z t)%Q) by (apply inject_Z_pos; exact Ht). field. lra. }
  assert (Hv : (val m e == 1)%Q).
  { rewrite <- val_one. apply Qle_antisym.
    - eapply rounds_mono; [ exact Hr | apply (rounds_exact _ _ cell_one) | ].
      rewrite val_one, Hone. apply Qle_refl.
    - eapply rounds_mono; [ apply (rounds_exact _ _ cell_one) | exact Hr | ].
      rewrite val_one, Hone. apply Qle_refl. }
  apply (rounds_unique (val m e * 100)); [ exact Hr' | ].
  eapply rounds_compat; [ | apply (rounds_exact _ _ cell_hundred) ].
  rewrite val_hundred, Hv. ring.
Qed.

(** The largest number of the grid below one, and its hundredfold. *)
Definition below_one_m : Z := 2 ^ 53 - 1.
Definition below_one_e : Z := -53.
Definition below_hundred_m : Z := hundred_m - 1.

Lemma cell_below_one : cell below_one_m below_one_e.
Proof. apply cell_dec. vm_compute. reflexivity. Qed.

Lemma cell_below_hundred : cell below_hundred_m hundred_e.
Proof. apply cell_dec. vm_compute. reflexivity. Qed.

Lemma rounds_below_hundred :
  rounds (val below_one_m below_one_e * 100) below_hundred_m hundred_e.
Proof.
  exists below_hundred_m, hundred_e, (loc_Inexact Lt).
  split; [ exact cell_below_hundred | ]. split.
  - cbn [locates]. repeat split; vm_compute; reflexivity.
  - left. cbn [round_nearest_even]. split; [ vm_compute; reflexivity | auto ].
Qed.

(** Photos missing: strictly below 100, for every total a float counts
    exactly. *)
Theorem percentage_partial (c t : Z) :
  0 <= c < t -> t <= 2 ^ 53 ->
  (percentage c t <? 100)%float = true.
Proof.
  intros Hc Ht.
  destruct (percentage_spec c t ltac:(lia) ltac:(lia))
    as (m & e & m' & e' & Hr & Hr' & He' & Hsf).
  rewrite ltb_spec, Hsf, Prim2SF_hundred.
  apply mk_ltb; [ eapply rounds_cell; exact Hr' | exact cell_hundred | ].
  assert (Hx : (inject_Z c / inject_Z t <= val below_one_m below_one_e)%Q).
  { assert (Ht' : (0 < inject_Z t)%Q) by (apply inject_Z_pos; lia).
    apply Qle_shift_div_r; [ exact Ht' | ].
    assert (Hb : (val below_one_m below_one_e == 1 - / inject_Z (2 ^ 53))%Q)
      by (vm_compute; reflexivity).
    rewrite Hb.
    assert (Hc' : (inject_Z c <= inject_Z t - 1)%Q).
    { change 1%Q with (inject_Z 1). unfold Qminus. rewrite <- inject_Z_opp, <- inject_Z_plus.
      rewrite <- Zle_Qle. lia. }
    assert (Ht2 : (inject_Z t <= inject_Z (2 ^ 53))%Q) by (rewrite <- Zle_Qle; exact Ht).
    assert (Hp : (0 < inject_Z (2 ^ 53))%Q) by reflexivity.
    assert (Hinv : (inject_Z t * / inject_Z (2 ^ 53) <= 1)%Q).
    { apply Qle_shift_div_r; [ exact Hp | ]. lra. }
    lra. }
  assert (Hv : (val m e <= val below_one_m below_one_e)%Q).
  { eapply rounds_mono; [ exact Hr | apply (rounds_exact _ _ cell_below_one) | exact Hx ]. }
  assert (Hv' : (val m' e' <= val below_hundred_m hundred_e)%Q).
  { eapply rounds_mono; [ exact Hr' | exact rounds_below_hundred | lra ]. }
  assert (Hlt : (val below_hundred_m hundred_e < val hundred_m hundred_e)%Q).
  { apply val_lt. unfold below_hundred_m. lia. }
  lra.
Qed.

Lemma shl_align_spec (mx : positive) (ex ex' : Z) :
  ex' <= ex ->
  let '(mz, ez) := shl_align mx ex ex' in
  ez = ex' /\ Z.pos mz = Z.pos mx * 2 ^ (ex - ex').
Proof.
  intros He. unfold shl_align.
  destruct (ex' - ex) as [| d | d] eqn:Hd; [ | lia | ].
  - assert (ex = ex') by lia. subst. rewrite Z.sub_diag. split; [ reflexivity | simpl; lia ].
  - split; [ reflexivity | ].
    change (Pos.iter xO mx d) with (shift_pos d mx).
    rewrite shift_pos_correct, Z.pow_pos_fold.
    replace (ex - ex') with (Z.pos d) by lia. lia.
Qed.

(** [float(n)] for a positive integer below 2^63: the nearest number of the
    grid. *)
Lemma float_of_Z_rounds (a : Z) :
  0 < a < 2 ^ 63 ->
  exists m e,
    rounds (inject_Z a) m e /\ e <= emax - prec
    /\ Prim2SF (float_of_Z a) = mk m e.
Proof.
  intros Ha. unfold float_of_Z. destruct (Z.ltb_spec a 0); [ lia | ].
  rewrite of_uint63_spec, of_Z_spec.
  rewrite Z.mod_small by (change wB with (2 ^ 63); lia).
  destruct a as [| p | p]; [ lia | | lia ].
  cbn [binary_normalize]. unfold binary_round.
  set (d := Z.pos (digits2_pos p)).
  assert (Hd : d = Zdigits2 (Z.pos p)) by reflexivity.
  pose proof (Zdigits2_upper (Z.pos p) 63 ltac:(lia) ltac:(lia)) as Hd63.
  destruct (Z.leb_spec (fexp prec emax (d + 0)) 0) as [Hle | Hgt].
  - pose proof (shl_align_spec p 0 (fexp prec emax (d + 0)) Hle) as Hal.
    destruct (shl_align p 0 (fexp prec emax (d + 0))) as [mz ez].
    destruct Hal as [-> Hmz].
    set (k := 0 - fexp prec emax (d + 0)) in *.
    assert (Hk : 0 <= k) by (unfold k; lia).
    assert (Hloc : locates (inject_Z (Z.pos p)) (Z.pos mz) (fexp prec emax (d + 0)) loc_Exact).
    { cbn [locates]. rewrite Hmz, <- val_add_exp by exact Hk.
      replace (fexp prec emax (d + 0) + k) with 0 by (unfold k; lia).
      rewrite val_exp0. reflexivity. }
    assert (Hdz : Zdigits2 (Z.pos mz) = d + k).
    { apply Zdigits2_unique; [ | lia ].
      pose proof (Zdigits2_spec (Z.pos p) ltac:(lia)) as [Hl Hu]. rewrite <- Hd in Hl, Hu.
      assert (Hp : 0 < 2 ^ k) by (apply Z.pow_pos_nonneg; lia).
      rewrite Hmz. split.
      - replace (d + k - 1) with (d - 1 + k) by lia. rewrite Z.pow_add_r by lia.
        apply Z.mul_le_mono_nonneg_r; lia.
      - rewrite Z.pow_add_r by lia. apply Z.mul_lt_mono_pos_r; lia. }
    destruct (binary_round_aux_rounds _ (Z.pos mz) (fexp prec emax (d + 0)) loc_Exact
                ltac:(lia) Hloc) as (m & e & Hr & He & Heq).
    + rewrite Hdz. replace (d + k + fexp prec emax (d + 0)) with (d + 0) by (unfold k; lia).
      lia.
    + rewrite Hdz. unfold k, emax. lia.
    + exists m, e. auto.
  - (* more than 53 digits: no alignment *)
    assert (Hal : shl_align p 0 (fexp prec emax (d + 0)) = (p, 0)).
    { unfold shl_align.
      destruct (fexp prec emax (d + 0) - 0) as [| q | q] eqn:Hq; [ reflexivity | reflexivity | lia ]. }
    rewrite Hal.
    assert (Hloc : locates (inject_Z (Z.pos p)) (Z.pos p) 0 loc_Exact).
    { cbn [locates]. rewrite val_exp0. reflexivity. }
    destruct (binary_round_aux_rounds _ (Z.pos p) 0 loc_Exact ltac:(lia) Hloc)
      as (m & e & Hr & He & Heq).
    + rewrite <- Hd. rewrite Z.add_0_r in *. lia.
    + rewrite <- Hd. unfold emax. lia.
    + exists m, e. auto.
Qed.

Lemma rounds_representable (x : Q) (m e A eA : Z) :
  rounds x m e -> cell A eA -> (x == val A eA)%Q -> (val m e == x)%Q.
Proof.
  intros Hr Hc Hx.
  pose proof (rounds_compat _ _ _ _ (Qeq_sym _ _ Hx) (rounds_exact A eA Hc)) as Hr'.
  apply Qeq_trans with (val A eA); [ | apply Qeq_sym; exact Hx ].
  apply Qle_antisym; eapply rounds_mono; try eassumption; apply Qle_refl.
Qed.

Lemma small_int_cell (a : Z) :
  0 < a < 2 ^ prec ->
  exists A eA, cell A eA /\ (inject_Z a == val A eA)%Q.
Proof.
  intros Ha.
  pose proof (Zdigits2_spec a ltac:(lia)) as [Hl Hu].
  pose proof (Zdigits2_upper a prec ltac:(unfold prec; lia) ltac:(lia)) as Hd.
  assert (Hd0 : 0 < Zdigits2 a) by (destruct a; simpl in *; lia).
  set (d := Zdigits2 a) in *. set (k := prec - d).
  assert (Hp : 0 < 2 ^ k) by (apply Z.pow_pos_nonneg; unfold k; lia).
  exists (a * 2 ^ k), (- k). split.
  - unfold cell. split; [ split; [ lia | ] | split; [ left | ] ].
    + replace prec with (d + k) at 1 by (unfold k; lia).
      rewrite Z.pow_add_r by (unfold k; lia). apply Z.mul_lt_mono_pos_r; lia.
    + replace (prec - 1) with (d - 1 + k) by (unfold k; lia).
      rewrite Z.pow_add_r by (unfold k; lia). apply Z.mul_le_mono_nonneg_r; lia.
    + unfold k, emin64, SpecFloat.emin, emax, prec in *. lia.
  - rewrite <- val_add_exp by (unfold k; lia).
    replace (- k + k) with 0 by lia. rewrite val_exp0. reflexivity.
Qed.

Lemma cell_exponent_upper (m e k : Z) :
  cell m e -> 0 < m -> 0 <= k -> (val m e < pow2 k)%Q -> Zdigits2 m + e <= k.
Proof.
  intros Hc Hm Hk Hv.
  pose proof (Zdigits2_spec m Hm) as [Hl _].
  assert (Hd0 : 0 < Zdigits2 m) by (destruct m; simpl in *; lia).
  destruct (Z.leb_spec (Zdigits2 m + e) k) as [| Hgt]; [ assumption | exfalso ].
  assert (H1 : (pow2 (Zdigits2 m - 1 + e) <= val m e)%Q).
  { rewrite <- val_pow2 by lia. apply val_le. exact Hl. }
  assert (H2 : (pow2 k <= pow2 (Zdigits2 m - 1 + e))%Q) by (apply pow2_le; lia).
  lra.
Qed.

Lemma cell_exponent_lower (m e : Z) :
  cell m e -> (1 <= val m e)%Q -> 0 < Zdigits2 m + e.
Proof.
  intros Hc Hv.
  assert (Hm : 0 < m).
  { destruct (Z.eq_dec m 0) as [-> | ]; [ rewrite val_0 in Hv; lra | ].
    destruct Hc as ([? _] & _). lia. }
  pose proof (Zdigits2_spec m Hm) as [_ Hu].
  pose proof (Zdigits2_nonneg m) as Hd.
  destruct (Z.ltb_spec 0 (Zdigits2 m + e)) as [| Hle]; [ assumption | exfalso ].
  assert (H1 : (val m e < pow2 (Zdigits2 m + e))%Q).
  { rewrite <- val_pow2 by lia. apply val_lt. exact Hu. }
  assert (H2 : (pow2 (Zdigits2 m + e) <= pow2 0)%Q) by (apply pow2_le; lia).
  change (pow2 0) with 1%Q in H2. lra.
Qed.

(** For operands that a float holds exactly, [true_divide] is the division
    of the two floats. *)
Theorem true_divide_is_float_division (a b : Z) :
  0 < a < 2 ^ 53 -> 0 < b < 2 ^ 53 ->
  true_divide a b = (float_of_Z a / float_of_Z b)%float.
Proof.
  intros Ha Hb.
  destruct (float_of_Z_rounds a ltac:(lia)) as (m & e & Hr & He & Hsf).
  destruct (float_of_Z_rounds b ltac:(lia)) as (m' & e' & Hr' & He' & Hsf').
  destruct (small_int_cell a Ha) as (A & eA & HcA & HvA).
  destruct (small_int_cell b Hb) as (B & eB & HcB & HvB).
  pose proof (rounds_representable _ _ _ _ _ Hr HcA HvA) as Hva.
  pose proof (rounds_representable _ _ _ _ _ Hr' HcB HvB) as Hvb.
  pose proof (rounds_cell _ _ _ Hr) as Hc. pose proof (rounds_cell _ _ _ Hr') as Hc'.
  assert (Ha1 : (1 <= inject_Z a)%Q) by (change 1%Q with (inject_Z 1); rewrite <- Zle_Qle; lia).
  assert (Hb1 : (1 <= inject_Z b)%Q) by (change 1%Q with (inject_Z 1); rewrite <- Zle_Qle; lia).
  assert (Ha2 : (inject_Z a < pow2 53)%Q).
  { rewrite (pow2_inject 53) by lia. rewrite <- Zlt_Qlt. lia. }
  assert (Hm : 0 < m).
  { destruct (Z.eq_dec m 0) as [-> | ]; [ rewrite val_0 in Hva; lra | ].
    destruct Hc as ([? _] & _). lia. }
  assert (Hm' : 0 < m').
  { destruct (Z.eq_dec m' 0) as [-> | ]; [ rewrite val_0 in Hvb; lra | ].
    destruct Hc' as ([? _] & _). lia. }
  pose proof (cell_exponent_upper m e 53 Hc Hm ltac:(lia) ltac:(rewrite Hva; exact Ha2)) as Hup.
  pose proof (cell_exponent_lower m' e' Hc' ltac:(rewrite Hvb; exact Hb1)) as Hlow.
  (* the division of the floats *)
  assert (Hq : exists m2 e2,
             rounds (inject_Z a / inject_Z b) m2 e2 /\ e2 <= emax - prec
             /\ Prim2SF (float_of_Z a / float_of_Z b) = mk m2 e2).
  { rewrite div_spec, Hsf, Hsf'.
    destruct m as [| p | p]; [ lia | | lia ]. destruct m' as [| p' | p']; [ lia | | lia ].
    cbn [mk]. unfold SF64div. cbn [SFdiv xorb].
    pose proof (div_core_locates (Z.pos p) e (Z.pos p') e' ltac:(lia) ltac:(lia)) as H.
    destruct (SFdiv_core_binary prec emax (Z.pos p) e (Z.pos p') e') as [[q eq] l].
    destruct H as (Hq0 & Hl & Heq & Hmag).
    destruct (binary_round_aux_rounds _ q eq l Hq0 Hl Heq) as (m2 & e2 & Hr2 & He2 & Hres).
    - unfold emin64, SpecFloat.emin, emax, prec in *. lia.
    - exists m2, e2. split; [ | split; [ exact He2 | exact Hres ] ].
      eapply rounds_compat; [ | exact Hr2 ]. rewrite Hva, Hvb. reflexivity. }
  destruct Hq as (m2 & e2 & Hr2 & He2 & Hsf2).
  (* the division of the integers *)
  destruct (sf_div_rounds a b ltac:(lia) ltac:(lia)) as (m3 & e3 & Hr3 & He3 & Hsf3).
  { pose proof (Zdigits2_upper a 53 ltac:(lia) ltac:(lia)).
    pose proof (Zdigits2_nonneg b). unfold emax. lia. }
  apply Prim2SF_inj. rewrite Hsf2.
  rewrite (true_divide_pos a b ltac:(lia) ltac:(lia)), Hsf3.
  rewrite Prim2SF_SF2Prim by (apply mk_valid; [ eapply rounds_cell; exact Hr3 | exact He3 ]).
  eapply rounds_unique; eassumption.
Qed.

(** The rational a finite float stands for. *)
Definition float_value (f : float) : Q :=
  match Prim2SF f with
  | S754_finite s p e => if s then (- val (Z.pos p) e)%Q else val (Z.pos p) e
  | _ => 0%Q
  end.

Lemma float_value_mk (f : float) (m e : Z) :
  0 <= m -> Prim2SF f = mk m e -> (float_value f == val m e)%Q.
Proof.
  intros Hm H. unfold float_value. rewrite H.
  destruct m as [| p | p]; [ | | lia ]; cbn [mk].
  - rewrite val_0. reflexivity.
  - reflexivity.
Qed.

Lemma rne_nearest (x : Q) (m e : Z) (l : location) :
  locates x m e l ->
  (2 * (val (round_nearest_even m l) e - x) <= pow2 e)%Q
  /\ (2 * (x - val (round_nearest_even m l) e) <= pow2 e)%Q.
Proof.
  intros Hl. pose proof (pow2_pos e) as Hw.
  assert (H1 : (val (m + 1) e == val m e + pow2 e)%Q).
  { rewrite val_plus. unfold val at 2. change (inject_Z 1) with 1%Q. ring. }
  assert (H2 : (val (2 * m + 1) e == 2 * val m e + pow2 e)%Q).
  { rewrite val_plus. unfold val. rewrite inject_Z_mult.
    change (inject_Z 1) with 1%Q. change (inject_Z 2) with 2%Q. ring. }
  destruct l as [| []]; cbn [locates round_nearest_even] in *.
  - rewrite Hl. lra.
  - destruct Hl as (Ha & Hb & Hc). cmp_to_order. rewrite H1 in Hb. rewrite H2 in Hc.
    destruct (Z.even m); rewrite ?H1; lra.
  - destruct Hl as (Ha & Hb & Hc). cmp_to_order. rewrite H1 in Hb. rewrite H2 in Hc. lra.
  - destruct Hl as (Ha & Hb & Hc). cmp_to_order. rewrite H1 in Hb. rewrite H2 in Hc.
    rewrite H1. lra.
Qed.

Definition unit_roundoff : Q := pow2 (- prec).

(** A number in the normal range is rounded with a relative error of at
    most 2^-53. *)
Lemma rounds_error (x : Q) (m e : Z) :
  rounds x m e -> (pow2 (emin64 + prec - 1) <= x)%Q ->
  (x * (1 - unit_roundoff) <= val m e)%Q /\ (val m e <= x * (1 + unit_roundoff))%Q.
Proof.
  intros Hr Hx.
  destruct (rounds_value x m e Hr) as (m1 & e1 & l1 & Hc & Hl & Hv).
  pose proof (rne_nearest x m1 e1 l1 Hl) as [Hn1 Hn2].
  pose proof (locates_bounds _ _ _ _ Hl) as [Hlo Hhi].
  pose proof (pow2_pos e1) as Hw.
  assert (Hnorm : 2 ^ (prec - 1) <= m1).
  { destruct Hc as ([_ Hm1] & [Hbig | Hmin] & _); [ exact Hbig | ].
    destruct (Z.leb_spec (2 ^ (prec - 1)) m1) as [| Hsmall]; [ assumption | exfalso ].
    subst e1.
    assert (H : (val (m1 + 1) emin64 <= val (2 ^ (prec - 1)) emin64)%Q) by (apply val_le; lia).
    rewrite val_pow2 in H by (unfold prec; lia).
    replace (prec - 1 + emin64) with (emin64 + prec - 1) in H by lia. lra. }
  assert (Hbig : (inject_Z (2 ^ (prec - 1)) * pow2 e1 <= x)%Q).
  { eapply Qle_trans; [ | exact Hlo ]. apply val_le. exact Hnorm. }
  assert (Hu : (unit_roundoff == / inject_Z (2 ^ prec))%Q) by (vm_compute; reflexivity).
  assert (Hu' : (pow2 e1 <= 2 * x * unit_roundoff)%Q).
  { setoid_replace (2 * x * unit_roundoff)%Q with (x / inject_Z (2 ^ (prec - 1)))%Q
      using relation Qeq.
    - apply Qle_shift_div_l; [ reflexivity | ]. rewrite Qmult_comm. exact Hbig.
    - rewrite Hu. vm_compute (inject_Z (2 ^ prec)). vm_compute (inject_Z (2 ^ (prec - 1))).
      field. }
  rewrite Hv. split; lra.
Qed.

(** The percentage is 100 c / t up to a relative error of 2^-51. *)
Theorem percentage_accuracy (c t : Z) :
  1 <= c <= t -> t <= 2 ^ 53 ->
  (100 * (inject_Z c / inject_Z t) * (1 - pow2 (-51)) <= float_value (percentage c t))%Q
  /\ (float_value (percentage c t) <= 100 * (inject_Z c / inject_Z t) * (1 + pow2 (-51)))%Q.
Proof.
  intros Hc Ht.
  destruct (percentage_spec c t ltac:(lia) ltac:(lia))
    as (m & e & m' & e' & Hr & Hr' & He' & Hsf).
  pose proof (rounds_cell _ _ _ Hr') as Hcell'.
  rewrite (float_value_mk _ m' e' ltac:(destruct Hcell' as ([? _] & _); lia) Hsf).
  set (x := (inject_Z c / inject_Z t)%Q) in *.
  assert (Ht' : (0 < inject_Z t)%Q) by (apply inject_Z_pos; lia).
  assert (Hx : ((1 # 9007199254740992) <= x)%Q).
  { unfold x. apply Qle_shift_div_l; [ exact Ht' | ].
    assert (H1 : (inject_Z t <= inject_Z (2 ^ 53))%Q) by (rewrite <- Zle_Qle; exact Ht).
    assert (H2 : (1 <= inject_Z c)%Q)
      by (change 1%Q with (inject_Z 1); rewrite <- Zle_Qle; lia).
    vm_compute (inject_Z (2 ^ 53)) in H1. lra. }
  assert (Hu : (unit_roundoff == (1 # 9007199254740992))%Q) by (vm_compute; reflexivity).
  assert (H51 : (pow2 (-51) == (4 # 9007199254740992))%Q) by (vm_compute; reflexivity).
  destruct (rounds_error _ _ _ Hr) as [Hq1 Hq2].
  { apply Qle_trans with (1 # 9007199254740992)%Q; [ vm_compute; discriminate | exact Hx ]. }
  destruct (rounds_error _ _ _ Hr') as [Hp1 Hp2].
  { apply Qle_trans with ((1 # 18014398509481984) * 100)%Q; [ vm_compute; discriminate | ].
    apply Qmult_le_compat_r; [ | discriminate ].
    rewrite Hu in Hq1. lra. }
  rewrite Hu in *.
  rewrite H51. split; nra.
Qed.

(** Beyond 2^53 a float no longer tells a total from the count before it. *)
Lemma percentage_beyond_exact_range : percentage (2 ^ 55 - 1) (2 ^ 55) = 100%float.
Proof. vm_compute. reflexivity. Qed.

End Binary64.

(** ** PhotoUploadService *)

Module UploadSpec.

Import Upload.

(** The declared content types [validate_file] accepts. *)
Definition accepted_types : list string :=
  ["image/jpeg"; "image/png"; "image/tiff"; "image/heic"; "application/octet-stream"].

Lemma assoc_supported_formats (content_type : string) :
  assoc content_type supported_formats = None <-> ~ In content_type accepted_types.
Proof.
  unfold supported_formats, accepted_types. simpl.
  repeat
    (match goal with
     | |- context [String.eqb ?a ?b] => destruct (String.eqb_spec a b) as [->|]
     end; [ split; [ discriminate | intros H; exfalso; apply H; tauto ] | ]).
  split; [ intros _ | reflexivity ].
  intros H. repeat (destruct H as [H | H]; [ congruence | ]). exact H.
Qed.

Lemma validate_file_result (L : libs) (fc : bytes) (fn ct : string) :
  (validate_file L fc fn ct).2 =
    if len fc >? max_file_size then Raise (FileTooLarge (len fc) max_file_size)
    else match assoc ct supported_formats with
         | None => Raise (UnsupportedType ct)
         | Some _ =>
             match image_open L fc with
             | inr e => Raise (InvalidImage e)
             | inl image =>
                 Ok {| valid := true; vr_file_size := len fc;
                       dimensions := (width image, height image);
                       vr_format := format_name image; vr_content_type := ct |}
             end
         end.
Proof.
  unfold validate_file.
  destruct (len fc >? max_file_size); [ reflexivity | ].
  destruct (assoc ct supported_formats); [ | reflexivity ].
  destruct (image_open L fc); reflexivity.
Qed.

(** The extensions [validate_file] compares the file name with, for each
    declared type. *)
Definition extensions_of (ct : string) : list string :=
  if String.eqb ct "image/jpeg" then ["jpg"; "jpeg"]
  else if String.eqb ct "image/png" then ["png"]
  else if String.eqb ct "image/tiff" then ["tiff"; "tif"]
  else if String.eqb ct "image/heic" then ["heic"; "heif"]
  else if String.eqb ct "application/octet-stream" then ["heic"; "heif"]
  else [].

Definition extension_matches (ext ct : string) : bool :=
  existsb (String.eqb ext) (extensions_of ct).

Lemma has_dot_append (s t : string) : has_dot (s ++ t) = has_dot s || has_dot t.
Proof.
  induction s as [| c s IH]; [ reflexivity | ].
  change (String c s ++ t) with (String c (s ++ t)). simpl.
  destruct (Ascii.eqb c dot); [ reflexivity | exact IH ].
Qed.

Lemma after_last_dot_append (stem ext : string) :
  has_dot ext = false -> after_last_dot (stem ++ "." ++ ext) = ext.
Proof.
  intros Hext. induction stem as [| c stem IH].
  - cbv [String.append]. simpl. rewrite Hext. reflexivity.
  - change (String c stem ++ "." ++ ext) with (String c (stem ++ "." ++ ext)).
    simpl. rewrite has_dot_append.
    replace (has_dot ("." ++ ext)) with true by reflexivity.
    rewrite orb_true_r. exact IH.
Qed.

Lemma lower_append (s t : string) : lower (s ++ t) = lower s ++ lower t.
Proof.
  induction s as [| c s IH]; [ reflexivity | ].
  change (String c s ++ t) with (String c (s ++ t)). simpl. rewrite IH. reflexivity.
Qed.

Lemma ascii_lower_dot (c : ascii) : Ascii.eqb (ascii_lower c) dot = Ascii.eqb c dot.
Proof.
  destruct c as [[] [] [] [] [] [] [] []]; reflexivity.
Qed.

Lemma has_dot_lower (s : string) : has_dot (lower s) = has_dot s.
Proof.
  induction s as [| c s IH]; [ reflexivity | ].
  simpl. rewrite ascii_lower_dot, IH. reflexivity.
Qed.

(** [file_ext] is what follows the last dot of the name, in lower case; a
    name without a dot has the extension [""]. *)
Lemma file_ext_of_spec (filename : string) :
  (has_dot filename = false -> file_ext_of filename = "")
  /\ (forall stem ext, filename = stem ++ "." ++ ext -> has_dot ext = false ->
        file_ext_of filename = lower ext).
Proof.
  split.
  - intros H. unfold file_ext_of. rewrite H. reflexivity.
  - intros stem ext -> Hext. unfold file_ext_of.
    rewrite has_dot_append. replace (has_dot ("." ++ ext)) with true by reflexivity.
    rewrite orb_true_r, !lower_append.
    apply after_last_dot_append. rewrite has_dot_lower. exact Hext.
Qed.

Lemma validate_file_log (L : libs) (fc : bytes) (fn ct : string) :
  (validate_file L fc fn ct).1
  = if len fc >? max_file_size then []
    else match assoc ct supported_formats with
         | None => []
         | Some _ =>
             if extension_matches (file_ext_of fn) ct then []
             else [ExtensionMismatch (file_ext_of fn) ct]
         end.
Proof.
  unfold validate_file.
  destruct (len fc >? max_file_size); [ reflexivity | ].
  destruct (assoc ct supported_formats) as [exts|] eqn:Hct; [ | reflexivity ].
  assert (Hexts : existsb (fun ext => String.eqb (file_ext_of fn) (lstrip_dot ext)) exts
                  = extension_matches (file_ext_of fn) ct).
  { unfold extension_matches, extensions_of. unfold supported_formats in Hct. simpl in Hct.
    repeat (match type of Hct with
            | context [String.eqb ?a ?b] =>
                destruct (String.eqb a b); [ injection Hct as <-; reflexivity | ]
            end).
    discriminate Hct. }
  rewrite Hexts.
  destruct (extension_matches (file_ext_of fn) ct), (image_open L fc); reflexivity.
Qed.

(** C10.  [validate_file] raises exactly when the payload is larger than
    50 MB, or the declared content type is not one of the five accepted
    ones, or the image decoder rejects the bytes.  The file name never
    changes the outcome.  A file that passes the size and the type test
    logs exactly one warning when the extension of its name, in lower case,
    is not one that goes with the declared type, and nothing otherwise; a
    file that fails one of these two tests logs nothing.  So a decodable
    file with a mismatched extension is accepted, with the warning.  A
    decodable file of at most 50 MB that is declared as
    [application/octet-stream] is accepted. *)
Theorem validate_file_raises_exactly (L : libs) (fc : bytes) (fn ct : string) :
  (raises (validate_file L fc fn ct).2 = true <->
     len fc > 50 * 1024 * 1024
     \/ ~ In ct accepted_types
     \/ exists e, image_open L fc = inr e)
  /\ (forall fn', (validate_file L fc fn' ct).2 = (validate_file L fc fn ct).2)
  /\ (len fc <= 50 * 1024 * 1024 -> In ct accepted_types ->
      (validate_file L fc fn ct).1
      = if extension_matches (file_ext_of fn) ct then []
        else [ExtensionMismatch (file_ext_of fn) ct])
  /\ (len fc > 50 * 1024 * 1024 \/ ~ In ct accepted_types ->
      (validate_file L fc fn ct).1 = [])
  /\ (forall image,
        len fc <= 50 * 1024 * 1024 -> In ct accepted_types ->
        extension_matches (file_ext_of fn) ct = false -> image_open L fc = inl image ->
        validate_file L fc fn ct
        = ([ExtensionMismatch (file_ext_of fn) ct],
           Ok {| valid := true; vr_file_size := len fc;
                 dimensions := (width image, height image);
                 vr_format := format_name image; vr_content_type := ct |}))
  /\ ((has_dot fn = false -> file_ext_of fn = "")
      /\ (forall stem ext, fn = stem ++ "." ++ ext -> has_dot ext = false ->
            file_ext_of fn = lower ext))
  /\ (len fc <= 50 * 1024 * 1024 -> (exists image, image_open L fc = inl image) ->
      is_ok (validate_file L fc fn "application/octet-stream").2 = true).
Proof.
  assert (Hlog : len fc <= 50 * 1024 * 1024 -> In ct accepted_types ->
                 (validate_file L fc fn ct).1
                 = if extension_matches (file_ext_of fn) ct then []
                   else [ExtensionMismatch (file_ext_of fn) ct]).
  { intros Hsmall Hin. rewrite validate_file_log. unfold max_file_size.
    destruct (Z.gtb_spec (len fc) (50 * 1024 * 1024)); [ lia | ].
    destruct (assoc ct supported_formats) eqn:Hct; [ reflexivity | ].
    apply assoc_supported_formats in Hct. contradiction. }
  split; [ | split; [ | split; [ exact Hlog | split; [ | split; [ | split ] ] ] ] ].
  - rewrite validate_file_result. unfold raises, max_file_size.
    destruct (Z.gtb_spec (len fc) (50 * 1024 * 1024)) as [Hbig | Hsmall].
    + simpl. split; [ intros _; left; lia | reflexivity ].
    + destruct (assoc ct supported_formats) as [exts|] eqn:Hct.
      * assert (Hin : ~ ~ In ct accepted_types).
        { intros Hn. apply assoc_supported_formats in Hn. congruence. }
        destruct (image_open L fc) as [image | e] eqn:Himg; simpl.
        -- split; [ discriminate | ].
           intros [Hgt | [Hn | [e He]]]; [ lia | tauto | discriminate ].
        -- split; [ intros _; right; right; eauto | reflexivity ].
      * simpl. split; [ | reflexivity ].
        intros _. right; left. apply assoc_supported_formats. exact Hct.
  - intros fn'. rewrite !validate_file_result. reflexivity.
  - intros Hbad. rewrite validate_file_log. unfold max_file_size.
    destruct (Z.gtb_spec (len fc) (50 * 1024 * 1024)) as [Hbig | Hsmall]; [ reflexivity | ].
    destruct Hbad as [Hgt | Hn]; [ lia | ].
    apply assoc_supported_formats in Hn. rewrite Hn. reflexivity.
  - intros image Hsmall Hin Hext Himg.
    rewrite (surjective_pairing (validate_file L fc fn ct)).
    rewrite (Hlog Hsmall Hin), Hext, validate_file_result. unfold max_file_size.
    destruct (Z.gtb_spec (len fc) (50 * 1024 * 1024)); [ lia | ].
    destruct (assoc ct supported_formats) eqn:Hct.
    + rewrite Himg. reflexivity.
    + apply assoc_supported_formats in Hct. contradiction.
  - apply file_ext_of_spec.
  - intros Hsmall [image Himg]. rewrite validate_file_result.
    unfold max_file_size.
    destruct (Z.gtb_spec (len fc) (50 * 1024 * 1024)); [ lia | ].
    simpl. rewrite Himg. reflexivity.
Qed.

(** A scanner that saves a JPEG under the name of another format. *)
Definition decoder : libs :=
  {| md5_hexdigest := fun _ => "9e107d9d372bb6826bd81d3542a419d6";
     image_open := fun _ => inl {| width := 4032; height := 3024; format_name := "JPEG" |};
     pil_getexif := fun _ => None;
     exifread_process_file := fun _ => None;
     strftime_compact := fun _ => "20240101_120000" |}.

Lemma validate_file_raises_exactly_witness :
  file_ext_of "scan.PNG" = "png"
  /\ validate_file decoder [Byte.xff; Byte.xd8; Byte.xff; Byte.xe1] "scan.PNG" "image/jpeg"
     = ([ExtensionMismatch "png" "image/jpeg"],
        Ok {| valid := true; vr_file_size := 4; dimensions := (4032, 3024);
              vr_format := "JPEG"; vr_content_type := "image/jpeg" |})
  /\ (validate_file decoder [Byte.xff; Byte.xd8; Byte.xff; Byte.xe1] "scan.jpeg"
        "image/jpeg").1 = [].
Proof.
  destruct (validate_file_raises_exactly decoder [Byte.xff; Byte.xd8; Byte.xff; Byte.xe1]
              "scan.PNG" "image/jpeg") as (_ & _ & _ & _ & Hwarn & [_ Hext] & _).
  destruct (validate_file_raises_exactly decoder [Byte.xff; Byte.xd8; Byte.xff; Byte.xe1]
              "scan.jpeg" "image/jpeg") as (_ & _ & Hlog & _).
  split; [ exact (Hext "scan" "PNG" eq_refl eq_refl) | ].
  split.
  - exact (Hwarn {| width := 4032; height := 3024; format_name := "JPEG" |}
             ltac:(vm_compute; discriminate) ltac:(left; reflexivity) eq_refl eq_refl).
  - exact (Hlog ltac:(vm_compute; discriminate) ltac:(left; reflexivity)).
Defined.

End UploadSpec.

(** ** GPS coordinates *)

Module GpsSpec.

Import Upload.

Definition only_latitude (d m s : float) (ref : string) : gps_data :=
  {| GPSLatitude := Some [d; m; s]; GPSLatitudeRef := Some ref;
     GPSLongitude := None; GPSLongitudeRef := None;
     GPSAltitude := None; GPSAltitudeRef := None |}.

Definition whole (n : Z) : Ratio := {| num := n; den := 1 |}.

Lemma parse_axis_dms (d m s : float) (ref negative : string) :
  parse_axis (Some [d; m; s]) (Some ref) negative =
    Some (Some (if String.eqb ref negative
                then (- (d + m / 60 + s / 3600))%float
                else (d + m / 60 + s / 3600)%float)).
Proof. unfold parse_axis, unpack3, dms. reflexivity. Qed.

Lemma convert_to_degrees_dms (r1 r2 r3 : Ratio) (x y z : float) :
  ratio_float r1 = Some x -> ratio_float r2 = Some y -> ratio_float r3 = Some z ->
  _convert_to_degrees [r1; r2; r3] = Some (x + y / 60 + z / 3600)%float.
Proof.
  intros H1 H2 H3. unfold _convert_to_degrees. simpl.
  rewrite H1. simpl. rewrite H2. simpl. rewrite H3. reflexivity.
Qed.

Lemma exifread_axis_sign (v : list Ratio) (ref negative : string) (x : float) :
  _convert_to_degrees v = Some x ->
  exifread_axis (Some v) (Some ref) negative =
    Some (if negb (PrimFloat.eqb x 0) && String.eqb ref negative then (- x)%float else x).
Proof.
  intros Hx. unfold exifread_axis. rewrite Hx. simpl.
  destruct (negb (PrimFloat.eqb x 0) && String.eqb ref negative); reflexivity.
Qed.

Lemma extract_exif_exifread_fields (L : libs) (fc : bytes) (t : exifread_tags)
    (alt : option float) :
  exifread_process_file L fc = Some t -> exifread_altitude t = Some alt ->
  get (_extract_exif_exifread L fc) latitude
    = exifread_axis (GPS_GPSLatitude t) (GPS_GPSLatitudeRef t) "S"
  /\ get (_extract_exif_exifread L fc) longitude
     = exifread_axis (GPS_GPSLongitude t) (GPS_GPSLongitudeRef t) "W"
  /\ get (_extract_exif_exifread L fc) altitude = alt.
Proof.
  intros Ht Halt. unfold _extract_exif_exifread. rewrite Ht. simpl. rewrite Halt. simpl.
  repeat split; reflexivity.
Qed.

End GpsSpec.

(** ** Coordinate resolution in [process_upload] *)

Module CoordinateSpec.

Import Upload.

Section Resolution.

Variable L : libs.
Variables (now : Z) (fc : bytes) (fn ct : string).
Variables (tags : option (list string)) (description uploader : option string).

Lemma validate_coordinates_ok (la lo : float) (alt : option float) :
  is_ok (validate_coordinates la lo alt).2 = true <->
  between (-90) la 90 = true /\ between (-180) lo 180 = true.
Proof.
  unfold validate_coordinates.
  destruct (between (-90) la 90); simpl; [ | intuition discriminate ].
  destruct (between (-180) lo 180); simpl; intuition discriminate.
Qed.

(** What a successful [process_upload] returns. *)
Lemma process_upload_ok (manual : option coordinates_dict) (pd : photo_data) :
  process_upload L now fc fn ct manual tags description uploader = Ok pd ->
  exists la lo,
    determine_coordinates manual (extract_exif_data L fc)
      = (Some la, Some lo, pd_altitude pd, pd_coordinate_source pd)
    /\ pd_latitude pd = Some la /\ pd_longitude pd = Some lo
    /\ between (-90) la 90 = true /\ between (-180) lo 180 = true
    /\ pd_hash_md5 pd = calculate_file_hash L fc
    /\ pd_file_content pd = fc
    /\ is_ok (validate_file L fc fn ct).2 = true.
Proof.
  unfold process_upload.
  destruct (validate_file L fc fn ct).2 as [vr | e]; simpl; [ | discriminate ].
  destruct (determine_coordinates manual (extract_exif_data L fc))
    as [[[lat lon] alt] source].
  destruct lat as [la|]; [ | discriminate ].
  destruct lon as [lo|]; [ | discriminate ].
  destruct (validate_coordinates la lo alt).2 as [ok | e] eqn:Hval; simpl; [ | discriminate ].
  intros Hpd. injection Hpd as <-. simpl.
  assert (Hok : is_ok (validate_coordinates la lo alt).2 = true) by (rewrite Hval; reflexivity).
  apply validate_coordinates_ok in Hok as [Hla Hlo].
  exists la, lo. repeat split; assumption.
Qed.

(** Manual coordinates win over EXIF coordinates in every upload that
    [process_upload] accepts. *)
Lemma coordinate_precedence (manual : option coordinates_dict) (pd : photo_data) :
  process_upload L now fc fn ct manual tags description uploader = Ok pd ->
  (truthy_dict manual = true ->
     pd_coordinate_source pd = src_manual
     /\ pd_latitude pd = dict_get (default [] manual) "latitude"
     /\ pd_longitude pd = dict_get (default [] manual) "longitude"
     /\ pd_altitude pd = dict_get (default [] manual) "altitude")
  /\ (truthy_dict manual = false ->
     pd_coordinate_source pd = src_exif
     /\ pd_latitude pd = get (extract_exif_data L fc) latitude
     /\ pd_longitude pd = get (extract_exif_data L fc) longitude
     /\ pd_altitude pd = get (extract_exif_data L fc) altitude).
Proof.
  intros Hpd.
  destruct (process_upload_ok manual pd Hpd) as (la & lo & Hdet & Hla & Hlo & _).
  unfold determine_coordinates in Hdet.
  destruct (truthy_dict manual).
  - split; [ intros _ | discriminate ].
    injection Hdet as H1 H2 H3 H4. rewrite Hla, Hlo. auto.
  - split; [ discriminate | intros _ ].
    destruct (truthy_float (get (extract_exif_data L fc) latitude)
              && truthy_float (get (extract_exif_data L fc) longitude));
      [ | discriminate ].
    injection Hdet as H1 H2 H3 H4. rewrite Hla, Hlo. auto.
Qed.

(** Without manual coordinates and without an EXIF latitude or longitude the
    upload is refused. *)
Lemma no_coordinates_refused :
  is_ok (validate_file L fc fn ct).2 = true ->
  get (extract_exif_data L fc) latitude = None
  \/ get (extract_exif_data L fc) longitude = None ->
  process_upload L now fc fn ct None tags description uploader = Raise NoCoordinates.
Proof.
  intros Hval Hnone. unfold process_upload.
  destruct (validate_file L fc fn ct).2 as [vr | e]; [ simpl | discriminate ].
  unfold determine_coordinates. simpl.
  destruct Hnone as [-> | ->]; simpl; [ reflexivity | ].
  rewrite andb_false_r. reflexivity.
Qed.

(** C3.  An EXIF latitude or longitude that is exactly zero is read as
    absent: a file that validates, carries a latitude (or a longitude) of
    0 degrees in its GPS tags and is uploaded without manual coordinates is
    refused with the no-coordinates error, whatever the other coordinate
    is. *)
Theorem exif_zero_coordinate_refused (la lo : option float) :
  is_ok (validate_file L fc fn ct).2 = true ->
  get (extract_exif_data L fc) latitude = la ->
  get (extract_exif_data L fc) longitude = lo ->
  la = Some 0%float \/ lo = Some 0%float ->
  process_upload L now fc fn ct None tags description uploader = Raise NoCoordinates.
Proof.
  intros Hval Hlat Hlon Hzero. unfold process_upload.
  destruct (validate_file L fc fn ct).2 as [vr | e]; [ simpl | discriminate ].
  unfold determine_coordinates. simpl.
  rewrite Hlat, Hlon. destruct Hzero as [-> | ->]; simpl; [ reflexivity | ].
  rewrite andb_false_r. reflexivity.
Qed.

End Resolution.

(** A JPEG taken on the equator at 10 degrees east: what the libraries
    answer when they read it. *)
Definition equator_gps : gps_data :=
  {| GPSLatitude := Some [0; 0; 0]%float; GPSLatitudeRef := Some "N";
     GPSLongitude := Some [10; 0; 0]%float; GPSLongitudeRef := Some "E";
     GPSAltitude := None; GPSAltitudeRef := None |}.

Definition equator_tags : exifread_tags :=
  {| GPS_GPSLatitude := Some [GpsSpec.whole 0; GpsSpec.whole 0; GpsSpec.whole 0];
     GPS_GPSLatitudeRef := Some "N";
     GPS_GPSLongitude := Some [GpsSpec.whole 10; GpsSpec.whole 0; GpsSpec.whole 0];
     GPS_GPSLongitudeRef := Some "E";
     GPS_GPSAltitude := None; GPS_GPSAltitudeRef := None;
     Image_Make := Some "Canon"; Image_Model := Some "EOS R5";
     tags_datetime := Some 1704110400000000 |}.

Definition jpeg_reader (g : gps_data) (t : exifread_tags) : libs :=
  {| md5_hexdigest := fun _ => "9e107d9d372bb6826bd81d3542a419d6";
     image_open := fun _ => inl {| width := 4032; height := 3024; format_name := "JPEG" |};
     pil_getexif := fun _ =>
       Some {| GPSInfo := g; Make := Some "Canon"; Model := Some "EOS R5";
               pil_camera_settings := None; pil_datetime := Some 1704110400000000 |};
     exifread_process_file := fun _ => Some t;
     strftime_compact := fun _ => "20240101_120000" |}.

Definition jpeg_bytes : bytes := [Byte.xff; Byte.xd8; Byte.xff; Byte.xe1].

Lemma exif_zero_coordinate_refused_witness :
  (get (extract_exif_data (jpeg_reader equator_gps equator_tags) jpeg_bytes) latitude,
   get (extract_exif_data (jpeg_reader equator_gps equator_tags) jpeg_bytes) longitude)
    = (Some 0%float, Some 10%float)
  /\ process_upload (jpeg_reader equator_gps equator_tags) 1704196800000000
       jpeg_bytes "IMG_0001.jpg" "image/jpeg" None None None None
     = Raise NoCoordinates.
Proof.
  split; [ vm_compute; reflexivity | ].
  apply (exif_zero_coordinate_refused (jpeg_reader equator_gps equator_tags)
           1704196800000000 jpeg_bytes "IMG_0001.jpg" "image/jpeg" None None None
           (Some 0%float) (Some 10%float));
    try (vm_compute; reflexivity).
  left. reflexivity.
Defined.

End CoordinateSpec.

(** ** The signs of the coordinates and of the altitude *)

Module AltitudeSpec.

Import Upload GpsSpec.

Lemma parse_altitude_bytes (g : gps_data) (a : float) (ref : bytes) :
  GPSAltitude g = Some a -> GPSAltitudeRef g = Some (IfdBytes ref) ->
  parse_altitude g = Some a.
Proof.
  intros Ha Href. unfold parse_altitude, below_sea_level. rewrite Ha, Href. reflexivity.
Qed.

Lemma extract_exif_pil_altitude (L : libs) (fc : bytes) (v : pil_view) :
  pil_getexif L fc = Some v ->
  truthy_float (get (_extract_exif_pil L fc) latitude) = true ->
  get (_extract_exif_pil L fc) altitude = parse_altitude (GPSInfo v).
Proof.
  intros Hv. unfold _extract_exif_pil, _parse_gps_coordinates. rewrite Hv. simpl.
  destruct (parse_axis (GPSLatitude (GPSInfo v)) (GPSLatitudeRef (GPSInfo v)) "S")
    as [lat|]; [ | simpl; discriminate ].
  destruct (parse_axis (GPSLongitude (GPSInfo v)) (GPSLongitudeRef (GPSInfo v)) "W")
    as [lon|]; [ | simpl; discriminate ].
  reflexivity.
Qed.

Lemma extract_exif_data_pil (L : libs) (fc : bytes) :
  truthy_float (get (_extract_exif_pil L fc) latitude) = true ->
  extract_exif_data L fc = _extract_exif_pil L fc.
Proof.
  intros Hlat. unfold extract_exif_data. rewrite Hlat. simpl.
  destruct (negb (truthy_float (get (_extract_exif_pil L fc) longitude))); reflexivity.
Qed.

(** C4.  Both EXIF readers turn degrees, minutes and seconds into
    [deg + min/60 + sec/3600].  [_parse_gps_coordinates] negates the
    latitude when its reference is ["S"] and the longitude when its reference
    is ["W"]; [_extract_exif_exifread] does so for a latitude and a longitude
    that are not zero.  With the triple (40, 30, 0) the latitude is 40.5 for
    the reference N and -40.5 for S.  [_extract_exif_exifread] negates the
    altitude when the first value of the altitude reference is 1.
    [_parse_gps_coordinates] negates the altitude exactly when the altitude
    reference is equal to the int 1.  But the EXIF standard stores
    [GPSAltitudeRef] as one BYTE, which PIL hands over as [bytes]; the test
    [gps_data.get('GPSAltitudeRef') == 1] compares it with an int and is
    false for every such value, the 1 of "below sea level" included.  So
    whenever PIL reads the coordinates of a file, the altitude that
    [_extract_exif_pil], [extract_exif_data] and [process_upload] return is
    the magnitude as it is stored, never negated. *)
Theorem dms_conversion_and_altitude_sign :
  (forall (d m s d' m' s' alt : float) (ns ew : string) (aref : option ifd_value),
     _parse_gps_coordinates
       {| GPSLatitude := Some [d; m; s]; GPSLatitudeRef := Some ns;
          GPSLongitude := Some [d'; m'; s']; GPSLongitudeRef := Some ew;
          GPSAltitude := Some alt; GPSAltitudeRef := aref |}
     = (Some (if String.eqb ns "S" then (- (d + m / 60 + s / 3600))%float
              else (d + m / 60 + s / 3600)%float),
        Some (if String.eqb ew "W" then (- (d' + m' / 60 + s' / 3600))%float
              else (d' + m' / 60 + s' / 3600)%float),
        Some (match aref with Some (IfdInt 1) => (- alt)%float | _ => alt end)))
  /\ (forall (L : libs) (fc : bytes) (t : exifread_tags) (r1 r2 r3 : Ratio)
             (x y z : float) (ns : string),
        exifread_process_file L fc = Some t -> is_Some (exifread_altitude t) ->
        GPS_GPSLatitude t = Some [r1; r2; r3] -> GPS_GPSLatitudeRef t = Some ns ->
        ratio_float r1 = Some x -> ratio_float r2 = Some y -> ratio_float r3 = Some z ->
        get (_extract_exif_exifread L fc) latitude
          = Some (if negb (PrimFloat.eqb (x + y / 60 + z / 3600) 0) && String.eqb ns "S"
                  then (- (x + y / 60 + z / 3600))%float
                  else (x + y / 60 + z / 3600)%float))
  /\ (forall (L : libs) (fc : bytes) (t : exifread_tags) (r1 r2 r3 : Ratio)
             (x y z : float) (ew : string),
        exifread_process_file L fc = Some t -> is_Some (exifread_altitude t) ->
        GPS_GPSLongitude t = Some [r1; r2; r3] -> GPS_GPSLongitudeRef t = Some ew ->
        ratio_float r1 = Some x -> ratio_float r2 = Some y -> ratio_float r3 = Some z ->
        get (_extract_exif_exifread L fc) longitude
          = Some (if negb (PrimFloat.eqb (x + y / 60 + z / 3600) 0) && String.eqb ew "W"
                  then (- (x + y / 60 + z / 3600))%float
                  else (x + y / 60 + z / 3600)%float))
  /\ (forall (L : libs) (fc : bytes) (t : exifread_tags) (r : Ratio) (rest : list Ratio)
             (a : float) (ref : Z) (refs : list Z),
        exifread_process_file L fc = Some t ->
        GPS_GPSAltitude t = Some (r :: rest) -> ratio_float r = Some a ->
        GPS_GPSAltitudeRef t = Some (ref :: refs) ->
        get (_extract_exif_exifread L fc) altitude
          = Some (if ref =? 1 then (- a)%float else a))
  /\ _parse_gps_coordinates (only_latitude 40 30 0 "N") = (Some 40.5%float, None, None)
  /\ _parse_gps_coordinates (only_latitude 40 30 0 "S") = (Some (-40.5)%float, None, None)
  /\ exifread_axis (Some [whole 40; whole 30; whole 0]) (Some "N") "S" = Some 40.5%float
  /\ exifread_axis (Some [whole 40; whole 30; whole 0]) (Some "S") "S" = Some (-40.5)%float
  /\ (forall (L : libs) (fc : bytes) (v : pil_view) (a : float) (ref : bytes),
        pil_getexif L fc = Some v ->
        GPSAltitude (GPSInfo v) = Some a ->
        GPSAltitudeRef (GPSInfo v) = Some (IfdBytes ref) ->
        truthy_float (get (_extract_exif_pil L fc) latitude) = true ->
        (_parse_gps_coordinates (GPSInfo v)).2 = Some a
        /\ get (_extract_exif_pil L fc) altitude = Some a
        /\ get (extract_exif_data L fc) altitude = Some a
        /\ (forall now fn ct tags description uploader pd,
              process_upload L now fc fn ct None tags description uploader = Ok pd ->
              pd_altitude pd = Some a /\ pd_coordinate_source pd = src_exif)).
Proof.
  split; [ | split; [ | split; [ | split; [ | split; [ | split; [ | split; [ | split ] ] ] ] ] ] ].
  - intros. unfold _parse_gps_coordinates.
    cbn [GPSLatitude GPSLatitudeRef GPSLongitude GPSLongitudeRef].
    rewrite !parse_axis_dms. unfold parse_altitude, below_sea_level. simpl.
    destruct aref as [[b | [| [p | p |] | p]] |]; reflexivity.
  - intros L fc t r1 r2 r3 x y z ns Ht [alt Halt] Hv Hr H1 H2 H3.
    destruct (extract_exif_exifread_fields L fc t alt Ht Halt) as (-> & _ & _).
    rewrite Hv, Hr. apply exifread_axis_sign.
    apply convert_to_degrees_dms; assumption.
  - intros L fc t r1 r2 r3 x y z ew Ht [alt Halt] Hv Hr H1 H2 H3.
    destruct (extract_exif_exifread_fields L fc t alt Ht Halt) as (_ & -> & _).
    rewrite Hv, Hr. apply exifread_axis_sign.
    apply convert_to_degrees_dms; assumption.
  - intros L fc t r rest a ref refs Ht Halt Ha Href.
    assert (Hal : exifread_altitude t = Some (Some (if ref =? 1 then (- a)%float else a))).
    { unfold exifread_altitude. rewrite Halt, Href. simpl. rewrite Ha. reflexivity. }
    destruct (extract_exif_exifread_fields L fc t _ Ht Hal) as (_ & _ & ->). reflexivity.
  - vm_compute. reflexivity.
  - vm_compute. reflexivity.
  - vm_compute. reflexivity.
  - vm_compute. reflexivity.
  - intros L fc v a ref Hv Ha Href Hlat.
    pose proof (extract_exif_pil_altitude L fc v Hv Hlat) as Hpil.
    rewrite (parse_altitude_bytes _ a ref Ha Href) in Hpil.
    pose proof (extract_exif_data_pil L fc Hlat) as Hdata.
    split; [ | split; [ exact Hpil | split ] ].
    + unfold _extract_exif_pil in Hpil. rewrite Hv in Hpil. simpl in Hpil.
      destruct (_parse_gps_coordinates (GPSInfo v)) as [[lat lon] alt]. exact Hpil.
    + rewrite Hdata. exact Hpil.
    + intros now fn ct tags description uploader pd Hpd.
      apply CoordinateSpec.process_upload_ok in Hpd.
      destruct Hpd as (la & lo & Hdet & _).
      unfold determine_coordinates in Hdet. simpl in Hdet.
      destruct (truthy_float (get (extract_exif_data L fc) latitude)
                && truthy_float (get (extract_exif_data L fc) longitude));
        [ | discriminate ].
      injection Hdet as _ _ Halt Hsrc. rewrite <- Halt, <- Hsrc, Hdata, Hpil. auto.
Qed.

(** A JPEG taken on the shore of the Dead Sea, 430 m below sea level
    (31.5 N, 35.5 E): the GPS IFD as PIL reads it, and the tags as exifread
    reads them. *)
Definition dead_sea_gps : gps_data :=
  {| GPSLatitude := Some [31; 30; 0]%float; GPSLatitudeRef := Some "N";
     GPSLongitude := Some [35; 30; 0]%float; GPSLongitudeRef := Some "E";
     GPSAltitude := Some 430%float; GPSAltitudeRef := Some (IfdBytes [Byte.x01]) |}.

Definition dead_sea_tags : exifread_tags :=
  {| GPS_GPSLatitude := Some [whole 31; whole 30; whole 0];
     GPS_GPSLatitudeRef := Some "N";
     GPS_GPSLongitude := Some [whole 35; whole 30; whole 0];
     GPS_GPSLongitudeRef := Some "E";
     GPS_GPSAltitude := Some [whole 430]; GPS_GPSAltitudeRef := Some [1];
     Image_Make := Some "Canon"; Image_Model := Some "EOS R5";
     tags_datetime := Some 1704110400000000 |}.

Definition dead_sea_reader : libs := CoordinateSpec.jpeg_reader dead_sea_gps dead_sea_tags.

Lemma dms_conversion_and_altitude_sign_witness :
  get (_extract_exif_exifread dead_sea_reader CoordinateSpec.jpeg_bytes) altitude
    = Some (-430)%float
  /\ get (extract_exif_data dead_sea_reader CoordinateSpec.jpeg_bytes) altitude
     = Some 430%float
  /\ exists pd,
       process_upload dead_sea_reader 1704196800000000 CoordinateSpec.jpeg_bytes
         "IMG_0001.jpg" "image/jpeg" None None None None = Ok pd
       /\ pd_latitude pd = Some 31.5%float /\ pd_longitude pd = Some 35.5%float
       /\ pd_altitude pd = Some 430%float.
Proof.
  destruct (proj2 (proj2 (proj2 (proj2 (proj2 (proj2 (proj2 (proj2
              dms_conversion_and_altitude_sign)))))))
              dead_sea_reader CoordinateSpec.jpeg_bytes
              {| GPSInfo := dead_sea_gps; Make := Some "Canon"; Model := Some "EOS R5";
                 pil_camera_settings := None; pil_datetime := Some 1704110400000000 |}
              430%float [Byte.x01] eq_refl eq_refl eq_refl eq_refl)
    as (_ & _ & Hdata & Hupload).
  split; [ vm_compute; reflexivity | ]. split; [ exact Hdata | ].
  destruct (process_upload dead_sea_reader 1704196800000000 CoordinateSpec.jpeg_bytes
              "IMG_0001.jpg" "image/jpeg" None None None None) as [pd | e] eqn:Hpd;
    [ | vm_compute in Hpd; discriminate ].
  exists pd. split; [ reflexivity | ].
  destruct (Hupload _ _ _ _ _ _ pd Hpd) as [Halt _].
  split; [ | split; [ | exact Halt ] ].
  - vm_compute in Hpd. injection Hpd as <-. reflexivity.
  - vm_compute in Hpd. injection Hpd as <-. reflexivity.
Defined.

End AltitudeSpec.

(** ** The retry policy of the ingestion worker *)

Module RetrySpec.

Import Upload Processor.

(** The blob deletions and the sleeps found in a trace, in order. *)
Definition deletions (t : list event) : list (string * option Z) :=
  omap (fun ev => match ev with BlobDelete f ts => Some (f, ts) | _ => None end) t.

Definition sleeps (t : list event) : list Z :=
  omap (fun ev => match ev with Sleep n => Some n | _ => None end) t.

(** An attempt whose [try] block raises whatever photo it is given. *)
Definition always_fails (A : attempt) : Prop :=
  forall pd, raises (pipeline A pd).2 = true.

Lemma deletions_app (t u : list event) :
  deletions (t ++ u)%list = (deletions t ++ deletions u)%list.
Proof. unfold deletions. apply omap_app. Qed.

Lemma sleeps_app (t u : list event) :
  sleeps (t ++ u)%list = (sleeps t ++ sleeps u)%list.
Proof. unfold sleeps. apply omap_app. Qed.

(** The [try] block uploads and inserts; it neither sleeps nor deletes. *)
Lemma pipeline_calls (A : attempt) (pd : photo_data) :
  deletions (pipeline A pd).1 = [] /\ sleeps (pipeline A pd).1 = [].
Proof.
  unfold pipeline.
  destruct (truthy_float (pd_latitude pd) && truthy_float (pd_longitude pd)).
  - destruct (pd_latitude pd) as [la|], (pd_longitude pd) as [lo|];
      try destruct (validate_coordinates la lo (pd_altitude pd)).2;
      try (split; reflexivity);
      destruct (upload A); try (split; reflexivity);
      destruct (make_photo A pd r); try (split; reflexivity);
      destruct (create_photo_error A); split; reflexivity.
  - destruct (upload A); try (split; reflexivity).
    destruct (make_photo A pd r); try (split; reflexivity).
    destruct (create_photo_error A); split; reflexivity.
Qed.

Lemma timeout_always_fails (A : attempt) :
  upload A = UploadTimeout -> always_fails A.
Proof.
  intros Hup pd. unfold pipeline. rewrite Hup.
  destruct (truthy_float (pd_latitude pd) && truthy_float (pd_longitude pd));
    [ | reflexivity ].
  destruct (pd_latitude pd) as [la|], (pd_longitude pd) as [lo|]; try reflexivity.
  destruct (validate_coordinates la lo (pd_altitude pd)).2; reflexivity.
Qed.

(** The handler of [_process_photo_job] when the [try] block raised. *)
Lemma process_failed (A : attempt) (j : job) (w : world) :
  raises (pipeline A (apply_conversion A (job_photo_data j))).2 = true ->
  let pd := apply_conversion A (job_photo_data j) in
  let calls := (pipeline A pd).1 in
  let rc := retry_count j + 1 in
  exists e,
    (pipeline A pd).2 = Raise e
    /\ _process_photo_job A j w =
       if rc <? 3 then
         (set_job j pd RETRY rc (Some e) (photo_id j),
          {| queue := (queue w ++ [set_job j pd RETRY rc (Some e) (photo_id j)])%list;
             store := store w;
             trace := (trace w ++ calls ++ [Sleep (5 * rc); Requeue (job_id j)])%list |})
       else
         (set_job j pd FAILED rc (Some e) (photo_id j),
          {| queue := queue w;
             store := store w;
             trace := (trace w ++ calls
                         ++ [BlobDelete (pd_filename pd) (pd_timestamp pd)])%list |}).
Proof.
  intros Hfail pd calls rc. subst pd calls rc.
  unfold _process_photo_job, max_retries, retry_delay.
  destruct (pipeline A (apply_conversion A (job_photo_data j))) as [calls [photo | e]];
    simpl in *; [ discriminate | ].
  exists e. split; [ reflexivity | ].
  destruct (retry_count j + 1 <? 3); reflexivity.
Qed.

(** C2.  When the [try] block of a job raises, the worker adds one to the
    job's retry count.  While the new count is below 3 it marks the job
    [RETRY], sleeps [retry_delay] times the count and then puts the job back
    at the end of the queue; from 3 on it marks the job [FAILED], leaves the
    queue alone and asks the blob store, once, to delete the photo with the
    job's file name and timestamp.  A job that fails three times in a row
    therefore slept 5 and then 10 seconds, is no longer queued, and caused
    exactly one deletion. *)
Theorem failed_attempt_retries_then_fails :
  (forall (A : attempt) (j : job) (w : world),
     raises (pipeline A (apply_conversion A (job_photo_data j))).2 = true ->
     let pd := apply_conversion A (job_photo_data j) in
     let j' := (_process_photo_job A j w).1 in
     let w' := (_process_photo_job A j w).2 in
     retry_count j' = retry_count j + 1
     /\ store w' = store w
     /\ (retry_count j' < 3 ->
         status j' = RETRY
         /\ queue w' = (queue w ++ [j'])%list
         /\ exists calls,
              trace w' = (trace w ++ calls
                            ++ [Sleep (retry_delay * retry_count j'); Requeue (job_id j)])%list
              /\ sleeps calls = [] /\ deletions calls = [])
     /\ (3 <= retry_count j' ->
         status j' = FAILED
         /\ queue w' = queue w
         /\ exists calls,
              trace w' = (trace w ++ calls
                            ++ [BlobDelete (pd_filename pd) (pd_timestamp pd)])%list
              /\ sleeps calls = [] /\ deletions calls = []))
  /\ (forall (A1 A2 A3 : attempt) (j : job),
        retry_count j = 0 ->
        always_fails A1 -> always_fails A2 -> always_fails A3 ->
        let pd := apply_conversion A3 (apply_conversion A2
                    (apply_conversion A1 (job_photo_data j))) in
        let w := start_processing [A1; A2; A3]
                   {| queue := [j]; store := []; trace := [] |} in
        queue w = [] /\ store w = []
        /\ sleeps (trace w) = [5; 10]
        /\ deletions (trace w) = [(pd_filename pd, pd_timestamp pd)]).
Proof.
  split.
  - intros A j w Hfail pd j' w'. subst pd j' w'.
    destruct (process_failed A j w Hfail) as (e & _ & ->).
    destruct (pipeline_calls A (apply_conversion A (job_photo_data j))) as [Hdel Hsl].
    unfold retry_delay.
    destruct (Z.ltb_spec (retry_count j + 1) 3) as [Hlt | Hge]; simpl.
    + repeat split; try lia; eauto.
    + repeat split; try lia; eauto.
  - intros A1 A2 A3 j Hrc H1 H2 H3 pd w. subst pd w.
    unfold start_processing, worker_turn. simpl.
    destruct (process_failed A1 j {| queue := []; store := []; trace := [] |}
                (H1 _)) as (e1 & _ & ->).
    rewrite Hrc. simpl.
    match goal with
    | |- context [_process_photo_job A2 ?j1 ?w1] =>
        destruct (process_failed A2 j1 w1 (H2 _)) as (e2 & _ & ->)
    end.
    simpl. rewrite ?Hrc. simpl.
    match goal with
    | |- context [_process_photo_job A3 ?j2 ?w2] =>
        destruct (process_failed A3 j2 w2 (H3 _)) as (e3 & _ & ->)
    end.
    simpl. rewrite ?Hrc. simpl.
    rewrite !sleeps_app, !deletions_app.
    destruct (pipeline_calls A1 (apply_conversion A1 (job_photo_data j))) as [-> ->].
    destruct (pipeline_calls A2 (apply_conversion A2
                (apply_conversion A1 (job_photo_data j)))) as [-> ->].
    destruct (pipeline_calls A3 (apply_conversion A3 (apply_conversion A2
                (apply_conversion A1 (job_photo_data j))))) as [-> ->].
    repeat split; reflexivity.
Qed.

(** A photo as [process_upload] hands it to the queue, and an attempt during
    which the blob upload times out. *)
Definition sample_photo_data : photo_data :=
  {| pd_filename := "photo_20240102_120000_9e107d9d.jpg";
     pd_original_filename := "IMG_0001.jpg";
     pd_latitude := Some 39.0269%float;
     pd_longitude := Some (-86.948)%float;
     pd_altitude := None;
     pd_timestamp := Some 1704110400000000;
     pd_file_size := 4;
     pd_mime_type := "image/jpeg";
     pd_camera_make := Some "Canon";
     pd_camera_model := Some "EOS R5";
     pd_camera_settings := None;
     pd_tags := [];
     pd_description := None;
     pd_uploader_id := None;
     pd_hash_md5 := "9e107d9d372bb6826bd81d3542a419d6";
     pd_processing_status := "pending";
     pd_coordinate_source := src_exif;
     pd_file_content := [Byte.xff; Byte.xd8; Byte.xff; Byte.xe1];
     pd_validation_result :=
       {| valid := true; vr_file_size := 4; dimensions := (4032, 3024);
          vr_format := "JPEG"; vr_content_type := "image/jpeg" |} |}.

Definition sample_job (retries : Z) : job :=
  {| job_id := "job_20240102_120000_9e107d9d";
     job_photo_data := sample_photo_data;
     status := if retries =? 0 then PENDING else RETRY;
     created_at := 1704196800000000;
     retry_count := retries;
     error_message := if retries =? 0 then None else Some BlobUploadTimeout;
     photo_id := None |}.

Definition timeout_attempt : attempt :=
  {| heic_to_jpeg := fun _ => None;
     optimize_large := fun _ => None;
     upload := UploadTimeout;
     uuid4 := "123e4567-e89b-12d3-a456-426614174000";
     create_photo_error := None |}.

Definition idle : world := {| queue := []; store := []; trace := [] |}.

Lemma failed_attempt_retries_then_fails_witness :
  raises (pipeline timeout_attempt
            (apply_conversion timeout_attempt (job_photo_data (sample_job 2)))).2 = true
  /\ status (_process_photo_job timeout_attempt (sample_job 2) idle).1 = FAILED
  /\ trace (_process_photo_job timeout_attempt (sample_job 2) idle).2
     = [BlobUpload "photo_20240102_120000_9e107d9d.jpg" (Some 1704110400000000) true;
        BlobDelete "photo_20240102_120000_9e107d9d.jpg" (Some 1704110400000000)]
  /\ status (_process_photo_job timeout_attempt (sample_job 1) idle).1 = RETRY
  /\ sleeps (trace (_process_photo_job timeout_attempt (sample_job 1) idle).2) = [10].
Proof.
  assert (Hfail : forall n,
             raises (pipeline timeout_attempt
                       (apply_conversion timeout_attempt (job_photo_data (sample_job n)))).2
             = true)
    by (intros n; apply timeout_always_fails; reflexivity).
  split; [ apply Hfail | ].
  pose proof (proj1 failed_attempt_retries_then_fails timeout_attempt (sample_job 2) idle
                (Hfail 2)) as (_ & _ & _ & Hfailed).
  pose proof (proj1 failed_attempt_retries_then_fails timeout_attempt (sample_job 1) idle
                (Hfail 1)) as (_ & _ & Hretry & _).
  destruct Hfailed as (Hst & _ & _); [ vm_compute; discriminate | ].
  destruct Hretry as (Hst' & _ & _); [ vm_compute; reflexivity | ].
  split; [ exact Hst | ].
  split; [ vm_compute; reflexivity | ].
  split; [ exact Hst' | vm_compute; reflexivity ].
Defined.

End RetrySpec.

(** ** Duplicate detection on upload *)

Module DedupSpec.

Import Upload Processor PhotoRoutes.

Lemma apply_conversion_keeps (A : attempt) (pd : photo_data) :
  pd_hash_md5 (apply_conversion A pd) = pd_hash_md5 pd
  /\ pd_latitude (apply_conversion A pd) = pd_latitude pd
  /\ pd_longitude (apply_conversion A pd) = pd_longitude pd
  /\ pd_timestamp (apply_conversion A pd) = pd_timestamp pd.
Proof.
  unfold apply_conversion.
  destruct (converted _); repeat split; reflexivity.
Qed.

(** A photo that the [try] block stored carries the id pydantic drew and
    the hash of the upload. *)
Lemma pipeline_stores (A : attempt) (pd : photo_data) (calls : list event)
    (photo : PhotoModel.Photo) :
  pipeline A pd = (calls, Ok photo) ->
  PhotoModel.id photo = uuid4 A /\ PhotoModel.hash_md5 photo = pd_hash_md5 pd.
Proof.
  unfold pipeline.
  destruct (if truthy_float (pd_latitude pd) && truthy_float (pd_longitude pd)
            then _ else _) as [[] | e]; [ | discriminate ].
  destruct (upload A) as [u | | msg]; try discriminate.
  destruct (make_photo A pd u) as [p|] eqn:Hmk; [ | discriminate ].
  destruct (create_photo_error A); [ discriminate | ].
  intros Heq. injection Heq as _ <-.
  unfold make_photo in Hmk.
  destruct (pd_latitude pd), (pd_longitude pd), (pd_timestamp pd);
    simpl in Hmk; try discriminate.
  injection Hmk as <-. split; reflexivity.
Qed.

Lemma get_photos_by_hash_app (db : PhotoModel.collection) (p : PhotoModel.Photo)
    (h : string) :
  PhotoModel.get_photos_by_hash (db ++ [p])%list h =
    (PhotoModel.get_photos_by_hash db h
       ++ (if String.eqb (PhotoModel.hash_md5 p) h then [p] else []))%list.
Proof.
  unfold PhotoModel.get_photos_by_hash. rewrite List.filter_app. reflexivity.
Qed.

Section Submissions.

Variable L : libs.
Variables (fc : bytes) (fn ct : string) (tags description uploader : option string).

(** A submission whose hash is already in the collection. *)
Lemma upload_of_stored_photo (now : Z) (a : app) (pd : photo_data)
    (existing : PhotoModel.Photo) (others : list PhotoModel.Photo) :
  process_upload L now fc fn ct None (parse_tags tags) description uploader = Ok pd ->
  PhotoModel.get_photos_by_hash (store (world a)) (calculate_file_hash L fc)
    = existing :: others ->
  upload_photo L now fc fn ct tags description uploader a
    = (Duplicate (PhotoModel.id existing) (PhotoModel.id existing), a).
Proof.
  intros Hpd Hstored. unfold upload_photo, submit. rewrite Hpd.
  destruct (CoordinateSpec.process_upload_ok L now fc fn ct _ _ _ None pd Hpd)
    as (_ & _ & _ & _ & _ & _ & _ & Hhash & _).
  rewrite Hhash, Hstored. reflexivity.
Qed.

(** A submission whose hash is not in the collection. *)
Lemma upload_of_new_photo (now : Z) (a : app) (pd : photo_data) :
  process_upload L now fc fn ct None (parse_tags tags) description uploader = Ok pd ->
  PhotoModel.get_photos_by_hash (store (world a)) (calculate_file_hash L fc) = [] ->
  processor_registered a = true ->
  exists job_id j,
    upload_photo L now fc fn ct tags description uploader a
      = (Queued job_id pd,
         {| processor_registered := true;
            world := {| queue := (queue (world a) ++ [j])%list;
                        store := store (world a);
                        trace := trace (world a) |} |})
    /\ job_photo_data j = pd /\ status j = PENDING /\ retry_count j = 0.
Proof.
  intros Hpd Hnew Hreg. unfold upload_photo, submit. rewrite Hpd.
  destruct (CoordinateSpec.process_upload_ok L now fc fn ct _ _ _ None pd Hpd)
    as (_ & _ & _ & _ & _ & _ & _ & Hhash & _).
  rewrite Hhash, Hnew, Hreg. unfold queue_photo_for_processing.
  eexists _, _. split; [ reflexivity | ]. repeat split; reflexivity.
Qed.

(** Two submissions of the same bytes with no worker turn in between are
    both queued, whatever the libraries answer. *)
Lemma resubmission_is_queued_again (now1 now2 : Z) (a : app) (pd1 pd2 : photo_data) :
  process_upload L now1 fc fn ct None (parse_tags tags) description uploader = Ok pd1 ->
  process_upload L now2 fc fn ct None (parse_tags tags) description uploader = Ok pd2 ->
  PhotoModel.get_photos_by_hash (store (world a)) (calculate_file_hash L fc) = [] ->
  processor_registered a = true ->
  exists id1 id2 j1 j2,
    (upload_photo L now1 fc fn ct tags description uploader a).1 = Queued id1 pd1
    /\ upload_photo L now2 fc fn ct tags description uploader
         (upload_photo L now1 fc fn ct tags description uploader a).2
       = (Queued id2 pd2,
          {| processor_registered := true;
             world := {| queue := (queue (world a) ++ [j1; j2])%list;
                         store := store (world a);
                         trace := trace (world a) |} |})
    /\ pd_hash_md5 (job_photo_data j1) = pd_hash_md5 (job_photo_data j2).
Proof.
  intros Hpd1 Hpd2 Hnew Hreg.
  destruct (upload_of_new_photo now1 a pd1 Hpd1 Hnew Hreg) as (id1 & j1 & Hup1 & Hj1 & _).
  rewrite Hup1. simpl.
  match goal with
  | |- context [upload_photo L now2 fc fn ct tags description uploader ?a1] =>
      destruct (upload_of_new_photo now2 a1 pd2 Hpd2 Hnew eq_refl)
        as (id2 & j2 & Hup2 & Hj2 & _)
  end.
  exists id1, id2, j1, j2. split; [ reflexivity | ].
  split; [ rewrite Hup2; simpl; rewrite <- app_assoc; reflexivity | ].
  rewrite Hj1, Hj2.
  destruct (CoordinateSpec.process_upload_ok L now1 fc fn ct _ _ _ None pd1 Hpd1)
    as (_ & _ & _ & _ & _ & _ & _ & -> & _).
  destruct (CoordinateSpec.process_upload_ok L now2 fc fn ct _ _ _ None pd2 Hpd2)
    as (_ & _ & _ & _ & _ & _ & _ & -> & _).
  reflexivity.
Qed.

End Submissions.

(** C1 (as amended).  The content hash is a function of the bytes alone.  A
    submission that [process_upload] accepts is compared with the records
    already in the collection: if one has the same hash, the answer is
    "duplicate" with the id of the first such record, and neither the queue
    nor the collection changes (the existing record is not updated); if none
    has, the submission is queued and the collection is unchanged.  Hence a
    second submission of the same bytes that arrives after the worker stored
    the first one resolves to the id of that record. *)
Theorem duplicate_detected_against_stored_records
    (L : libs) (fc : bytes) (fn ct : string) (tags description uploader : option string) :
  (forall fc', fc' = fc -> calculate_file_hash L fc' = calculate_file_hash L fc)
  /\ (forall (now : Z) (a : app) (pd : photo_data)
             (existing : PhotoModel.Photo) (others : list PhotoModel.Photo),
        process_upload L now fc fn ct None (parse_tags tags) description uploader = Ok pd ->
        PhotoModel.get_photos_by_hash (store (world a)) (calculate_file_hash L fc)
          = existing :: others ->
        upload_photo L now fc fn ct tags description uploader a
          = (Duplicate (PhotoModel.id existing) (PhotoModel.id existing), a))
  /\ (forall (now : Z) (a : app) (pd : photo_data),
        process_upload L now fc fn ct None (parse_tags tags) description uploader = Ok pd ->
        PhotoModel.get_photos_by_hash (store (world a)) (calculate_file_hash L fc) = [] ->
        processor_registered a = true ->
        exists job_id j,
          upload_photo L now fc fn ct tags description uploader a
            = (Queued job_id pd,
               {| processor_registered := true;
                  world := {| queue := (queue (world a) ++ [j])%list;
                              store := store (world a);
                              trace := trace (world a) |} |})
          /\ job_photo_data j = pd /\ status j = PENDING /\ retry_count j = 0)
  /\ (forall (now1 now2 : Z) (A : attempt) (a : app) (pd1 pd2 : photo_data)
             (calls : list event) (photo : PhotoModel.Photo),
        processor_registered a = true ->
        queue (world a) = [] ->
        PhotoModel.get_photos_by_hash (store (world a)) (calculate_file_hash L fc) = [] ->
        process_upload L now1 fc fn ct None (parse_tags tags) description uploader = Ok pd1 ->
        process_upload L now2 fc fn ct None (parse_tags tags) description uploader = Ok pd2 ->
        pipeline A (apply_conversion A pd1) = (calls, Ok photo) ->
        let a1 := (upload_photo L now1 fc fn ct tags description uploader a).2 in
        let a2 := PhotoRoutes.worker_turn A a1 in
        store (world a2) = (store (world a) ++ [photo])%list
        /\ upload_photo L now2 fc fn ct tags description uploader a2
           = (Duplicate (uuid4 A) (uuid4 A), a2)).
Proof.
  split; [ intros fc' ->; reflexivity | ].
  split; [ intros; eapply upload_of_stored_photo; eassumption | ].
  split; [ intros; eapply upload_of_new_photo; eassumption | ].
  intros now1 now2 A a pd1 pd2 calls photo Hreg Hq Hnew Hpd1 Hpd2 Hrun a1 a2.
  destruct (upload_of_new_photo L fc fn ct tags description uploader now1 a pd1
              Hpd1 Hnew Hreg) as (job_id & j & Hup & Hj & _).
  assert (Hstore : store (world a2) = (store (world a) ++ [photo])%list).
  { subst a2 a1. rewrite Hup. simpl. unfold Processor.worker_turn. simpl.
    rewrite Hq. simpl. unfold _process_photo_job. rewrite Hj, Hrun. reflexivity. }
  split; [ exact Hstore | ].
  destruct (pipeline_stores A _ calls photo Hrun) as [Hid Hhash].
  destruct (apply_conversion_keeps A pd1) as (Hkeep & _).
  destruct (CoordinateSpec.process_upload_ok L now1 fc fn ct _ _ _ None pd1 Hpd1)
    as (_ & _ & _ & _ & _ & _ & _ & Hmd5 & _).
  rewrite <- Hid.
  eapply upload_of_stored_photo; [ exact Hpd2 | ].
  rewrite Hstore, get_photos_by_hash_app, Hnew, Hhash, Hkeep, Hmd5.
  rewrite String.eqb_refl. reflexivity.
Qed.

(** A JPEG taken near Bloomington, Indiana (39.0269 N, 86.9480 W), as the
    libraries read it, and an attempt during which every collaborator
    answers. *)
Definition bloomington_gps : gps_data :=
  {| GPSLatitude := Some [39; 1; 36.84]%float; GPSLatitudeRef := Some "N";
     GPSLongitude := Some [86; 56; 52.8]%float; GPSLongitudeRef := Some "W";
     GPSAltitude := Some 235%float; GPSAltitudeRef := Some (IfdBytes [Byte.x00]) |}.

Definition bloomington_tags : exifread_tags :=
  {| GPS_GPSLatitude := Some [GpsSpec.whole 39; GpsSpec.whole 1; {| num := 3684; den := 100 |}];
     GPS_GPSLatitudeRef := Some "N";
     GPS_GPSLongitude := Some [GpsSpec.whole 86; GpsSpec.whole 56; {| num := 528; den := 10 |}];
     GPS_GPSLongitudeRef := Some "W";
     GPS_GPSAltitude := Some [GpsSpec.whole 235]; GPS_GPSAltitudeRef := Some [0];
     Image_Make := Some "Canon"; Image_Model := Some "EOS R5";
     tags_datetime := Some 1704110400000000 |}.

Definition photo_reader : libs :=
  CoordinateSpec.jpeg_reader bloomington_gps bloomington_tags.

Definition stored_as (uuid : string) : attempt :=
  {| heic_to_jpeg := fun _ => None;
     optimize_large := fun _ => None;
     upload := UploadOk {| photo_url := "https://photos.blob.core.windows.net/uploads/2024/01/photo.jpg";
                           ur_thumbnail_urls := [] |};
     uuid4 := uuid;
     create_photo_error := None |}.

Definition started : app :=
  {| processor_registered := true;
     world := {| queue := []; store := []; trace := [] |} |}.

Definition upload_jpeg (now : Z) (a : app) : response * app :=
  upload_photo photo_reader now CoordinateSpec.jpeg_bytes "IMG_0001.jpg" "image/jpeg"
    None None None a.

Definition is_duplicate (r : response) : bool :=
  match r with Duplicate _ _ => true | _ => false end.

Definition is_queued (r : response) : bool :=
  match r with Queued _ _ => true | _ => false end.

(** The same bytes submitted twice before the worker has stored the first
    submission: the second one is queued, not reported as a duplicate, and
    the worker then stores two records with the same hash. *)
Lemma resubmission_before_persistence_is_queued :
  is_duplicate (upload_jpeg 1704196801000000 (upload_jpeg 1704196800000000 started).2).1
    = false
  /\ is_queued (upload_jpeg 1704196801000000 (upload_jpeg 1704196800000000 started).2).1
    = true
  /\ map (fun j => pd_hash_md5 (job_photo_data j))
       (queue (world (upload_jpeg 1704196801000000
                        (upload_jpeg 1704196800000000 started).2).2))
     = ["9e107d9d372bb6826bd81d3542a419d6"; "9e107d9d372bb6826bd81d3542a419d6"]
  /\ map PhotoModel.hash_md5
       (store (world
          (PhotoRoutes.worker_turn (stored_as "7c9e6679-7425-40de-944b-e07fc1f90ae7")
             (PhotoRoutes.worker_turn (stored_as "123e4567-e89b-12d3-a456-426614174000")
                (upload_jpeg 1704196801000000
                   (upload_jpeg 1704196800000000 started).2).2))))
     = ["9e107d9d372bb6826bd81d3542a419d6"; "9e107d9d372bb6826bd81d3542a419d6"].
Proof.
  split; [ vm_compute; reflexivity | ].
  split; [ vm_compute; reflexivity | ].
  split; vm_compute; reflexivity.
Qed.

(** The amended claim at work: once the worker stored the first submission,
    the second is answered with the id of that record. *)
Lemma duplicate_detected_against_stored_records_witness :
  is_ok (process_upload photo_reader 1704196800000000 CoordinateSpec.jpeg_bytes
           "IMG_0001.jpg" "image/jpeg" None None None None) = true
  /\ (upload_jpeg 1704196801000000
        (PhotoRoutes.worker_turn (stored_as "123e4567-e89b-12d3-a456-426614174000")
           (upload_jpeg 1704196800000000 started).2)).1
     = Duplicate "123e4567-e89b-12d3-a456-426614174000"
         "123e4567-e89b-12d3-a456-426614174000".
Proof.
  split; [ vm_compute; reflexivity | ].
  destruct (process_upload photo_reader 1704196800000000 CoordinateSpec.jpeg_bytes
              "IMG_0001.jpg" "image/jpeg" None None None None) as [pd1 | e] eqn:H1;
    [ | vm_compute in H1; discriminate ].
  destruct (process_upload photo_reader 1704196801000000 CoordinateSpec.jpeg_bytes
              "IMG_0001.jpg" "image/jpeg" None None None None) as [pd2 | e] eqn:H2;
    [ | vm_compute in H2; discriminate ].
  destruct (pipeline (stored_as "123e4567-e89b-12d3-a456-426614174000")
              (apply_conversion (stored_as "123e4567-e89b-12d3-a456-426614174000") pd1))
    as [calls [photo | e]] eqn:Hrun.
  - unfold upload_jpeg.
    rewrite (proj2 (proj2 (proj2 (proj2
               (duplicate_detected_against_stored_records photo_reader
                  CoordinateSpec.jpeg_bytes "IMG_0001.jpg" "image/jpeg" None None None)))
               1704196800000000 1704196801000000
               (stored_as "123e4567-e89b-12d3-a456-426614174000") started pd1 pd2
               calls photo eq_refl eq_refl eq_refl H1 H2 Hrun)).
    reflexivity.
  - exfalso. vm_compute in H1. injection H1 as <-. vm_compute in Hrun. discriminate.
Defined.

End DedupSpec.

(** ** Sample data for the export service *)

Module ExportDemo.

Import ExportModel ExportSvc.

Definition photo (photo_id name : string) : PhotoModel.Photo :=
  {| PhotoModel.id := photo_id;
     PhotoModel.filename := "photo_20240101_120000_9e107d9d.jpg";
     PhotoModel.original_filename := name;
     PhotoModel.blob_url := "https://photos.blob.core.windows.net/uploads/2024/01/" ++ name;
     PhotoModel.thumbnail_urls := [];
     PhotoModel.thumbnail_url := None;
     PhotoModel.latitude := 39.0269%float;
     PhotoModel.longitude := (-86.948)%float;
     PhotoModel.altitude := None;
     PhotoModel.timestamp := 1704110400000000;
     PhotoModel.file_size := 2048576;
     PhotoModel.mime_type := "image/jpeg";
     PhotoModel.camera_make := Some "Canon";
     PhotoModel.camera_model := Some "EOS R5";
     PhotoModel.camera_settings := None;
     PhotoModel.tags := ["survey"];
     PhotoModel.description := None;
     PhotoModel.uploader_id := None;
     PhotoModel.hash_md5 := "9e107d9d372bb6826bd81d3542a419d6";
     PhotoModel.processing_status := "completed" |}.

(** Two stored photos. *)
Definition db : PhotoModel.collection :=
  [photo "photo1" "IMG_0001.jpg"; photo "photo2" "IMG 0002.jpg"].

Definition fmt (t : Z) : string := "20240101_120000".

(** Collaborators that all answer. *)
Definition env : export_env :=
  {| named_temporary_file := fun suffix => "/tmp/tmpk3x9q2fz" ++ suffix;
     generate_kml := fun _ => Some "<kml xmlns='http://www.opengis.net/kml/2.2'/>";
     generate_kmz := fun _ _ _ => Some [("doc.kml", [])];
     requests_get := fun _ => Some [Byte.xff; Byte.xd8; Byte.xff; Byte.xd9];
     getsize := fun f =>
       match f with
       | Text t => Z.of_nat (String.length t)
       | Archive entries => 22 + 100 * Z.of_nat (length entries)
       end |}.

(** The job [create_export_job] builds for [ids] at time 0. *)
Definition job (export_format : ExportFormat) (ids : list string) : ExportJob :=
  ExportModel.new "123e4567-e89b-12d3-a456-426614174000" 0 fmt ids export_format WGS84
    true true true None.

End ExportDemo.

(** ** Creating an export job *)

Module CreateSpec.

Import ExportModel ExportSvc.

(** [photo_id] resolves through the persistence gateway. *)
Definition resolves (db : PhotoModel.collection) (photo_id : string) : bool :=
  bool_decide (is_Some (PhotoModel.get_photo db photo_id)).

Lemma resolves_get_photo (db : PhotoModel.collection) (photo_id : string) :
  resolves db photo_id =
    match PhotoModel.get_photo db photo_id with Some _ => true | None => false end.
Proof.
  unfold resolves. destruct (PhotoModel.get_photo db photo_id) as [p|].
  - apply bool_decide_eq_true_2. eauto.
  - apply bool_decide_eq_false_2. intros [x Hx]. discriminate.
Qed.

Lemma validate_photo_ids_filter (db : PhotoModel.collection) (ids : list string) :
  _validate_photo_ids db ids =
    (List.filter (resolves db) ids,
     map PhotoIdNotFound (List.filter (fun i => negb (resolves db i)) ids)).
Proof.
  induction ids as [| i ids IH]; [ reflexivity | ].
  simpl. rewrite IH, (resolves_get_photo db i).
  destruct (PhotoModel.get_photo db i); reflexivity.
Qed.

Lemma filter_length_le {A} (f : A -> bool) (l : list A) :
  (length (List.filter f l) <= length l)%nat.
Proof.
  induction l as [| x l IH]; simpl; [ lia | ].
  destruct (f x); simpl; lia.
Qed.

Section Create.

Variables (db : PhotoModel.collection) (fmt : Z -> string) (now : Z) (uuid : string).
Variables (export_format : ExportFormat) (cs : CoordinateSystem).
Variables (alt photos thumbs : bool) (requester : option string).

Definition create (ids : list string) (s : service) : result export_error ExportJob * service :=
  create_export_job db fmt now uuid ids export_format cs alt photos thumbs requester s.

(** C5.  [create_export_job] keeps the requested ids that resolve, in
    order, and logs one warning for each id that does not.  It raises the
    no-valid-photos error exactly when no id is left, and then neither the
    table nor the queue changes.  Otherwise it returns a pending job over
    the valid ids whose [total_photos] is their number, stores it in the
    active-job table under its id and appends the id to the queue.  Two
    resolvable ids and one unknown id give [total_photos = 2]. *)
Theorem create_export_job_keeps_valid_ids (ids : list string) (s : service) :
  log (create ids s).2
    = (log s ++ map PhotoIdNotFound (List.filter (fun i => negb (resolves db i)) ids))%list
  /\ ((create ids s).1 = Raise NoValidPhotos <-> List.filter (resolves db) ids = [])
  /\ (List.filter (resolves db) ids = [] ->
      active_jobs (create ids s).2 = active_jobs s
      /\ job_queue (create ids s).2 = job_queue s)
  /\ (List.filter (resolves db) ids <> [] ->
      exists job,
        (create ids s).1 = Ok job
        /\ id job = uuid
        /\ photo_ids job = List.filter (resolves db) ids
        /\ total_photos job = Z.of_nat (length (List.filter (resolves db) ids))
        /\ status job = PhotoModel.PENDING
        /\ active_jobs (create ids s).2 = <[uuid := job]> (active_jobs s)
        /\ job_queue (create ids s).2 = (job_queue s ++ [uuid])%list
        /\ files (create ids s).2 = files s)
  /\ (forall a b c,
        ids = [a; b; c] ->
        resolves db a = true -> resolves db b = true -> resolves db c = false ->
        exists job, (create ids s).1 = Ok job /\ total_photos job = 2).
Proof.
  unfold create, create_export_job. rewrite validate_photo_ids_filter.
  destruct (List.filter (resolves db) ids) as [| v valid] eqn:Hvalid.
  - simpl. split; [ reflexivity | ].
    split; [ tauto | ].
    split; [ auto | ].
    split; [ congruence | ].
    intros a b c -> Ha Hb Hc. simpl in Hvalid. rewrite Ha in Hvalid. discriminate.
  - simpl. split; [ reflexivity | ].
    split; [ split; discriminate | ].
    split; [ discriminate | ].
    split.
    + intros _. eexists. repeat split; reflexivity.
    + intros a b c -> Ha Hb Hc. simpl in Hvalid. rewrite Ha, Hb, Hc in Hvalid.
      injection Hvalid as <- <-. eexists. split; reflexivity.
Qed.

End Create.

(** Two stored photos and an unknown id. *)
Lemma create_export_job_keeps_valid_ids_witness :
  exists job,
    (create_export_job ExportDemo.db ExportDemo.fmt 0 "123e4567-e89b-12d3-a456-426614174000"
       ["photo1"; "photo2"; "missing"] KMZ WGS84 true true true None init).1 = Ok job
    /\ total_photos job = 2.
Proof.
  apply (proj2 (proj2 (proj2 (proj2
           (create_export_job_keeps_valid_ids ExportDemo.db ExportDemo.fmt 0
              "123e4567-e89b-12d3-a456-426614174000" KMZ WGS84 true true true None
              ["photo1"; "photo2"; "missing"] init))))
           "photo1" "photo2" "missing" eq_refl);
    vm_compute; reflexivity.
Defined.

End CreateSpec.

(** ** The photos-only export *)

Module PhotosExportSpec.

Import ExportModel ExportSvc.

(** [update_progress] touches the counters and [updated_at] only, so the
    loop that fills the archive leaves the rest of the job alone. *)
Lemma add_photos_to_zip_frame (E : export_env) (now : Z) (photos : list PhotoModel.Photo)
    (i : Z) (zip : list (string * bytes)) (job : ExportJob) :
  let job' := (_add_photos_to_zip E now photos i zip job).2 in
  status job' = status job
  /\ file_path job' = file_path job
  /\ file_size job' = file_size job
  /\ completed_at job' = completed_at job
  /\ total_photos job' = total_photos job
  /\ export_type job' = export_type job.
Proof.
  revert i zip job. induction photos as [| photo photos IH]; intros i zip job.
  - simpl. repeat split; reflexivity.
  - simpl. destruct (requests_get E (PhotoModel.blob_url photo)) as [content|].
    + specialize (IH (i + 1) (zip ++ [(_make_safe_filename (PhotoModel.original_filename photo),
                                       content)])%list
                     (update_progress now (i + 1) job)).
      simpl in IH. exact IH.
    + apply IH.
Qed.

(** The entries of the archive: one per photo that could be fetched, named
    after the photo; no KML among them unless a photo is named so. *)
Lemma add_photos_to_zip_entries (E : export_env) (now : Z) (photos : list PhotoModel.Photo)
    (i : Z) (zip : list (string * bytes)) (job : ExportJob) :
  (_add_photos_to_zip E now photos i zip job).1 =
    (zip ++ omap (fun photo =>
                    content ← requests_get E (PhotoModel.blob_url photo);
                    Some (_make_safe_filename (PhotoModel.original_filename photo), content))
                 photos)%list.
Proof.
  revert i zip job. induction photos as [| photo photos IH]; intros i zip job.
  - simpl. rewrite app_nil_r. reflexivity.
  - simpl. destruct (requests_get E (PhotoModel.blob_url photo)) as [content|]; simpl.
    + rewrite IH, <- app_assoc. reflexivity.
    + apply IH.
Qed.

(** C9.  However many of its photos resolve and download, a job of type
    [PHOTOS_ONLY] leaves [_process_export_job] with status [FAILED]: the
    archive is written to the temporary file, then the upload step raises,
    so the job is never completed and its file path, file size and
    completion time stay as they were. *)
Theorem photos_only_export_fails (E : export_env) (now : Z) (db : PhotoModel.collection)
    (job : ExportJob) (fs : gmap string file) :
  export_type job = PHOTOS_ONLY ->
  let job' := (_process_export_job E now db job fs).1 in
  status job' = PhotoModel.FAILED
  /\ status job' <> PhotoModel.COMPLETED
  /\ file_path job' = file_path job
  /\ file_size job' = file_size job
  /\ completed_at job' = completed_at job.
Proof.
  intros Htype job'. subst job'. unfold _process_export_job.
  destruct (_get_photos_for_export db (photo_ids (mark_started now job)))
    as [| photo photos]; [ simpl; repeat split; congruence | ].
  assert (Hstarted : export_type (mark_started now job) = PHOTOS_ONLY) by exact Htype.
  rewrite Hstarted. unfold _generate_photos_export.
  pose proof (add_photos_to_zip_frame E now (photo :: photos) 0 [] (mark_started now job))
    as (_ & Hpath & Hsize & Hdone & _).
  destruct (_add_photos_to_zip E now (photo :: photos) 0 [] (mark_started now job))
    as [zip job1].
  simpl in *. rewrite Hpath, Hsize, Hdone.
  repeat split; congruence.
Qed.

Lemma photos_only_export_fails_witness :
  status (_process_export_job ExportDemo.env 60000000 ExportDemo.db
            (ExportDemo.job PHOTOS_ONLY ["photo1"; "photo2"]) ∅).1 = PhotoModel.FAILED
  /\ (_process_export_job ExportDemo.env 60000000 ExportDemo.db
        (ExportDemo.job PHOTOS_ONLY ["photo1"; "photo2"]) ∅).2 !! "/tmp/tmpk3x9q2fz.zip"
     = Some (Archive [("IMG_0001.jpg", [Byte.xff; Byte.xd8; Byte.xff; Byte.xd9]);
                      ("IMG_0002.jpg", [Byte.xff; Byte.xd8; Byte.xff; Byte.xd9])]).
Proof.
  split.
  - apply (photos_only_export_fails ExportDemo.env 60000000 ExportDemo.db
             (ExportDemo.job PHOTOS_ONLY ["photo1"; "photo2"]) ∅ eq_refl).
  - vm_compute. reflexivity.
Defined.

End PhotosExportSpec.

(** ** Progress of an export job *)

Module ProgressSpec.

Import ExportModel ExportSvc.

Lemma update_progress_fields (now c : Z) (j : ExportJob) :
  0 < total_photos j ->
  processed_photos (update_progress now c j) = c
  /\ total_photos (update_progress now c j) = total_photos j
  /\ progress (update_progress now c j) = Binary64.percentage c (total_photos j)
  /\ status (update_progress now c j) = status j.
Proof.
  intros Ht. unfold update_progress, Binary64.percentage. simpl.
  destruct (Z.gtb_spec (total_photos j) 0); [ | lia ].
  repeat split; reflexivity.
Qed.

(** The counts the archive loop passes to [update_progress], in order: the
    position, counted from [i + 1], of each photo whose download succeeds. *)
Fixpoint progress_counts (E : export_env) (photos : list PhotoModel.Photo) (i : Z) : list Z :=
  match photos with
  | [] => []
  | photo :: rest =>
      match requests_get E (PhotoModel.blob_url photo) with
      | Some _ => (i + 1)%Z :: progress_counts E rest (i + 1)
      | None => progress_counts E rest (i + 1)
      end
  end.

Lemma add_photos_to_zip_updates (E : export_env) (now : Z) (photos : list PhotoModel.Photo)
    (i : Z) (zip : list (string * bytes)) (job : ExportJob) :
  (_add_photos_to_zip E now photos i zip job).2 =
    foldl (fun j c => update_progress now c j) job (progress_counts E photos i).
Proof.
  revert i zip job. induction photos as [| photo photos IH]; intros i zip job.
  - reflexivity.
  - simpl. destruct (requests_get E (PhotoModel.blob_url photo)); simpl; apply IH.
Qed.

Lemma progress_counts_bounds (E : export_env) (photos : list PhotoModel.Photo) (i : Z) :
  Forall (fun c => (i < c <= i + Z.of_nat (length photos))%Z) (progress_counts E photos i).
Proof.
  revert i. induction photos as [| photo photos IH]; intros i; [ constructor | ].
  assert (Hrest : Forall (fun c => (i < c <= i + Z.of_nat (length (photo :: photos)))%Z)
                    (progress_counts E photos (i + 1))).
  { eapply List.Forall_impl; [ | apply IH ]. simpl. intros c Hc. lia. }
  simpl progress_counts.
  destruct (requests_get E (PhotoModel.blob_url photo)); [ | exact Hrest ].
  constructor; [ simpl length; lia | exact Hrest ].
Qed.

Lemma progress_counts_increasing (E : export_env) (photos : list PhotoModel.Photo) (i : Z) :
  StronglySorted Z.lt (progress_counts E photos i).
Proof.
  revert i. induction photos as [| photo photos IH]; intros i; [ constructor | ].
  simpl. destruct (requests_get E (PhotoModel.blob_url photo)); [ | apply IH ].
  constructor; [ apply IH | ].
  eapply List.Forall_impl; [ | apply progress_counts_bounds ].
  simpl. intros c Hc. lia.
Qed.

Lemma get_photos_for_export_length (db : PhotoModel.collection) (ids : list string) :
  (length (_get_photos_for_export db ids) <= length ids)%nat.
Proof.
  induction ids as [| i ids IH]; simpl; [ lia | ].
  destruct (PhotoModel.get_photo db i); simpl; lia.
Qed.

(** Replaying counts that stay within [0, bound] keeps the counter there. *)
Lemma replay_bounded (now : Z) (counts : list Z) (bound : Z) (job : ExportJob) :
  Forall (fun c => (0 <= c <= bound)%Z) counts ->
  (0 <= processed_photos job <= bound)%Z ->
  (0 <= processed_photos (foldl (fun j c => update_progress now c j) job counts) <= bound)%Z.
Proof.
  revert job. induction counts as [| c counts IH]; intros job Hall Hjob; [ exact Hjob | ].
  inversion Hall as [| ? ? Hc Hrest]; subst. simpl.
  apply IH; [ exact Hrest | exact Hc ].
Qed.

(** A job built by [create_export_job] never counts more photos than it has:
    the archive loop passes counts between 1 and the number of photos that
    resolve. *)
Lemma export_run_processed_le_total (E : export_env) (now created : Z)
    (db : PhotoModel.collection) (uuid : string) (f : Z -> string) (ids : list string)
    (export_format : ExportFormat) (cs : CoordinateSystem) (alt photos thumbs : bool)
    (requester : option string) (fs : gmap string file) :
  let job := ExportModel.new uuid created f ids export_format cs alt photos thumbs requester in
  (0 <= processed_photos (_process_export_job E now db job fs).1 <= total_photos job)%Z.
Proof.
  intros job.
  assert (Htotal : total_photos job = Z.of_nat (length ids)) by (destruct ids; reflexivity).
  assert (Hzero : processed_photos job = 0%Z) by reflexivity.
  assert (Hloop : forall zip,
             (0 <= processed_photos
                     (_add_photos_to_zip E now (_get_photos_for_export db ids) 0 zip
                        (mark_started now job)).2
              <= total_photos job)%Z).
  { intros zip. rewrite add_photos_to_zip_updates, Htotal.
    apply replay_bounded; [ | rewrite ?Htotal; simpl; lia ].
    eapply List.Forall_impl; [ | apply progress_counts_bounds ].
    simpl. intros c Hc. pose proof (get_photos_for_export_length db ids). lia. }
  unfold _process_export_job.
  change (photo_ids (mark_started now job)) with ids.
  change (export_type (mark_started now job)) with export_format.
  destruct (_get_photos_for_export db ids) as [| p ps] eqn:Hphotos;
    [ rewrite ?Htotal; simpl; lia | ].
  destruct export_format.
  - unfold _generate_kml_export.
    destruct (generate_kml E (p :: ps)); rewrite ?Htotal; simpl; lia.
  - unfold _generate_kmz_export.
    destruct (generate_kmz E (p :: ps) _ _); rewrite ?Htotal; simpl; lia.
  - unfold _generate_zip_export.
    destruct (generate_kml E (p :: ps)); [ | rewrite ?Htotal; simpl; lia ].
    destruct (include_photos_in_kmz (mark_started now job));
      [ | rewrite ?Htotal; simpl; lia ].
    specialize (Hloop [("photos.kml", list_byte_of_string s)]).
    destruct (_add_photos_to_zip E now (p :: ps) 0 _ (mark_started now job)) as [zip job1].
    exact Hloop.
  - unfold _generate_photos_export. specialize (Hloop []).
    destruct (_add_photos_to_zip E now (p :: ps) 0 [] (mark_started now job)) as [zip job1].
    exact Hloop.
Qed.

End ProgressSpec.

(** ** Expiry and the cleanup sweep *)

Module CleanupSpec.

Import ExportModel ExportSvc.

Lemma is_expired_spec (now : Z) (j : ExportJob) :
  is_expired now j = true <-> exists e, expires_at j = Some e /\ e < now.
Proof.
  unfold is_expired. destruct (expires_at j) as [e|].
  - split.
    + intros H. exists e. split; [ reflexivity | ]. apply Z.gtb_lt in H. exact H.
    + intros (e' & [= <-] & Hlt). apply Z.gtb_lt. exact Hlt.
  - split; [ discriminate | intros (e & He & _); discriminate ].
Qed.

Lemma elem_of_expired_jobs (now : Z) (s : service) (job_id : string) :
  job_id ∈ expired_jobs now s <->
  exists job, active_jobs s !! job_id = Some job /\ is_expired now job = true.
Proof.
  unfold expired_jobs. rewrite list_elem_of_fmap. split.
  - intros ([k job] & -> & Hin). apply elem_of_map_to_list in Hin.
    apply map_lookup_filter_Some in Hin as [Hlook Hexp]. eauto.
  - intros (job & Hlook & Hexp). exists (job_id, job). split; [ reflexivity | ].
    apply elem_of_map_to_list. apply map_lookup_filter_Some. split; assumption.
Qed.

Lemma NoDup_expired_jobs (now : Z) (s : service) : NoDup (expired_jobs now s).
Proof. unfold expired_jobs. apply NoDup_fst_map_to_list. Qed.

Section Sweep.

Variable remove_raises : string -> bool.

Abbreviation sweep := (foldl (cleanup_one remove_raises)).

Lemma sweep_queue_log (ids : list string) (s : service) :
  job_queue (sweep s ids) = job_queue s /\ log (sweep s ids) = log s.
Proof.
  revert s. induction ids as [| i ids IH]; intros s; [ split; reflexivity | ].
  simpl. destruct (IH (cleanup_one remove_raises s i)) as [-> ->].
  unfold cleanup_one. destruct (active_jobs s !! i); split; reflexivity.
Qed.

(** The records after the second loop: those named in [ids] are gone, the
    others are as they were. *)
Lemma sweep_active_jobs (ids : list string) (s : service) (job_id : string) :
  active_jobs (sweep s ids) !! job_id =
    if decide (job_id ∈ ids) then None else active_jobs s !! job_id.
Proof.
  revert s. induction ids as [| i ids IH]; intros s.
  - simpl. destruct (decide (job_id ∈ [])) as [Hin |]; [ | reflexivity ].
    inversion Hin.
  - simpl. rewrite IH.
    assert (Hone : active_jobs (cleanup_one remove_raises s i) !! job_id
                   = if decide (job_id = i) then None else active_jobs s !! job_id).
    { unfold cleanup_one. destruct (active_jobs s !! i) as [job|] eqn:Hi; simpl.
      - destruct (decide (job_id = i)) as [-> |].
        + apply lookup_delete_eq.
        + apply lookup_delete_ne. congruence.
      - destruct (decide (job_id = i)) as [-> |]; [ exact Hi | reflexivity ]. }
    destruct (decide (job_id ∈ ids)) as [Hin | Hnin].
    + destruct (decide (job_id ∈ i :: ids)) as [| Hn]; [ reflexivity | ].
      exfalso. apply Hn. right. exact Hin.
    + rewrite Hone. destruct (decide (job_id = i)) as [-> | Hne].
      * destruct (decide (i ∈ i :: ids)) as [| Hn]; [ reflexivity | ].
        exfalso. apply Hn. left.
      * destruct (decide (job_id ∈ i :: ids)) as [Hin |]; [ | reflexivity ].
        apply elem_of_cons in Hin as [? | ?]; contradiction.
Qed.

(** A file that no job named in [ids] points to survives the loop. *)
Lemma sweep_files_frame (ids : list string) (s : service) (path : string) :
  (forall job_id job, job_id ∈ ids -> active_jobs s !! job_id = Some job ->
                      file_path job <> Some path) ->
  files (sweep s ids) !! path = files s !! path.
Proof.
  revert s. induction ids as [| i ids IH]; intros s Hfree; [ reflexivity | ].
  simpl. rewrite IH.
  - unfold cleanup_one. destruct (active_jobs s !! i) as [job|] eqn:Hi; [ | reflexivity ].
    simpl. destruct (file_path job) as [p|] eqn:Hp; [ | reflexivity ].
    destruct (negb (String.eqb p "") && bool_decide (is_Some (files s !! p)));
      [ | reflexivity ].
    destruct (remove_raises p); [ reflexivity | ].
    apply lookup_delete_ne. intros ->.
    apply (Hfree i job); [ left | exact Hi | exact Hp ].
  - intros job_id job Hin Hlook.
    assert (Hone : active_jobs (cleanup_one remove_raises s i) !! job_id = Some job ->
                   active_jobs s !! job_id = Some job).
    { unfold cleanup_one. destruct (active_jobs s !! i) eqn:Hi; simpl; [ | auto ].
      intros H. apply lookup_delete_Some in H as [_ H]. exact H. }
    apply (Hfree job_id job); [ right; exact Hin | apply Hone; exact Hlook ].
Qed.

(** Once a file is gone nothing in the loop brings it back. *)
Lemma sweep_files_gone (ids : list string) (s : service) (path : string) :
  files s !! path = None -> files (sweep s ids) !! path = None.
Proof.
  revert s. induction ids as [| i ids IH]; intros s Hgone; [ exact Hgone | ].
  simpl. apply IH. unfold cleanup_one.
  destruct (active_jobs s !! i) as [job|]; [ | exact Hgone ].
  simpl. destruct (file_path job) as [p|]; [ | exact Hgone ].
  destruct (negb (String.eqb p "") && bool_decide (is_Some (files s !! p)));
    [ | exact Hgone ].
  destruct (remove_raises p); [ exact Hgone | ].
  destruct (decide (p = path)) as [-> | Hne].
  - apply lookup_delete_eq.
  - rewrite lookup_delete_ne by exact Hne. exact Hgone.
Qed.

(** The file of a job named in [ids] is removed, unless [os.remove] raises. *)
Lemma sweep_files_removed (ids : list string) (s : service) (job_id path : string)
    (job : ExportJob) :
  NoDup ids -> job_id ∈ ids ->
  active_jobs s !! job_id = Some job ->
  file_path job = Some path -> path <> "" -> remove_raises path = false ->
  files (sweep s ids) !! path = None.
Proof.
  revert s. induction ids as [| i ids IH]; intros s Hnd Hin Hlook Hpath Hne Hrm.
  - inversion Hin.
  - apply NoDup_cons in Hnd as [Hni Hnd]. simpl.
    apply elem_of_cons in Hin as [-> | Hin].
    + apply sweep_files_gone. unfold cleanup_one. rewrite Hlook. simpl. rewrite Hpath.
      apply String.eqb_neq in Hne. rewrite Hne, Hrm. simpl.
      destruct (bool_decide (is_Some (files s !! path))) eqn:Hex.
      * apply lookup_delete_eq.
      * apply bool_decide_eq_false in Hex. apply eq_None_not_Some. exact Hex.
    + apply IH; try assumption.
      unfold cleanup_one. destruct (active_jobs s !! i) eqn:Hi; simpl; [ | exact Hlook ].
      rewrite lookup_delete_ne; [ exact Hlook | ]. intros ->. contradiction.
Qed.

End Sweep.

End CleanupSpec.

(** ** The life of an export job *)

Module LifecycleSpec.

Import ExportModel ExportSvc.

Definition terminal (st : PhotoModel.JobStatus) : bool :=
  match st with
  | PhotoModel.COMPLETED | PhotoModel.FAILED | PhotoModel.CANCELLED => true
  | _ => false
  end.

(** What can happen to the service between two suspension points of the
    event loop: a request creates a job ([uuid4] draws an id that is not in
    use), a request cancels a job, the queue consumer makes one pass
    ([tempfile] picks a name, not empty, of a file that does not exist yet),
    or the sweep
    runs.  The run of [_process_export_job] is one step: none of the
    coroutines it awaits suspends. *)
Inductive step : service -> service -> Prop :=
| step_create (db : PhotoModel.collection) (fmt : Z -> string) (now : Z) (uuid : string)
    (ids : list string) (export_format : ExportFormat) (cs : CoordinateSystem)
    (alt photos thumbs : bool) (requester : option string) (s : service) :
    active_jobs s !! uuid = None ->
    uuid ∉ job_queue s ->
    step s (create_export_job db fmt now uuid ids export_format cs alt photos thumbs
              requester s).2
| step_cancel (now : Z) (job_id : string) (s : service) :
    step s (cancel_job now job_id s).2
| step_process (E : export_env) (now : Z) (db : PhotoModel.collection) (s : service) :
    (forall suffix, named_temporary_file E suffix <> ""
                    /\ files s !! named_temporary_file E suffix = None) ->
    step s (process_next E now db s)
| step_cleanup (remove_raises : string -> bool) (now : Z) (s : service) :
    step s (cleanup_expired_jobs remove_raises now s).

Inductive reachable : service -> Prop :=
| reachable_init : reachable init
| reachable_step (s s' : service) : reachable s -> step s s' -> reachable s'.

(** What holds of the service between steps. *)
Record invariant (s : service) : Prop := {
  queue_nodup : NoDup (job_queue s);
  settled : forall job_id job,
    active_jobs s !! job_id = Some job ->
    status job = PhotoModel.PENDING \/ terminal (status job) = true;
  done_not_queued : forall job_id job,
    active_jobs s !! job_id = Some job ->
    status job = PhotoModel.COMPLETED \/ status job = PhotoModel.FAILED ->
    job_id ∉ job_queue s;
  file_exists : forall job_id job path,
    active_jobs s !! job_id = Some job -> file_path job = Some path ->
    is_Some (files s !! path);
  file_owner : forall id1 id2 job1 job2 path,
    active_jobs s !! id1 = Some job1 -> active_jobs s !! id2 = Some job2 ->
    file_path job1 = Some path -> file_path job2 = Some path -> id1 = id2;
  file_named : forall job_id job,
    active_jobs s !! job_id = Some job -> file_path job <> Some ""
}.

(** The outcome of one run of [_process_export_job]. *)
Lemma process_export_job_outcome (E : export_env) (now : Z) (db : PhotoModel.collection)
    (job : ExportJob) (fs : gmap string file) :
  let job' := (_process_export_job E now db job fs).1 in
  let fs' := (_process_export_job E now db job fs).2 in
  (status job' = PhotoModel.COMPLETED \/ status job' = PhotoModel.FAILED)
  /\ (forall path, is_Some (fs !! path) -> is_Some (fs' !! path))
  /\ (file_path job' = file_path job
      \/ exists suffix, file_path job' = Some (named_temporary_file E suffix)
                        /\ is_Some (fs' !! named_temporary_file E suffix)).
Proof.
  assert (Hins : forall (k : string) (v : file) (path : string),
             is_Some (fs !! path) -> is_Some (<[k := v]> fs !! path)).
  { intros k v path Hp. destruct (decide (k = path)) as [-> |].
    - rewrite lookup_insert_eq. eauto.
    - rewrite lookup_insert_ne by assumption. exact Hp. }
  unfold _process_export_job.
  destruct (_get_photos_for_export db (photo_ids (mark_started now job))) as [| p ps].
  { simpl. split; [ right; reflexivity | ]. split; [ auto | left; reflexivity ]. }
  destruct (export_type (mark_started now job)).
  - unfold _generate_kml_export. destruct (generate_kml E (p :: ps)); simpl.
    + split; [ left; reflexivity | ]. split; [ apply Hins | ].
      right. exists ".kml". rewrite lookup_insert_eq. eauto.
    + split; [ right; reflexivity | ]. split; [ apply Hins | left; reflexivity ].
  - unfold _generate_kmz_export. destruct (generate_kmz E (p :: ps) _ _); simpl.
    + split; [ left; reflexivity | ]. split; [ apply Hins | ].
      right. exists ".kmz". rewrite lookup_insert_eq. eauto.
    + split; [ right; reflexivity | ]. split; [ apply Hins | left; reflexivity ].
  - unfold _generate_zip_export. destruct (generate_kml E (p :: ps)); simpl.
    + destruct (if include_photos_in_kmz job then _ else _) as [zip job1]. simpl.
      split; [ left; reflexivity | ]. split; [ apply Hins | ].
      right. exists ".zip". rewrite lookup_insert_eq. eauto.
    + split; [ right; reflexivity | ]. split; [ apply Hins | left; reflexivity ].
  - unfold _generate_photos_export.
    pose proof (PhotosExportSpec.add_photos_to_zip_frame E now (p :: ps) 0 []
                  (mark_started now job)) as (_ & Hpath & _).
    destruct (_add_photos_to_zip E now (p :: ps) 0 [] (mark_started now job)) as [zip job1].
    simpl in *.
    split; [ right; reflexivity | ]. split; [ apply Hins | left; exact Hpath ].
Qed.

Lemma invariant_init : invariant init.
Proof.
  split; simpl.
  - constructor.
  - intros job_id job H. rewrite lookup_empty in H. discriminate.
  - intros job_id job H. rewrite lookup_empty in H. discriminate.
  - intros job_id job path H. rewrite lookup_empty in H. discriminate.
  - intros id1 id2 job1 job2 path H. rewrite lookup_empty in H. discriminate.
  - intros job_id job H. rewrite lookup_empty in H. discriminate.
Qed.

(** A state that differs from [s] in its log only. *)
Lemma invariant_same (s s' : service) :
  active_jobs s' = active_jobs s -> job_queue s' = job_queue s -> files s' = files s ->
  invariant s -> invariant s'.
Proof.
  intros Ha Hq Hf [I1 I2 I3 I4 I5 I6]. split; rewrite ?Ha, ?Hq, ?Hf; assumption.
Qed.

(** Case analysis on a lookup in a table after an insertion. *)
Ltac lookup_inserted H k i :=
  destruct (decide (k = i)) as [<- | ?];
  [ rewrite lookup_insert_eq in H; injection H as <-
  | rewrite lookup_insert_ne in H by assumption ].

Lemma invariant_create (db : PhotoModel.collection) (fmt : Z -> string) (now : Z)
    (uuid : string) (ids : list string) (export_format : ExportFormat)
    (cs : CoordinateSystem) (alt photos thumbs : bool) (requester : option string)
    (s : service) :
  active_jobs s !! uuid = None -> uuid ∉ job_queue s -> invariant s ->
  invariant (create_export_job db fmt now uuid ids export_format cs alt photos thumbs
               requester s).2.
Proof.
  intros Hfresh Hnq Hinv. unfold create_export_job.
  destruct (_validate_photo_ids db ids) as [[| v valid] warnings].
  { eapply invariant_same; [ | | | exact Hinv ]; reflexivity. }
  destruct Hinv as [I1 I2 I3 I4 I5 I6]. split; simpl.
  - apply NoDup_app. split; [ exact I1 | ]. split; [ | apply NoDup_singleton ].
    intros x Hx Hx'. apply list_elem_of_singleton in Hx'. subst x. contradiction.
  - intros job_id job H. lookup_inserted H uuid job_id; [ left; reflexivity | eauto ].
  - intros job_id job H Hdone. lookup_inserted H uuid job_id.
    + simpl in Hdone. destruct Hdone; discriminate.
    + intros Hin. apply elem_of_app in Hin as [Hin | Hin].
      * exact (I3 job_id job H Hdone Hin).
      * apply list_elem_of_singleton in Hin. congruence.
  - intros job_id job path H Hp. lookup_inserted H uuid job_id; [ discriminate | eauto ].
  - intros id1 id2 job1 job2 path H1 H2 Hp1 Hp2.
    lookup_inserted H1 uuid id1; [ discriminate | ].
    lookup_inserted H2 uuid id2; [ discriminate | eauto ].
  - intros job_id job H. lookup_inserted H uuid job_id; [ discriminate | eauto ].
Qed.

Lemma invariant_cancel (now : Z) (job_id : string) (s : service) :
  invariant s -> invariant (cancel_job now job_id s).2.
Proof.
  intros Hinv. unfold cancel_job.
  destruct (active_jobs s !! job_id) as [job|] eqn:Hjob; [ | exact Hinv ].
  destruct (cancellable (status job)) eqn:Hc; [ | exact Hinv ].
  destruct Hinv as [I1 I2 I3 I4 I5 I6]. split; simpl.
  - exact I1.
  - intros i j H. lookup_inserted H job_id i; [ right; reflexivity | eauto ].
  - intros i j H Hdone. lookup_inserted H job_id i; [ | eauto ].
    simpl in Hdone. destruct Hdone; discriminate.
  - intros i j path H Hp. lookup_inserted H job_id i; eauto.
  - intros id1 id2 job1 job2 path H1 H2 Hp1 Hp2.
    lookup_inserted H1 job_id id1; lookup_inserted H2 job_id id2; eauto.
  - intros i j H. lookup_inserted H job_id i; [ exact (I6 job_id job Hjob) | eauto ].
Qed.

Lemma invariant_process (E : export_env) (now : Z) (db : PhotoModel.collection)
    (s : service) :
  (forall suffix, named_temporary_file E suffix <> ""
                  /\ files s !! named_temporary_file E suffix = None) ->
  invariant s -> invariant (process_next E now db s).
Proof.
  intros Hfresh [I1 I2 I3 I4 I5 I6]. unfold process_next.
  destruct (job_queue s) as [| job_id rest] eqn:Hq.
  { split; rewrite ?Hq; assumption. }
  apply NoDup_cons in I1 as [Hhead Hrest].
  assert (Hskip : invariant {| active_jobs := active_jobs s; job_queue := rest;
                               files := files s; log := log s |}).
  { split; simpl; try assumption.
    intros i j H Hdone Hin. apply (I3 i j H Hdone). right. exact Hin. }
  destruct (active_jobs s !! job_id) as [job|] eqn:Hjob.
  2: { eapply invariant_same; [ | | | exact Hskip ]; reflexivity. }
  destruct (bool_decide (status job = PhotoModel.CANCELLED)).
  { eapply invariant_same; [ | | | exact Hskip ]; reflexivity. }
  pose proof (process_export_job_outcome E now db job (files s)) as (Hst & Hmono & Hpath).
  destruct (_process_export_job E now db job (files s)) as [job' fs'].
  simpl in Hst, Hmono, Hpath.
  assert (Hown : forall i j path,
             active_jobs s !! i = Some j -> file_path j = Some path ->
             file_path job' = Some path -> i = job_id).
  { intros i j path Hi Hp Hp'. destruct Hpath as [Hsame | (suffix & Htmp & _)].
    - rewrite Hsame in Hp'. exact (I5 i job_id j job path Hi Hjob Hp Hp').
    - rewrite Htmp in Hp'. injection Hp' as <-.
      destruct (I4 i j _ Hi Hp) as [f Hf].
      rewrite (proj2 (Hfresh suffix)) in Hf. discriminate. }
  split; simpl.
  - exact Hrest.
  - intros i j H. lookup_inserted H job_id i; [ | eauto ].
    right. destruct Hst as [-> | ->]; reflexivity.
  - intros i j H Hdone. lookup_inserted H job_id i; [ exact Hhead | ].
    intros Hin. apply (I3 i j H Hdone). right. exact Hin.
  - intros i j path H Hp. lookup_inserted H job_id i; [ | eauto ].
    destruct Hpath as [Hsame | (suffix & Htmp & Hex)].
    + apply Hmono. rewrite Hsame in Hp. eauto.
    + rewrite Htmp in Hp. injection Hp as <-. exact Hex.
  - intros id1 id2 job1 job2 path H1 H2 Hp1 Hp2.
    lookup_inserted H1 job_id id1; lookup_inserted H2 job_id id2.
    + reflexivity.
    + symmetry. eapply Hown; eassumption.
    + eapply Hown; eassumption.
    + eauto.
  - intros i j H. lookup_inserted H job_id i; [ | eauto ].
    destruct Hpath as [-> | (suffix & -> & _)]; [ eauto | ].
    intros [= Hempty]. exact (proj1 (Hfresh suffix) Hempty).
Qed.

Lemma invariant_cleanup (remove_raises : string -> bool) (now : Z) (s : service) :
  invariant s -> invariant (cleanup_expired_jobs remove_raises now s).
Proof.
  intros [I1 I2 I3 I4 I5 I6]. unfold cleanup_expired_jobs.
  assert (Hkept : forall i j,
             active_jobs (foldl (cleanup_one remove_raises) s (expired_jobs now s)) !! i
               = Some j ->
             active_jobs s !! i = Some j /\ i ∉ expired_jobs now s).
  { intros i j H. rewrite CleanupSpec.sweep_active_jobs in H.
    destruct (decide (i ∈ expired_jobs now s)); [ discriminate | auto ]. }
  destruct (CleanupSpec.sweep_queue_log remove_raises (expired_jobs now s) s) as [Hq _].
  split; rewrite ?Hq.
  - exact I1.
  - intros i j H. apply Hkept in H as [H _]. eauto.
  - intros i j H. apply Hkept in H as [H _]. eauto.
  - intros i j path H Hp. apply Hkept in H as [H Hlive].
    rewrite CleanupSpec.sweep_files_frame; [ eauto | ].
    intros i' j' Hin Hi' Hp'.
    assert (i' = i) by (eapply I5; eassumption). subst i'. contradiction.
  - intros id1 id2 job1 job2 path H1 H2.
    apply Hkept in H1 as [H1 _]. apply Hkept in H2 as [H2 _]. eauto.
  - intros i j H. apply Hkept in H as [H _]. eauto.
Qed.

Lemma invariant_step (s s' : service) : step s s' -> invariant s -> invariant s'.
Proof.
  intros Hstep Hinv. destruct Hstep.
  - apply invariant_create; assumption.
  - apply invariant_cancel; assumption.
  - apply invariant_process; assumption.
  - apply invariant_cleanup; assumption.
Qed.

Lemma reachable_invariant (s : service) : reachable s -> invariant s.
Proof.
  induction 1 as [| s s' _ IH Hstep].
  - apply invariant_init.
  - eapply invariant_step; eassumption.
Qed.

(** No step changes the status of a job that is completed, failed or
    cancelled. *)
Lemma terminal_kept (s s' : service) (job_id : string) (job job' : ExportJob) :
  invariant s -> step s s' ->
  active_jobs s !! job_id = Some job -> terminal (status job) = true ->
  active_jobs s' !! job_id = Some job' ->
  status job' = status job.
Proof.
  intros [I1 I2 I3 I4 I5 I6] Hstep Hjob Hterm Hjob'. destruct Hstep.
  - unfold create_export_job in Hjob'.
    destruct (_validate_photo_ids db ids) as [[| v valid] warnings]; simpl in Hjob'.
    + congruence.
    + lookup_inserted Hjob' uuid job_id; congruence.
  - unfold cancel_job in Hjob'.
    destruct (active_jobs s !! job_id0) as [j0|] eqn:Hj0; [ | simpl in Hjob'; congruence ].
    destruct (cancellable (status j0)) eqn:Hc; simpl in Hjob'; [ | congruence ].
    lookup_inserted Hjob' job_id0 job_id; [ | congruence ].
    assert (j0 = job) by congruence. subst j0.
    destruct (status job); discriminate.
  - unfold process_next in Hjob'.
    destruct (job_queue s) as [| head rest] eqn:Hq; [ congruence | ].
    destruct (active_jobs s !! head) as [j0|] eqn:Hj0; simpl in Hjob'; [ | congruence ].
    destruct (bool_decide (status j0 = PhotoModel.CANCELLED)) eqn:Hcan;
      simpl in Hjob'; [ congruence | ].
    destruct (_process_export_job E now db j0 (files s)) as [j1 fs1]. simpl in Hjob'.
    lookup_inserted Hjob' head job_id; [ | congruence ].
    assert (j0 = job) by congruence. subst j0.
    apply bool_decide_eq_false in Hcan.
    exfalso. apply (I3 head job Hjob).
    + destruct (status job); try discriminate; auto. contradiction.
    + rewrite ?Hq. left.
  - unfold cleanup_expired_jobs in Hjob'. rewrite CleanupSpec.sweep_active_jobs in Hjob'.
    destruct (decide (job_id ∈ expired_jobs now s)); congruence.
Qed.

Lemma cancel_job_effective (now : Z) (job_id : string) (s : service) :
  (cancel_job now job_id s).1 = true <->
  exists job, active_jobs s !! job_id = Some job
              /\ (status job = PhotoModel.PENDING \/ status job = PhotoModel.QUEUED
                  \/ status job = PhotoModel.PROCESSING).
Proof.
  unfold cancel_job. destruct (active_jobs s !! job_id) as [job|].
  - destruct (status job) eqn:Hst; simpl; split;
      try discriminate; try (intros _; eexists; split; [ reflexivity | ]; rewrite Hst; auto);
      intros (j & [= <-] & [H | [H | H]]); congruence.
  - simpl. split; [ discriminate | intros (j & H & _); discriminate ].
Qed.

(** C7 (as amended).  A job is created [PENDING].  Between the steps of the
    service every job is pending or in a terminal status: none is ever
    [QUEUED].  A run of the queue consumer takes the job it dequeues to
    [PROCESSING] and leaves it [COMPLETED] or [FAILED]; it does not touch a
    job that is cancelled.  No step changes a terminal status.
    [cancel_job] succeeds exactly on a job that is pending, queued or
    processing, which it marks [CANCELLED]; otherwise it changes nothing. *)
Theorem export_job_lifecycle :
  (forall uuid now fmt ids export_format cs alt photos thumbs requester,
     status (ExportModel.new uuid now fmt ids export_format cs alt photos thumbs requester)
       = PhotoModel.PENDING)
  /\ (forall s job_id job,
        reachable s -> active_jobs s !! job_id = Some job ->
        status job <> PhotoModel.QUEUED
        /\ (status job = PhotoModel.PENDING \/ terminal (status job) = true))
  /\ (forall E now db job fs,
        status (mark_started now job) = PhotoModel.PROCESSING
        /\ (status (_process_export_job E now db job fs).1 = PhotoModel.COMPLETED
            \/ status (_process_export_job E now db job fs).1 = PhotoModel.FAILED))
  /\ (forall E now db s job_id rest job,
        job_queue s = job_id :: rest -> active_jobs s !! job_id = Some job ->
        status job = PhotoModel.CANCELLED ->
        active_jobs (process_next E now db s) = active_jobs s
        /\ job_queue (process_next E now db s) = rest)
  /\ (forall s s' job_id job job',
        reachable s -> step s s' ->
        active_jobs s !! job_id = Some job -> terminal (status job) = true ->
        active_jobs s' !! job_id = Some job' ->
        status job' = status job)
  /\ (forall now job_id s,
        ((cancel_job now job_id s).1 = true <->
         exists job, active_jobs s !! job_id = Some job
                     /\ (status job = PhotoModel.PENDING \/ status job = PhotoModel.QUEUED
                         \/ status job = PhotoModel.PROCESSING))
        /\ ((cancel_job now job_id s).1 = true ->
            exists job, active_jobs s !! job_id = Some job
                        /\ (cancel_job now job_id s).2
                           = {| active_jobs := <[job_id := set_cancelled now job]> (active_jobs s);
                                job_queue := job_queue s; files := files s; log := log s |}
                        /\ status (set_cancelled now job) = PhotoModel.CANCELLED)
        /\ ((cancel_job now job_id s).1 = false -> (cancel_job now job_id s).2 = s)).
Proof.
  split; [ reflexivity | ].
  split.
  { intros s job_id job Hreach Hjob.
    destruct (settled s (reachable_invariant s Hreach) job_id job Hjob) as [Hp | Ht].
    - rewrite Hp. split; [ discriminate | left; reflexivity ].
    - split; [ intros Hq; rewrite Hq in Ht; discriminate | right; exact Ht ]. }
  split.
  { intros E now db job fs. split; [ reflexivity | ].
    apply (process_export_job_outcome E now db job fs). }
  split.
  { intros E now db s job_id rest job Hq Hjob Hst. unfold process_next.
    rewrite Hq, Hjob, Hst. simpl. split; reflexivity. }
  split.
  { intros s s' job_id job job' Hreach. apply terminal_kept.
    apply reachable_invariant. exact Hreach. }
  intros now job_id s. split; [ apply cancel_job_effective | ].
  unfold cancel_job. destruct (active_jobs s !! job_id) as [job|]; simpl.
  - destruct (cancellable (status job)); simpl.
    + split; [ intros _; exists job; repeat split; reflexivity | discriminate ].
    + split; [ discriminate | reflexivity ].
  - split; [ discriminate | reflexivity ].
Qed.

(** A request for two stored photos and an unknown one, then one pass of
    the queue consumer. *)
Definition requested : service :=
  (create_export_job ExportDemo.db ExportDemo.fmt 0 "123e4567-e89b-12d3-a456-426614174000"
     ["photo1"; "photo2"; "missing"] KML WGS84 true true true None init).2.

Definition exported : service :=
  process_next ExportDemo.env 60000000 ExportDemo.db requested.

Lemma reachable_exported : reachable exported.
Proof.
  apply reachable_step with (s := requested).
  - apply reachable_step with (s := init); [ apply reachable_init | ].
    apply step_create; [ apply lookup_empty | apply not_elem_of_nil ].
  - apply step_process. intros suffix. split; [ discriminate | apply lookup_empty ].
Qed.

(** The statuses the job goes through: it is [PENDING] when the consumer
    takes it, [PROCESSING] once [mark_started] ran, [COMPLETED] at the end,
    and was never [QUEUED]. *)
Lemma created_job_is_never_queued :
  (status <$> active_jobs requested !! "123e4567-e89b-12d3-a456-426614174000",
   (fun job => status (mark_started 60000000 job))
     <$> active_jobs requested !! "123e4567-e89b-12d3-a456-426614174000",
   status <$> active_jobs exported !! "123e4567-e89b-12d3-a456-426614174000")
  = (Some PhotoModel.PENDING, Some PhotoModel.PROCESSING, Some PhotoModel.COMPLETED)
  /\ job_queue requested = ["123e4567-e89b-12d3-a456-426614174000"]
  /\ job_queue exported = [].
Proof.
  split; [ vm_compute; reflexivity | ].
  split; vm_compute; reflexivity.
Qed.

Lemma export_job_lifecycle_witness :
  exists job job',
    active_jobs exported !! "123e4567-e89b-12d3-a456-426614174000" = Some job
    /\ terminal (status job) = true
    /\ active_jobs (cancel_job 70000000 "123e4567-e89b-12d3-a456-426614174000" exported).2
         !! "123e4567-e89b-12d3-a456-426614174000" = Some job'
    /\ status job' = status job.
Proof.
  exists (_process_export_job ExportDemo.env 60000000 ExportDemo.db
            (ExportDemo.job KML ["photo1"; "photo2"]) ∅).1.
  exists (_process_export_job ExportDemo.env 60000000 ExportDemo.db
            (ExportDemo.job KML ["photo1"; "photo2"]) ∅).1.
  assert (H1 : active_jobs exported !! "123e4567-e89b-12d3-a456-426614174000"
               = Some (_process_export_job ExportDemo.env 60000000 ExportDemo.db
                         (ExportDemo.job KML ["photo1"; "photo2"]) ∅).1)
    by (vm_compute; reflexivity).
  assert (H2 : terminal (status (_process_export_job ExportDemo.env 60000000 ExportDemo.db
                                   (ExportDemo.job KML ["photo1"; "photo2"]) ∅).1) = true)
    by (vm_compute; reflexivity).
  assert (H3 : active_jobs
                 (cancel_job 70000000 "123e4567-e89b-12d3-a456-426614174000" exported).2
                 !! "123e4567-e89b-12d3-a456-426614174000"
               = Some (_process_export_job ExportDemo.env 60000000 ExportDemo.db
                         (ExportDemo.job KML ["photo1"; "photo2"]) ∅).1)
    by (vm_compute; reflexivity).
  split; [ exact H1 | ]. split; [ exact H2 | ]. split; [ exact H3 | ].
  exact (proj1 (proj2 (proj2 (proj2 (proj2 export_job_lifecycle))))
           exported _ "123e4567-e89b-12d3-a456-426614174000" _ _
           reachable_exported
           (step_cancel 70000000 "123e4567-e89b-12d3-a456-426614174000" exported)
           H1 H2 H3).
Defined.

End LifecycleSpec.

(** ** The sweep removes the expired jobs and nothing else *)

Module ExpirySpec.

Import ExportModel ExportSvc.

(** C8.  [is_expired] is true exactly for a job whose [expires_at] lies
    before the current time.  [cleanup_expired_jobs] removes the record of
    every expired job of the active-job table and leaves every other
    record, and the queue, as they are.  The file an expired job points to
    is gone afterwards (when [os.remove] does not raise), and a file that
    no expired job points to is untouched.  In every state the service can
    reach, each job that has a file owns it: the sweep deletes the files of
    the expired jobs and leaves the file of every other job as it is. *)
Theorem cleanup_removes_exactly_expired
    (remove_raises : string -> bool) (now : Z) (s : service) :
  (forall job, is_expired now job = true <-> exists e, expires_at job = Some e /\ e < now)
  /\ (forall job_id,
        active_jobs (cleanup_expired_jobs remove_raises now s) !! job_id =
          match active_jobs s !! job_id with
          | Some job => if is_expired now job then None else Some job
          | None => None
          end)
  /\ job_queue (cleanup_expired_jobs remove_raises now s) = job_queue s
  /\ (forall job_id job path,
        active_jobs s !! job_id = Some job -> is_expired now job = true ->
        file_path job = Some path -> path <> "" -> remove_raises path = false ->
        files (cleanup_expired_jobs remove_raises now s) !! path = None)
  /\ (forall path,
        (forall job_id job, active_jobs s !! job_id = Some job ->
                            is_expired now job = true -> file_path job <> Some path) ->
        files (cleanup_expired_jobs remove_raises now s) !! path = files s !! path)
  /\ (LifecycleSpec.reachable s ->
      forall job_id job path,
        active_jobs s !! job_id = Some job -> file_path job = Some path ->
        is_Some (files s !! path)
        /\ (is_expired now job = true -> remove_raises path = false ->
            files (cleanup_expired_jobs remove_raises now s) !! path = None)
        /\ (is_expired now job = false ->
            files (cleanup_expired_jobs remove_raises now s) !! path = files s !! path)).
Proof.
  assert (Hframe : forall path,
             (forall job_id job, active_jobs s !! job_id = Some job ->
                                 is_expired now job = true -> file_path job <> Some path) ->
             files (cleanup_expired_jobs remove_raises now s) !! path = files s !! path).
  { intros path Hfree. unfold cleanup_expired_jobs.
    apply CleanupSpec.sweep_files_frame. intros job_id job Hin Hjob.
    apply CleanupSpec.elem_of_expired_jobs in Hin as (job0 & Hjob0 & Hexp).
    assert (job0 = job) by congruence. subst job0. eauto. }
  split; [ intros job; apply CleanupSpec.is_expired_spec | ].
  split.
  { intros job_id. unfold cleanup_expired_jobs. rewrite CleanupSpec.sweep_active_jobs.
    destruct (decide (job_id ∈ expired_jobs now s)) as [Hin | Hnin].
    - apply CleanupSpec.elem_of_expired_jobs in Hin as (job & -> & ->). reflexivity.
    - destruct (active_jobs s !! job_id) as [job|] eqn:Hjob; [ | reflexivity ].
      destruct (is_expired now job) eqn:Hexp; [ | reflexivity ].
      exfalso. apply Hnin. apply CleanupSpec.elem_of_expired_jobs. eauto. }
  split; [ apply CleanupSpec.sweep_queue_log | ].
  assert (Hremoved : forall job_id job path,
             active_jobs s !! job_id = Some job -> is_expired now job = true ->
             file_path job = Some path -> path <> "" -> remove_raises path = false ->
             files (cleanup_expired_jobs remove_raises now s) !! path = None).
  { intros job_id job path Hjob Hexp Hpath Hne Hrm. unfold cleanup_expired_jobs.
    eapply CleanupSpec.sweep_files_removed; try eassumption.
    - apply CleanupSpec.NoDup_expired_jobs.
    - apply CleanupSpec.elem_of_expired_jobs. eauto. }
  split; [ exact Hremoved | ].
  split; [ exact Hframe | ].
  intros Hreach job_id job path Hjob Hpath.
  pose proof (LifecycleSpec.reachable_invariant s Hreach) as Hinv.
  split; [ exact (LifecycleSpec.file_exists s Hinv job_id job path Hjob Hpath) | ].
  split.
  { intros Hexp Hrm. apply (Hremoved job_id job path); try assumption.
    intros ->. exact (LifecycleSpec.file_named s Hinv job_id job Hjob Hpath). }
  intros Hlive. apply Hframe. intros job_id' job' Hjob' Hexp Hpath'.
  assert (job_id' = job_id)
    by exact (LifecycleSpec.file_owner s Hinv job_id' job_id job' job path
                Hjob' Hjob Hpath' Hpath).
  subst job_id'. assert (job' = job) by congruence. subst job'. congruence.
Qed.

(** A second request, 23 hours after the first, served with another
    temporary file; the sweep runs when the first export is 24 hours and a
    second old. *)
Definition later_env : export_env :=
  {| named_temporary_file := fun suffix => "/tmp/tmpa8b7c6d5" ++ suffix;
     generate_kml := generate_kml ExportDemo.env;
     generate_kmz := generate_kmz ExportDemo.env;
     requests_get := requests_get ExportDemo.env;
     getsize := getsize ExportDemo.env |}.

Definition two_exports : service :=
  process_next later_env 82860000000 ExportDemo.db
    (create_export_job ExportDemo.db ExportDemo.fmt 82800000000
       "7c9e6679-7425-40de-944b-e07fc1f90ae7" ["photo2"] KML WGS84 true true true None
       LifecycleSpec.exported).2.

Definition swept : service :=
  cleanup_expired_jobs (fun _ => false) 86401000000 two_exports.

Definition first_job : ExportJob :=
  (_process_export_job ExportDemo.env 60000000 ExportDemo.db
     (ExportDemo.job KML ["photo1"; "photo2"]) ∅).1.

Definition second_job : ExportJob :=
  (_process_export_job later_env 82860000000 ExportDemo.db
     (ExportModel.new "7c9e6679-7425-40de-944b-e07fc1f90ae7" 82800000000 ExportDemo.fmt
        ["photo2"] KML WGS84 true true true None)
     (files LifecycleSpec.exported)).1.

Lemma two_exports_table :
  active_jobs two_exports
  = <["123e4567-e89b-12d3-a456-426614174000" := first_job]>
      (<["7c9e6679-7425-40de-944b-e07fc1f90ae7" := second_job]> ∅).
Proof. vm_compute. reflexivity. Qed.

Lemma cleanup_removes_exactly_expired_witness :
  (file_path first_job, is_expired 86401000000 first_job)
    = (Some "/tmp/tmpk3x9q2fz.kml", true)
  /\ (file_path second_job, is_expired 86401000000 second_job)
    = (Some "/tmp/tmpa8b7c6d5.kml", false)
  /\ is_Some (files two_exports !! "/tmp/tmpk3x9q2fz.kml")
  /\ is_Some (files two_exports !! "/tmp/tmpa8b7c6d5.kml")
  /\ files swept !! "/tmp/tmpk3x9q2fz.kml" = None
  /\ files swept !! "/tmp/tmpa8b7c6d5.kml" = files two_exports !! "/tmp/tmpa8b7c6d5.kml"
  /\ active_jobs swept !! "123e4567-e89b-12d3-a456-426614174000" = None
  /\ active_jobs swept !! "7c9e6679-7425-40de-944b-e07fc1f90ae7" = Some second_job.
Proof.
  pose proof (cleanup_removes_exactly_expired (fun _ => false) 86401000000 two_exports)
    as (_ & Hrecords & _ & Hremoved & Hkept & _).
  split; [ vm_compute; reflexivity | ].
  split; [ vm_compute; reflexivity | ].
  split; [ vm_compute; eauto | ].
  split; [ vm_compute; eauto | ].
  split.
  { apply (Hremoved "123e4567-e89b-12d3-a456-426614174000" first_job);
      try (vm_compute; reflexivity).
    vm_compute. discriminate. }
  split.
  { apply Hkept. intros job_id job Hjob Hexp Hpath.
    rewrite two_exports_table in Hjob.
    apply lookup_insert_Some in Hjob as [[_ <-] | [_ Hjob]].
    - vm_compute in Hpath. discriminate.
    - apply lookup_insert_Some in Hjob as [[_ <-] | [_ Hjob]].
      + vm_compute in Hexp. discriminate.
      + rewrite lookup_empty in Hjob. discriminate. }
  split; rewrite Hrecords; vm_compute; reflexivity.
Defined.

End ExpirySpec.

(** ** Scenarios *)

Module Scenarios.

Import Upload.

(** A JPEG with EXIF GPS 39.0269 N, 86.9480 W and no manual coordinates:
    the coordinates come from EXIF and match to within 1e-6. *)
Example exif_coordinates_are_used :
  match process_upload DedupSpec.photo_reader 1704196800000000 CoordinateSpec.jpeg_bytes
          "IMG_0001.jpg" "image/jpeg" None None None None with
  | Ok pd =>
      pd_coordinate_source pd = src_exif
      /\ (match pd_latitude pd, pd_longitude pd with
          | Some la, Some lo =>
              PrimFloat.ltb (PrimFloat.abs (la - 39.0269)) 1e-6
              && PrimFloat.ltb (PrimFloat.abs (lo - (-86.9480))) 1e-6
          | _, _ => false
          end = true)
      /\ pd_altitude pd = Some 235%float
  | Raise _ => False
  end.
Proof. vm_compute. repeat split; reflexivity. Qed.

(** Manual coordinates override the EXIF ones. *)
Example manual_coordinates_override :
  match process_upload DedupSpec.photo_reader 1704196800000000 CoordinateSpec.jpeg_bytes
          "IMG_0001.jpg" "image/jpeg"
          (Some [("latitude", Some 40.5%float); ("longitude", Some (-74)%float);
                 ("altitude", None)])
          None None None with
  | Ok pd =>
      (pd_coordinate_source pd, pd_latitude pd, pd_longitude pd, pd_altitude pd)
      = (src_manual, Some 40.5%float, Some (-74)%float, None)
  | Raise _ => False
  end.
Proof. vm_compute. reflexivity. Qed.

(** A manual latitude of 95 is out of range: the request is refused and
    nothing is queued. *)
Example latitude_95_is_refused :
  PhotoRoutes.upload_photo_manual_coordinates DedupSpec.photo_reader 1704196800000000
    CoordinateSpec.jpeg_bytes "IMG_0001.jpg" "image/jpeg" 95 10 None None None None
    DedupSpec.started
  = (PhotoRoutes.BadRequest (LatitudeOutOfRange 95), DedupSpec.started).
Proof. vm_compute. reflexivity. Qed.

(** The extension of the file name is only compared, never enforced. *)
Example extension_mismatch_is_a_warning :
  validate_file DedupSpec.photo_reader CoordinateSpec.jpeg_bytes "scan.PNG" "image/jpeg"
  = ([ExtensionMismatch "png" "image/jpeg"],
     Ok {| valid := true; vr_file_size := 4; dimensions := (4032, 3024);
           vr_format := "JPEG"; vr_content_type := "image/jpeg" |})
  /\ (validate_file DedupSpec.photo_reader CoordinateSpec.jpeg_bytes "IMG_0001.JPG"
        "image/jpeg").1 = []
  /\ (validate_file DedupSpec.photo_reader CoordinateSpec.jpeg_bytes "IMG_0001.heic"
        "application/octet-stream").1 = []
  /\ (validate_file DedupSpec.photo_reader CoordinateSpec.jpeg_bytes "notes.txt"
        "text/plain").2 = Raise (UnsupportedType "text/plain").
Proof. vm_compute. repeat split; reflexivity. Qed.

(** Names are made safe for the archive by replacing every character
    outside letters, digits, dot, dash and underscore. *)
Example safe_filenames :
  ExportSvc._make_safe_filename "IMG 0002 (1).jpg" = "IMG_0002__1_.jpg"
  /\ ExportSvc._make_safe_filename "" = "photo.jpg".
Proof. split; reflexivity. Qed.

End Scenarios.

(** * Further properties of the services *)

Module ExifSpec.

Import Upload.

Lemma ratio_float_is_Some (r : Ratio) : is_Some (ratio_float r) <-> den r <> 0.
Proof.
  unfold ratio_float. destruct (Z.eqb_spec (den r) 0) as [-> | Hne].
  - split; [ intros [x Hx]; discriminate | intros H; exfalso; apply H; reflexivity ].
  - split; [ intros _; exact Hne | intros _; eauto ].
Qed.

(** X1.  [_convert_to_degrees] answers a number exactly when the tag holds
    at least three rationals and none of the first three has a zero
    denominator; every other value gives [None].  Components after the
    third are ignored, and the number is degrees + minutes/60 +
    seconds/3600 of the first three. *)
Theorem convert_to_degrees_defined (values : list Ratio) :
  (is_Some (_convert_to_degrees values) <->
     exists r1 r2 r3 rest,
       values = r1 :: r2 :: r3 :: rest /\ den r1 <> 0 /\ den r2 <> 0 /\ den r3 <> 0)
  /\ (forall r1 r2 r3 rest,
        values = r1 :: r2 :: r3 :: rest ->
        _convert_to_degrees values = _convert_to_degrees [r1; r2; r3])
  /\ (forall x, _convert_to_degrees values = Some x ->
        exists r1 r2 r3 rest,
          values = r1 :: r2 :: r3 :: rest
          /\ x = (float_of_Z (num r1) / float_of_Z (den r1)
                  + (float_of_Z (num r2) / float_of_Z (den r2)) / 60
                  + (float_of_Z (num r3) / float_of_Z (den r3)) / 3600)%float).
Proof.
  assert (Hshape : forall x, _convert_to_degrees values = Some x ->
            exists r1 r2 r3 rest,
              values = r1 :: r2 :: r3 :: rest
              /\ den r1 <> 0 /\ den r2 <> 0 /\ den r3 <> 0
              /\ x = (float_of_Z (num r1) / float_of_Z (den r1)
                      + (float_of_Z (num r2) / float_of_Z (den r2)) / 60
                      + (float_of_Z (num r3) / float_of_Z (den r3)) / 3600)%float).
  { intros x. unfold _convert_to_degrees.
    destruct values as [| r1 [| r2 [| r3 rest]]]; simpl; try discriminate.
    - destruct (ratio_float r1); discriminate.
    - destruct (ratio_float r1); simpl; [ | discriminate ].
      destruct (ratio_float r2); discriminate.
    - unfold ratio_float.
      destruct (Z.eqb_spec (den r1) 0); simpl; [ discriminate | ].
      destruct (Z.eqb_spec (den r2) 0); simpl; [ discriminate | ].
      destruct (Z.eqb_spec (den r3) 0); simpl; [ discriminate | ].
      intros Hx. injection Hx as <-. exists r1, r2, r3, rest. auto. }
  split; [ | split ].
  - split.
    + intros [x Hx]. destruct (Hshape x Hx) as (r1 & r2 & r3 & rest & ? & ? & ? & ? & _).
      exists r1, r2, r3, rest. auto.
    + intros (r1 & r2 & r3 & rest & -> & H1 & H2 & H3).
      apply ratio_float_is_Some in H1 as [x1 Hx1].
      apply ratio_float_is_Some in H2 as [x2 Hx2].
      apply ratio_float_is_Some in H3 as [x3 Hx3].
      unfold _convert_to_degrees. simpl. rewrite Hx1. simpl. rewrite Hx2. simpl.
      rewrite Hx3. simpl. eauto.
  - intros r1 r2 r3 rest ->. reflexivity.
  - intros x Hx. destruct (Hshape x Hx) as (r1 & r2 & r3 & rest & ? & _ & _ & _ & ?).
    exists r1, r2, r3, rest. auto.
Qed.

(** A coordinate whose value and reference are both present but whose value
    is not a sequence of exactly three numbers. *)
Definition malformed (value : option (list float)) (ref : option string) : Prop :=
  exists v r, value = Some v /\ ref = Some r /\ length v <> 3%nat.

Lemma parse_axis_None (value : option (list float)) (ref : option string) (negative : string) :
  parse_axis value ref negative = None <-> malformed value ref.
Proof.
  unfold parse_axis, malformed, unpack3.
  destruct value as [v|], ref as [r|].
  - destruct v as [| d [| m [| s [| x rest]]]]; simpl.
    all: split;
      [ intros H;
        first [ discriminate
              | eexists _, _; split; [ reflexivity | split; [ reflexivity | simpl; lia ] ] ]
      | intros (v' & r' & Hv & Hr & Hlen);
        first [ reflexivity | injection Hv as <-; simpl in Hlen; lia ] ].
  - split; [ discriminate | intros (v' & r' & _ & Hr & _); discriminate ].
  - split; [ discriminate | intros (v' & r' & Hv & _); discriminate ].
  - split; [ discriminate | intros (v' & r' & Hv & _); discriminate ].
Qed.

(** X2.  [_parse_gps_coordinates] is all or nothing once a coordinate is
    malformed: when the latitude (or the longitude) comes with its reference
    but is not a sequence of exactly three numbers, the unpacking raises and
    latitude, longitude and altitude are all [None], however well formed
    the other values are.  Without a malformed coordinate the altitude is
    parsed on its own, a coordinate whose value or reference is missing is
    [None], and a coordinate of three components is their decimal value,
    negated for the reference S (latitude) or W (longitude). *)
Theorem parse_gps_coordinates_all_or_nothing (g : gps_data) :
  (malformed (GPSLatitude g) (GPSLatitudeRef g)
   \/ malformed (GPSLongitude g) (GPSLongitudeRef g) ->
   _parse_gps_coordinates g = (None, None, None))
  /\ (~ malformed (GPSLatitude g) (GPSLatitudeRef g) ->
      ~ malformed (GPSLongitude g) (GPSLongitudeRef g) ->
      (_parse_gps_coordinates g).2 = parse_altitude g
      /\ (GPSLatitude g = None \/ GPSLatitudeRef g = None ->
          (_parse_gps_coordinates g).1.1 = None)
      /\ (GPSLongitude g = None \/ GPSLongitudeRef g = None ->
          (_parse_gps_coordinates g).1.2 = None)
      /\ (forall d m s r,
            GPSLatitude g = Some [d; m; s] -> GPSLatitudeRef g = Some r ->
            (_parse_gps_coordinates g).1.1
              = Some (if String.eqb r "S" then (- dms d m s)%float else dms d m s))
      /\ (forall d m s r,
            GPSLongitude g = Some [d; m; s] -> GPSLongitudeRef g = Some r ->
            (_parse_gps_coordinates g).1.2
              = Some (if String.eqb r "W" then (- dms d m s)%float else dms d m s))).
Proof.
  unfold _parse_gps_coordinates.
  split.
  - intros [H | H].
    + apply (parse_axis_None _ _ "S") in H. rewrite H. reflexivity.
    + apply (parse_axis_None _ _ "W") in H. rewrite H.
      destruct (parse_axis (GPSLatitude g) (GPSLatitudeRef g) "S"); reflexivity.
  - intros Hlat Hlon.
    destruct (parse_axis (GPSLatitude g) (GPSLatitudeRef g) "S") as [lat|] eqn:Elat;
      [ | exfalso; apply Hlat; apply (parse_axis_None _ _ "S"); exact Elat ].
    destruct (parse_axis (GPSLongitude g) (GPSLongitudeRef g) "W") as [lon|] eqn:Elon;
      [ | exfalso; apply Hlon; apply (parse_axis_None _ _ "W"); exact Elon ].
    simpl. split; [ reflexivity | ].
    split.
    { intros [H | H]; rewrite H in Elat; unfold parse_axis in Elat.
      - injection Elat as <-. reflexivity.
      - destruct (GPSLatitude g); injection Elat as <-; reflexivity. }
    split.
    { intros [H | H]; rewrite H in Elon; unfold parse_axis in Elon.
      - injection Elon as <-. reflexivity.
      - destruct (GPSLongitude g); injection Elon as <-; reflexivity. }
    split.
    { intros d m s r Hv Hr. rewrite Hv, Hr in Elat. simpl in Elat.
      injection Elat as <-. reflexivity. }
    intros d m s r Hv Hr. rewrite Hv, Hr in Elon. simpl in Elon.
    injection Elon as <-. reflexivity.
Qed.

(** A latitude of two components beside a longitude and an altitude that
    are well formed. *)
Definition short_latitude : gps_data :=
  {| GPSLatitude := Some [39; 1]%float; GPSLatitudeRef := Some "N";
     GPSLongitude := Some [86; 56; 52]%float; GPSLongitudeRef := Some "W";
     GPSAltitude := Some 235%float; GPSAltitudeRef := Some (IfdBytes [Byte.x00]) |}.

Lemma parse_gps_coordinates_all_or_nothing_witness :
  malformed (GPSLatitude short_latitude) (GPSLatitudeRef short_latitude)
  /\ _parse_gps_coordinates short_latitude = (None, None, None).
Proof.
  assert (H : malformed (GPSLatitude short_latitude) (GPSLatitudeRef short_latitude)).
  { exists [39; 1]%float, "N". split; [ reflexivity | ]. split; [ reflexivity | ].
    simpl. lia. }
  split; [ exact H | ].
  apply (proj1 (parse_gps_coordinates_all_or_nothing short_latitude)). left. exact H.
Defined.

End ExifSpec.

Module MergeSpec.

Import Upload.

(** X3.  [extract_exif_data] looks at what exifread found only to supply a
    latitude: the result has a usable (non-zero) latitude exactly when PIL or
    exifread found one.  When PIL found a latitude, or exifread found none,
    the result is the dict of PIL as it is.  Otherwise every key that
    exifread returns (latitude, longitude, altitude, camera make and model,
    date taken) replaces the value of PIL, also by [None], and only the
    camera settings of PIL remain.  Hence a file in which PIL finds a
    latitude but no longitude is refused by [process_upload] when no manual
    coordinates are given, whatever exifread found. *)
Theorem exifread_used_only_without_pil_latitude (L : libs) (fc : bytes) :
  truthy_float (get (extract_exif_data L fc) latitude)
    = truthy_float (get (_extract_exif_pil L fc) latitude)
      || truthy_float (get (_extract_exif_exifread L fc) latitude)
  /\ (truthy_float (get (_extract_exif_pil L fc) latitude) = true
      \/ truthy_float (get (_extract_exif_exifread L fc) latitude) = false ->
      extract_exif_data L fc = _extract_exif_pil L fc)
  /\ (truthy_float (get (_extract_exif_pil L fc) latitude) = false ->
      truthy_float (get (_extract_exif_exifread L fc) latitude) = true ->
      get (extract_exif_data L fc) latitude = get (_extract_exif_exifread L fc) latitude
      /\ get (extract_exif_data L fc) longitude = get (_extract_exif_exifread L fc) longitude
      /\ get (extract_exif_data L fc) altitude = get (_extract_exif_exifread L fc) altitude
      /\ get (extract_exif_data L fc) camera_make = get (_extract_exif_exifread L fc) camera_make
      /\ get (extract_exif_data L fc) camera_model
           = get (_extract_exif_exifread L fc) camera_model
      /\ get (extract_exif_data L fc) datetime_taken
           = get (_extract_exif_exifread L fc) datetime_taken
      /\ get (extract_exif_data L fc) camera_settings
           = get (_extract_exif_pil L fc) camera_settings)
  /\ (forall now fn ct tags description uploader,
        truthy_float (get (_extract_exif_pil L fc) latitude) = true ->
        truthy_float (get (_extract_exif_pil L fc) longitude) = false ->
        is_ok (validate_file L fc fn ct).2 = true ->
        process_upload L now fc fn ct None tags description uploader = Raise NoCoordinates).
Proof.
  assert (Hpil : truthy_float (get (_extract_exif_pil L fc) latitude) = true
                 \/ truthy_float (get (_extract_exif_exifread L fc) latitude) = false ->
                 extract_exif_data L fc = _extract_exif_pil L fc).
  { unfold extract_exif_data. intros [H | H]; rewrite H; simpl.
    - destruct (negb (truthy_float (get (_extract_exif_pil L fc) longitude))); reflexivity.
    - rewrite andb_false_r. destruct (_ || _); reflexivity. }
  split; [ | split; [ exact Hpil | split ] ].
  - destruct (truthy_float (get (_extract_exif_pil L fc) latitude)) eqn:Hp.
    + rewrite Hpil by (left; reflexivity). rewrite Hp. reflexivity.
    + destruct (truthy_float (get (_extract_exif_exifread L fc) latitude)) eqn:He.
      * unfold extract_exif_data. rewrite Hp, He. simpl.
        destruct (_extract_exif_exifread L fc) as [r|]; [ exact He | discriminate ].
      * rewrite Hpil by (right; reflexivity). rewrite Hp. reflexivity.
  - intros Hp He. unfold extract_exif_data. rewrite Hp, He. simpl.
    destruct (_extract_exif_exifread L fc) as [r|]; [ | discriminate ].
    simpl. repeat split; reflexivity.
  - intros now fn ct tags description uploader Hlat Hlon Hval.
    unfold process_upload.
    destruct (validate_file L fc fn ct).2 as [vr | e]; [ simpl | discriminate ].
    rewrite Hpil by (left; exact Hlat).
    unfold determine_coordinates. simpl. rewrite Hlat, Hlon. reflexivity.
Qed.

(** A JPEG in which PIL finds the latitude only, while exifread finds both
    coordinates. *)
Definition latitude_only_reader : libs :=
  CoordinateSpec.jpeg_reader (GpsSpec.only_latitude 39 1 36 "N") DedupSpec.bloomington_tags.

Lemma exifread_used_only_without_pil_latitude_witness :
  truthy_float (get (_extract_exif_exifread latitude_only_reader CoordinateSpec.jpeg_bytes)
                  longitude) = true
  /\ process_upload latitude_only_reader 1704196800000000 CoordinateSpec.jpeg_bytes
       "IMG_0001.jpg" "image/jpeg" None None None None = Raise NoCoordinates.
Proof.
  split; [ vm_compute; reflexivity | ].
  apply (proj2 (proj2 (proj2 (exifread_used_only_without_pil_latitude latitude_only_reader
                                CoordinateSpec.jpeg_bytes))));
    vm_compute; reflexivity.
Defined.

End MergeSpec.

Module RangeSpec.

Import Upload.

Lemma SFcompare_refl (f : SpecFloat.spec_float) :
  f <> SpecFloat.S754_nan -> SpecFloat.SFcompare f f = Some Eq.
Proof.
  destruct f as [s | s | | s m e]; simpl; intros H.
  - reflexivity.
  - destruct s; reflexivity.
  - congruence.
  - rewrite Z.compare_refl. fold (Pos.compare m m). rewrite Pos.compare_refl.
    destruct s; reflexivity.
Qed.

(** Every comparison with a NaN is false. *)
Lemma leb_nan (x y : float) :
  PrimFloat.is_nan x = true \/ PrimFloat.is_nan y = true -> PrimFloat.leb x y = false.
Proof.
  assert (Hnan : forall z, PrimFloat.is_nan z = true ->
                           FloatOps.Prim2SF z = SpecFloat.S754_nan).
  { intros z. unfold PrimFloat.is_nan. rewrite FloatAxioms.eqb_spec.
    unfold SpecFloat.SFeqb. intros Hz.
    destruct (FloatOps.Prim2SF z) as [s | s | | s m e] eqn:Hsf; [ | | reflexivity | ];
      rewrite SFcompare_refl in Hz by discriminate; discriminate. }
  rewrite FloatAxioms.leb_spec. unfold SpecFloat.SFleb.
  intros [H | H]; apply Hnan in H; rewrite H.
  - reflexivity.
  - destruct (FloatOps.Prim2SF x); reflexivity.
Qed.

(** X4.  [validate_coordinates] returns its arguments exactly when
    -90 <= latitude <= 90 and -180 <= longitude <= 180 hold as floating
    point comparisons; a latitude out of range is reported before the
    longitude is looked at.  A NaN is out of range, as latitude and as
    longitude.  The altitude never changes the outcome: all it can do is
    add one warning to the log, when it lies outside [-500, 10000]. *)
Theorem validate_coordinates_range (lat lon : float) (alt : option float) :
  ((validate_coordinates lat lon alt).2 = Ok (lat, lon, alt) <->
     between (-90) lat 90 = true /\ between (-180) lon 180 = true)
  /\ (between (-90) lat 90 = false ->
      (validate_coordinates lat lon alt).2 = Raise (LatitudeOutOfRange lat))
  /\ (between (-90) lat 90 = true -> between (-180) lon 180 = false ->
      (validate_coordinates lat lon alt).2 = Raise (LongitudeOutOfRange lon))
  /\ (PrimFloat.is_nan lat = true -> between (-90) lat 90 = false)
  /\ (PrimFloat.is_nan lon = true -> between (-180) lon 180 = false)
  /\ (forall alt', is_ok (validate_coordinates lat lon alt').2
                   = is_ok (validate_coordinates lat lon alt).2)
  /\ ((validate_coordinates lat lon alt).1 = []
      \/ exists a, alt = Some a /\ between (-500) a 10000 = false
                   /\ (validate_coordinates lat lon alt).1 = [AltitudeOutsideTypicalRange a]
                   /\ is_ok (validate_coordinates lat lon alt).2 = true).
Proof.
  unfold validate_coordinates.
  split; [ | split; [ | split; [ | split; [ | split; [ | split ] ] ] ] ].
  - destruct (between (-90) lat 90); simpl; [ | split; [ discriminate | intros [? _]; discriminate ] ].
    destruct (between (-180) lon 180); simpl;
      [ split; auto | split; [ discriminate | intros [_ ?]; discriminate ] ].
  - intros ->. reflexivity.
  - intros -> ->. reflexivity.
  - intros H. unfold between. rewrite (leb_nan (-90) lat) by (right; exact H). reflexivity.
  - intros H. unfold between. rewrite (leb_nan (-180) lon) by (right; exact H). reflexivity.
  - intros alt'. destruct (between (-90) lat 90); simpl; [ | reflexivity ].
    destruct (between (-180) lon 180); reflexivity.
  - destruct (between (-90) lat 90); simpl; [ | left; reflexivity ].
    destruct (between (-180) lon 180); simpl; [ | left; reflexivity ].
    destruct alt as [a|]; [ | left; reflexivity ].
    destruct (between (-500) a 10000) eqn:Ha; simpl; [ left; reflexivity | ].
    right. exists a. auto.
Qed.

Lemma validate_coordinates_range_witness :
  (validate_coordinates PrimFloat.nan 10 None).2
    = Raise (LatitudeOutOfRange PrimFloat.nan)
  /\ (validate_coordinates 90 (-180) (Some 12000%float)).2
      = Ok (90%float, (-180)%float, Some 12000%float).
Proof.
  split.
  - apply (proj1 (proj2 (validate_coordinates_range PrimFloat.nan 10 None))).
    apply (proj1 (proj2 (proj2 (proj2 (validate_coordinates_range PrimFloat.nan 10 None))))).
    reflexivity.
  - apply (proj1 (validate_coordinates_range 90 (-180) (Some 12000%float))).
    split; vm_compute; reflexivity.
Defined.

End RangeSpec.

Module ManualUploadSpec.

Import Upload Processor PhotoRoutes.

Section Manual.

Variable L : libs.
Variables (now : Z) (fc : bytes) (fn ct : string).
Variables (lat lon : float) (alt : option float).
Variables (tags description uploader : option string).
Variable a : app.

Abbreviation manual :=
  (Some [("latitude", Some lat); ("longitude", Some lon); ("altitude", alt)]).

Abbreviation answer :=
  (upload_photo_manual_coordinates L now fc fn ct lat lon alt tags description uploader a).

Lemma process_upload_manual :
  process_upload L now fc fn ct manual (parse_tags tags) description uploader =
    bind (validate_file L fc fn ct).2 (fun vr =>
      if negb (between (-90) lat 90) then Raise (LatitudeOutOfRange lat)
      else if negb (between (-180) lon 180) then Raise (LongitudeOutOfRange lon)
      else
        Ok {| pd_filename :=
                "photo_" ++ strftime_compact L now ++ "_"
                  ++ prefix_of 8 (calculate_file_hash L fc) ++ "."
                  ++ (if has_dot fn then after_last_dot fn else "jpg");
              pd_original_filename := fn;
              pd_latitude := Some lat;
              pd_longitude := Some lon;
              pd_altitude := alt;
              pd_timestamp :=
                match extract_exif_data L fc with
                | Some r => datetime_taken r
                | None => Some now
                end;
              pd_file_size := len fc;
              pd_mime_type := ct;
              pd_camera_make := get (extract_exif_data L fc) camera_make;
              pd_camera_model := get (extract_exif_data L fc) camera_model;
              pd_camera_settings := get (extract_exif_data L fc) camera_settings;
              pd_tags := default [] (parse_tags tags);
              pd_description := description;
              pd_uploader_id := uploader;
              pd_hash_md5 := calculate_file_hash L fc;
              pd_processing_status := "pending";
              pd_coordinate_source := src_manual;
              pd_file_content := fc;
              pd_validation_result := vr |}).
Proof.
  unfold process_upload. destruct (validate_file L fc fn ct).2 as [vr | e]; [ | reflexivity ].
  simpl. unfold validate_coordinates.
  destruct (between (-90) lat 90); simpl; [ | reflexivity ].
  destruct (between (-180) lon 180); reflexivity.
Qed.

(** X5.  [upload_photo_manual_coordinates].  A file that [validate_file]
    refuses is answered 400 with that error; otherwise a latitude outside
    [-90, 90] and then a longitude outside [-180, 180] is answered 400; in
    these cases the application is left as it was.  Otherwise the photo
    data carry the submitted latitude, longitude and altitude with the
    source manual, whatever the EXIF data of the file say (a coordinate of
    zero included), and the answer is: duplicate, with the id of the first
    stored record of the same hash; or queued, with one job for these photo
    data appended to the queue; or 500 when no processor is registered. *)
Theorem manual_upload_outcome :
  (forall e, (validate_file L fc fn ct).2 = Raise e -> answer = (BadRequest e, a))
  /\ (is_ok (validate_file L fc fn ct).2 = true -> between (-90) lat 90 = false ->
      answer = (BadRequest (LatitudeOutOfRange lat), a))
  /\ (is_ok (validate_file L fc fn ct).2 = true -> between (-90) lat 90 = true ->
      between (-180) lon 180 = false ->
      answer = (BadRequest (LongitudeOutOfRange lon), a))
  /\ (is_ok (validate_file L fc fn ct).2 = true -> between (-90) lat 90 = true ->
      between (-180) lon 180 = true ->
      exists pd,
        process_upload L now fc fn ct manual (parse_tags tags) description uploader = Ok pd
        /\ pd_latitude pd = Some lat /\ pd_longitude pd = Some lon /\ pd_altitude pd = alt
        /\ pd_coordinate_source pd = src_manual
        /\ match PhotoModel.get_photos_by_hash (store (world a)) (calculate_file_hash L fc) with
           | existing :: _ =>
               answer = (Duplicate (PhotoModel.id existing) (PhotoModel.id existing), a)
           | [] =>
               if processor_registered a then
                 exists job_id j,
                   answer = (Queued job_id pd,
                             {| processor_registered := true;
                                world := {| queue := (queue (world a) ++ [j])%list;
                                            store := store (world a);
                                            trace := trace (world a) |} |})
                   /\ job_photo_data j = pd /\ retry_count j = 0
               else answer = (ServerError "Failed to upload photo", a)
           end).
Proof.
  unfold upload_photo_manual_coordinates, submit. rewrite process_upload_manual.
  split; [ | split; [ | split ] ].
  - intros e ->. reflexivity.
  - intros Hval Hlat. destruct (validate_file L fc fn ct).2 as [vr | e]; [ | discriminate ].
    simpl. rewrite Hlat. reflexivity.
  - intros Hval Hlat Hlon.
    destruct (validate_file L fc fn ct).2 as [vr | e]; [ | discriminate ].
    simpl. rewrite Hlat, Hlon. reflexivity.
  - intros Hval Hlat Hlon.
    destruct (validate_file L fc fn ct).2 as [vr | e]; [ | discriminate ].
    simpl. rewrite Hlat, Hlon. simpl.
    eexists. split; [ reflexivity | ]. simpl.
    repeat (split; [ reflexivity | ]).
    destruct (PhotoModel.get_photos_by_hash _ _) as [| existing others]; [ | reflexivity ].
    destruct (processor_registered a); [ | reflexivity ].
    unfold queue_photo_for_processing. eexists _, _.
    split; [ reflexivity | ]. split; reflexivity.
Qed.

End Manual.

(** Manual coordinates on the equator and the prime meridian, for a file
    whose EXIF data name another place. *)
Lemma manual_upload_outcome_witness :
  exists job_id pd a,
    upload_photo_manual_coordinates DedupSpec.photo_reader 1704196800000000
      CoordinateSpec.jpeg_bytes "IMG_0001.jpg" "image/jpeg" 0 0 None None None None
      DedupSpec.started = (Queued job_id pd, a)
    /\ pd_latitude pd = Some 0%float /\ pd_longitude pd = Some 0%float
    /\ pd_coordinate_source pd = src_manual.
Proof.
  destruct (proj2 (proj2 (proj2 (manual_upload_outcome DedupSpec.photo_reader
              1704196800000000 CoordinateSpec.jpeg_bytes "IMG_0001.jpg" "image/jpeg"
              0 0 None None None None DedupSpec.started)))) as (pd & _ & Hla & Hlo & _ & Hsrc & H);
    try (vm_compute; reflexivity).
  simpl in H. destruct H as (job_id & j & Hanswer & _).
  exists job_id, pd. eexists. split; [ exact Hanswer | ]. auto.
Defined.

End ManualUploadSpec.

Module UndatedSpec.

Import Upload Processor.

(** A job whose photo has no timestamp. *)
Definition undated (j : job) : Prop := pd_timestamp (job_photo_data j) = None.

Lemma apply_conversion_timestamp (A : attempt) (pd : photo_data) :
  pd_timestamp (apply_conversion A pd) = pd_timestamp pd.
Proof. unfold apply_conversion. destruct (converted _); reflexivity. Qed.

Lemma pipeline_needs_timestamp (A : attempt) (pd : photo_data) :
  pd_timestamp pd = None -> raises (pipeline A pd).2 = true.
Proof.
  intros Hts. unfold pipeline.
  assert (Hmk : forall u, make_photo A pd u = None).
  { intros u. unfold make_photo. rewrite Hts.
    destruct (pd_latitude pd), (pd_longitude pd); reflexivity. }
  destruct (if truthy_float (pd_latitude pd) && truthy_float (pd_longitude pd)
            then _ else _) as [[] | e]; [ | reflexivity ].
  destruct (upload A) as [u | | msg]; try reflexivity.
  rewrite Hmk. reflexivity.
Qed.

Lemma undated_turn (A : attempt) (w : world) :
  Forall undated (queue w) ->
  store (worker_turn A w) = store w /\ Forall undated (queue (worker_turn A w)).
Proof.
  intros Hq. unfold worker_turn.
  destruct (queue w) as [| j rest] eqn:Hqueue; [ rewrite Hqueue; auto | ].
  apply Forall_cons in Hq as [Hj Hrest].
  assert (Hfail : raises (pipeline A (apply_conversion A (job_photo_data j))).2 = true).
  { apply pipeline_needs_timestamp. rewrite apply_conversion_timestamp. exact Hj. }
  destruct (RetrySpec.process_failed A j {| queue := rest; store := store w; trace := trace w |}
              Hfail) as (e & _ & ->).
  destruct (retry_count j + 1 <? 3); simpl; [ | auto ].
  split; [ reflexivity | ].
  apply Forall_app. split; [ exact Hrest | ].
  apply Forall_singleton. unfold undated. simpl.
  rewrite apply_conversion_timestamp. exact Hj.
Qed.

(** X6.  The timestamp [process_upload] hands on is the EXIF date whenever
    an EXIF dict was extracted, also when that date is [None]; the upload
    time is used only when no dict was extracted.  PIL returns a dict for
    every image it opens, so an image without an EXIF date keeps none.  The
    worker cannot store such a photo: whatever the blob store and the
    database answer, each run of [_process_photo_job] on a job without a
    timestamp ends in a retry or a failure and leaves the collection as it
    is, and so does every run of the worker on a queue of such jobs. *)
Theorem undated_photo_is_never_stored :
  (forall L now fc fn ct manual tags description uploader pd,
     process_upload L now fc fn ct manual tags description uploader = Ok pd ->
     pd_timestamp pd = match extract_exif_data L fc with
                       | Some r => datetime_taken r
                       | None => Some now
                       end)
  /\ (forall L fc v,
        pil_getexif L fc = Some v ->
        truthy_float (get (_extract_exif_pil L fc) latitude) = true
        \/ truthy_float (get (_extract_exif_exifread L fc) latitude) = false ->
        exists r, extract_exif_data L fc = Some r /\ datetime_taken r = pil_datetime v)
  /\ (forall A j w,
        undated j ->
        store (_process_photo_job A j w).2 = store w
        /\ (status (_process_photo_job A j w).1 = RETRY
            \/ status (_process_photo_job A j w).1 = FAILED))
  /\ (forall answers w,
        Forall undated (queue w) ->
        store (start_processing answers w) = store w
        /\ Forall undated (queue (start_processing answers w))).
Proof.
  split; [ | split; [ | split ] ].
  - intros L now fc fn ct manual tags description uploader pd. unfold process_upload.
    destruct (validate_file L fc fn ct).2 as [vr | e]; simpl; [ | discriminate ].
    destruct (determine_coordinates manual (extract_exif_data L fc))
      as [[[lat lon] alt] source].
    destruct lat as [la|]; [ | discriminate ].
    destruct lon as [lo|]; [ | discriminate ].
    destruct (validate_coordinates la lo alt).2; simpl; [ | discriminate ].
    intros Hpd. injection Hpd as <-. reflexivity.
  - intros L fc v Hv Hlat.
    assert (Hpil : extract_exif_data L fc = _extract_exif_pil L fc).
    { unfold extract_exif_data. destruct Hlat as [H | H]; rewrite H; simpl.
      - destruct (negb (truthy_float (get (_extract_exif_pil L fc) longitude))); reflexivity.
      - rewrite andb_false_r. destruct (_ || _); reflexivity. }
    rewrite Hpil. unfold _extract_exif_pil. rewrite Hv. simpl.
    destruct (_parse_gps_coordinates (GPSInfo v)) as [[la lo] al].
    eexists. split; reflexivity.
  - intros A j w Hj.
    assert (Hfail : raises (pipeline A (apply_conversion A (job_photo_data j))).2 = true).
    { apply pipeline_needs_timestamp. rewrite apply_conversion_timestamp. exact Hj. }
    destruct (RetrySpec.process_failed A j w Hfail) as (e & _ & ->).
    destruct (retry_count j + 1 <? 3); simpl; auto.
  - intros answers. induction answers as [| A rest IH]; intros w Hq; simpl; [ auto | ].
    destruct (undated_turn A w Hq) as [Hstore Hq'].
    destruct (IH (worker_turn A w) Hq') as [-> Hq'']. auto.
Qed.

(** A PNG screenshot without EXIF data, uploaded with manual coordinates. *)
Definition screenshot_reader : libs :=
  {| md5_hexdigest := fun _ => "0cc175b9c0f1b6a831c399e269772661";
     image_open := fun _ => inl {| width := 1280; height := 720; format_name := "PNG" |};
     pil_getexif := fun _ =>
       Some {| GPSInfo := {| GPSLatitude := None; GPSLatitudeRef := None;
                             GPSLongitude := None; GPSLongitudeRef := None;
                             GPSAltitude := None; GPSAltitudeRef := None |};
               Make := None; Model := None;
               pil_camera_settings := None; pil_datetime := None |};
     exifread_process_file := fun _ =>
       Some {| GPS_GPSLatitude := None; GPS_GPSLatitudeRef := None;
               GPS_GPSLongitude := None; GPS_GPSLongitudeRef := None;
               GPS_GPSAltitude := None; GPS_GPSAltitudeRef := None;
               Image_Make := None; Image_Model := None; tags_datetime := None |};
     strftime_compact := fun _ => "20240102_120000" |}.

Definition screenshot_bytes : bytes := [Byte.x89; Byte.x50; Byte.x4e; Byte.x47].

Definition screenshot_upload : result upload_error photo_data :=
  process_upload screenshot_reader 1704196800000000 screenshot_bytes "screen.png" "image/png"
    (Some [("latitude", Some 39.0269%float); ("longitude", Some (-86.948)%float);
           ("altitude", None)])
    None None None.

Definition screenshot_job (pd : photo_data) : job :=
  {| job_id := "job_20240102_120000_0cc175b9"; job_photo_data := pd; status := PENDING;
     created_at := 1704196800000000; retry_count := 0;
     error_message := None; photo_id := None |}.

Lemma undated_photo_is_never_stored_witness :
  exists pd,
    screenshot_upload = Ok pd
    /\ pd_timestamp pd = None
    /\ store (start_processing
                [DedupSpec.stored_as "a"; DedupSpec.stored_as "b"; DedupSpec.stored_as "c"]
                {| queue := [screenshot_job pd]; store := []; trace := [] |}) = [].
Proof.
  destruct screenshot_upload as [pd | e] eqn:Hpd; [ | vm_compute in Hpd; discriminate ].
  exists pd. split; [ reflexivity | ].
  unfold screenshot_upload in Hpd.
  pose proof (proj1 undated_photo_is_never_stored _ _ _ _ _ _ _ _ _ pd Hpd) as Hts.
  assert (Hnone : pd_timestamp pd = None) by (rewrite Hts; vm_compute; reflexivity).
  split; [ exact Hnone | ].
  apply (proj2 (proj2 (proj2 undated_photo_is_never_stored))).
  apply Forall_singleton. exact Hnone.
Defined.

End UndatedSpec.

Module ConversionSpec.

Import Upload Processor.

(** [mime_type in ['image/heic', 'image/heif']] *)
Definition is_heic (mime_type : string) : bool :=
  String.eqb mime_type "image/heic" || String.eqb mime_type "image/heif".

Lemma has_dot_app (s t : string) : has_dot (s ++ t) = has_dot s || has_dot t.
Proof.
  induction s as [| c s IH]; [ reflexivity | ].
  change (String c s ++ t) with (String c (s ++ t)). simpl.
  destruct (Ascii.eqb c dot); [ reflexivity | exact IH ].
Qed.

(** [rsplit('.', 1)[0]] gives back what stood before the last dot. *)
Lemma name_without_ext_app (stem ext : string) :
  has_dot ext = false -> name_without_ext (stem ++ "." ++ ext) = stem.
Proof.
  intros Hext. induction stem as [| c stem IH].
  - cbv [String.append]. simpl. rewrite Hext. reflexivity.
  - change (String c stem ++ "." ++ ext) with (String c (stem ++ "." ++ ext)).
    simpl. rewrite has_dot_app.
    replace (has_dot ("." ++ ext)) with true by reflexivity.
    rewrite orb_true_r. rewrite IH. reflexivity.
Qed.

Lemma name_without_ext_no_dot (s : string) : has_dot s = false -> name_without_ext s = s.
Proof.
  destruct s as [| c s]; simpl; [ reflexivity | ].
  destruct (Ascii.eqb c dot); [ discriminate | ].
  intros ->. reflexivity.
Qed.

Lemma after_last_dot_no_dot (s : string) : has_dot (after_last_dot s) = false.
Proof.
  induction s as [| c s IH]; simpl; [ reflexivity | ].
  destruct (has_dot s) eqn:Hs; [ exact IH | ].
  destruct (Ascii.eqb c dot) eqn:Hc; [ exact Hs | ].
  simpl. rewrite Hc. exact Hs.
Qed.

(** X7.  [_convert_image_format] either returns the content, the MIME type
    and the file name as they are (not converted) or a result whose MIME
    type is image/jpeg.  A file that is not HEIC or HEIF keeps its name in
    both cases (so a re-encoded large PNG keeps the extension png) and is
    not converted at all when it has at most 10 MB.  A converted HEIC or
    HEIF file is renamed to what stood before the last dot of its name
    (the whole name when it has no dot) followed by .jpg. *)
Theorem convert_image_format_outcome (A : attempt) (fc : bytes) (mime fn : string) :
  (converted (_convert_image_format A fc mime fn) = false ->
     _convert_image_format A fc mime fn
       = {| converted := false; content := fc; c_mime_type := mime; c_filename := fn |})
  /\ (converted (_convert_image_format A fc mime fn) = true ->
      c_mime_type (_convert_image_format A fc mime fn) = "image/jpeg")
  /\ (is_heic mime = false ->
      c_filename (_convert_image_format A fc mime fn) = fn
      /\ (len fc <= 10 * 1024 * 1024 ->
          converted (_convert_image_format A fc mime fn) = false))
  /\ (is_heic mime = true ->
      converted (_convert_image_format A fc mime fn) = true ->
      c_filename (_convert_image_format A fc mime fn) = name_without_ext fn ++ ".jpg")
  /\ (forall stem ext, fn = stem ++ "." ++ ext -> has_dot ext = false ->
        name_without_ext fn = stem)
  /\ (has_dot fn = false -> name_without_ext fn = fn).
Proof.
  unfold _convert_image_format, is_heic, large_file.
  split; [ | split; [ | split; [ | split; [ | split ] ] ] ].
  - destruct (String.eqb mime "image/heic" || String.eqb mime "image/heif"); simpl.
    + destruct (heic_to_jpeg A fc); simpl; [ discriminate | reflexivity ].
    + destruct (len fc >? 10 * 1024 * 1024); [ | reflexivity ].
      destruct (optimize_large A fc); simpl; [ discriminate | reflexivity ].
  - destruct (String.eqb mime "image/heic" || String.eqb mime "image/heif"); simpl.
    + destruct (heic_to_jpeg A fc); simpl; [ reflexivity | discriminate ].
    + destruct (len fc >? 10 * 1024 * 1024); [ | discriminate ].
      destruct (optimize_large A fc); simpl; [ reflexivity | discriminate ].
  - intros ->. simpl. split.
    + destruct (len fc >? 10 * 1024 * 1024); [ | reflexivity ].
      destruct (optimize_large A fc); reflexivity.
    + intros Hsmall. destruct (Z.gtb_spec (len fc) (10 * 1024 * 1024)); [ lia | reflexivity ].
  - intros ->. simpl. destruct (heic_to_jpeg A fc); simpl; [ reflexivity | discriminate ].
  - intros stem ext -> Hext. apply name_without_ext_app. exact Hext.
  - apply name_without_ext_no_dot.
Qed.

Lemma convert_image_format_outcome_witness :
  name_without_ext "photo_20240102_120000_9e107d9d.heic" = "photo_20240102_120000_9e107d9d"
  /\ c_filename (_convert_image_format
                   {| heic_to_jpeg := fun b => Some b; optimize_large := fun _ => None;
                      upload := UploadTimeout; uuid4 := ""; create_photo_error := None |}
                   [] "image/heic" "photo_20240102_120000_9e107d9d.heic")
     = "photo_20240102_120000_9e107d9d.jpg".
Proof.
  pose proof (convert_image_format_outcome
                {| heic_to_jpeg := fun b => Some b; optimize_large := fun _ => None;
                   upload := UploadTimeout; uuid4 := ""; create_photo_error := None |}
                [] "image/heic" "photo_20240102_120000_9e107d9d.heic")
    as (_ & _ & _ & Hname & Hstem & _).
  assert (H : name_without_ext "photo_20240102_120000_9e107d9d.heic"
              = "photo_20240102_120000_9e107d9d")
    by (apply (Hstem "photo_20240102_120000_9e107d9d" "heic"); reflexivity).
  split; [ exact H | ].
  rewrite Hname by reflexivity. rewrite H. reflexivity.
Defined.

End ConversionSpec.

Module StoreSpec.

Import Upload Processor.

Lemma apply_conversion_frame (A : attempt) (pd : photo_data) :
  pd_original_filename (apply_conversion A pd) = pd_original_filename pd
  /\ pd_file_size (apply_conversion A pd) = pd_file_size pd
  /\ pd_hash_md5 (apply_conversion A pd) = pd_hash_md5 pd
  /\ pd_latitude (apply_conversion A pd) = pd_latitude pd
  /\ pd_longitude (apply_conversion A pd) = pd_longitude pd
  /\ pd_altitude (apply_conversion A pd) = pd_altitude pd
  /\ pd_timestamp (apply_conversion A pd) = pd_timestamp pd
  /\ pd_tags (apply_conversion A pd) = pd_tags pd.
Proof. unfold apply_conversion. destruct (converted _); repeat split; reflexivity. Qed.

(** X8.  When the [try] block of [_process_photo_job] succeeds, the job is
    left [COMPLETED] with the id of the new record and its retry count
    unchanged, the queue is as it was, the collection grew by exactly the
    new record, and the calls made were one blob upload and one insert.
    The record describes the original upload: its hash, its size, its
    original name, its tags, its coordinates and its timestamp are those of
    the photo data as they were queued, also when the bytes were converted
    before they were uploaded; its status is completed and its thumbnail URL
    is the medium one. *)
Theorem stored_photo_describes_the_upload (A : attempt) (j : job) (w : world)
    (calls : list event) (photo : PhotoModel.Photo) :
  pipeline A (apply_conversion A (job_photo_data j)) = (calls, Ok photo) ->
  _process_photo_job A j w
    = (set_job j (apply_conversion A (job_photo_data j)) COMPLETED (retry_count j)
         (error_message j) (Some (uuid4 A)),
       {| queue := queue w;
          store := (store w ++ [photo])%list;
          trace := (trace w
                      ++ [BlobUpload (pd_filename (apply_conversion A (job_photo_data j)))
                            (Some (PhotoModel.timestamp photo))
                            (len (pd_file_content (apply_conversion A (job_photo_data j)))
                               <? 10 * 1024 * 1024);
                          DbInsert photo])%list |})
  /\ upload A = UploadOk {| photo_url := PhotoModel.blob_url photo;
                            ur_thumbnail_urls := PhotoModel.thumbnail_urls photo |}
  /\ create_photo_error A = None
  /\ PhotoModel.id photo = uuid4 A
  /\ PhotoModel.processing_status photo = "completed"
  /\ PhotoModel.hash_md5 photo = pd_hash_md5 (job_photo_data j)
  /\ PhotoModel.file_size photo = pd_file_size (job_photo_data j)
  /\ PhotoModel.original_filename photo = pd_original_filename (job_photo_data j)
  /\ PhotoModel.tags photo = pd_tags (job_photo_data j)
  /\ pd_latitude (job_photo_data j) = Some (PhotoModel.latitude photo)
  /\ pd_longitude (job_photo_data j) = Some (PhotoModel.longitude photo)
  /\ pd_timestamp (job_photo_data j) = Some (PhotoModel.timestamp photo)
  /\ PhotoModel.altitude photo = pd_altitude (job_photo_data j)
  /\ PhotoModel.thumbnail_url photo = assoc "medium" (PhotoModel.thumbnail_urls photo).
Proof.
  intros Hrun. unfold _process_photo_job. rewrite Hrun.
  destruct (apply_conversion_frame A (job_photo_data j))
    as (Hof & Hsz & Hh & Hla & Hlo & Hal & Hts & Htg).
  revert Hrun. unfold pipeline, large_file.
  destruct (if truthy_float (pd_latitude _) && truthy_float (pd_longitude _)
            then _ else _) as [[] | e]; [ | discriminate ].
  destruct (upload A) as [u | | msg] eqn:Hup; try discriminate.
  destruct (make_photo A _ u) as [p|] eqn:Hmk; [ | discriminate ].
  destruct (create_photo_error A) eqn:Hdb; [ discriminate | ].
  intros Heq. injection Heq as <- <-.
  unfold make_photo in Hmk. rewrite Hla, Hlo, Hts, Hof, Hsz, Hh, Hal, Htg in Hmk.
  destruct (pd_latitude (job_photo_data j)) as [la|]; [ | discriminate ].
  destruct (pd_longitude (job_photo_data j)) as [lo|]; [ | discriminate ].
  destruct (pd_timestamp (job_photo_data j)) as [ts|] eqn:Ets; [ | discriminate ].
  simpl in Hmk. injection Hmk as <-. simpl.
  rewrite Hts. destruct u. repeat split; reflexivity.
Qed.

Lemma stored_photo_describes_the_upload_witness :
  exists photo,
    store (_process_photo_job (DedupSpec.stored_as "123e4567-e89b-12d3-a456-426614174000")
             (RetrySpec.sample_job 0) RetrySpec.idle).2 = [photo]
    /\ PhotoModel.hash_md5 photo = "9e107d9d372bb6826bd81d3542a419d6"
    /\ PhotoModel.file_size photo = 4.
Proof.
  destruct (pipeline (DedupSpec.stored_as "123e4567-e89b-12d3-a456-426614174000")
              (apply_conversion (DedupSpec.stored_as "123e4567-e89b-12d3-a456-426614174000")
                 (job_photo_data (RetrySpec.sample_job 0)))) as [calls [photo | e]] eqn:Hrun;
    [ | vm_compute in Hrun; discriminate ].
  exists photo.
  destruct (stored_photo_describes_the_upload _ _ RetrySpec.idle _ _ Hrun)
    as (-> & _ & _ & _ & _ & Hh & Hsz & _).
  split; [ reflexivity | ]. split; [ exact Hh | exact Hsz ].
Defined.

End StoreSpec.

Module DrainSpec.

Import Upload Processor.

(** The number of attempts a queued job can still take. *)
Definition attempts_left (j : job) : nat := Z.to_nat (Z.max 1 (max_retries - retry_count j)).

Definition work (q : list job) : nat := list_sum (List.map attempts_left q).

Lemma work_app (q r : list job) : work (q ++ r)%list = (work q + work r)%nat.
Proof. unfold work. rewrite List.map_app, list_sum_app. reflexivity. Qed.

Lemma attempts_left_pos (j : job) : (1 <= attempts_left j)%nat.
Proof. unfold attempts_left. lia. Qed.

(** One turn on a queue that is not empty uses up an attempt, and stores at
    most the photo of the job it took. *)
Lemma worker_turn_work (A : attempt) (w : world) (j : job) (rest : list job) :
  queue w = j :: rest ->
  (work (queue (worker_turn A w)) < work (queue w))%nat
  /\ (length (store (worker_turn A w)) + length (queue (worker_turn A w))
      <= length (store w) + length (queue w))%nat.
Proof.
  intros Hq. unfold worker_turn. rewrite Hq.
  unfold _process_photo_job.
  destruct (pipeline A (apply_conversion A (job_photo_data j))) as [calls [photo | e]].
  - cbn [snd queue store]. unfold PhotoModel.insert_one.
    rewrite length_app. simpl. unfold work at 2. simpl.
    pose proof (attempts_left_pos j). fold (work rest). lia.
  - destruct (Z.ltb_spec (retry_count j + 1) max_retries) as [Hlt | Hge]; cbn [snd queue store].
    + rewrite work_app, length_app. unfold work at 2 3. simpl. fold (work rest).
      unfold attempts_left. cbn [retry_count set_job]. unfold max_retries in *. lia.
    + unfold work at 2. simpl. fold (work rest).
      pose proof (attempts_left_pos j). lia.
Qed.

(** X9.  The worker always empties its queue: a job takes at most
    [max_retries] minus its retry count attempts (at least one), so after
    as many turns as the queued jobs have attempts left the queue is empty,
    whatever the collaborators answer.  Each job adds at most one record to
    the collection. *)
Theorem worker_drains_its_queue (answers : list attempt) (w : world) :
  (work (queue w) <= length answers)%nat ->
  queue (start_processing answers w) = []
  /\ (length (store (start_processing answers w)) <= length (store w) + length (queue w))%nat.
Proof.
  revert w. induction answers as [| A rest IH]; intros w Hlen; simpl in *.
  - destruct (queue w) as [| j q]; [ split; [ reflexivity | lia ] | ].
    pose proof (attempts_left_pos j). unfold work in Hlen. simpl in Hlen. lia.
  - destruct (queue w) as [| j q] eqn:Hq.
    + assert (Hidle : worker_turn A w = w) by (unfold worker_turn; rewrite Hq; reflexivity).
      rewrite Hidle. destruct (IH w) as [H1 H2]; [ rewrite Hq; unfold work; simpl; lia | ].
      rewrite Hq in H2. auto.
    + destruct (worker_turn_work A w j q Hq) as [Hwork Hsize].
      rewrite Hq in Hwork, Hsize.
      destruct (IH (worker_turn A w)) as [H1 H2]; [ lia | ].
      split; [ exact H1 | lia ].
Qed.

Lemma worker_drains_its_queue_witness :
  work [RetrySpec.sample_job 0] = 3%nat
  /\ queue (start_processing
              [RetrySpec.timeout_attempt; RetrySpec.timeout_attempt; RetrySpec.timeout_attempt]
              {| queue := [RetrySpec.sample_job 0]; store := []; trace := [] |}) = [].
Proof.
  split; [ reflexivity | ].
  apply (worker_drains_its_queue
           [RetrySpec.timeout_attempt; RetrySpec.timeout_attempt; RetrySpec.timeout_attempt]
           {| queue := [RetrySpec.sample_job 0]; store := []; trace := [] |}).
  vm_compute. lia.
Defined.

End DrainSpec.

Module ManagerSpec.

Import ProcessingManager.

Section Registrations.

Context {P : Type}.

(** The calls of [register_processor] made so far, oldest first. *)
Definition registered (calls : list (string * P)) (m : PhotoProcessingManager P)
  : PhotoProcessingManager P :=
  foldl (fun m c => register_processor c.1 c.2 m) m calls.

Lemma registered_default (calls : list (string * P)) (m : PhotoProcessingManager P) :
  default_processor (registered calls m) =
    match default_processor m with
    | Some d => Some d
    | None => snd <$> head calls
    end.
Proof.
  revert m. induction calls as [| [n p] calls IH]; intros m; simpl.
  - destruct (default_processor m); reflexivity.
  - unfold registered in *. simpl. rewrite IH. simpl.
    destruct (default_processor m); reflexivity.
Qed.

Lemma registered_processors (calls : list (string * P)) (m : PhotoProcessingManager P)
    (name : string) :
  processors (registered calls m) !! name =
    match last (List.filter (fun c => String.eqb c.1 name) calls) with
    | Some c => Some c.2
    | None => processors m !! name
    end.
Proof.
  revert m. induction calls as [| [n p] calls IH]; intros m; simpl; [ reflexivity | ].
  unfold registered in *. simpl. rewrite IH. simpl.
  destruct (String.eqb_spec n name) as [-> | Hne].
  - destruct (List.filter _ calls) as [| c cs] eqn:Hf; simpl.
    + rewrite lookup_insert_eq. reflexivity.
    + rewrite last_cons. destruct (last cs); reflexivity.
  - destruct (last (List.filter _ calls)); [ reflexivity | ].
    rewrite lookup_insert_ne by assumption. reflexivity.
Qed.

(** X10.  After any sequence of [register_processor] calls on a new
    manager, [get_processor()] and [get_processor(name)] for the empty
    name answer the processor built by the first call ([None] when there
    was none), and [get_processor(name)] for another name answers the one
    built by the last call under that name.  Once a processor is
    registered, a later registration never changes the default, not even
    one under the same name. *)
Theorem default_processor_is_first_registered (calls : list (string * P)) :
  get_processor None (registered calls new_manager) = snd <$> head calls
  /\ get_processor (Some "") (registered calls new_manager) = snd <$> head calls
  /\ (forall name, name <> "" ->
        get_processor (Some name) (registered calls new_manager)
          = snd <$> last (List.filter (fun c => String.eqb c.1 name) calls))
  /\ (forall name p, calls <> [] ->
        get_processor None (register_processor name p (registered calls new_manager))
          = get_processor None (registered calls new_manager)).
Proof.
  split; [ | split; [ | split ] ].
  - simpl. rewrite registered_default. reflexivity.
  - simpl. rewrite registered_default. reflexivity.
  - intros name Hname. destruct name as [| c r]; [ congruence | ].
    simpl. rewrite registered_processors. simpl.
    destruct (last _); reflexivity.
  - intros name p Hne. simpl. rewrite registered_default. simpl.
    destruct calls as [| c cs]; [ congruence | reflexivity ].
Qed.

End Registrations.

(** The processor registered twice under the name default, as a restart of
    the lifespan handler would do. *)
Lemma default_processor_is_first_registered_witness :
  get_processor None (registered [("default", 1%nat); ("default", 2%nat)] new_manager)
    = Some 1%nat
  /\ get_processor (Some "default")
       (registered [("default", 1%nat); ("default", 2%nat)] new_manager) = Some 2%nat.
Proof.
  destruct (default_processor_is_first_registered
              [("default", 1%nat); ("default", 2%nat)]) as (H1 & _ & H2 & _).
  split; [ exact H1 | ]. apply H2. discriminate.
Defined.

End ManagerSpec.

Module SafeNameSpec.

Import ExportModel ExportSvc.

Lemma replace_unsafe_safe (s : string) :
  Forall (fun c => is_safe c = true) (list_ascii_of_string (replace_unsafe s)).
Proof.
  induction s as [| c s IH]; simpl; [ constructor | ].
  constructor; [ | exact IH ].
  destruct (is_safe c) eqn:Hc; [ exact Hc | reflexivity ].
Qed.

Lemma replace_unsafe_length (s : string) :
  String.length (replace_unsafe s) = String.length s.
Proof. induction s as [| c s IH]; simpl; congruence. Qed.

Lemma replace_unsafe_fixed (s : string) :
  Forall (fun c => is_safe c = true) (list_ascii_of_string s) -> replace_unsafe s = s.
Proof.
  induction s as [| c s IH]; simpl; intros H; [ reflexivity | ].
  inversion H as [| ? ? Hc Hs]; subst. rewrite Hc, IH by exact Hs. reflexivity.
Qed.

Lemma make_safe_filename_cases (filename : string) :
  (filename = "" /\ _make_safe_filename filename = "photo.jpg")
  \/ (filename <> "" /\ _make_safe_filename filename = replace_unsafe filename).
Proof.
  unfold _make_safe_filename. destruct filename as [| c r]; [ left; auto | right ].
  split; [ discriminate | reflexivity ].
Qed.

(** X11.  [_make_safe_filename] never returns the empty string; each
    character of its result is a letter, a digit, a dot, a hyphen or an
    underscore, so the result holds no slash and no backslash.  A name that
    is not empty keeps its length, a name that is not empty and already
    safe is returned as it is, and applying the function twice is the same
    as applying it once. *)
Theorem make_safe_filename_is_safe (filename : string) :
  _make_safe_filename filename <> ""
  /\ Forall (fun c => is_safe c = true) (list_ascii_of_string (_make_safe_filename filename))
  /\ ~ In "/"%char (list_ascii_of_string (_make_safe_filename filename))
  /\ ~ In "\"%char (list_ascii_of_string (_make_safe_filename filename))
  /\ (filename <> "" ->
      String.length (_make_safe_filename filename) = String.length filename)
  /\ (filename <> "" ->
      Forall (fun c => is_safe c = true) (list_ascii_of_string filename) ->
      _make_safe_filename filename = filename)
  /\ _make_safe_filename (_make_safe_filename filename) = _make_safe_filename filename.
Proof.
  assert (Hsafe : Forall (fun c => is_safe c = true)
                    (list_ascii_of_string (_make_safe_filename filename))).
  { destruct (make_safe_filename_cases filename) as [[_ ->] | [_ ->]].
    - repeat constructor.
    - apply replace_unsafe_safe. }
  assert (Hne : _make_safe_filename filename <> "").
  { destruct (make_safe_filename_cases filename) as [[_ ->] | [Hf ->]]; [ discriminate | ].
    destruct filename; [ congruence | discriminate ]. }
  assert (Hnot : forall c, is_safe c = false ->
                           ~ In c (list_ascii_of_string (_make_safe_filename filename))).
  { intros c Hc Hin. rewrite List.Forall_forall in Hsafe. apply Hsafe in Hin. congruence. }
  split; [ exact Hne | ]. split; [ exact Hsafe | ].
  split; [ apply Hnot; reflexivity | ]. split; [ apply Hnot; reflexivity | ].
  split; [ | split ].
  - intros Hf. destruct (make_safe_filename_cases filename) as [[? _] | [_ ->]];
      [ contradiction | apply replace_unsafe_length ].
  - intros Hf Hall. destruct (make_safe_filename_cases filename) as [[? _] | [_ ->]];
      [ contradiction | apply replace_unsafe_fixed; exact Hall ].
  - destruct (make_safe_filename_cases (_make_safe_filename filename)) as [[? _] | [_ ->]];
      [ contradiction | apply replace_unsafe_fixed; exact Hsafe ].
Qed.

Lemma make_safe_filename_is_safe_witness :
  _make_safe_filename "site 1/IMG 0002.jpg" = "site_1_IMG_0002.jpg"
  /\ String.length (_make_safe_filename "site 1/IMG 0002.jpg") = 19%nat
  /\ _make_safe_filename "site_1_IMG_0002.jpg" = "site_1_IMG_0002.jpg".
Proof.
  destruct (make_safe_filename_is_safe "site 1/IMG 0002.jpg")
    as (_ & _ & _ & _ & Hlen & _ & Hidem).
  assert (H : _make_safe_filename "site 1/IMG 0002.jpg" = "site_1_IMG_0002.jpg")
    by reflexivity.
  split; [ exact H | ]. split; [ apply Hlen; discriminate | ].
  rewrite <- H. exact Hidem.
Defined.

End SafeNameSpec.

Module StatisticsSpec.

Import ExportModel ExportSvc ExportQueries.

(** The counter [stats] keeps for a status. *)
Definition counter (stats : statistics) (st : PhotoModel.JobStatus) : Z :=
  match st with
  | PhotoModel.PENDING => pending stats
  | PhotoModel.QUEUED => queued stats
  | PhotoModel.PROCESSING => processing stats
  | PhotoModel.COMPLETED => completed stats
  | PhotoModel.FAILED => failed stats
  | PhotoModel.CANCELLED => cancelled stats
  end.

(** The number of jobs of [l] whose status is [st]. *)
Definition having (st : PhotoModel.JobStatus) (l : list ExportJob) : Z :=
  Z.of_nat (length (List.filter (fun job => bool_decide (status job = st)) l)).

Lemma tally (l : list ExportJob) (stats : statistics) (st : PhotoModel.JobStatus) :
  counter (foldl (fun stats job => increment stats (status job)) stats l) st
    = counter stats st + having st l
  /\ total_jobs (foldl (fun stats job => increment stats (status job)) stats l)
     = total_jobs stats.
Proof.
  revert stats. induction l as [| job l IH]; intros stats.
  - unfold having. simpl. split; [ lia | reflexivity ].
  - simpl. destruct (IH (increment stats (status job))) as [-> ->].
    split; [ | reflexivity ].
    unfold having. simpl.
    destruct (status job), st; simpl; lia.
Qed.

Lemma having_total (l : list ExportJob) :
  having PhotoModel.PENDING l + having PhotoModel.QUEUED l + having PhotoModel.PROCESSING l
  + having PhotoModel.COMPLETED l + having PhotoModel.FAILED l + having PhotoModel.CANCELLED l
  = Z.of_nat (length l).
Proof.
  unfold having. induction l as [| job l IH]; [ reflexivity | ].
  simpl. destruct (status job); simpl; lia.
Qed.

Lemma active_count (l : list ExportJob) (n : Z) :
  foldl (fun active_count job =>
           if cancellable (status job) then active_count + 1 else active_count) n l
    = n + having PhotoModel.PENDING l + having PhotoModel.QUEUED l
      + having PhotoModel.PROCESSING l.
Proof.
  revert n. unfold having. induction l as [| job l IH]; intros n; simpl; [ lia | ].
  rewrite IH. destruct (status job); simpl; lia.
Qed.

Lemma having_none (st : PhotoModel.JobStatus) (l : list ExportJob) :
  Forall (fun job => status job <> st) l -> having st l = 0.
Proof.
  unfold having. induction l as [| job l IH]; intros H; [ reflexivity | ].
  inversion H as [| ? ? Hj Hl]; subst. simpl.
  rewrite bool_decide_eq_false_2 by exact Hj. apply IH. exact Hl.
Qed.

(** X12.  [get_job_statistics] counts each job of the table under its
    status: [total_jobs] is the size of the table, each counter is the
    number of jobs with that status, and the six counters add up to
    [total_jobs].  [get_active_jobs_count] is the sum of the counters
    pending, queued and processing.  In every state the service can reach
    the counters queued and processing are zero, so the active jobs are
    the pending ones. *)
Theorem job_statistics_add_up (s : service) :
  total_jobs (get_job_statistics s) = Z.of_nat (size (active_jobs s))
  /\ (forall st, counter (get_job_statistics s) st = having st (values s))
  /\ pending (get_job_statistics s) + queued (get_job_statistics s)
     + processing (get_job_statistics s) + completed (get_job_statistics s)
     + failed (get_job_statistics s) + cancelled (get_job_statistics s)
     = total_jobs (get_job_statistics s)
  /\ get_active_jobs_count s
     = pending (get_job_statistics s) + queued (get_job_statistics s)
       + processing (get_job_statistics s)
  /\ (LifecycleSpec.reachable s ->
      queued (get_job_statistics s) = 0
      /\ processing (get_job_statistics s) = 0
      /\ get_active_jobs_count s = pending (get_job_statistics s)).
Proof.
  assert (Hcount : forall st, counter (get_job_statistics s) st = having st (values s)).
  { intros st. unfold get_job_statistics.
    rewrite (proj1 (tally (values s) _ st)). destruct st; simpl; lia. }
  assert (Htotal : total_jobs (get_job_statistics s) = Z.of_nat (size (active_jobs s))).
  { unfold get_job_statistics. rewrite (proj2 (tally (values s) _ PhotoModel.PENDING)).
    reflexivity. }
  assert (Hactive : get_active_jobs_count s
                    = pending (get_job_statistics s) + queued (get_job_statistics s)
                      + processing (get_job_statistics s)).
  { unfold get_active_jobs_count. rewrite active_count.
    rewrite <- (Hcount PhotoModel.PENDING), <- (Hcount PhotoModel.QUEUED),
      <- (Hcount PhotoModel.PROCESSING). simpl. lia. }
  split; [ exact Htotal | ]. split; [ exact Hcount | ].
  split; [ | split; [ exact Hactive | ] ].
  - rewrite Htotal.
    pose proof (Hcount PhotoModel.PENDING). pose proof (Hcount PhotoModel.QUEUED).
    pose proof (Hcount PhotoModel.PROCESSING). pose proof (Hcount PhotoModel.COMPLETED).
    pose proof (Hcount PhotoModel.FAILED). pose proof (Hcount PhotoModel.CANCELLED).
    simpl in *. pose proof (having_total (values s)) as Hsum.
    unfold values in Hsum at 7. rewrite length_fmap, length_map_to_list in Hsum. lia.
  - intros Hreach.
    pose proof (LifecycleSpec.reachable_invariant s Hreach) as Hinv.
    assert (Hall : forall st, st = PhotoModel.QUEUED \/ st = PhotoModel.PROCESSING ->
                     Forall (fun job => status job <> st) (values s)).
    { intros st Hst. apply List.Forall_forall. intros job Hin.
      apply list_elem_of_In in Hin. unfold values in Hin.
      apply list_elem_of_fmap in Hin as ([k job'] & -> & Hin).
      apply elem_of_map_to_list in Hin. simpl.
      destruct (LifecycleSpec.settled s Hinv k job' Hin) as [Hp | Ht];
        destruct Hst as [-> | ->]; intros Heq; rewrite Heq in *; discriminate. }
    pose proof (Hcount PhotoModel.QUEUED) as Hq. pose proof (Hcount PhotoModel.PROCESSING) as Hp.
    simpl in Hq, Hp.
    rewrite having_none in Hq by (apply Hall; auto).
    rewrite having_none in Hp by (apply Hall; auto).
    split; [ exact Hq | ]. split; [ exact Hp | ]. lia.
Qed.

Lemma job_statistics_add_up_witness :
  total_jobs (get_job_statistics LifecycleSpec.exported) = 1
  /\ completed (get_job_statistics LifecycleSpec.exported) = 1
  /\ get_active_jobs_count LifecycleSpec.exported = 0.
Proof.
  destruct (job_statistics_add_up LifecycleSpec.exported)
    as (Htotal & Hcount & Hsum & Hactive & Hreach).
  destruct (Hreach LifecycleSpec.reachable_exported) as (Hq & Hp & Hact).
  assert (Hone : total_jobs (get_job_statistics LifecycleSpec.exported) = 1)
    by (rewrite Htotal; vm_compute; reflexivity).
  assert (Hdone : completed (get_job_statistics LifecycleSpec.exported) = 1)
    by (exact (eq_trans (Hcount PhotoModel.COMPLETED) eq_refl)).
  split; [ exact Hone | ]. split; [ exact Hdone | ].
  rewrite Hact. exact (eq_trans (Hcount PhotoModel.PENDING) eq_refl).
Defined.

End StatisticsSpec.

Module DownloadSpec.

Import ExportModel ExportSvc ExportQueries ExportRoutes.

(** X13.  [get_export_file] raises a [NameError] for every job of the
    table, since the module never binds the name it compares the status
    with.  [download_export_file] therefore never returns a file: it answers
    404 for an unknown job, 400 for a job that is not completed, 410 for a
    completed job that has expired, and 500 for every other job, that is
    for each completed export whose download URL [get_export_status]
    advertises. *)
Theorem completed_export_cannot_be_downloaded (now : Z) (job_id : string) (s : service) :
  (forall job, active_jobs s !! job_id = Some job ->
               exists name, get_export_file s job_id = Raise (NameError name))
  /\ (exists e,
        download_export_file now job_id s = Raise e
        /\ e = match active_jobs s !! job_id with
               | None => ExportJobNotFound
               | Some job =>
                   if negb (bool_decide (status job = PhotoModel.COMPLETED))
                   then NotCompleted (status job)
                   else if is_expired now job then Expired else DownloadFailed
               end
        /\ (status_code e = 404 \/ status_code e = 400 \/ status_code e = 410
            \/ status_code e = 500))
  /\ (forall job,
        active_jobs s !! job_id = Some job -> status job = PhotoModel.COMPLETED ->
        is_expired now job = false ->
        (exists r, get_export_status job_id s = Ok r
                   /\ esr_download_url r = Some ("/api/exports/" ++ id job ++ "/download"))
        /\ download_export_file now job_id s = Raise DownloadFailed
        /\ status_code DownloadFailed = 500).
Proof.
  split; [ | split ].
  - intros job Hjob. unfold get_export_file. rewrite Hjob. eauto.
  - unfold download_export_file, get_export_file, get_job_status.
    destruct (active_jobs s !! job_id) as [job|].
    + destruct (bool_decide (status job = PhotoModel.COMPLETED)); simpl;
        [ | eexists; split; [ reflexivity | split; [ reflexivity | simpl; auto ] ] ].
      destruct (is_expired now job);
        eexists; (split; [ reflexivity | split; [ reflexivity | simpl; auto ] ]).
    + eexists; split; [ reflexivity | split; [ reflexivity | simpl; auto ] ].
  - intros job Hjob Hst Hexp.
    unfold get_export_status, download_export_file, get_export_file, get_job_status.
    rewrite Hjob, Hst, Hexp. simpl.
    split; [ eexists; split; reflexivity | split; reflexivity ].
Qed.

Lemma completed_export_cannot_be_downloaded_witness :
  exists job,
    active_jobs LifecycleSpec.exported !! "123e4567-e89b-12d3-a456-426614174000" = Some job
    /\ status job = PhotoModel.COMPLETED
    /\ is_Some (files LifecycleSpec.exported !! default "" (file_path job))
    /\ download_export_file 3600000000 "123e4567-e89b-12d3-a456-426614174000"
         LifecycleSpec.exported = Raise DownloadFailed.
Proof.
  destruct (active_jobs LifecycleSpec.exported !! "123e4567-e89b-12d3-a456-426614174000")
    as [job|] eqn:Hjob; [ | vm_compute in Hjob; discriminate ].
  exists job.
  assert (Hst : status job = PhotoModel.COMPLETED).
  { vm_compute in Hjob. injection Hjob as <-. reflexivity. }
  assert (Hexp : is_expired 3600000000 job = false).
  { vm_compute in Hjob. injection Hjob as <-. reflexivity. }
  assert (Hfile : is_Some (files LifecycleSpec.exported !! default "" (file_path job))).
  { vm_compute in Hjob. injection Hjob as <-. vm_compute. eauto. }
  split; [ reflexivity | ]. split; [ exact Hst | ]. split; [ exact Hfile | ].
  exact (proj1 (proj2 (proj2 (proj2 (completed_export_cannot_be_downloaded
           3600000000 "123e4567-e89b-12d3-a456-426614174000" LifecycleSpec.exported))
           job Hjob Hst Hexp))).
Defined.

End DownloadSpec.

Module CreateRouteSpec.

Import ExportModel ExportSvc ExportQueries ExportRoutes.

Lemma minute_range (t : Z) : 0 <= minute t < 60.
Proof. unfold minute. apply Z.mod_pos_bound. lia. Qed.

Section CreateRoute.

Variables (db : PhotoModel.collection) (fmt : Z -> string) (now : Z) (uuid : string).
Variables (request : ExportRequest) (s : service).

Abbreviation created :=
  (create_export_job db fmt now uuid (req_photo_ids request) (req_export_type request)
     (req_coordinate_system request) (req_include_altitude request)
     (req_include_photos_in_kmz request) (req_include_thumbnails request)
     (req_requester_id request) s).

Abbreviation answered := (create_photo_export db fmt now uuid request s).

(** X14.  [create_photo_export] answers 400 and leaves the service alone
    when the request names no photo or more than 1000 photos.  Otherwise it
    leaves the service as [create_export_job] does: when no id resolves the
    answer is 500 and no job exists; when one resolves the job is stored
    and queued and the cleanup task is added, and the answer is the pending
    job with an estimate five minutes after its creation, provided the
    creation time has a minute below 55.  From minute 55 on the estimate
    cannot be built and the answer is 500, although the job was created
    and queued. *)
Theorem create_photo_export_outcome :
  (req_photo_ids request = [] -> answered = (Raise NoPhotoIds, [], s))
  /\ (1000 < Z.of_nat (length (req_photo_ids request)) ->
      answered = (Raise TooManyPhotos, [], s))
  /\ (req_photo_ids request <> [] -> Z.of_nat (length (req_photo_ids request)) <= 1000 ->
      answered.2 = created.2
      /\ (created.1 = Raise NoValidPhotos ->
          answered.1 = (Raise (CreationFailed (ServiceError NoValidPhotos)), [])
          /\ active_jobs answered.2 = active_jobs s /\ job_queue answered.2 = job_queue s)
      /\ (forall job, created.1 = Ok job ->
            active_jobs answered.2 !! uuid = Some job
            /\ job_queue answered.2 = (job_queue s ++ [uuid])%list
            /\ answered.1.2 = [{| task_job_id := uuid; delay_hours := 25 |}]
            /\ (minute now < 55 ->
                answered.1.1
                  = Ok {| er_job_id := uuid; er_status := PhotoModel.PENDING;
                          er_message :=
                            "Export job created successfully. Processing will begin shortly.";
                          er_estimated_completion := Some (now + 5 * 60000000) |})
            /\ (55 <= minute now ->
                answered.1.1 = Raise (CreationFailed (MinuteOutOfRange (minute now + 5)))
                /\ status_code (CreationFailed (MinuteOutOfRange (minute now + 5))) = 500))).
Proof.
  unfold create_photo_export.
  split; [ | split ].
  - intros ->. reflexivity.
  - intros Hmany. destruct (req_photo_ids request) as [| i ids] eqn:Hids; [ simpl in Hmany; lia | ].
    destruct (Z.gtb_spec (Z.of_nat (length (i :: ids))) 1000); [ reflexivity | lia ].
  - intros Hne Hfew. destruct (req_photo_ids request) as [| i ids] eqn:Hids; [ congruence | ].
    destruct (Z.gtb_spec (Z.of_nat (length (i :: ids))) 1000); [ lia | ].
    unfold create_export_job.
    destruct (_validate_photo_ids db (i :: ids)) as [valid warnings].
    destruct valid as [| v vs].
    + cbn [fst snd]. split; [ reflexivity | ].
      split; [ intros _; repeat split; reflexivity | intros job Hjob; discriminate ].
    + cbn [fst snd]. unfold replace_minute.
      change (created_at (ExportModel.new uuid now fmt (v :: vs) (req_export_type request)
                (req_coordinate_system request) (req_include_altitude request)
                (req_include_photos_in_kmz request) (req_include_thumbnails request)
                (req_requester_id request))) with now.
      pose proof (minute_range now) as Hmin.
      split.
      { destruct ((0 <=? minute now + 5) && (minute now + 5 <=? 59)); reflexivity. }
      split; [ discriminate | ].
      intros job Hjob. injection Hjob as <-.
      destruct (Z.leb_spec 0 (minute now + 5)) as [_ | ?]; [ | lia ].
      destruct (Z.leb_spec (minute now + 5) 59) as [Hle | Hgt]; cbn [andb fst snd].
      * split; [ apply lookup_insert_eq | ]. split; [ reflexivity | ].
        split; [ reflexivity | ].
        split; [ intros _ | lia ].
        f_equal. f_equal. f_equal. lia.
      * split; [ apply lookup_insert_eq | ]. split; [ reflexivity | ].
        split; [ reflexivity | ].
        split; [ lia | intros _; split; reflexivity ].
Qed.

End CreateRoute.

(** A request made at 12:57: the job is created and queued, the answer is an
    error. *)
Lemma create_photo_export_outcome_witness :
  minute 1704113820000000 = 57
  /\ exists job,
       active_jobs (create_photo_export ExportDemo.db ExportDemo.fmt 1704113820000000
                      "123e4567-e89b-12d3-a456-426614174000"
                      {| req_photo_ids := ["photo1"; "missing"]; req_export_type := KML;
                         req_coordinate_system := WGS84; req_include_altitude := true;
                         req_include_photos_in_kmz := true; req_include_thumbnails := true;
                         req_requester_id := None |} init).2
         !! "123e4567-e89b-12d3-a456-426614174000" = Some job
       /\ (create_photo_export ExportDemo.db ExportDemo.fmt 1704113820000000
             "123e4567-e89b-12d3-a456-426614174000"
             {| req_photo_ids := ["photo1"; "missing"]; req_export_type := KML;
                req_coordinate_system := WGS84; req_include_altitude := true;
                req_include_photos_in_kmz := true; req_include_thumbnails := true;
                req_requester_id := None |} init).1.1
          = Raise (CreationFailed (MinuteOutOfRange 62)).
Proof.
  split; [ reflexivity | ].
  pose proof (create_photo_export_outcome ExportDemo.db ExportDemo.fmt 1704113820000000
                "123e4567-e89b-12d3-a456-426614174000"
                {| req_photo_ids := ["photo1"; "missing"]; req_export_type := KML;
                   req_coordinate_system := WGS84; req_include_altitude := true;
                   req_include_photos_in_kmz := true; req_include_thumbnails := true;
                   req_requester_id := None |} init) as (_ & _ & H).
  destruct H as (_ & _ & H); [ discriminate | simpl; lia | ].
  eexists. 
  destruct (H _ eq_refl) as (Hjob & _ & _ & _ & Hlate).
  split; [ exact Hjob | ].
  apply Hlate. vm_compute. discriminate.
Defined.

End CreateRouteSpec.

Module RecordSpec.

Import ExportModel ExportSvc LifecycleSpec.

(** What holds of every record of the active-job table, stored under
    [key]. *)
Record well_formed (key : string) (job : ExportJob) : Prop := {
  keyed : id job = key;
  expiry : expires_at job = Some (created_at job + hours_24);
  named : is_Some (output_filename job);
  counted : photo_ids job <> [] /\ total_photos job = Z.of_nat (length (photo_ids job));
  processed_bounded : 0 <= processed_photos job <= total_photos job;
  progress_bounded :
    (0 <=? progress job)%float = true /\ (progress job <=? 100)%float = true;
  pending_untouched :
    status job = PhotoModel.PENDING ->
    started_at job = None /\ completed_at job = None /\ file_path job = None
    /\ processed_photos job = 0 /\ progress job = 0%float /\ error_message job = None;
  completed_has_file :
    status job = PhotoModel.COMPLETED ->
    is_Some (file_path job) /\ is_Some (file_size job) /\ is_Some (started_at job)
    /\ is_Some (completed_at job) /\ progress job = 100%float;
  failed_has_message :
    status job = PhotoModel.FAILED ->
    is_Some (error_message job) /\ is_Some (started_at job)
}.

(** Closes the fields that hold by assumption, by computation, or because
    the status is another one. *)
Ltac field_holds :=
  try first
    [ assumption
    | reflexivity
    | discriminate
    | solve [ eauto ]
    | split; reflexivity
    | intros _; repeat split; solve [ eauto ] ].

(** The fields the archive loop leaves alone. *)
Lemma replay_frame (now : Z) (counts : list Z) (job : ExportJob) :
  let job' := foldl (fun j c => update_progress now c j) job counts in
  id job' = id job /\ expires_at job' = expires_at job /\ created_at job' = created_at job
  /\ output_filename job' = output_filename job /\ photo_ids job' = photo_ids job
  /\ total_photos job' = total_photos job /\ started_at job' = started_at job
  /\ error_message job' = error_message job.
Proof.
  revert job. induction counts as [| c counts IH]; intros job; simpl.
  - repeat split; reflexivity.
  - specialize (IH (update_progress now c job)). simpl in IH. exact IH.
Qed.

Lemma replay_progress (now : Z) (counts : list Z) (job : ExportJob) :
  Forall (fun c => 0 <= c <= total_photos job) counts ->
  (0 <=? progress job)%float = true /\ (progress job <=? 100)%float = true ->
  (0 <=? progress (foldl (fun j c => update_progress now c j) job counts))%float = true
  /\ (progress (foldl (fun j c => update_progress now c j) job counts) <=? 100)%float = true.
Proof.
  revert job. induction counts as [| c counts IH]; intros job Hall Hjob; [ exact Hjob | ].
  inversion Hall as [| ? ? Hc Hrest]; subst. simpl.
  apply IH; [ exact Hrest | ].
  unfold update_progress. simpl.
  destruct (Z.gtb_spec (total_photos job) 0) as [Hpos | _]; [ | exact Hjob ].
  apply (Binary64.percentage_bounds c (total_photos job)); lia.
Qed.

(** The archive loop on a well-formed job. *)
Lemma add_photos_to_zip_record (E : export_env) (now : Z) (db : PhotoModel.collection)
    (zip : list (string * bytes)) (job : ExportJob) :
  total_photos job = Z.of_nat (length (photo_ids job)) ->
  0 <= processed_photos job <= total_photos job ->
  (0 <=? progress job)%float = true /\ (progress job <=? 100)%float = true ->
  let job' := (_add_photos_to_zip E now (_get_photos_for_export db (photo_ids job)) 0 zip
                 job).2 in
  id job' = id job /\ expires_at job' = expires_at job /\ created_at job' = created_at job
  /\ output_filename job' = output_filename job /\ photo_ids job' = photo_ids job
  /\ total_photos job' = total_photos job /\ started_at job' = started_at job
  /\ error_message job' = error_message job
  /\ 0 <= processed_photos job' <= total_photos job
  /\ (0 <=? progress job')%float = true /\ (progress job' <=? 100)%float = true.
Proof.
  intros Htotal Hproc Hprog job'. subst job'.
  rewrite ProgressSpec.add_photos_to_zip_updates.
  assert (Hcounts : Forall (fun c => 0 <= c <= total_photos job)
                      (ProgressSpec.progress_counts E
                         (_get_photos_for_export db (photo_ids job)) 0)).
  { eapply List.Forall_impl; [ | apply ProgressSpec.progress_counts_bounds ].
    simpl. intros c Hc.
    pose proof (ProgressSpec.get_photos_for_export_length db (photo_ids job)). lia. }
  destruct (replay_frame now (ProgressSpec.progress_counts E
              (_get_photos_for_export db (photo_ids job)) 0) job)
    as (H1 & H2 & H3 & H4 & H5 & H6 & H7 & H8).
  repeat (split; [ assumption | ]).
  split; [ apply ProgressSpec.replay_bounded; assumption | ].
  apply replay_progress; assumption.
Qed.

Lemma well_formed_processed (E : export_env) (now : Z) (db : PhotoModel.collection)
    (key : string) (job : ExportJob) (fs : gmap string file) :
  well_formed key job -> well_formed key (_process_export_job E now db job fs).1.
Proof.
  intros [Hk He Hn [Hids Htot] Hproc Hprog _ _ _].
  assert (Hloop : forall zip,
            let job' := (_add_photos_to_zip E now
                           (_get_photos_for_export db (photo_ids job)) 0 zip
                           (mark_started now job)).2 in
            id job' = id job /\ expires_at job' = expires_at job
            /\ created_at job' = created_at job
            /\ output_filename job' = output_filename job /\ photo_ids job' = photo_ids job
            /\ total_photos job' = total_photos job /\ started_at job' = Some now
            /\ error_message job' = error_message job
            /\ 0 <= processed_photos job' <= total_photos job
            /\ (0 <=? progress job')%float = true /\ (progress job' <=? 100)%float = true).
  { intros zip. exact (add_photos_to_zip_record E now db zip (mark_started now job)
                         Htot Hproc Hprog). }
  assert (Hdone : forall job1 p size,
            id job1 = id job -> expires_at job1 = expires_at job ->
            created_at job1 = created_at job -> output_filename job1 = output_filename job ->
            photo_ids job1 = photo_ids job -> total_photos job1 = total_photos job ->
            started_at job1 = Some now ->
            0 <= processed_photos job1 <= total_photos job ->
            well_formed key (mark_completed now p size job1)).
  { intros job1 p size H1 H2 H3 H4 H5 H6 H7 H8.
    split; simpl; rewrite ?H1, ?H2, ?H3, ?H4, ?H5, ?H6, ?H7; field_holds. }
  assert (Hfail : forall job1 msg,
            id job1 = id job -> expires_at job1 = expires_at job ->
            created_at job1 = created_at job -> output_filename job1 = output_filename job ->
            photo_ids job1 = photo_ids job -> total_photos job1 = total_photos job ->
            started_at job1 = Some now ->
            0 <= processed_photos job1 <= total_photos job ->
            (0 <=? progress job1)%float = true /\ (progress job1 <=? 100)%float = true ->
            well_formed key (mark_failed now msg job1)).
  { intros job1 msg H1 H2 H3 H4 H5 H6 H7 H8 H9.
    split; simpl; rewrite ?H1, ?H2, ?H3, ?H4, ?H5, ?H6, ?H7; field_holds. }
  unfold _process_export_job.
  change (photo_ids (mark_started now job)) with (photo_ids job).
  change (export_type (mark_started now job)) with (export_type job).
  destruct (_get_photos_for_export db (photo_ids job)) as [| p ps] eqn:Hphotos.
  { simpl. apply Hfail; try reflexivity; assumption. }
  destruct (export_type job).
  - unfold _generate_kml_export. destruct (generate_kml E (p :: ps)); simpl.
    + apply Hdone; try reflexivity; assumption.
    + apply Hfail; try reflexivity; assumption.
  - unfold _generate_kmz_export. destruct (generate_kmz E (p :: ps) _ _); simpl.
    + apply Hdone; try reflexivity; assumption.
    + apply Hfail; try reflexivity; assumption.
  - unfold _generate_zip_export.
    destruct (generate_kml E (p :: ps)) as [kml|];
      [ | simpl; apply Hfail; try reflexivity; assumption ].
    destruct (include_photos_in_kmz (mark_started now job));
      [ | simpl; apply Hdone; try reflexivity; assumption ].
    specialize (Hloop [("photos.kml", list_byte_of_string kml)]).
    destruct (_add_photos_to_zip E now (p :: ps) 0 _ (mark_started now job))
      as [zip job1].
    cbn [fst snd] in *. destruct Hloop as (H1 & H2 & H3 & H4 & H5 & H6 & H7 & _ & H8 & _).
    apply Hdone; assumption.
  - unfold _generate_photos_export. specialize (Hloop []).
    destruct (_add_photos_to_zip E now (p :: ps) 0 [] (mark_started now job)) as [zip job1].
    cbn [fst snd _upload_export_file] in *.
    destruct Hloop as (H1 & H2 & H3 & H4 & H5 & H6 & H7 & _ & H8 & H9).
    apply Hfail; assumption.
Qed.

Lemma well_formed_new (uuid : string) (now : Z) (fmt : Z -> string) (ids : list string)
    (export_format : ExportFormat) (cs : CoordinateSystem) (alt photos thumbs : bool)
    (requester : option string) :
  ids <> [] ->
  well_formed uuid (ExportModel.new uuid now fmt ids export_format cs alt photos thumbs
                      requester).
Proof.
  intros Hids. destruct ids as [| i ids]; [ congruence | ].
  split; simpl; field_holds. lia.
Qed.

Lemma well_formed_cancelled (now : Z) (key : string) (job : ExportJob) :
  well_formed key job -> well_formed key (set_cancelled now job).
Proof.
  intros [Hk He Hn Hc Hproc Hprog _ _ _].
  split; simpl; field_holds.
Qed.

(** The table holds well-formed records only. *)
Definition table_ok (s : service) : Prop :=
  forall key job, active_jobs s !! key = Some job -> well_formed key job.

Lemma table_ok_step (s s' : service) : step s s' -> table_ok s -> table_ok s'.
Proof.
  intros Hstep Hok. destruct Hstep.
  - unfold create_export_job.
    destruct (_validate_photo_ids db ids) as [valid warnings].
    destruct valid as [| v vs]; [ exact Hok | ].
    intros key job. simpl.
    destruct (decide (uuid = key)) as [<- | Hne].
    + rewrite lookup_insert_eq. intros [= <-]. apply well_formed_new. discriminate.
    + rewrite lookup_insert_ne by assumption. apply Hok.
  - unfold cancel_job. destruct (active_jobs s !! job_id) as [job|] eqn:Hjob; [ | exact Hok ].
    destruct (cancellable (status job)); [ | exact Hok ].
    intros key job'. simpl.
    destruct (decide (job_id = key)) as [<- | Hne].
    + rewrite lookup_insert_eq. intros [= <-]. apply well_formed_cancelled.
      apply Hok. exact Hjob.
    + rewrite lookup_insert_ne by assumption. apply Hok.
  - unfold process_next. destruct (job_queue s) as [| job_id rest]; [ exact Hok | ].
    destruct (active_jobs s !! job_id) as [job|] eqn:Hjob; [ | exact Hok ].
    destruct (bool_decide (status job = PhotoModel.CANCELLED)); [ exact Hok | ].
    pose proof (well_formed_processed E now db job_id job (files s) (Hok _ _ Hjob)) as Hwf.
    destruct (_process_export_job E now db job (files s)) as [job' fs].
    intros key job''. simpl.
    destruct (decide (job_id = key)) as [<- | Hne].
    + rewrite lookup_insert_eq. intros [= <-]. exact Hwf.
    + rewrite lookup_insert_ne by assumption. apply Hok.
  - intros key job. unfold cleanup_expired_jobs. rewrite CleanupSpec.sweep_active_jobs.
    destruct (decide (key ∈ expired_jobs now s)); [ discriminate | apply Hok ].
Qed.

Lemma reachable_table_ok (s : service) : reachable s -> table_ok s.
Proof.
  induction 1 as [| s s' _ IH Hstep].
  - intros key job H. simpl in H. rewrite lookup_empty in H. discriminate.
  - exact (table_ok_step s s' Hstep IH).
Qed.

(** X15.  Every record of the active-job table, in every state the service
    can reach, is stored under its own id, expires 24 hours after its
    creation, has an output file name, names at least one photo, has
    [total_photos] equal to the number of its photo ids, a processed count
    between 0 and [total_photos] and a progress between 0 and 100.  A
    pending job was never started; a completed job has a file path, a file
    size, a start and a completion time and the progress 100; a failed job
    has an error message.  So [is_expired] holds exactly from 24 hours
    after the creation on. *)
Theorem reachable_jobs_are_well_formed (s : service) (key : string) (job : ExportJob) :
  reachable s -> active_jobs s !! key = Some job ->
  well_formed key job
  /\ (forall now, is_expired now job = true <-> created_at job + 24 * 3600 * 1000000 < now).
Proof.
  intros Hreach Hjob.
  pose proof (reachable_table_ok s Hreach key job Hjob) as Hwf.
  split; [ exact Hwf | ].
  intros now. unfold is_expired. rewrite (expiry key job Hwf). unfold hours_24.
  split; intros H; [ apply Z.gtb_lt in H | apply Z.gtb_lt ]; lia.
Qed.

Lemma reachable_jobs_are_well_formed_witness :
  exists job,
    active_jobs exported !! "123e4567-e89b-12d3-a456-426614174000" = Some job
    /\ well_formed "123e4567-e89b-12d3-a456-426614174000" job
    /\ is_expired 86400000001 job = true.
Proof.
  destruct (active_jobs exported !! "123e4567-e89b-12d3-a456-426614174000")
    as [job|] eqn:Hjob; [ | vm_compute in Hjob; discriminate ].
  exists job. split; [ reflexivity | ].
  destruct (reachable_jobs_are_well_formed exported _ job reachable_exported Hjob)
    as [Hwf Hexp].
  split; [ exact Hwf | ].
  apply Hexp. vm_compute in Hjob. injection Hjob as <-. reflexivity.
Defined.

End RecordSpec.

(** ** Progress of an export job *)

Module JobProgressSpec.

Import ExportModel ExportSvc LifecycleSpec.

(** The states a job goes through when [update_progress] is called with
    the given counts, one after the other. *)
Fixpoint updates (now : Z) (counts : list Z) (job : ExportJob) : list ExportJob :=
  match counts with
  | [] => []
  | c :: counts =>
      update_progress now c job :: updates now counts (update_progress now c job)
  end.

(** Progress that does not decrease from one state to a later one. *)
Definition not_lower (a b : ExportJob) : Prop :=
  (progress a <=? progress b)%float = true.

Lemma updates_final (now : Z) (counts : list Z) (job : ExportJob) :
  foldl (fun j c => update_progress now c j) job counts
  = default job (last (updates now counts job)).
Proof.
  revert job. induction counts as [| c counts IH]; intros job; [ reflexivity | ].
  simpl. rewrite IH, last_cons.
  destruct (last (updates now counts (update_progress now c job))); reflexivity.
Qed.

Lemma updates_elem (now : Z) (counts : list Z) (job j' : ExportJob) :
  0 < total_photos job -> j' ∈ updates now counts job ->
  exists c, c ∈ counts /\ processed_photos j' = c
            /\ total_photos j' = total_photos job
            /\ progress j' = Binary64.percentage c (total_photos job).
Proof.
  revert job. induction counts as [| c counts IH]; intros job Ht Hin; simpl in Hin.
  - apply elem_of_nil in Hin. destruct Hin.
  - destruct (ProgressSpec.update_progress_fields now c job Ht) as (H1 & H2 & H3 & _).
    apply elem_of_cons in Hin. destruct Hin as [-> | Hin].
    + exists c. split; [ left | ]. auto.
    + destruct (IH (update_progress now c job) ltac:(rewrite H2; exact Ht) Hin)
        as (c' & Hc' & Hp & Htot & Hprog).
      exists c'. split; [ right; exact Hc' | ].
      rewrite Hp, Htot, Hprog, H2. auto.
Qed.

(** Counts that grow give a progress that does not fall. *)
Lemma updates_sorted (now : Z) (counts : list Z) (job : ExportJob) :
  0 < total_photos job ->
  StronglySorted Z.lt counts ->
  Forall (fun c => 0 <= c <= total_photos job) counts ->
  StronglySorted not_lower (updates now counts job).
Proof.
  revert job. induction counts as [| c counts IH]; intros job Ht Hsorted Hall; simpl.
  - constructor.
  - inversion Hsorted as [| ? ? Hrest Hlt]; subst.
    inversion Hall as [| ? ? Hc Hbound]; subst.
    destruct (ProgressSpec.update_progress_fields now c job Ht) as (H1 & H2 & H3 & _).
    constructor.
    + apply IH; [ rewrite H2; exact Ht | exact Hrest | rewrite H2; exact Hbound ].
    + apply List.Forall_forall. intros j' Hin. apply list_elem_of_In in Hin.
      destruct (updates_elem now counts (update_progress now c job) j'
                  ltac:(rewrite H2; exact Ht) Hin) as (c' & Hc' & _ & _ & Hprog).
      unfold not_lower. rewrite Hprog, H3, H2.
      rewrite List.Forall_forall in Hlt, Hbound.
      apply list_elem_of_In in Hc'.
      specialize (Hlt c' Hc'). specialize (Hbound c' Hc').
      apply Binary64.percentage_mono; lia.
Qed.

(** What the progress of a stored job is: the 100 of [mark_completed], the 0
    of a job that counted no photo, or the percentage of the photos
    counted. *)
Definition tracked (job : ExportJob) : Prop :=
  progress job = 100%float
  \/ (processed_photos job = 0 /\ progress job = 0%float)
  \/ (1 <= processed_photos job <= total_photos job
      /\ progress job = Binary64.percentage (processed_photos job) (total_photos job)).

Lemma tracked_full (job : ExportJob) :
  tracked job -> 0 < total_photos job ->
  processed_photos job = total_photos job -> progress job = 100%float.
Proof.
  intros [H | [[H0 _] | [_ H]]] Ht Heq; [ exact H | lia | ].
  rewrite H, Heq. apply Binary64.percentage_full. exact Ht.
Qed.

Lemma replay_tracked (now : Z) (counts : list Z) (job : ExportJob) :
  Forall (fun c => 1 <= c <= total_photos job) counts ->
  tracked job ->
  tracked (foldl (fun j c => update_progress now c j) job counts).
Proof.
  revert job. induction counts as [| c counts IH]; intros job Hall Htr; [ exact Htr | ].
  inversion Hall as [| ? ? Hc Hrest]; subst. simpl.
  destruct (ProgressSpec.update_progress_fields now c job ltac:(lia)) as (H1 & H2 & H3 & _).
  apply IH.
  - rewrite H2. exact Hrest.
  - right; right. rewrite H1, H2, H3. split; [ exact Hc | reflexivity ].
Qed.

Lemma tracked_processed (E : export_env) (now : Z) (db : PhotoModel.collection)
    (job : ExportJob) (fs : gmap string file) :
  total_photos job = Z.of_nat (length (photo_ids job)) ->
  tracked job -> tracked (_process_export_job E now db job fs).1.
Proof.
  intros Htot Htr.
  assert (Hloop : forall zip,
             tracked (_add_photos_to_zip E now (_get_photos_for_export db (photo_ids job)) 0
                        zip (mark_started now job)).2).
  { intros zip. rewrite ProgressSpec.add_photos_to_zip_updates.
    apply replay_tracked; [ | exact Htr ].
    eapply List.Forall_impl; [ | apply ProgressSpec.progress_counts_bounds ].
    simpl. intros c Hc.
    pose proof (ProgressSpec.get_photos_for_export_length db (photo_ids job)). lia. }
  assert (Hdone : forall j p size, tracked (mark_completed now p size j))
    by (intros; left; reflexivity).
  assert (Hfail : forall j msg, tracked j -> tracked (mark_failed now msg j))
    by (intros j msg H; exact H).
  unfold _process_export_job.
  change (photo_ids (mark_started now job)) with (photo_ids job).
  change (export_type (mark_started now job)) with (export_type job).
  destruct (_get_photos_for_export db (photo_ids job)) as [| p ps] eqn:Hphotos.
  { simpl. apply Hfail. exact Htr. }
  destruct (export_type job).
  - unfold _generate_kml_export. destruct (generate_kml E (p :: ps)); simpl;
      [ apply Hdone | apply Hfail; exact Htr ].
  - unfold _generate_kmz_export. destruct (generate_kmz E (p :: ps) _ _); simpl;
      [ apply Hdone | apply Hfail; exact Htr ].
  - unfold _generate_zip_export.
    destruct (generate_kml E (p :: ps)) as [kml|]; [ | simpl; apply Hfail; exact Htr ].
    destruct (include_photos_in_kmz (mark_started now job)); [ | simpl; apply Hdone ].
    destruct (_add_photos_to_zip E now (p :: ps) 0 _ (mark_started now job)) as [zip job1].
    apply Hdone.
  - unfold _generate_photos_export. specialize (Hloop []).
    destruct (_add_photos_to_zip E now (p :: ps) 0 [] (mark_started now job)) as [zip job1].
    cbn [fst snd _upload_export_file] in *. apply Hfail. exact Hloop.
Qed.

Definition table_tracked (s : service) : Prop :=
  forall key job, active_jobs s !! key = Some job -> tracked job.

Lemma tracked_step (s s' : service) :
  step s s' -> RecordSpec.table_ok s -> table_tracked s -> table_tracked s'.
Proof.
  intros Hstep Hwf Hok. destruct Hstep.
  - unfold create_export_job.
    destruct (_validate_photo_ids db ids) as [valid warnings].
    destruct valid as [| v vs]; [ exact Hok | ].
    intros key job. simpl.
    destruct (decide (uuid = key)) as [<- | Hne].
    + rewrite lookup_insert_eq. intros [= <-]. right; left. split; reflexivity.
    + rewrite lookup_insert_ne by assumption. apply Hok.
  - unfold cancel_job. destruct (active_jobs s !! job_id) as [job|] eqn:Hjob; [ | exact Hok ].
    destruct (cancellable (status job)); [ | exact Hok ].
    intros key job'. simpl.
    destruct (decide (job_id = key)) as [<- | Hne].
    + rewrite lookup_insert_eq. intros [= <-]. exact (Hok _ _ Hjob).
    + rewrite lookup_insert_ne by assumption. apply Hok.
  - unfold process_next. destruct (job_queue s) as [| job_id rest]; [ exact Hok | ].
    destruct (active_jobs s !! job_id) as [job|] eqn:Hjob; [ | exact Hok ].
    destruct (bool_decide (status job = PhotoModel.CANCELLED)); [ exact Hok | ].
    pose proof (tracked_processed E now db job (files s)
                  (proj2 (RecordSpec.counted _ _ (Hwf _ _ Hjob))) (Hok _ _ Hjob)) as Htr.
    destruct (_process_export_job E now db job (files s)) as [job' fs].
    intros key job''. simpl.
    destruct (decide (job_id = key)) as [<- | Hne].
    + rewrite lookup_insert_eq. intros [= <-]. exact Htr.
    + rewrite lookup_insert_ne by assumption. apply Hok.
  - intros key job. unfold cleanup_expired_jobs. rewrite CleanupSpec.sweep_active_jobs.
    destruct (decide (key ∈ expired_jobs now s)); [ discriminate | apply Hok ].
Qed.

Lemma reachable_tracked (s : service) : reachable s -> table_tracked s.
Proof.
  induction 1 as [| s s' Hreach IH Hstep].
  - intros key job H. simpl in H. rewrite lookup_empty in H. discriminate.
  - exact (tracked_step s s' Hstep (RecordSpec.reachable_table_ok s Hreach) IH).
Qed.

(** C6 (as amended).  [update_progress c] on a job with [total_photos > 0]
    sets [processed_photos] to [c] and [progress] to the binary64 product
    [(c / total_photos) * 100], which is 100 c / total_photos up to a
    relative error of 2^-51; right after the call the progress is 100.0
    exactly when [processed_photos = total_photos].  In every state the
    service can reach [0 <= processed_photos <= total_photos] and
    [0 <= progress <= 100] hold for every job, and a job with
    [processed_photos = total_photos] has the progress 100.0.  During every
    run of the archive loop, the only caller, on a job the queue consumer
    takes up, the successive [update_progress] calls pass strictly
    increasing counts, keep [processed_photos] between 1 and
    [total_photos], and never lower the progress, which starts at 0.0.
    [mark_completed] sets the progress to 100.0 and leaves
    [processed_photos] as it is, so the progress 100.0 does not imply
    [processed_photos = total_photos]. *)
Theorem progress_follows_processed_photos :
  (forall (j : ExportJob) (now c : Z),
     0 < total_photos j ->
     processed_photos (update_progress now c j) = c
     /\ total_photos (update_progress now c j) = total_photos j
     /\ progress (update_progress now c j) = (true_divide c (total_photos j) * 100)%float
     /\ (1 <= c <= total_photos j -> total_photos j <= 2 ^ 53 ->
         (100 * (inject_Z c / inject_Z (total_photos j)) * (1 - Binary64.pow2 (-51))
          <= Binary64.float_value (progress (update_progress now c j)))%Q
         /\ (Binary64.float_value (progress (update_progress now c j))
             <= 100 * (inject_Z c / inject_Z (total_photos j)) * (1 + Binary64.pow2 (-51)))%Q)
     /\ (0 <= c <= total_photos j -> total_photos j <= 2 ^ 53 ->
         (progress (update_progress now c j) = 100%float
          <-> processed_photos (update_progress now c j)
              = total_photos (update_progress now c j))))
  /\ (forall (s : service) (key : string) (job : ExportJob),
        reachable s -> active_jobs s !! key = Some job ->
        0 <= processed_photos job <= total_photos job
        /\ (0 <=? progress job)%float = true /\ (progress job <=? 100)%float = true
        /\ (processed_photos job = total_photos job -> progress job = 100%float))
  /\ (forall (s : service) (job_id : string) (rest : list string) (job : ExportJob)
             (E : export_env) (now : Z) (db : PhotoModel.collection)
             (zip : list (string * bytes)),
        reachable s -> job_queue s = job_id :: rest ->
        active_jobs s !! job_id = Some job -> status job <> PhotoModel.CANCELLED ->
        let photos := _get_photos_for_export db (photo_ids job) in
        let calls := ProgressSpec.progress_counts E photos 0 in
        let states := updates now calls (mark_started now job) in
        (_add_photos_to_zip E now photos 0 zip (mark_started now job)).2
          = default (mark_started now job) (last states)
        /\ StronglySorted Z.lt calls
        /\ (processed_photos <$> states) = calls
        /\ Forall (fun j' => 1 <= processed_photos j' <= total_photos j'
                             /\ total_photos j' = total_photos job) states
        /\ progress (mark_started now job) = 0%float
        /\ Forall (not_lower (mark_started now job)) states
        /\ StronglySorted not_lower states)
  /\ (forall (j : ExportJob) (now : Z) (path : string) (size : Z),
        progress (mark_completed now path size j) = 100%float
        /\ processed_photos (mark_completed now path size j) = processed_photos j
        /\ total_photos (mark_completed now path size j) = total_photos j).
Proof.
  split; [ | split; [ | split ] ].
  - intros j now c Ht.
    destruct (ProgressSpec.update_progress_fields now c j Ht) as (H1 & H2 & H3 & _).
    rewrite H1, H2, H3.
    split; [ reflexivity | ]. split; [ reflexivity | ]. split; [ reflexivity | ].
    split; [ intros Hc Hsmall; apply Binary64.percentage_accuracy; assumption | ].
    intros Hc Hsmall. split.
    + intros H100.
      destruct (Z.eq_dec c (total_photos j)) as [Heq | Hne]; [ exact Heq | exfalso ].
      pose proof (Binary64.percentage_partial c (total_photos j) ltac:(lia) Hsmall) as Hlt.
      rewrite H100 in Hlt. vm_compute in Hlt. discriminate.
    + intros ->. apply Binary64.percentage_full. exact Ht.
  - intros s key job Hreach Hjob.
    pose proof (RecordSpec.reachable_table_ok s Hreach key job Hjob) as Hwf.
    split; [ exact (RecordSpec.processed_bounded _ _ Hwf) | ].
    split; [ exact (proj1 (RecordSpec.progress_bounded _ _ Hwf)) | ].
    split; [ exact (proj2 (RecordSpec.progress_bounded _ _ Hwf)) | ].
    apply tracked_full; [ exact (reachable_tracked s Hreach key job Hjob) | ].
    destruct (RecordSpec.counted _ _ Hwf) as [Hids Htot].
    destruct (photo_ids job); [ congruence | simpl in Htot; lia ].
  - intros s job_id rest job E now db zip Hreach Hq Hjob Hlive photos calls states.
    pose proof (RecordSpec.reachable_table_ok s Hreach job_id job Hjob) as Hwf.
    destruct (RecordSpec.counted _ _ Hwf) as [Hids Htot].
    assert (Hpending : status job = PhotoModel.PENDING).
    { pose proof (reachable_invariant s Hreach) as Hinv.
      destruct (settled s Hinv job_id job Hjob) as [Hp | Hterm]; [ exact Hp | exfalso ].
      assert (Hin : job_id ∈ job_queue s) by (rewrite Hq; left).
      destruct (status job) eqn:Hst; try discriminate Hterm.
      - exact (done_not_queued s Hinv job_id job Hjob (or_introl Hst) Hin).
      - exact (done_not_queued s Hinv job_id job Hjob (or_intror Hst) Hin).
      - apply Hlive. reflexivity. }
    destruct (RecordSpec.pending_untouched _ _ Hwf Hpending) as (_ & _ & _ & _ & Hzero & _).
    assert (Ht : 0 < total_photos (mark_started now job)).
    { simpl. destruct (photo_ids job); [ congruence | simpl in Htot; lia ]. }
    assert (Hbounds : Forall (fun c => 1 <= c <= total_photos (mark_started now job)) calls).
    { eapply List.Forall_impl; [ | apply ProgressSpec.progress_counts_bounds ].
      simpl. intros c Hc.
      pose proof (ProgressSpec.get_photos_for_export_length db (photo_ids job)) as Hlen.
      fold photos in Hlen. lia. }
    assert (Helem : forall j', j' ∈ states ->
              exists c, c ∈ calls /\ processed_photos j' = c
                        /\ total_photos j' = total_photos job
                        /\ progress j' = Binary64.percentage c (total_photos job)).
    { intros j' Hin. exact (updates_elem now calls (mark_started now job) j' Ht Hin). }
    split; [ | split; [ | split; [ | split; [ | split; [ | split ] ] ] ] ].
    + rewrite ProgressSpec.add_photos_to_zip_updates. apply updates_final.
    + apply ProgressSpec.progress_counts_increasing.
    + unfold states. clear Helem Hbounds. revert Ht.
      generalize (mark_started now job) as j0.
      induction calls as [| c cs IH]; intros j0 Ht0; [ reflexivity | ].
      destruct (ProgressSpec.update_progress_fields now c j0 Ht0) as (H1 & H2 & _).
      simpl updates. rewrite fmap_cons, H1. f_equal.
      apply IH. rewrite H2. exact Ht0.
    + apply List.Forall_forall. intros j' Hin. apply list_elem_of_In in Hin.
      destruct (Helem j' Hin) as (c & Hc & Hp & Htj & _).
      rewrite List.Forall_forall in Hbounds. apply list_elem_of_In in Hc.
      specialize (Hbounds c Hc). simpl in Hbounds. rewrite Hp, Htj. lia.
    + exact Hzero.
    + apply List.Forall_forall. intros j' Hin. apply list_elem_of_In in Hin.
      destruct (Helem j' Hin) as (c & Hc & _ & _ & Hprog).
      rewrite List.Forall_forall in Hbounds. apply list_elem_of_In in Hc.
      specialize (Hbounds c Hc). simpl in Hbounds.
      unfold not_lower. rewrite Hprog. simpl progress. rewrite Hzero.
      apply (Binary64.percentage_bounds c (total_photos job)); lia.
    + apply updates_sorted; [ exact Ht | apply ProgressSpec.progress_counts_increasing | ].
      eapply List.Forall_impl; [ | exact Hbounds ]. simpl. intros c Hc. lia.
  - intros j now path size. repeat split; reflexivity.
Qed.

(** Three stored photos, of which only the first can be downloaded. *)
Definition three_photos : PhotoModel.collection :=
  [ExportDemo.photo "photo1" "IMG_0001.jpg"; ExportDemo.photo "photo2" "IMG_0002.jpg";
   ExportDemo.photo "photo3" "IMG_0003.jpg"].

Definition first_only : export_env :=
  {| named_temporary_file := named_temporary_file ExportDemo.env;
     generate_kml := generate_kml ExportDemo.env;
     generate_kmz := generate_kmz ExportDemo.env;
     requests_get := fun url =>
       if String.eqb url "https://photos.blob.core.windows.net/uploads/2024/01/IMG_0001.jpg"
       then Some [Byte.xff; Byte.xd8; Byte.xff; Byte.xd9] else None;
     getsize := getsize ExportDemo.env |}.

(** The claim as stated fails on an export that never calls
    [update_progress]: a KML export of one photo completes with the progress
    100.0 while [processed_photos] is 0 and [total_photos] is 1.  And the
    progress stored is the product (count / total) * 100, which is not
    always the quotient 100 * count / total: a photo archive of three photos
    of which one was fetched is left with 33.333333333333329, the quotient
    being 33.333333333333336. *)
Lemma completed_kml_export_counts_no_photo :
  status (_process_export_job ExportDemo.env 60000000 ExportDemo.db
            (ExportDemo.job KML ["photo1"]) ∅).1 = PhotoModel.COMPLETED
  /\ progress (_process_export_job ExportDemo.env 60000000 ExportDemo.db
                 (ExportDemo.job KML ["photo1"]) ∅).1 = 100%float
  /\ processed_photos (_process_export_job ExportDemo.env 60000000 ExportDemo.db
                         (ExportDemo.job KML ["photo1"]) ∅).1 = 0
  /\ total_photos (_process_export_job ExportDemo.env 60000000 ExportDemo.db
                     (ExportDemo.job KML ["photo1"]) ∅).1 = 1
  /\ processed_photos (_process_export_job first_only 60000000 three_photos
                         (ExportDemo.job PHOTOS_ONLY ["photo1"; "photo2"; "photo3"]) ∅).1 = 1
  /\ total_photos (_process_export_job first_only 60000000 three_photos
                     (ExportDemo.job PHOTOS_ONLY ["photo1"; "photo2"; "photo3"]) ∅).1 = 3
  /\ progress (_process_export_job first_only 60000000 three_photos
                 (ExportDemo.job PHOTOS_ONLY ["photo1"; "photo2"; "photo3"]) ∅).1
     = 33.333333333333329%float
  /\ true_divide (100 * 1) 3 = 33.333333333333336%float
  /\ (100 * 1 / 3)%float = 33.333333333333336%float
  /\ (33.333333333333329 <? 33.333333333333336)%float = true.
Proof.
  repeat split; vm_compute; reflexivity.
Qed.

Lemma progress_follows_processed_photos_witness :
  0 < total_photos (ExportDemo.job ZIP ["photo1"; "photo2"])
  /\ progress (update_progress 1 2 (ExportDemo.job ZIP ["photo1"; "photo2"])) = 100%float
  /\ progress (update_progress 1 1 (ExportDemo.job ZIP ["photo1"; "photo2"])) <> 100%float.
Proof.
  assert (Ht : 0 < total_photos (ExportDemo.job ZIP ["photo1"; "photo2"])) by reflexivity.
  split; [ exact Ht | ]. split.
  - destruct (proj1 progress_follows_processed_photos
                (ExportDemo.job ZIP ["photo1"; "photo2"]) 1 2 Ht) as (_ & _ & _ & _ & Hfull).
    apply Hfull; [ simpl; lia | simpl; lia | reflexivity ].
  - destruct (proj1 progress_follows_processed_photos
                (ExportDemo.job ZIP ["photo1"; "photo2"]) 1 1 Ht) as (_ & _ & _ & _ & Hfull).
    intros H. apply Hfull in H; [ discriminate H | simpl; lia | simpl; lia ].
Defined.

End JobProgressSpec.

Module ConsumerSpec.

Import ExportModel ExportSvc LifecycleSpec.

(** What the collaborators answer, the clock and the photo collection at one
    pass of the queue consumer. *)
Definition pass : Type := export_env * Z * PhotoModel.collection.

(** The loop of [_process_job_queue], one pass per element of [passes]. *)
Definition consume (passes : list pass) (s : service) : service :=
  foldl (fun s p => process_next p.1.1 p.1.2 p.2 s) s passes.

(** Every job of the table is either waiting in the queue or settled. *)
Definition live (s : service) : Prop :=
  forall key job, active_jobs s !! key = Some job ->
    (status job = PhotoModel.PENDING /\ key ∈ job_queue s)
    \/ terminal (status job) = true.

Lemma live_process_next (E : export_env) (now : Z) (db : PhotoModel.collection)
    (s : service) :
  live s -> live (process_next E now db s).
Proof.
  intros Hlive. unfold process_next.
  destruct (job_queue s) as [| job_id rest] eqn:Hq; [ exact Hlive | ].
  assert (Hrest : forall key job,
            active_jobs s !! key = Some job -> key <> job_id ->
            (status job = PhotoModel.PENDING /\ key ∈ rest) \/ terminal (status job) = true).
  { intros key job Hjob Hne. destruct (Hlive key job Hjob) as [[Hp Hin] | Ht]; [ | auto ].
    left. split; [ exact Hp | ]. rewrite Hq in Hin.
    apply elem_of_cons in Hin as [? | ?]; [ contradiction | assumption ]. }
  destruct (active_jobs s !! job_id) as [job|] eqn:Hjob.
  - destruct (bool_decide (status job = PhotoModel.CANCELLED)) eqn:Hc.
    + apply bool_decide_eq_true in Hc. intros key job' Hjob'. simpl in *.
      destruct (decide (key = job_id)) as [-> | Hne]; [ | apply Hrest; assumption ].
      right. assert (job' = job) by congruence. subst job'. rewrite Hc. reflexivity.
    + pose proof (process_export_job_outcome E now db job (files s)) as (Hdone & _).
      destruct (_process_export_job E now db job (files s)) as [job' fs].
      intros key job'' Hjob''. simpl in *.
      destruct (decide (job_id = key)) as [<- | Hne].
      * rewrite lookup_insert_eq in Hjob''. injection Hjob'' as <-.
        right. destruct Hdone as [-> | ->]; reflexivity.
      * rewrite lookup_insert_ne in Hjob'' by assumption.
        apply Hrest; [ assumption | congruence ].
  - intros key job' Hjob'. simpl in *. apply Hrest; [ assumption | congruence ].
Qed.

Lemma live_step (s s' : service) : step s s' -> live s -> live s'.
Proof.
  intros Hstep Hlive. destruct Hstep.
  - unfold create_export_job.
    destruct (_validate_photo_ids db ids) as [valid warnings].
    destruct valid as [| v vs]; [ exact Hlive | ].
    intros key job. simpl.
    destruct (decide (uuid = key)) as [<- | Hne].
    + rewrite lookup_insert_eq. intros [= <-]. left.
      split; [ reflexivity | ]. apply elem_of_app. right. apply list_elem_of_singleton.
      reflexivity.
    + rewrite lookup_insert_ne by assumption. intros Hjob.
      destruct (Hlive key job Hjob) as [[Hp Hin] | Ht]; [ left | right; exact Ht ].
      split; [ exact Hp | ]. apply elem_of_app. left. exact Hin.
  - unfold cancel_job. destruct (active_jobs s !! job_id) as [job|] eqn:Hjob; [ | exact Hlive ].
    destruct (cancellable (status job)); [ | exact Hlive ].
    intros key job'. simpl.
    destruct (decide (job_id = key)) as [<- | Hne].
    + rewrite lookup_insert_eq. intros [= <-]. right. reflexivity.
    + rewrite lookup_insert_ne by assumption. apply Hlive.
  - apply live_process_next. exact Hlive.
  - intros key job. unfold cleanup_expired_jobs.
    rewrite CleanupSpec.sweep_active_jobs.
    rewrite (proj1 (CleanupSpec.sweep_queue_log remove_raises (expired_jobs now s) s)).
    destruct (decide (key ∈ expired_jobs now s)); [ discriminate | apply Hlive ].
Qed.

Lemma reachable_live (s : service) : reachable s -> live s.
Proof.
  induction 1 as [| s s' _ IH Hstep].
  - intros key job H. simpl in H. rewrite lookup_empty in H. discriminate.
  - exact (live_step s s' Hstep IH).
Qed.

(** A pass takes one id off a queue that is not empty, keeps the keys of the
    table, and leaves a cancelled job as it is. *)
Lemma process_next_pass (E : export_env) (now : Z) (db : PhotoModel.collection)
    (s : service) :
  length (job_queue (process_next E now db s)) = pred (length (job_queue s))
  /\ (forall key, is_Some (active_jobs (process_next E now db s) !! key)
                  <-> is_Some (active_jobs s !! key))
  /\ (forall key job, active_jobs s !! key = Some job ->
                      status job = PhotoModel.CANCELLED ->
                      active_jobs (process_next E now db s) !! key = Some job).
Proof.
  unfold process_next.
  destruct (job_queue s) as [| job_id rest] eqn:Hq;
    [ rewrite Hq; repeat split; auto | ].
  destruct (active_jobs s !! job_id) as [job|] eqn:Hjob;
    [ | simpl; repeat split; auto ].
  destruct (bool_decide (status job = PhotoModel.CANCELLED)) eqn:Hc;
    [ simpl; repeat split; auto | ].
  apply bool_decide_eq_false in Hc.
  destruct (_process_export_job E now db job (files s)) as [job' fs]. simpl.
  split; [ reflexivity | ]. split.
  - intros key. destruct (decide (job_id = key)) as [<- | Hne].
    + rewrite lookup_insert_eq, Hjob. split; eauto.
    + rewrite lookup_insert_ne by assumption. reflexivity.
  - intros key job0 Hjob0 Hst. destruct (decide (job_id = key)) as [<- | Hne].
    + assert (job0 = job) by congruence. subst job0. contradiction.
    + rewrite lookup_insert_ne by assumption. exact Hjob0.
Qed.

(** X16.  The queue consumer settles every job: from a state the service
    can reach, after at least as many passes as the queue holds ids, the
    queue is empty and every job of the table is completed, failed or
    cancelled.  The passes neither add nor remove a job, and a job that was
    cancelled is left exactly as it was. *)
Theorem export_queue_is_drained (passes : list pass) (s : service) :
  reachable s -> (length (job_queue s) <= length passes)%nat ->
  job_queue (consume passes s) = []
  /\ (forall key job, active_jobs (consume passes s) !! key = Some job ->
                      terminal (status job) = true)
  /\ (forall key, is_Some (active_jobs (consume passes s) !! key)
                  <-> is_Some (active_jobs s !! key))
  /\ (forall key job, active_jobs s !! key = Some job ->
                      status job = PhotoModel.CANCELLED ->
                      active_jobs (consume passes s) !! key = Some job).
Proof.
  intros Hreach. pose proof (reachable_live s Hreach) as Hlive. clear Hreach.
  revert s Hlive. induction passes as [| [[E now] db] passes IH]; intros s Hlive Hlen.
  - simpl in *. assert (Hq : job_queue s = []) by (destruct (job_queue s); [ reflexivity | simpl in Hlen; lia ]).
    split; [ exact Hq | ]. split; [ | split; [ reflexivity | auto ] ].
    intros key job Hjob. destruct (Hlive key job Hjob) as [[_ Hin] | Ht]; [ | exact Ht ].
    rewrite Hq in Hin. inversion Hin.
  - simpl. destruct (process_next_pass E now db s) as (Hpop & Hkeys & Hcancelled).
    destruct (IH (process_next E now db s)) as (H1 & H2 & H3 & H4).
    + apply live_process_next. exact Hlive.
    + rewrite Hpop. simpl in Hlen. lia.
    + split; [ exact H1 | ]. split; [ exact H2 | ]. split.
      * intros key. rewrite H3. apply Hkeys.
      * intros key job Hjob Hst. apply H4; [ apply Hcancelled; assumption | exact Hst ].
Qed.

Lemma export_queue_is_drained_witness :
  job_queue requested = ["123e4567-e89b-12d3-a456-426614174000"]
  /\ job_queue (consume [(ExportDemo.env, 60000000, ExportDemo.db)] requested) = []
  /\ exists job,
       active_jobs (consume [(ExportDemo.env, 60000000, ExportDemo.db)] requested)
         !! "123e4567-e89b-12d3-a456-426614174000" = Some job
       /\ terminal (status job) = true.
Proof.
  assert (Hreach : reachable requested).
  { apply reachable_step with (s := init); [ apply reachable_init | ].
    apply step_create; [ apply lookup_empty | apply not_elem_of_nil ]. }
  destruct (export_queue_is_drained [(ExportDemo.env, 60000000, ExportDemo.db)] requested
              Hreach) as (Hq & Hterm & _); [ vm_compute; lia | ].
  split; [ reflexivity | ]. split; [ exact Hq | ].
  destruct (active_jobs (consume [(ExportDemo.env, 60000000, ExportDemo.db)] requested)
              !! "123e4567-e89b-12d3-a456-426614174000") as [job|] eqn:Hjob;
    [ | vm_compute in Hjob; discriminate ].
  exists job. split; [ reflexivity | ]. exact (Hterm _ _ Hjob).
Defined.

End ConsumerSpec.

Module GroupingSpec.

Import Kml.

Section Grouping.

Variable strftime_date : Z -> string.

(** The photos taken on a date, in the order of the input. *)
Definition taken_on (date_str : string) (photos : list PhotoModel.Photo)
  : list PhotoModel.Photo :=
  List.filter (fun photo => String.eqb (strftime_date (PhotoModel.timestamp photo)) date_str)
    photos.

(** What the loop has built once it went through [seen]: one entry per date
    that occurs, holding the photos of that date. *)
Definition grouped (g : groups) (seen : list PhotoModel.Photo) : Prop :=
  NoDup g.*1
  /\ forall date_str,
       assoc date_str g = match taken_on date_str seen with
                          | [] => None
                          | photos => Some photos
                          end.

Lemma assoc_append_to (g : groups) (k : string) (p : PhotoModel.Photo) (date_str : string) :
  assoc date_str (append_to g k p) =
    if String.eqb date_str k then Some (default [] (assoc k g) ++ [p])%list
    else assoc date_str g.
Proof.
  induction g as [| [k' ps] g IH]; simpl.
  - destruct (String.eqb date_str k); reflexivity.
  - destruct (String.eqb_spec k' k) as [-> | Hne]; simpl.
    + rewrite String.eqb_refl. destruct (String.eqb date_str k); reflexivity.
    + rewrite IH. destruct (String.eqb_spec date_str k) as [Heq | Hd]; [ | reflexivity ].
      destruct (String.eqb_spec date_str k') as [? | _]; [ congruence | ].
      destruct (String.eqb_spec k k') as [? | _]; [ congruence | reflexivity ].
Qed.

Lemma append_to_keys (g : groups) (k : string) (p : PhotoModel.Photo) (date_str : string) :
  date_str ∈ (append_to g k p).*1 -> date_str = k \/ date_str ∈ g.*1.
Proof.
  induction g as [| [k' ps] g IH]; simpl.
  - intros Hin. apply list_elem_of_singleton in Hin. left. exact Hin.
  - destruct (String.eqb k' k); simpl; intros Hin.
    + right. exact Hin.
    + apply elem_of_cons in Hin as [-> | Hin]; [ right; left | ].
      destruct (IH Hin) as [-> | H]; [ left; reflexivity | right; right; exact H ].
Qed.

Lemma append_to_NoDup (g : groups) (k : string) (p : PhotoModel.Photo) :
  NoDup g.*1 -> NoDup (append_to g k p).*1.
Proof.
  induction g as [| [k' ps] g IH]; intros Hnd; simpl.
  - apply NoDup_singleton.
  - apply NoDup_cons in Hnd as [Hk' Hnd].
    destruct (String.eqb_spec k' k) as [-> | Hne]; simpl.
    + apply NoDup_cons. split; assumption.
    + apply NoDup_cons. split; [ | apply IH; exact Hnd ].
      intros Hin. apply append_to_keys in Hin as [? | ?]; [ congruence | contradiction ].
Qed.

Lemma taken_on_app (date_str : string) (seen : list PhotoModel.Photo) (p : PhotoModel.Photo) :
  taken_on date_str (seen ++ [p])%list
    = (taken_on date_str seen
         ++ (if String.eqb (strftime_date (PhotoModel.timestamp p)) date_str
             then [p] else []))%list.
Proof. unfold taken_on. rewrite List.filter_app. reflexivity. Qed.

Lemma grouped_append (g : groups) (seen : list PhotoModel.Photo) (p : PhotoModel.Photo) :
  grouped g seen ->
  grouped (append_to g (strftime_date (PhotoModel.timestamp p)) p) (seen ++ [p])%list.
Proof.
  intros [Hnd Hg]. split; [ apply append_to_NoDup; exact Hnd | ].
  intros date_str. rewrite assoc_append_to, taken_on_app.
  rewrite (String.eqb_sym date_str).
  destruct (String.eqb_spec (strftime_date (PhotoModel.timestamp p)) date_str) as [-> | Hne].
  - rewrite Hg. destruct (taken_on date_str seen); reflexivity.
  - rewrite app_nil_r. apply Hg.
Qed.

Lemma grouped_loop (photos seen : list PhotoModel.Photo) (g : groups) :
  grouped g seen ->
  grouped (foldl (fun g photo => append_to g (strftime_date (PhotoModel.timestamp photo)) photo)
             g photos)
    (seen ++ photos)%list.
Proof.
  revert seen g. induction photos as [| p photos IH]; intros seen g Hg; simpl.
  - rewrite app_nil_r. exact Hg.
  - replace (seen ++ p :: photos)%list with ((seen ++ [p]) ++ photos)%list
      by (rewrite <- app_assoc; reflexivity).
    apply IH. apply grouped_append. exact Hg.
Qed.

(** In a dict the items are the bindings. *)
Lemma elem_of_assoc (g : groups) (date_str : string) (photos : list PhotoModel.Photo) :
  NoDup g.*1 -> ((date_str, photos) ∈ g <-> assoc date_str g = Some photos).
Proof.
  induction g as [| [k ps] g IH]; intros Hnd; simpl.
  - split; [ intros H; inversion H | discriminate ].
  - apply NoDup_cons in Hnd as [Hk Hnd]. specialize (IH Hnd).
    rewrite elem_of_cons. destruct (String.eqb_spec date_str k) as [-> | Hne].
    + split.
      * intros [[= ->] | Hin]; [ reflexivity | ].
        exfalso. apply Hk. apply list_elem_of_fmap. exists (k, photos). auto.
      * intros [= ->]. left. reflexivity.
    + rewrite <- IH. split; [ intros [[= ? ?] | Hin]; [ congruence | exact Hin ] | auto ].
Qed.

Lemma insert_item_perm (item : string * list PhotoModel.Photo) (l : groups) :
  insert_item item l ≡ₚ item :: l.
Proof.
  induction l as [| x l IH]; simpl; [ reflexivity | ].
  destruct (String.leb item.1 x.1); [ reflexivity | ].
  rewrite IH. apply Permutation_swap.
Qed.

Lemma sorted_perm (g : groups) : sorted g ≡ₚ g.
Proof.
  induction g as [| x g IH]; simpl; [ reflexivity | ].
  rewrite insert_item_perm, IH. reflexivity.
Qed.

Lemma ltb_trans (a b c : string) :
  String.ltb a b = true -> String.ltb b c = true -> String.ltb a c = true.
Proof.
  unfold String.ltb. intros H1 H2.
  assert (Ha : OrderedTypeEx.String_as_OT.lt a b).
  { apply OrderedTypeEx.String_as_OT.cmp_lt. unfold OrderedTypeEx.String_as_OT.cmp.
    destruct (String.compare a b); congruence. }
  assert (Hb : OrderedTypeEx.String_as_OT.lt b c).
  { apply OrderedTypeEx.String_as_OT.cmp_lt. unfold OrderedTypeEx.String_as_OT.cmp.
    destruct (String.compare b c); congruence. }
  pose proof (OrderedTypeEx.String_as_OT.lt_trans _ _ _ Ha Hb) as Hc.
  apply OrderedTypeEx.String_as_OT.cmp_lt in Hc.
  unfold OrderedTypeEx.String_as_OT.cmp in Hc. rewrite Hc. reflexivity.
Qed.

Lemma leb_ne_ltb (a b : string) : String.leb a b = true -> a <> b -> String.ltb a b = true.
Proof.
  unfold String.leb, String.ltb. intros Hle Hne.
  destruct (String.compare a b) eqn:Hc; [ | reflexivity | discriminate ].
  apply String.compare_eq_iff in Hc. contradiction.
Qed.

Lemma leb_false_ltb (a b : string) : String.leb a b = false -> String.ltb b a = true.
Proof.
  unfold String.leb, String.ltb. rewrite (String.compare_antisym b a).
  destruct (String.compare a b); simpl; congruence.
Qed.

(** Items with distinct keys, each before the next. *)
Definition ascending (l : groups) : Prop :=
  StronglySorted (fun a b => String.ltb a.1 b.1 = true) l.

Lemma insert_item_ascending (item : string * list PhotoModel.Photo) (l : groups) :
  item.1 ∉ l.*1 -> ascending l -> ascending (insert_item item l).
Proof.
  unfold ascending. induction l as [| x l IH]; intros Hfresh Hs; simpl.
  - repeat constructor.
  - apply StronglySorted_inv in Hs as [Hs Hx].
    assert (Hne : item.1 <> x.1) by (intros Heq; apply Hfresh; rewrite Heq; left).
    assert (Hl : item.1 ∉ l.*1) by (intros Hin; apply Hfresh; right; exact Hin).
    destruct (String.leb item.1 x.1) eqn:Hle.
    + pose proof (leb_ne_ltb _ _ Hle Hne) as Hlt.
      constructor; [ constructor; assumption | ].
      constructor; [ exact Hlt | ].
      eapply List.Forall_impl; [ | exact Hx ]. intros y Hy. simpl in *.
      eapply ltb_trans; eassumption.
    + pose proof (leb_false_ltb _ _ Hle) as Hlt.
      constructor; [ apply IH; assumption | ].
      rewrite (insert_item_perm item l). constructor; assumption.
Qed.

Lemma sorted_ascending (g : groups) : NoDup g.*1 -> ascending (sorted g).
Proof.
  induction g as [| x g IH]; intros Hnd; simpl; [ constructor | ].
  apply NoDup_cons in Hnd as [Hx Hnd].
  apply insert_item_ascending; [ | apply IH; exact Hnd ].
  rewrite (sorted_perm g). exact Hx.
Qed.

(** X17.  [_group_photos_by_date] returns the dates in strictly ascending
    order, each once.  A date is a key exactly when a photo was taken on
    it, and its group holds the photos of that date, all of them, in the
    order of the input; so no group is empty, every photo is in the group
    of its date, and no photos give no groups. *)
Theorem photos_are_grouped_by_date (photos : list PhotoModel.Photo) :
  ascending (_group_photos_by_date strftime_date photos)
  /\ (forall date_str group,
        (date_str, group) ∈ _group_photos_by_date strftime_date photos
        <-> group = taken_on date_str photos /\ group <> [])
  /\ (forall photo, photo ∈ photos ->
        exists group,
          (strftime_date (PhotoModel.timestamp photo), group)
            ∈ _group_photos_by_date strftime_date photos
          /\ photo ∈ group)
  /\ (photos = [] -> _group_photos_by_date strftime_date photos = []).
Proof.
  assert (Hloop : grouped (foldl (fun g photo =>
                                    append_to g (strftime_date (PhotoModel.timestamp photo))
                                      photo) [] photos) photos).
  { apply (grouped_loop photos [] []). split; [ constructor | ]. reflexivity. }
  destruct Hloop as [Hnd Hg]. unfold _group_photos_by_date.
  assert (Hmem : forall date_str group,
            (date_str, group) ∈ sorted (foldl (fun g photo =>
                append_to g (strftime_date (PhotoModel.timestamp photo)) photo) [] photos)
            <-> group = taken_on date_str photos /\ group <> []).
  { intros d ps. rewrite (sorted_perm _), (elem_of_assoc _ d ps Hnd), Hg.
    destruct (taken_on d photos) as [| x xs].
    - split; [ discriminate | intros [-> H]; contradiction ].
    - split; [ intros [= <-]; split; [ reflexivity | discriminate ] | intros [-> _]; reflexivity ]. }
  split; [ apply sorted_ascending; exact Hnd | ].
  split; [ exact Hmem | ]. split.
  - intros photo Hin. exists (taken_on (strftime_date (PhotoModel.timestamp photo)) photos).
    assert (Hp : photo ∈ taken_on (strftime_date (PhotoModel.timestamp photo)) photos).
    { unfold taken_on. apply list_elem_of_In. apply List.filter_In.
      split; [ apply list_elem_of_In; exact Hin | apply String.eqb_refl ]. }
    split; [ | exact Hp ].
    apply Hmem. split; [ reflexivity | ]. intros Hnil. rewrite Hnil in Hp. inversion Hp.
  - intros ->. reflexivity.
Qed.

End Grouping.

(** Three photos taken on two days, the later day first. *)
Definition day_of (t : Z) : string :=
  if t <? 1704153600000000 then "2024-01-01" else "2024-01-02".

Definition taken_at (photo_id : string) (t : Z) : PhotoModel.Photo :=
  {| PhotoModel.id := photo_id;
     PhotoModel.filename := photo_id ++ ".jpg";
     PhotoModel.original_filename := photo_id ++ ".jpg";
     PhotoModel.blob_url := "https://photos.blob.core.windows.net/uploads/" ++ photo_id;
     PhotoModel.thumbnail_urls := [];
     PhotoModel.thumbnail_url := None;
     PhotoModel.latitude := 39.0269%float;
     PhotoModel.longitude := (-86.948)%float;
     PhotoModel.altitude := None;
     PhotoModel.timestamp := t;
     PhotoModel.file_size := 4;
     PhotoModel.mime_type := "image/jpeg";
     PhotoModel.camera_make := None;
     PhotoModel.camera_model := None;
     PhotoModel.camera_settings := None;
     PhotoModel.tags := [];
     PhotoModel.description := None;
     PhotoModel.uploader_id := None;
     PhotoModel.hash_md5 := "9e107d9d372bb6826bd81d3542a419d6";
     PhotoModel.processing_status := "completed" |}.

Lemma photos_are_grouped_by_date_witness :
  _group_photos_by_date day_of
    [taken_at "b" 1704196800000000; taken_at "a" 1704110400000000;
     taken_at "c" 1704200400000000]
  = [("2024-01-01", [taken_at "a" 1704110400000000]);
     ("2024-01-02", [taken_at "b" 1704196800000000; taken_at "c" 1704200400000000])]
  /\ ("2024-01-02", [taken_at "b" 1704196800000000; taken_at "c" 1704200400000000])
     ∈ _group_photos_by_date day_of
         [taken_at "b" 1704196800000000; taken_at "a" 1704110400000000;
          taken_at "c" 1704200400000000].
Proof.
  split; [ vm_compute; reflexivity | ].
  apply (proj1 (proj2 (photos_are_grouped_by_date day_of
                         [taken_at "b" 1704196800000000; taken_at "a" 1704110400000000;
                          taken_at "c" 1704200400000000]))).
  split; [ vm_compute; reflexivity | discriminate ].
Defined.

End GroupingSpec.

Module TagsSpec.

Import Upload PhotoRoutes.

(** [','.join(pieces)] *)
Fixpoint join_comma (pieces : list string) : string :=
  match pieces with
  | [] => ""
  | [piece] => piece
  | piece :: rest => piece ++ String ","%char (join_comma rest)
  end.

(** [',' in s] and [s.count(',')] *)
Fixpoint has_comma (s : string) : bool :=
  match s with
  | EmptyString => false
  | String c r => if Ascii.eqb c ","%char then true else has_comma r
  end.

Fixpoint count_commas (s : string) : nat :=
  match s with
  | EmptyString => 0
  | String c r => if Ascii.eqb c ","%char then S (count_commas r) else count_commas r
  end.

Lemma split_comma_cons (s : string) : exists piece rest, split_comma s = piece :: rest.
Proof.
  induction s as [| c s (piece & rest & IH)]; simpl; [ eauto | ].
  destruct (Ascii.eqb c ","%char); [ eauto | ]. rewrite IH. eauto.
Qed.

(** X18.  Splitting the tags at the commas loses nothing: joining the
    pieces with commas gives the string back, no piece holds a comma, and
    there is one more piece than there are commas (pieces are not trimmed
    and empty pieces are kept).  The form field gives no tag list exactly
    when it is absent or empty; otherwise the photo data of an accepted
    upload carry the pieces as tags. *)
Theorem split_comma_round_trip (s : string) :
  join_comma (split_comma s) = s
  /\ Forall (fun piece => has_comma piece = false) (split_comma s)
  /\ length (split_comma s) = S (count_commas s)
  /\ (forall tags, parse_tags tags = None <-> tags = None \/ tags = Some "")
  /\ (forall pieces, parse_tags (Some s) = Some pieces ->
        s <> "" /\ pieces = split_comma s /\ pieces <> [])
  /\ (forall L now fc fn ct manual description uploader pd,
        process_upload L now fc fn ct manual (parse_tags (Some s)) description uploader
          = Ok pd ->
        pd_tags pd = if String.eqb s "" then [] else split_comma s).
Proof.
  split; [ | split; [ | split; [ | split; [ | split ] ] ] ].
  - induction s as [| c s IH]; simpl; [ reflexivity | ].
    destruct (Ascii.eqb_spec c ","%char) as [-> | Hne].
    + destruct (split_comma_cons s) as (piece & rest & Hs). rewrite Hs in *.
      change (join_comma ("" :: piece :: rest)) with (String ","%char (join_comma (piece :: rest))).
      rewrite IH. reflexivity.
    + destruct (split_comma_cons s) as (piece & rest & Hs). rewrite Hs in *.
      destruct rest as [| next rest].
      * simpl in *. rewrite IH. reflexivity.
      * change (join_comma (String c piece :: next :: rest))
          with (String c (piece ++ String ","%char (join_comma (next :: rest)))).
        change (join_comma (piece :: next :: rest))
          with (piece ++ String ","%char (join_comma (next :: rest))) in IH.
        rewrite IH. reflexivity.
  - induction s as [| c s IH]; simpl; [ repeat constructor | ].
    destruct (Ascii.eqb c ","%char) eqn:Hc; [ constructor; [ reflexivity | exact IH ] | ].
    destruct (split_comma_cons s) as (piece & rest & Hs). rewrite Hs in *.
    inversion IH as [| ? ? Hp Hr]; subst.
    constructor; [ simpl; rewrite Hc; exact Hp | exact Hr ].
  - induction s as [| c s IH]; simpl; [ reflexivity | ].
    destruct (Ascii.eqb c ","%char); [ simpl; rewrite IH; reflexivity | ].
    destruct (split_comma_cons s) as (piece & rest & Hs). rewrite Hs in *. exact IH.
  - intros tags. unfold parse_tags. destruct tags as [[| c r] |].
    + split; [ auto | reflexivity ].
    + split; [ discriminate | intros [H | H]; discriminate ].
    + split; [ auto | reflexivity ].
  - intros pieces. unfold parse_tags. destruct s as [| c r]; [ discriminate | ].
    intros [= <-]. split; [ discriminate | ]. split; [ reflexivity | ].
    destruct (split_comma_cons (String c r)) as (piece & rest & Hs).
    intros Hnil. simpl in Hs, Hnil. rewrite Hnil in Hs. discriminate.
  - intros L now fc fn ct manual description uploader pd. unfold process_upload.
    destruct (validate_file L fc fn ct).2 as [vr | e]; simpl; [ | discriminate ].
    destruct (determine_coordinates manual (extract_exif_data L fc))
      as [[[lat lon] alt] source].
    destruct lat as [la|]; [ | discriminate ].
    destruct lon as [lo|]; [ | discriminate ].
    destruct (validate_coordinates la lo alt).2; simpl; [ | discriminate ].
    intros Hpd. injection Hpd as <-. simpl.
    destruct s as [| c r]; reflexivity.
Qed.

Lemma split_comma_round_trip_witness :
  split_comma "survey, site-1,,bridge" = ["survey"; " site-1"; ""; "bridge"]
  /\ join_comma ["survey"; " site-1"; ""; "bridge"] = "survey, site-1,,bridge".
Proof.
  assert (H : split_comma "survey, site-1,,bridge" = ["survey"; " site-1"; ""; "bridge"])
    by reflexivity.
  split; [ exact H | ].
  rewrite <- H. exact (proj1 (split_comma_round_trip "survey, site-1,,bridge")).
Defined.

End TagsSpec.

Module BlobSpec.

Import Blob.

Section Manager.

Variable E : blob_env.

Lemma delete_one_spec (q : string) (ok : bool) (c : container) :
  (delete_one E q (ok, c)).1 = ok && negb (delete_blob_raises E q)
  /\ (forall p, (delete_one E q (ok, c)).2 !! p =
        if bool_decide (p = q) && negb (delete_blob_raises E q) then None else c !! p).
Proof.
  unfold delete_one. cbn [fst snd].
  destruct (delete_blob_raises E q); cbn [negb].
  - rewrite andb_false_r. split; [ reflexivity | ]. intros p. rewrite andb_false_r. reflexivity.
  - rewrite andb_true_r. destruct (c !! q) eqn:Hq; cbn [fst snd].
    + split; [ reflexivity | ]. intros p. destruct (decide (p = q)) as [-> | Hne].
      * rewrite bool_decide_eq_true_2 by reflexivity. apply lookup_delete_eq.
      * rewrite bool_decide_eq_false_2 by exact Hne. apply lookup_delete_ne. congruence.
    + split; [ reflexivity | ]. intros p. destruct (decide (p = q)) as [-> | Hne].
      * rewrite bool_decide_eq_true_2 by reflexivity. exact Hq.
      * rewrite bool_decide_eq_false_2 by exact Hne. reflexivity.
Qed.

Lemma delete_loop (paths : list string) (ok : bool) (c : container) :
  (foldl (fun acc blob_path => delete_one E blob_path acc) (ok, c) paths).1
    = ok && forallb (fun p => negb (delete_blob_raises E p)) paths
  /\ (forall p,
        (foldl (fun acc blob_path => delete_one E blob_path acc) (ok, c) paths).2 !! p =
          if bool_decide (p ∈ paths) && negb (delete_blob_raises E p) then None else c !! p).
Proof.
  revert ok c. induction paths as [| q paths IH]; intros ok c; cbn [foldl forallb].
  - rewrite andb_true_r. split; [ reflexivity | ]. intros p.
    rewrite (bool_decide_eq_false_2 (p ∈ [])) by apply not_elem_of_nil. reflexivity.
  - destruct (delete_one_spec q ok c) as [Hok Hlook].
    destruct (delete_one E q (ok, c)) as [ok1 c1]. cbn [fst snd] in *.
    destruct (IH ok1 c1) as [H1 H2].
    split; [ rewrite H1, Hok, andb_assoc; reflexivity | ]. intros p. rewrite H2, Hlook.
    destruct (decide (p = q)) as [-> | Hne].
    + rewrite (bool_decide_eq_true_2 (q ∈ q :: paths)) by left.
      rewrite (bool_decide_eq_true_2 (q = q)) by reflexivity.
      destruct (bool_decide (q ∈ paths)), (delete_blob_raises E q); reflexivity.
    + rewrite (bool_decide_eq_false_2 (p = q)) by exact Hne. cbn [andb].
      destruct (decide (p ∈ paths)) as [Hin | Hnin].
      * rewrite !bool_decide_eq_true_2; [ reflexivity | right; exact Hin | exact Hin ].
      * rewrite !bool_decide_eq_false_2; [ reflexivity | | exact Hnin ].
        intros Hin. apply elem_of_cons in Hin as [? | ?]; contradiction.
Qed.

(** X19.  [delete_photo_and_thumbnails] goes through the photo and its
    three thumbnails whatever happens to the others: afterwards every one
    of these four paths whose [delete_blob] did not fail holds no blob, and
    every other path, and a path whose deletion failed, holds what it held.
    It returns [True] exactly when no deletion failed, a blob that was
    missing not counting as a failure; after a run that returned [True] a
    second run changes nothing and returns [True] again.  Without a
    timestamp it returns [False] and deletes nothing. *)
Theorem delete_removes_photo_and_thumbnails (filename : string) (ts : Z) (c : container) :
  ((delete_photo_and_thumbnails E filename (Some ts) c).1 = true <->
     forall p, p ∈ blob_paths E filename ts -> delete_blob_raises E p = false)
  /\ (forall p, p ∈ blob_paths E filename ts -> delete_blob_raises E p = false ->
        (delete_photo_and_thumbnails E filename (Some ts) c).2 !! p = None)
  /\ (forall p, p ∉ blob_paths E filename ts \/ delete_blob_raises E p = true ->
        (delete_photo_and_thumbnails E filename (Some ts) c).2 !! p = c !! p)
  /\ ((delete_photo_and_thumbnails E filename (Some ts) c).1 = true ->
      delete_photo_and_thumbnails E filename (Some ts)
        (delete_photo_and_thumbnails E filename (Some ts) c).2
      = delete_photo_and_thumbnails E filename (Some ts) c)
  /\ delete_photo_and_thumbnails E filename None c = (false, c).
Proof.
  unfold delete_photo_and_thumbnails.
  destruct (delete_loop (blob_paths E filename ts) true c) as [Hok Hlook].
  assert (Hflag : (foldl (fun acc blob_path => delete_one E blob_path acc) (true, c)
                     (blob_paths E filename ts)).1 = true <->
                  forall p, p ∈ blob_paths E filename ts -> delete_blob_raises E p = false).
  { rewrite Hok. cbn [andb]. rewrite List.forallb_forall. split.
    - intros H p Hin. apply list_elem_of_In in Hin. apply H in Hin.
      destruct (delete_blob_raises E p); [ discriminate | reflexivity ].
    - intros H p Hin. apply list_elem_of_In in Hin. rewrite (H p Hin). reflexivity. }
  split; [ exact Hflag | ]. split; [ | split; [ | split ] ].
  - intros p Hin Hp. rewrite Hlook, Hp, bool_decide_eq_true_2 by exact Hin. reflexivity.
  - intros p [Hnin | Hp]; rewrite Hlook.
    + rewrite bool_decide_eq_false_2 by exact Hnin. reflexivity.
    + rewrite Hp, andb_false_r. reflexivity.
  - intros Htrue.
    assert (Hpair : forall a b : bool * container, a.1 = b.1 -> a.2 = b.2 -> a = b)
      by (intros [a1 a2] [b1 b2]; simpl; congruence).
    apply Hpair.
    + rewrite (proj1 (delete_loop (blob_paths E filename ts) true _)), <- Hok.
      reflexivity.
    + apply map_eq. intros p.
      rewrite (proj2 (delete_loop (blob_paths E filename ts) true _)), Hlook.
      destruct (bool_decide (p ∈ blob_paths E filename ts) && negb (delete_blob_raises E p));
        reflexivity.
  - reflexivity.
Qed.

Lemma upload_thumbnails_spec (filename : string) (ts : Z) (thumbnails : list (string * bytes))
    (urls : list (string * string)) (c : container) :
  let r := upload_thumbnails E filename ts thumbnails urls c in
  (exists done, r.1 = (urls ++ done)%list
      /\ Forall (fun u => u.1 ∈ thumbnails.*1
                          /\ u.2 = url E (_get_thumbnail_blob_path E filename ts u.1)
                          /\ is_Some (r.2 !! _get_thumbnail_blob_path E filename ts u.1)) done)
  /\ (forall p, is_Some (c !! p) -> is_Some (r.2 !! p))
  /\ (forall p, (forall size, size ∈ thumbnails.*1 ->
                              p <> _get_thumbnail_blob_path E filename ts size) ->
                r.2 !! p = c !! p).
Proof.
  revert urls c. induction thumbnails as [| [size data] rest IH]; intros urls c; simpl.
  - split; [ exists []; rewrite app_nil_r; split; [ reflexivity | constructor ] | auto ].
  - destruct (upload_blob_raises E (_get_thumbnail_blob_path E filename ts size)); simpl.
    + split; [ exists []; rewrite app_nil_r; split; [ reflexivity | constructor ] | auto ].
    + destruct (IH (urls ++ [(size, url E (_get_thumbnail_blob_path E filename ts size))])%list
                  (<[_get_thumbnail_blob_path E filename ts size := data]> c))
        as ((done & Hurls & Hdone) & Hkeep & Hframe).
      split; [ | split ].
      * exists ((size, url E (_get_thumbnail_blob_path E filename ts size)) :: done).
        split; [ rewrite Hurls, <- app_assoc; reflexivity | ].
        constructor.
        -- simpl. split; [ left | split; [ reflexivity | ] ].
           apply Hkeep. rewrite lookup_insert_eq. eauto.
        -- eapply List.Forall_impl; [ | exact Hdone ]. simpl.
           intros u (Hin & Hu & Hs). split; [ right; exact Hin | auto ].
      * intros p Hp. apply Hkeep.
        destruct (decide (_get_thumbnail_blob_path E filename ts size = p)) as [<- | Hne].
        -- rewrite lookup_insert_eq. eauto.
        -- rewrite lookup_insert_ne by assumption. exact Hp.
      * intros p Hp. rewrite Hframe.
        -- apply lookup_insert_ne. intros Heq. apply (Hp size); [ left | congruence ].
        -- intros size' Hin. apply Hp. right. exact Hin.
Qed.

Lemma generate_thumbnails_sizes (file_content : bytes) (size : string) :
  size ∈ (_generate_thumbnails E file_content).*1 -> size ∈ thumbnail_sizes.*1.
Proof.
  unfold _generate_thumbnails. destruct (open_image E file_content);
    [ | intros H; inversion H ].
  intros Hin. apply list_elem_of_fmap in Hin as ([s d] & -> & Hin).
  apply list_elem_of_omap in Hin as ([s' dims] & Hin & Hsome). simpl in Hsome.
  destruct (make_thumbnail E file_content dims); simpl in Hsome; [ | discriminate ].
  injection Hsome as <- _. apply list_elem_of_fmap. exists (s', dims). auto.
Qed.

(** X20.  [upload_photo_with_thumbnail] succeeds exactly when the upload
    of the photo itself does not raise: a thumbnail that cannot be made or
    uploaded never fails it.  After a success the photo is stored, every
    thumbnail that is listed in the result is stored and is one of the
    three sizes, none is listed when thumbnails were not asked for, and no
    other blob changed; a following [delete_photo_and_thumbnails] whose
    deletions do not fail leaves the container as it was before the upload
    except that the four paths of the photo are empty.  When the upload of
    the photo raises, the exception is raised again after the four paths
    were cleaned up.  Without a timestamp the call raises and the container
    is unchanged. *)
Theorem upload_then_delete_leaves_no_blob (file_content : bytes) (filename : string)
    (ts : Z) (content_type : string) (generate_thumbnails : bool) (c : container) :
  (is_ok (upload_photo_with_thumbnail E file_content filename (Some ts) content_type
            generate_thumbnails c).1 = true
   <-> upload_blob_raises E (_get_photo_blob_path E filename ts) = false)
  /\ (forall r c',
        upload_photo_with_thumbnail E file_content filename (Some ts) content_type
          generate_thumbnails c = (Ok r, c') ->
        photo_url r = url E (_get_photo_blob_path E filename ts)
        /\ is_Some (c' !! _get_photo_blob_path E filename ts)
        /\ Forall (fun u => u.1 ∈ thumbnail_sizes.*1
                            /\ is_Some (c' !! _get_thumbnail_blob_path E filename ts u.1))
             (thumbnail_urls r)
        /\ (generate_thumbnails = false -> thumbnail_urls r = [])
        /\ (forall p, p ∉ blob_paths E filename ts -> c' !! p = c !! p)
        /\ ((forall p, p ∈ blob_paths E filename ts -> delete_blob_raises E p = false) ->
            forall p,
              (delete_photo_and_thumbnails E filename (Some ts) c').2 !! p
                = if bool_decide (p ∈ blob_paths E filename ts) then None else c !! p))
  /\ (forall e c',
        upload_photo_with_thumbnail E file_content filename (Some ts) content_type
          generate_thumbnails c = (Raise e, c') ->
        e = UploadFailed (_get_photo_blob_path E filename ts)
        /\ c' = (delete_photo_and_thumbnails E filename (Some ts) c).2)
  /\ upload_photo_with_thumbnail E file_content filename None content_type
       generate_thumbnails c = (Raise (AttributeError "strftime"), c).
Proof.
  assert (Hthumb : forall size, size ∈ thumbnail_sizes.*1 ->
            _get_thumbnail_blob_path E filename ts size ∈ blob_paths E filename ts).
  { intros size Hin. unfold blob_paths. right.
    apply list_elem_of_fmap in Hin as ([s d] & -> & Hin).
    apply list_elem_of_In. apply List.in_map_iff. exists (s, d).
    split; [ reflexivity | apply list_elem_of_In; exact Hin ]. }
  unfold upload_photo_with_thumbnail.
  split; [ | split; [ | split ] ].
  - destruct (upload_blob_raises E (_get_photo_blob_path E filename ts)); simpl.
    + split; discriminate.
    + destruct (if generate_thumbnails then _ else _) as [urls c2]. simpl.
      split; reflexivity.
  - intros r c'.
    destruct (upload_blob_raises E (_get_photo_blob_path E filename ts)); [ discriminate | ].
    destruct (if generate_thumbnails then _ else _) as [urls c2] eqn:Hloop.
    intros Heq. injection Heq as <- <-. simpl.
    assert (Hfacts : is_Some (c2 !! _get_photo_blob_path E filename ts)
                 /\ Forall (fun u => u.1 ∈ thumbnail_sizes.*1
                              /\ is_Some (c2 !! _get_thumbnail_blob_path E filename ts u.1))
                      urls
                 /\ (generate_thumbnails = false -> urls = [])
                 /\ (forall p, p ∉ blob_paths E filename ts -> c2 !! p = c !! p)).
    { destruct generate_thumbnails.
      - pose proof (upload_thumbnails_spec filename ts (_generate_thumbnails E file_content) []
                      (<[_get_photo_blob_path E filename ts := file_content]> c))
          as ((done & Hurls & Hdone) & Hkeep & Hframe).
        rewrite Hloop in *. simpl in *. subst urls.
        split; [ apply Hkeep; rewrite lookup_insert_eq; eauto | ].
        split; [ | split; [ discriminate | ] ].
        + eapply List.Forall_impl; [ | exact Hdone ]. simpl.
          intros u (Hin & _ & Hs). split; [ | exact Hs ].
          apply generate_thumbnails_sizes in Hin. exact Hin.
        + intros p Hp. rewrite Hframe.
          * apply lookup_insert_ne. intros <-. apply Hp. left.
          * intros size Hin ->. apply Hp. apply Hthumb.
            apply generate_thumbnails_sizes in Hin. exact Hin.
      - injection Hloop as <- <-.
        split; [ rewrite lookup_insert_eq; eauto | ].
        split; [ constructor | split; [ reflexivity | ] ].
        intros p Hp. apply lookup_insert_ne. intros <-. apply Hp. left. }
    destruct Hfacts as (Hmain & Hthumbs & Hnone & Hframe).
    split; [ reflexivity | ]. split; [ exact Hmain | ]. split; [ exact Hthumbs | ].
    split; [ exact Hnone | ]. split; [ exact Hframe | ].
    intros Hdel p. unfold delete_photo_and_thumbnails.
    rewrite (proj2 (delete_loop (blob_paths E filename ts) true c2)).
    destruct (decide (p ∈ blob_paths E filename ts)) as [Hin | Hnin].
    + rewrite bool_decide_eq_true_2 by exact Hin. rewrite (Hdel p Hin). reflexivity.
    + rewrite bool_decide_eq_false_2 by exact Hnin. simpl. apply Hframe. exact Hnin.
  - intros e c'.
    destruct (upload_blob_raises E (_get_photo_blob_path E filename ts)).
    + intros Heq. injection Heq as <- <-. split; reflexivity.
    + destruct (if generate_thumbnails then _ else _) as [urls c2]. discriminate.
  - reflexivity.
Qed.

End Manager.

(** A store in which every call succeeds and no thumbnail can be made for
    the large size. *)
Definition demo_store : blob_env :=
  {| strftime_Y := fun _ => "2024";
     strftime_m := fun _ => "01";
     splitext := fun name => (Processor.name_without_ext name, ".jpg");
     url := fun blob_path => "https://photos.blob.core.windows.net/photos/" ++ blob_path;
     open_image := fun _ => true;
     make_thumbnail := fun b size => if size.1 =? 800 then None else Some b;
     upload_blob_raises := fun _ => false;
     delete_blob_raises := fun _ => false |}.

Lemma upload_then_delete_leaves_no_blob_witness :
  is_ok (upload_photo_with_thumbnail demo_store CoordinateSpec.jpeg_bytes "photo_1.jpg"
           (Some 1704110400000000) "image/jpeg" true ∅).1 = true
  /\ (delete_photo_and_thumbnails demo_store "photo_1.jpg" (Some 1704110400000000)
        (<["uploads/2024/01/photo_1.jpg" := CoordinateSpec.jpeg_bytes]> ∅)).2
       !! "uploads/2024/01/photo_1.jpg" = None.
Proof.
  split.
  - apply (proj1 (upload_then_delete_leaves_no_blob demo_store CoordinateSpec.jpeg_bytes
                    "photo_1.jpg" 1704110400000000 "image/jpeg" true ∅)).
    reflexivity.
  - destruct (proj1 (proj2 (upload_then_delete_leaves_no_blob demo_store
                CoordinateSpec.jpeg_bytes "photo_1.jpg" 1704110400000000 "image/jpeg"
                false ∅)) _ _ eq_refl) as (_ & _ & _ & _ & _ & Hdel).
    rewrite Hdel by reflexivity.
    rewrite bool_decide_eq_true_2 by left. reflexivity.
Defined.

End BlobSpec.

Module QuerySpec.

Import Mongo.

(** X21.  [_build_query] adds the geographic clause exactly when all four
    bounds are given and none of them is zero: then the clause is the box
    that [get_photos_in_bounds] would send, and a box with a bound on the
    equator or on the prime meridian, like one with a bound missing, is
    dropped from the query.  An empty tag list and an empty uploader id add
    no clause either, and no filters give the empty query. *)
Theorem geographic_filter_needs_nonzero_bounds (f : PhotoFilters) :
  (is_Some (q_location (_build_query (Some f))) <->
     truthy_float (min_lat f) = true /\ truthy_float (max_lat f) = true
     /\ truthy_float (min_lng f) = true /\ truthy_float (max_lng f) = true)
  /\ (forall a b c d,
        min_lat f = Some a -> max_lat f = Some b -> min_lng f = Some c -> max_lng f = Some d ->
        q_location (_build_query (Some f))
          = if PrimFloat.eqb a 0 || PrimFloat.eqb b 0 || PrimFloat.eqb c 0 || PrimFloat.eqb d 0
            then None
            else q_location (bounds_query a b c d))
  /\ (min_lat f = Some 0%float \/ max_lat f = Some 0%float
      \/ min_lng f = Some 0%float \/ max_lng f = Some 0%float ->
      q_location (_build_query (Some f)) = None)
  /\ (min_lat f = None \/ max_lat f = None \/ min_lng f = None \/ max_lng f = None ->
      q_location (_build_query (Some f)) = None)
  /\ (tags f = [] -> q_tags (_build_query (Some f)) = None)
  /\ (uploader_id f = Some "" -> q_uploader_id (_build_query (Some f)) = None)
  /\ _build_query None = empty_query.
Proof.
  unfold _build_query. simpl.
  split; [ | split; [ | split; [ | split; [ | split; [ | split ] ] ] ] ].
  - destruct (min_lat f) as [a|], (max_lat f) as [b|], (min_lng f) as [c|],
      (max_lng f) as [d|]; simpl;
      try destruct (PrimFloat.eqb a 0); try destruct (PrimFloat.eqb b 0);
      try destruct (PrimFloat.eqb c 0); try destruct (PrimFloat.eqb d 0); simpl;
      first [ split; [ intros _; repeat split; reflexivity | intros _; eauto ]
            | split; [ intros [x Hx]; discriminate | intros (? & ? & ? & ?); discriminate ] ].
  - intros a b c d -> -> -> ->. simpl.
    destruct (PrimFloat.eqb a 0), (PrimFloat.eqb b 0), (PrimFloat.eqb c 0),
      (PrimFloat.eqb d 0); reflexivity.
  - intros [H | [H | [H | H]]]; rewrite H; simpl;
      rewrite ?andb_false_r; try reflexivity;
      destruct (truthy_float (min_lat f)); simpl; try reflexivity;
      destruct (truthy_float (max_lat f)); simpl; try reflexivity;
      destruct (truthy_float (min_lng f)); reflexivity.
  - intros [H | [H | [H | H]]]; rewrite H; simpl;
      rewrite ?andb_false_r; try reflexivity;
      destruct (truthy_float (min_lat f)); simpl; try reflexivity;
      destruct (truthy_float (max_lat f)); simpl; try reflexivity;
      destruct (truthy_float (min_lng f)); reflexivity.
  - intros ->. reflexivity.
  - intros ->. reflexivity.
  - reflexivity.
Qed.

(** A box north of the equator and east of the prime meridian with its
    corner on both. *)
Definition quadrant : PhotoFilters :=
  {| start_date := None; end_date := None; tags := [];
     min_lat := Some 0%float; max_lat := Some 45%float;
     min_lng := Some 0%float; max_lng := Some 90%float;
     uploader_id := None; limit := Some 100; offset := Some 0 |}.

Lemma geographic_filter_needs_nonzero_bounds_witness :
  q_location (_build_query (Some quadrant)) = None
  /\ q_location (bounds_query 0 45 0 90) = Some ((0, 0), (90, 45))%float.
Proof.
  split; [ | reflexivity ].
  apply (proj1 (proj2 (proj2 (geographic_filter_needs_nonzero_bounds quadrant)))).
  left. reflexivity.
Defined.

End QuerySpec.

Module MetadataSpec.

Import MetadataRoutes.

Section Routes.

Variable update_photo : string -> updates -> option bool.

Lemma update_all_spec (u : updates) (photo_ids : list string) (count : Z)
    (calls : list string) :
  match update_all update_photo u photo_ids count calls with
  | (Some n, made) =>
      made = (calls ++ photo_ids)%list
      /\ n = count + Z.of_nat (length (List.filter
                                          (fun i => bool_decide (update_photo i u = Some true))
                                          photo_ids))
      /\ Forall (fun i => is_Some (update_photo i u)) photo_ids
  | (None, made) =>
      exists before i after,
        photo_ids = (before ++ i :: after)%list /\ made = (calls ++ before ++ [i])%list
        /\ update_photo i u = None
  end.
Proof.
  revert count calls. induction photo_ids as [| i ids IH]; intros count calls; simpl.
  - rewrite app_nil_r. split; [ reflexivity | ]. split; [ lia | constructor ].
  - destruct (update_photo i u) as [success|] eqn:Hi.
    + specialize (IH (if success then count + 1 else count) (calls ++ [i])%list).
      destruct (update_all update_photo u ids _ _) as [[n|] made].
      * destruct IH as (-> & -> & Hall). rewrite <- app_assoc.
        split; [ reflexivity | ]. split; [ | constructor; [ rewrite Hi; eauto | exact Hall ] ].
        destruct success; simpl; lia.
      * destruct IH as (before & j & after & -> & -> & Hj).
        exists (i :: before), j, after. rewrite <- app_assoc. auto.
    + exists [], i, ids. auto.
Qed.

(** X22.  With neither tags nor a description, [update_photo_metadata]
    answers 400 and [update_batch_metadata] answers 500, both without a
    database call: the 400 raised in the batch route is caught by its only
    handler.  The batch route never answers anything but 200 or that 500.
    When it answers 200, every id was handed to the database in order,
    [total_count] is the number of ids and [updated_count], between 0 and
    [total_count], the number of ids whose update succeeded.  The single
    route answers 404 exactly when there is an update and the database
    reports no change. *)
Theorem batch_update_never_answers_400 (photo_ids : list string)
    (tags : option (list string)) (description : option string) :
  (tags = None -> description = None ->
     (forall photo_id,
        update_photo_metadata update_photo photo_id tags description
          = (Raise NoUpdatesProvided, []))
     /\ update_batch_metadata update_photo photo_ids tags description
        = (Raise BatchUpdateFailed, [])
     /\ status_code NoUpdatesProvided = 400 /\ status_code BatchUpdateFailed = 500)
  /\ (forall e, (update_batch_metadata update_photo photo_ids tags description).1 = Raise e ->
        e = BatchUpdateFailed)
  /\ (forall r, (update_batch_metadata update_photo photo_ids tags description).1 = Ok r ->
        total_count r = Z.of_nat (length photo_ids)
        /\ updated_count r
           = Z.of_nat (length (List.filter
                 (fun i => bool_decide
                             (update_photo i {| u_tags := tags; u_description := description |}
                              = Some true))
                 photo_ids))
        /\ 0 <= updated_count r <= total_count r
        /\ (update_batch_metadata update_photo photo_ids tags description).2 = photo_ids)
  /\ (forall photo_id,
        (update_photo_metadata update_photo photo_id tags description).1 = Raise PhotoNotFound
        <-> (tags <> None \/ description <> None)
            /\ update_photo photo_id {| u_tags := tags; u_description := description |}
               = Some false).
Proof.
  split; [ | split; [ | split ] ].
  - intros -> ->. repeat split; reflexivity.
  - intros e. unfold update_batch_metadata.
    destruct (empty _); simpl; [ congruence | ].
    destruct (update_all update_photo _ photo_ids 0 []) as [[n|] made]; simpl; congruence.
  - intros r. unfold update_batch_metadata.
    destruct (empty _); simpl; [ discriminate | ].
    pose proof (update_all_spec {| u_tags := tags; u_description := description |}
                  photo_ids 0 []) as Hspec.
    destruct (update_all update_photo _ photo_ids 0 []) as [[n|] made]; simpl; [ | discriminate ].
    destruct Hspec as (-> & -> & _). intros [= <-]. simpl.
    split; [ reflexivity | ]. split; [ lia | ]. split; [ | reflexivity ].
    pose proof (List.filter_length_le
                  (fun i => bool_decide
                              (update_photo i {| u_tags := tags; u_description := description |}
                               = Some true)) photo_ids). lia.
  - intros photo_id. unfold update_photo_metadata, empty. simpl.
    destruct tags as [t|], description as [d|]; simpl;
      try (destruct (update_photo photo_id _) as [[|]|]; simpl);
      split; try discriminate; try (intros [_ H]; discriminate);
      try (intros [[H | H] _]; congruence);
      intros _; (split; [ first [ left; discriminate | right; discriminate ] | reflexivity ]).
Qed.

End Routes.

Lemma batch_update_never_answers_400_witness :
  update_batch_metadata (fun _ _ => Some true) ["photo1"; "photo2"] None None
    = (Raise BatchUpdateFailed, [])
  /\ update_photo_metadata (fun _ _ => Some true) "photo1" None None
     = (Raise NoUpdatesProvided, []).
Proof.
  destruct (proj1 (batch_update_never_answers_400 (fun _ _ => Some true)
                     ["photo1"; "photo2"] None None) eq_refl eq_refl)
    as (Hone & Hbatch & _).
  split; [ exact Hbatch | apply Hone ].
Defined.

End MetadataSpec.
